(** * Natural-language route extraction: a shallow embedding

    The development follows the JavaScript sources of the repository:

    - [Enhanced]   : enhanced-nlp.js  ([processNaturalLanguageInput],
                     [extractLocationsFromParagraph], [extractLocationsBasic],
                     the mode clamp of [createRoute]);
    - [Nlp]        : nlp.js, first variant ([processNaturalLanguage],
                     [validateAndFormatResponse], [extractLocationsWithRegex]);
    - [NlpRegex]   : nlp.js, exported [extractLocationsWithRegex];
    - [NlpSecure]  : nlp-secure.js;
    - [Script]     : script.js ([extractBasicRouteLocations],
                     [matchPartialCityName], [handleProcessedResult]);
    - [Scripts04]  : the classifier of [getRouteCoordinates] in
                     scripts-04.js (scripts-03.js has the same code).

    A JavaScript string is modelled as the list of its code units, restricted
    to the 8-bit range (ASCII and Latin-1).  Regular expressions are kept as
    syntax trees that mirror the source literals and are executed by a
    backtracking matcher that follows the ECMAScript pattern semantics
    (priority order of alternatives, greedy and lazy quantifiers, capture
    groups, look-ahead, look-behind, word boundaries).  Where a comment
    quotes a pattern of the source, a space separates a star from a closing
    parenthesis that follows it. *)

From Stdlib Require Import String Ascii List Bool Arith NArith ZArith Lia.
From Stdlib Require Import DecimalString.
Import ListNotations.

Set Implicit Arguments.

(** ** Strings *)

Definition jstring := list ascii.

(** String literals of the source. *)
Definition str (s : string) : jstring := list_ascii_of_string s.
Arguments str s%_string.

Definition code (c : ascii) : N := N_of_ascii c.

Definition between (lo hi : N) (c : ascii) : bool :=
  ((lo <=? code c) && (code c <=? hi))%N.

(** WhiteSpace and LineTerminator code units below 256:
    TAB, LF, VT, FF, CR, SPACE, NBSP. *)
Definition is_space (c : ascii) : bool :=
  between 9 13 c || (code c =? 32)%N || (code c =? 160)%N.

Definition is_digit (c : ascii) : bool := between 48 57 c.
Definition is_upper (c : ascii) : bool := between 65 90 c.
Definition is_lower (c : ascii) : bool := between 97 122 c.

(** [\w] *)
Definition is_word (c : ascii) : bool :=
  is_upper c || is_lower c || is_digit c || (code c =? 95)%N.

(** [.] excludes the line terminators LF and CR. *)
Definition is_dot (c : ascii) : bool :=
  negb ((code c =? 10)%N || (code c =? 13)%N).

Definition ascii_lower (c : ascii) : ascii :=
  if is_upper c then ascii_of_N (code c + 32) else c.

Definition ascii_upper (c : ascii) : ascii :=
  if is_lower c then ascii_of_N (code c - 32) else c.

(** [String.prototype.toLowerCase] on one code unit below 256: the ASCII
    capitals and the Latin-1 capitals U+00C0..U+00DE except U+00D7. *)
Definition lower_char (c : ascii) : ascii :=
  if is_upper c || (between 192 222 c && negb (code c =? 215)%N)
  then ascii_of_N (code c + 32) else c.

Definition toLowerCase (s : jstring) : jstring := map lower_char s.

Definition ascii_eqb (a b : ascii) : bool := (code a =? code b)%N.

Fixpoint text_eqb (a b : jstring) : bool :=
  match a, b with
  | [], [] => true
  | x :: a', y :: b' => ascii_eqb x y && text_eqb a' b'
  | _, _ => false
  end.

Fixpoint startsWith (s p : jstring) : bool :=
  match p, s with
  | [], _ => true
  | x :: p', y :: s' => ascii_eqb x y && startsWith s' p'
  | _ :: _, [] => false
  end.

Fixpoint includes (s p : jstring) : bool :=
  startsWith s p ||
  match s with
  | [] => false
  | _ :: s' => includes s' p
  end.

Fixpoint trimStart (s : jstring) : jstring :=
  match s with
  | c :: s' => if is_space c then trimStart s' else s
  | [] => []
  end.

Definition trimEnd (s : jstring) : jstring := rev (trimStart (rev s)).

Definition trim (s : jstring) : jstring := trimEnd (trimStart s).

(** [s.substring(n)] *)
Definition substring (n : nat) (s : jstring) : jstring := skipn n s.

(** [Array.prototype.join] *)
Fixpoint join (sep : jstring) (l : list jstring) : jstring :=
  match l with
  | [] => []
  | [x] => x
  | x :: l' => x ++ sep ++ join sep l'
  end.

(** [Array.prototype.includes] on strings. *)
Definition mem (x : jstring) (l : list jstring) : bool := existsb (text_eqb x) l.

(** [[...new Set(l)]]: first occurrences, in order. *)
Fixpoint unique_from (seen : list jstring) (l : list jstring) : list jstring :=
  match l with
  | [] => []
  | x :: l' => if mem x seen then unique_from seen l'
               else x :: unique_from (x :: seen) l'
  end.

Definition unique (l : list jstring) : list jstring := unique_from [] l.

(** Truthiness of a string: non-empty. *)
Definition truthy (s : jstring) : bool :=
  match s with [] => false | _ => true end.

(** ** Regular expressions *)

Module Regex.

Inductive cclass :=
| CC (c : ascii)            (* a literal character *)
| CR (lo hi : ascii)        (* a range lo-hi *)
| CS                        (* \s *)
| CW                        (* \w *)
| CD                        (* \d *)
| CDot                      (* . *)
| CAll.                     (* [\s\S] *)

Inductive regex :=
| Eps
| Chr (cs : list cclass)
| Seq (a b : regex)
| Alt (a b : regex)
| Rep (min : nat) (max : option nat) (greedy : bool) (r : regex)
| Grp (n : nat) (r : regex)
| Bol
| Eol
| WordB
| Ahead (r : regex)
| Behind (r : regex).

Inductive dir := Fwd | Bwd.

(** A match state: the input split at the current position ([pre] is the
    part before the position, reversed) and the captures so far. *)
Record mstate := MS { pre : jstring; suf : jstring; caps : list (nat * option jstring) }.

Definition pos (s : mstate) : nat := length (pre s).

Definition class1 (k : cclass) (c : ascii) : bool :=
  match k with
  | CC x => ascii_eqb x c
  | CR lo hi => between (code lo) (code hi) c
  | CS => is_space c
  | CW => is_word c
  | CD => is_digit c
  | CDot => is_dot c
  | CAll => true
  end.

(** Membership in a class.  With the [i] flag a character matches when its
    canonical form equals that of a member; the classes of the sources only
    list ASCII letters, for which this is swapping the ASCII case. *)
Definition class_mem (icase : bool) (cs : list cclass) (c : ascii) : bool :=
  existsb (fun k => class1 k c) cs ||
  (icase && (existsb (fun k => class1 k (ascii_lower c)) cs ||
             existsb (fun k => class1 k (ascii_upper c)) cs)).

Fixpoint lookup (n : nat) (l : list (nat * option jstring)) : option jstring :=
  match l with
  | [] => None
  | (k, v) :: l' => if k =? n then v else lookup n l'
  end.

Fixpoint groups (r : regex) : list nat :=
  match r with
  | Eps | Chr _ | Bol | Eol | WordB => []
  | Seq a b | Alt a b => groups a ++ groups b
  | Rep _ _ _ r' | Ahead r' | Behind r' => groups r'
  | Grp n r' => n :: groups r'
  end.

Definition reset (gs : list nat) (s : mstate) : mstate :=
  MS (pre s) (suf s) (map (fun n => (n, None)) gs ++ caps s).

Definition step_char (d : dir) (p : ascii -> bool) (s : mstate) : list mstate :=
  match d with
  | Fwd => match suf s with
           | c :: rest => if p c then [MS (c :: pre s) rest (caps s)] else []
           | [] => []
           end
  | Bwd => match pre s with
           | c :: rest => if p c then [MS rest (c :: suf s) (caps s)] else []
           | [] => []
           end
  end.

(** The text between two states of one input. *)
Definition captured (d : dir) (s y : mstate) : jstring :=
  match d with
  | Fwd => rev (firstn (pos y - pos s) (pre y))
  | Bwd => firstn (pos s - pos y) (suf y)
  end.

Definition word_before (s : mstate) : bool :=
  match pre s with c :: _ => is_word c | [] => false end.

Definition word_after (s : mstate) : bool :=
  match suf s with c :: _ => is_word c | [] => false end.

Definition is_nil {A} (l : list A) : bool :=
  match l with [] => true | _ => false end.

(** The quantifier [r{min,max}] (greedy or lazy) over the matcher [body] of
    [r], after the RepeatMatcher of ECMAScript: the groups [gs] of [r] are
    reset before an iteration, an iteration that matches the empty string
    once [min] is reached is rejected.  [fuel] bounds the iterations; the
    matcher starts it above [min] plus the length of the input. *)
Fixpoint rep_loop (body : mstate -> list mstate) (gs : list nat) (greedy : bool)
    (fuel min : nat) (max : option nat) (s : mstate) {struct fuel}
  : list mstate :=
  match max with
  | Some 0 => [s]
  | _ =>
    match fuel with
    | 0 => []
    | S fuel' =>
      let iter :=
        flat_map
          (fun y => if (min =? 0) && (pos y =? pos s) then []
                    else rep_loop body gs greedy fuel' (pred min)
                                  (option_map pred max) y)
          (body (reset gs s)) in
      if negb (min =? 0) then iter
      else if greedy then iter ++ [s] else s :: iter
    end
  end.

Section Matcher.

Variable icase : bool.

(** All the ways [r] matches at state [s], in the priority order of the
    backtracking matcher; the head is the match ECMAScript reports. *)
Fixpoint run (d : dir) (r : regex) (s : mstate) {struct r} : list mstate :=
  match r with
  | Eps => [s]
  | Chr cs => step_char d (class_mem icase cs) s
  | Seq a b =>
      match d with
      | Fwd => flat_map (run d b) (run d a s)
      | Bwd => flat_map (run d a) (run d b s)
      end
  | Alt a b => run d a s ++ run d b s
  | Rep min max greedy r' =>
      rep_loop (run d r') (groups r') greedy
               (S (min + (length (suf s) + length (pre s)))) min max s
  | Grp n r' =>
      map (fun y => MS (pre y) (suf y) ((n, Some (captured d s y)) :: caps y))
          (run d r' s)
  | Bol => if is_nil (pre s) then [s] else []
  | Eol => if is_nil (suf s) then [s] else []
  | WordB => if xorb (word_before s) (word_after s) then [s] else []
  | Ahead r' =>
      match run Fwd r' s with
      | y :: _ => [MS (pre s) (suf s) (caps y)]
      | [] => []
      end
  | Behind r' =>
      match run Bwd r' s with
      | y :: _ => [MS (pre s) (suf s) (caps y)]
      | [] => []
      end
  end.

(** A successful match: the text before it (reversed), the matched text,
    the text after it and the captures. *)
Record rmatch := RM { m_pre : jstring; m_0 : jstring; m_rest : jstring;
                      m_caps : list (nat * option jstring) }.

Definition grp (m : rmatch) (n : nat) : option jstring := lookup n (m_caps m).

(** A group as a string, the empty string standing for [undefined]; used
    where the source only tests the group for truthiness or maps it. *)
Definition grp_str (m : rmatch) (n : nat) : jstring :=
  match grp m n with Some t => t | None => [] end.

Definition match_at (r : regex) (p : jstring) (s : jstring) : option rmatch :=
  match run Fwd r (MS p s []) with
  | y :: _ => Some (RM p (captured Fwd (MS p s []) y) (suf y) (caps y))
  | [] => None
  end.

(** [RegExp.prototype.exec] without the sticky flag: the first position, from
    the current one on, where the pattern matches. *)
Fixpoint search (r : regex) (p : jstring) (s : jstring) {struct s} : option rmatch :=
  match match_at r p s with
  | Some m => Some m
  | None =>
      match s with
      | [] => None
      | c :: s' => search r (c :: p) s'
      end
  end.

Definition exec (r : regex) (s : jstring) : option rmatch := search r [] s.

Definition test (r : regex) (s : jstring) : bool :=
  match exec r s with Some _ => true | None => false end.

(** All the matches of a global pattern ([String.prototype.matchAll],
    [match] with the [g] flag, an [exec] loop): the search resumes at the end
    of the previous match, one position further after an empty match. *)
Fixpoint all_from (fuel : nat) (r : regex) (p s : jstring) : list rmatch :=
  match fuel with
  | 0 => []
  | S fuel' =>
      match search r p s with
      | None => []
      | Some m =>
          m :: match m_0 m, m_rest m with
               | [], [] => []
               | [], c :: rest => all_from fuel' r (c :: m_pre m) rest
               | _ :: _, rest => all_from fuel' r (rev (m_0 m) ++ m_pre m) rest
               end
      end
  end.

Definition matchAll (r : regex) (s : jstring) : list rmatch :=
  all_from (S (length s)) r [] s.

(** [String.prototype.replace] with a pattern without the [g] flag. *)
Definition replace (r : regex) (f : rmatch -> jstring) (s : jstring) : jstring :=
  match exec r s with
  | None => s
  | Some m => rev (m_pre m) ++ f m ++ m_rest m
  end.

(** The same with the [g] flag. *)
Fixpoint replace_from (fuel : nat) (r : regex) (f : rmatch -> jstring)
    (p s : jstring) : jstring :=
  match fuel with
  | 0 => s
  | S fuel' =>
      match search r p s with
      | None => s
      | Some m =>
          firstn (length (m_pre m) - length p) s ++ f m ++
          match m_0 m, m_rest m with
          | [], [] => []
          | [], c :: rest => c :: replace_from fuel' r f (c :: m_pre m) rest
          | _ :: _, rest => replace_from fuel' r f (rev (m_0 m) ++ m_pre m) rest
          end
      end
  end.

Definition replaceAll (r : regex) (f : rmatch -> jstring) (s : jstring) : jstring :=
  replace_from (S (length s)) r f [] s.

(** [String.prototype.split] with a pattern: the pattern is tried at every
    position [q]; a match that ends where the current piece starts is
    skipped; the captures of a match are spliced into the result. *)
Fixpoint split_loop (fuel : nat) (r : regex) (p piece s : jstring)
  : list (option jstring) :=
  match fuel with
  | 0 => [Some (rev piece ++ s)]
  | S fuel' =>
      match s with
      | [] => [Some (rev piece)]
      | c :: s' =>
          match match_at r p s with
          | None => split_loop fuel' r (c :: p) (c :: piece) s'
          | Some m =>
              if is_nil (m_0 m) && is_nil piece
              then split_loop fuel' r (c :: p) (c :: piece) s'
              else Some (rev piece)
                   :: map (fun n => grp m n) (groups r)
                   ++ split_loop fuel' r (rev (m_0 m) ++ p) [] (m_rest m)
          end
      end
  end.

Definition split_opt (r : regex) (s : jstring) : list (option jstring) :=
  match s with
  | [] => match match_at r [] [] with Some _ => [] | None => [Some []] end
  | _ => split_loop (2 * length s + 2) r [] [] s
  end.

(** [split] for a pattern without groups. *)
Definition split (r : regex) (s : jstring) : list jstring :=
  map (fun o => match o with Some t => t | None => [] end) (split_opt r s).

End Matcher.

(** *** Pattern syntax *)

Fixpoint lit_chars (w : jstring) : regex :=
  match w with
  | [] => Eps
  | [c] => Chr [CC c]
  | c :: w' => Seq (Chr [CC c]) (lit_chars w')
  end.

(** A literal run of characters. *)
Definition lit (w : string) : regex := lit_chars (str w).
Arguments lit w%_string.

Fixpoint seq (l : list regex) : regex :=
  match l with
  | [] => Eps
  | [r] => r
  | r :: l' => Seq r (seq l')
  end.

Fixpoint alt (l : list regex) : regex :=
  match l with
  | [] => Eps
  | [r] => r
  | r :: l' => Alt r (alt l')
  end.

Definition star (r : regex) := Rep 0 None true r.        (* r*  *)
Definition star_lazy (r : regex) := Rep 0 None false r.  (* r*? *)
Definition plus (r : regex) := Rep 1 None true r.        (* r+  *)
Definition plus_lazy (r : regex) := Rep 1 None false r.  (* r+? *)
Definition opt (r : regex) := Rep 0 (Some 1) true r.     (* r?  *)
Definition rep (m n : nat) (r : regex) := Rep m (Some n) true r.  (* r{m,n} *)

Definition sp := Chr [CS].       (* \s *)
Definition dot := Chr [CDot].    (* .  *)
Definition anyc := Chr [CAll].   (* [\s\S] *)
Definition wordc := Chr [CW].    (* \w *)
Definition digit := Chr [CD].    (* \d *)

(** A bracket expression listing single characters, as in [[,.!?;]]. *)
Definition oneof (w : string) : regex := Chr (map CC (str w)).
Arguments oneof w%_string.

End Regex.

(** ** Values, exceptions and the host *)

(** JavaScript values as far as the sources handle them: what [JSON.parse]
    and [response.json()] produce, and [undefined]. *)
#[warnings="-register-all"]
Inductive value :=
| VUndef
| VNull
| VBool (b : bool)
| VNum (n : Z)
| VStr (s : jstring)
| VArr (l : list value)
| VObj (fields : list (string * value)).

Definition obj := list (string * value).

Inductive exn :=
| Error (msg : string)   (* throw new Error(msg) *)
| TypeError              (* a property of undefined or null, a call of a non-function *)
| SyntaxError            (* JSON.parse, response.json() *)
| NetworkError.          (* fetch rejects *)

(** The outcome of a computation that may throw, and of an awaited promise:
    [Ok] is a normal return (a resolved promise), [Throw] an exception (a
    rejected promise). *)
Inductive res (A : Type) :=
| Ok (a : A)
| Throw (e : exn).
Arguments Ok {A} a.
Arguments Throw {A} e.

Definition bind {A B} (m : res A) (k : A -> res B) : res B :=
  match m with
  | Ok a => k a
  | Throw e => Throw e
  end.

Notation "x <- m ;; k" := (bind m (fun x => k))
  (at level 61, m at next level, right associativity).

(** [try { body } catch (e) { handler e }] *)
Definition try_catch {A} (body : res A) (handler : exn -> res A) : res A :=
  match body with
  | Ok a => Ok a
  | Throw e => handler e
  end.

Fixpoint get_field (k : string) (o : obj) : value :=
  match o with
  | [] => VUndef
  | (k', v) :: o' => if String.eqb k k' then v else get_field k o'
  end.

Fixpoint set_field (k : string) (v : value) (o : obj) : obj :=
  match o with
  | [] => [(k, v)]
  | (k', v') :: o' => if String.eqb k k' then (k, v) :: o'
                      else (k', v') :: set_field k v o'
  end.

(** [ToBoolean] *)
Definition to_bool (v : value) : bool :=
  match v with
  | VUndef | VNull => false
  | VBool b => b
  | VNum n => negb (n =? 0)%Z
  | VStr s => truthy s
  | VArr _ | VObj _ => true
  end.

Definition decimal (n : nat) : string := NilZero.string_of_uint (Nat.to_uint n).

(** [v.k]: a property read; it throws on [undefined] and [null]. *)
Definition prop (v : value) (k : string) : res value :=
  match v with
  | VUndef | VNull => Throw TypeError
  | VObj o => Ok (get_field k o)
  | VArr l => Ok (if String.eqb k "length" then VNum (Z.of_nat (length l))
                  else VUndef)
  | VStr s => Ok (if String.eqb k "length" then VNum (Z.of_nat (length s))
                  else VUndef)
  | VBool _ | VNum _ => Ok VUndef
  end.

(** [v[i]] *)
Definition idx (v : value) (i : nat) : res value :=
  match v with
  | VUndef | VNull => Throw TypeError
  | VArr l => Ok (nth i l VUndef)
  | VStr s => Ok (match nth_error s i with Some c => VStr [c] | None => VUndef end)
  | VObj o => Ok (get_field (decimal i) o)
  | VBool _ | VNum _ => Ok VUndef
  end.

Definition is_array (v : value) : bool :=
  match v with VArr _ => true | _ => false end.

Definition is_string (v : value) : bool :=
  match v with VStr _ => true | _ => false end.

Fixpoint indexed (i : nat) (l : list value) : obj :=
  match l with
  | [] => []
  | v :: l' => (decimal i, v) :: indexed (S i) l'
  end.

(** The own enumerable properties that [{...v}] copies. *)
Definition spread (v : value) : obj :=
  match v with
  | VObj o => o
  | VArr l => indexed 0 l
  | VStr s => indexed 0 (map (fun c => VStr [c]) s)
  | _ => []
  end.

(** What [fetch] resolves to: the [ok] flag, the status and the outcome of
    [response.json()]. *)
Record response := { ok : bool; status : nat; json : res value }.

Import Regex.

(** Flags of the source patterns. *)
Definition ci := true.    (* /.../i *)
Definition cs := false.   (* no i flag *)

Definition is_some {A} (o : option A) : bool :=
  match o with Some _ => true | None => false end.

(** The replacement [''] of [s.replace(pattern, '')]. *)
Definition erase (_ : rmatch) : jstring := [].

(** [m[n].trim()]: a method call on a group, which throws when the group is
    [undefined]. *)
Definition grp_trim (m : rmatch) (n : nat) : res jstring :=
  match grp m n with
  | Some t => Ok (trim t)
  | None => Throw TypeError
  end.

(** ** enhanced-nlp.js *)

Module Enhanced.

Record Location := { name : jstring; timeContext : jstring }.

Record ExtractionResult := {
  isRouteRequest : bool;
  locations : list Location;
  travelMode : jstring;
  preferences : list jstring;
  message : jstring;
  suggestedSequence : list jstring
}.

(** What the entry point resolves to: a result the module builds itself, or
    the object parsed from the language-model response, returned as it is
    but for its [locations] property. *)
Inductive outcome :=
| Built (r : ExtractionResult)
| FromModel (o : obj).

Definition plain (n : jstring) : Location := {| name := n; timeContext := [] |}.

(** /route|path|way|directions|from|to|travel|trip|journey|drive|walk|map|between/i *)
Definition routingKeywords : regex :=
  alt [lit "route"; lit "path"; lit "way"; lit "directions"; lit "from";
       lit "to"; lit "travel"; lit "trip"; lit "journey"; lit "drive";
       lit "walk"; lit "map"; lit "between"].

(** /(?:from\s+|route\s+from\s+|directions?\s+from\s+)(.*?)\s+to\s+(.*?)(?:\s|$|\.|,)/i *)
Definition simpleRoutePattern : regex :=
  seq [alt [seq [lit "from"; plus sp];
            seq [lit "route"; plus sp; lit "from"; plus sp];
            seq [lit "direction"; opt (lit "s"); plus sp; lit "from"; plus sp]];
       Grp 1 (star_lazy dot); plus sp; lit "to"; plus sp;
       Grp 2 (star_lazy dot); alt [sp; Eol; lit "."; lit ","]].

(** /\bto\b/gi and /\bto\b/i *)
Definition word_to : regex := seq [WordB; lit "to"; WordB].
(** /\bfrom\b/i *)
Definition word_from : regex := seq [WordB; lit "from"; WordB].
(** /\broute\b/i *)
Definition word_route : regex := seq [WordB; lit "route"; WordB].
(** /\s+to\s+/i *)
Definition ws_to_ws : regex := seq [plus sp; lit "to"; plus sp].
(** /[,.!?;]$/ *)
Definition trailing_punct1 : regex := seq [oneof ",.!?;"; Eol].
(** /[,.:;]+$/ *)
Definition trailing_punct : regex := seq [plus (oneof ",.:;"); Eol].

(** /\b(walk|walking|on foot)\b/i *)
Definition walk_words : regex :=
  seq [WordB; Grp 1 (alt [lit "walk"; lit "walking"; lit "on foot"]); WordB].
(** /\b(cycl|bike|biking|bicycle)\b/i *)
Definition cycle_words : regex :=
  seq [WordB; Grp 1 (alt [lit "cycl"; lit "bike"; lit "biking"; lit "bicycle"]);
       WordB].

(** The travel mode of the pattern shortcuts (lines 58, 123, 182 and 203). *)
Definition shortcutMode (inputText : jstring) : jstring :=
  if test ci walk_words inputText then str "walking"
  else if test ci cycle_words inputText then str "cycling"
  else str "driving".

(** Lines 35-52: the waypoints of the text after "from" (or "route"). *)
Definition waypointsAfter (after : jstring) : list jstring :=
  let toParts := split ci word_to after in
  let first := match toParts with
               | p0 :: _ => if truthy p0 then [trim p0] else []
               | [] => []
               end in
  first ++
  flat_map (fun p => let part := trim (replace cs trailing_punct1 erase (trim p)) in
                     if truthy part then [part] else [])
           (tl toParts).

Definition multiStop (inputText : jstring) (waypoints : list jstring) : ExtractionResult :=
  let mode := shortcutMode inputText in
  {| isRouteRequest := true;
     locations := map plain waypoints;
     travelMode := mode;
     preferences := [];
     message := str "Creating a " ++ mode ++ str " route with multiple stops: "
                ++ join (str " → ") waypoints;
     suggestedSequence := waypoints |}.

(** Lines 30-71: the input contains "from". *)
Definition multiFrom (inputText : jstring) : option (list jstring) :=
  match nth_error (split ci word_from inputText) 1 with
  | Some afterFrom =>
      if truthy afterFrom then
        let waypoints := waypointsAfter afterFrom in
        if 2 <=? length waypoints then Some waypoints else None
      else None
  | None => None
  end.

(** Lines 72-137: the input contains "route" and no "from".  [afterFrom] is
    [undefined] when no standalone "from" follows, and splitting it throws. *)
Definition multiRoute (inputText : jstring) : res (option (list jstring)) :=
  match nth_error (split ci word_route inputText) 1 with
  | Some afterRoute =>
      if truthy afterRoute then
        waypoints <-
          (if includes (toLowerCase afterRoute) (str "from") then
             match nth_error (split ci word_from afterRoute) 1 with
             | Some afterFrom => Ok (waypointsAfter afterFrom)
             | None => Throw TypeError
             end
           else Ok (waypointsAfter afterRoute)) ;;
        Ok (if 2 <=? length waypoints then Some waypoints else None)
      else Ok None
  | None => Ok None
  end.

(** /from\s+(.* )/i *)
Definition from_rest : regex := seq [lit "from"; plus sp; Grp 1 (star dot)].
(** /route(?:\s+from)?\s+(.* )/i *)
Definition route_rest : regex :=
  seq [lit "route"; opt (seq [plus sp; lit "from"]); plus sp; Grp 1 (star dot)].
(** /^route\s+/i *)
Definition route_prefix : regex := seq [Bol; lit "route"; plus sp].
(** /^(path|walking|driving|cycling|directions?)\s+/i *)
Definition mode_prefix : regex :=
  seq [Bol; Grp 1 (alt [lit "path"; lit "walking"; lit "driving"; lit "cycling";
                        seq [lit "direction"; opt (lit "s")]]); plus sp].

(** Lines 139-194: split on " to " and clean the pieces. *)
Definition multiDirect (inputText : jstring) : res (option (list jstring)) :=
  match split ci ws_to_ws inputText with
  | [] => Throw TypeError
  | p0 :: rest =>
      let firstPart := trim p0 in
      let first :=
        if includes (toLowerCase firstPart) (str "from") then
          match exec ci from_rest firstPart with
          | Some m => if truthy (grp_str m 1) then [trim (grp_str m 1)] else []
          | None => []
          end
        else if includes (toLowerCase firstPart) (str "route") then
          match exec ci route_rest firstPart with
          | Some m =>
              if truthy (grp_str m 1) then [trim (grp_str m 1)]
              else let fp := trim (replace ci route_prefix erase firstPart) in
                   if truthy fp then [fp] else []
          | None =>
              let fp := trim (replace ci route_prefix erase firstPart) in
              if truthy fp then [fp] else []
          end
        else
          let cleanedFirst := trim (replace ci mode_prefix erase firstPart) in
          if truthy cleanedFirst then [cleanedFirst] else [] in
      let waypoints :=
        first ++
        flat_map (fun p => let part := replace cs trailing_punct1 erase (trim p) in
                           if truthy part then [part] else [])
                 rest in
      Ok (if 2 <=? length waypoints then Some waypoints else None)
  end.

(** Lines 23-195: the multi-waypoint shortcut. *)
Definition multiWaypoint (inputText : jstring) : res (option ExtractionResult) :=
  let hasMultipleToKeywords := 2 <=? length (matchAll ci word_to inputText) in
  let lower := toLowerCase inputText in
  if hasMultipleToKeywords &&
     (includes lower (str "from") || includes lower (str "route")) then
    early <-
      (if includes lower (str "from") then Ok (multiFrom inputText)
       else if includes lower (str "route") then multiRoute inputText
       else Ok None) ;;
    match early with
    | Some waypoints => Ok (Some (multiStop inputText waypoints))
    | None =>
        direct <- multiDirect inputText ;;
        Ok (option_map (multiStop inputText) direct)
    end
  else Ok None.

(** *** extractLocationsFromParagraph (lines 490-585) *)

(** /[.!?]+/ *)
Definition sentence_end : regex := plus (oneof ".!?").

Definition capital := Chr [CR "A" "Z"].
Definition letter := Chr [CR "a" "z"; CR "A" "Z"].

(** /\b([A-Z][a-zA-Z]+(?:\s+[A-Z][a-zA-Z]+)* )\b/g *)
Definition capitalizedPattern : regex :=
  seq [WordB;
       Grp 1 (seq [capital; plus letter;
                   star (seq [plus sp; capital; plus letter])]);
       WordB].

(** /(?:in|during|around|about|circa|c\.|year|century)\s+(\d{1,4}(?:\s*(?:AD|BC|BCE|CE))?|\d{1,2}(?:st|nd|rd|th)\s+century)/i *)
Definition timePattern : regex :=
  seq [alt [lit "in"; lit "during"; lit "around"; lit "about"; lit "circa";
            lit "c."; lit "year"; lit "century"];
       plus sp;
       Grp 1 (alt [seq [rep 1 4 digit;
                        opt (seq [star sp;
                                  alt [lit "AD"; lit "BC"; lit "BCE"; lit "CE"]])];
                   seq [rep 1 2 digit;
                        alt [lit "st"; lit "nd"; lit "rd"; lit "th"];
                        plus sp; lit "century"]])].

Definition paragraphStopWords : list jstring := map str
  ["I"; "You"; "He"; "She"; "They"; "We"; "It"; "Who"; "What"; "Where"; "When";
   "Why"; "How";
   "January"; "February"; "March"; "April"; "May"; "June"; "July"; "August";
   "September"; "October"; "November"; "December";
   "Monday"; "Tuesday"; "Wednesday"; "Thursday"; "Friday"; "Saturday"; "Sunday";
   "The"; "A"; "An"; "And"; "Or"; "But"; "If"; "Then"; "So"; "Because";
   "Although"; "Since";
   "One"; "Two"; "Three"; "Four"; "Five"; "Six"; "Seven"; "Eight"; "Nine"; "Ten";
   "First"; "Second"; "Third"; "Fourth"; "Fifth"]%string.

Definition paragraphLandmarks : list jstring := map str
  ["mediterranean"; "europe"; "asia"; "africa"; "australia"; "antarctica";
   "america"; "pacific"; "atlantic"; "indian ocean"; "arctic"; "sahara"; "alps";
   "himalayas"]%string.

(** [s.replace(/\b\w/g, c => c.toUpperCase())]; the replaced characters are
    [\w] characters, whose upper case is the ASCII one. *)
Definition titleCase (s : jstring) : jstring :=
  replaceAll cs (seq [WordB; wordc]) (fun m => map ascii_upper (m_0 m)) s.

(** The time context of a sentence, [timeMatch ? timeMatch[1] : ""]. *)
Definition sentenceTime (sentence : jstring) : jstring :=
  match exec ci timePattern (trim sentence) with
  | Some timeMatch => grp_str timeMatch 1
  | None => []
  end.

(** The body of [sentences.forEach]: [locations] is the array shared by all
    the sentences. *)
Definition scanSentence (locations : list Location) (sentence : jstring)
  : list Location :=
  let time := sentenceTime sentence in
  let capitalized :=
    flat_map (fun m => let potentialLocation := grp_str m 1 in
                       if mem potentialLocation paragraphStopWords then []
                       else [{| name := potentialLocation; timeContext := time |}])
             (matchAll cs capitalizedPattern sentence) in
  fold_left
    (fun locs loc =>
       if test ci (seq [WordB; lit_chars loc; WordB]) sentence then
         let formattedLocation := titleCase loc in
         if existsb (fun existingLoc => text_eqb (name existingLoc) formattedLocation) locs
         then locs
         else locs ++ [{| name := formattedLocation; timeContext := time |}]
       else locs)
    paragraphLandmarks (locations ++ capitalized).

(** The "Remove duplicates" loop: [seen] is the set of names already kept. *)
Fixpoint removeDuplicates (seen : list jstring) (locs : list Location)
  : list Location :=
  match locs with
  | [] => []
  | loc :: rest =>
      if mem (name loc) seen then removeDuplicates seen rest
      else loc :: removeDuplicates (name loc :: seen) rest
  end.

(** The [locations] array before the duplicates are removed: what the
    sentences mention, in the order found. *)
Definition paragraphMentions (text : jstring) : list Location :=
  let sentences :=
    filter (fun s => 0 <? length (trim s)) (split cs sentence_end text) in
  fold_left scanSentence sentences [].

Definition extractLocationsFromParagraph (text : jstring) : ExtractionResult :=
  let locations := paragraphMentions text in
  let uniqueLocations := removeDuplicates [] locations in
  {| isRouteRequest := false;
     locations := uniqueLocations;
     travelMode := str "driving";
     preferences := [];
     message := str "I found " ++ str (decimal (length uniqueLocations)) ++
                str " locations mentioned in this text. Would you like to see them on the map?";
     suggestedSequence := map name uniqueLocations |}.

(** *** extractLocationsBasic (lines 592-752) *)

Definition alpha := Chr [CR "A" "Z"; CR "a" "z"].
Definition alpha_sp := Chr [CR "A" "Z"; CR "a" "z"; CS].

(** [A-Za-z][A-Za-z\s]+? *)
Definition place_lazy : regex := seq [alpha; plus_lazy alpha_sp].

(** (?:to|towards?) and (?:to|towards?|and|then) *)
Definition to_word : regex := alt [lit "to"; seq [lit "toward"; opt (lit "s")]].
Definition link_word : regex :=
  alt [lit "to"; seq [lit "toward"; opt (lit "s")]; lit "and"; lit "then"].

(** (?=\s+(?:to|towards?|and|then)\s+|$) *)
Definition before_link : regex :=
  Ahead (alt [seq [plus sp; link_word; plus sp]; Eol]).

(** The second to fifth alternatives, shared by the two patterns:
    (?<=\s+(?:to|towards?)\s+)([A-Za-z][A-Za-z\s]+?)(?=\s+(?:to|towards?|and|then)\s+|$)
    and three times
    (?<=\s+(?:to|towards?|and|then)\s+)([A-Za-z][A-Za-z\s]+?)(...),
    the last with the look-ahead (?=\s|$). *)
Definition laterStops : list regex :=
  [seq [Behind (seq [plus sp; to_word; plus sp]); Grp 2 place_lazy; before_link];
   seq [Behind (seq [plus sp; link_word; plus sp]); Grp 3 place_lazy; before_link];
   seq [Behind (seq [plus sp; link_word; plus sp]); Grp 4 place_lazy; before_link];
   seq [Behind (seq [plus sp; link_word; plus sp]); Grp 5 place_lazy;
        Ahead (alt [sp; Eol])]].

(** The two patterns of [routePatterns] (flags gi); they start with
    \b(?:from|in)\s+([A-Za-z][A-Za-z\s]+?)(?=\s+(?:to|towards?)\s+) and with
    ^([A-Za-z][A-Za-z\s]+?)(?=\s+(?:to|towards?)\s+). *)
Definition routePatterns : list regex :=
  [alt (seq [WordB; alt [lit "from"; lit "in"]; plus sp; Grp 1 place_lazy;
             Ahead (seq [plus sp; to_word; plus sp])] :: laterStops);
   alt (seq [Bol; Grp 1 place_lazy; Ahead (seq [plus sp; to_word; plus sp])]
        :: laterStops)].

(** (?:\s+to\s+(.*?))? *)
Definition more_stop (n : nat) : regex :=
  opt (seq [plus sp; lit "to"; plus sp; Grp n (star_lazy dot)]).

(** /from\s+(.*?)\s+to\s+(.*?)(?:\s+to\s+(.*?))?(?:\s+to\s+(.*?))?(?:\s+to\s+(.*?))?(?:$|\.)/i *)
Definition fromToPattern5 : regex :=
  seq [lit "from"; plus sp; Grp 1 (star_lazy dot); plus sp; lit "to"; plus sp;
       Grp 2 (star_lazy dot); more_stop 3; more_stop 4; more_stop 5;
       alt [Eol; lit "."]].

(** /^(.*?)\s+to\s+(.*?)(?:\s+to\s+(.*?))?(?:\s+to\s+(.*?))?(?:$|\.)/i *)
Definition toPattern4 : regex :=
  seq [Bol; Grp 1 (star_lazy dot); plus sp; lit "to"; plus sp;
       Grp 2 (star_lazy dot); more_stop 3; more_stop 4; alt [Eol; lit "."]].

(** [match.slice(1).filter(wp => wp)
      .map(wp => wp.trim().replace(/[,.:;]+$/, '').trim())
      .filter(wp => wp.length > 0)] for a match with [n] groups. *)
Definition cleanGroups (n : nat) (m : rmatch) : list jstring :=
  filter (fun wp => 0 <? length wp)
    (map (fun wp => trim (replace cs trailing_punct erase (trim wp)))
       (filter truthy (map (grp_str m) (List.seq 1 n)))).

Definition simpleWaypoints (n : nat) (pattern : regex) (text : jstring)
  : option (list jstring) :=
  match exec ci pattern text with
  | Some m => let waypoints := cleanGroups n m in
              if 2 <=? length waypoints then Some waypoints else None
  | None => None
  end.

(** /[,.?!:;]+$/ *)
Definition trailing_punct_all : regex := seq [plus (oneof ",.?!:;"); Eol].
(** /(.*?)(?:\s+and\s+|\s+then\s+)/i *)
Definition before_conj : regex :=
  seq [Grp 1 (star_lazy dot);
       alt [seq [plus sp; lit "and"; plus sp]; seq [plus sp; lit "then"; plus sp]]].

(** Lines 653-678: the manual split. *)
Definition manualSplit (text : jstring) : res (option (list jstring)) :=
  if includes (toLowerCase text) (str "from") &&
     includes (toLowerCase text) (str "to") then
    match split ci ws_to_ws text with
    | p0 :: (_ :: _) as rest =>
        firstLoc <- match exec ci from_rest p0 with
                    | Some m => grp_trim m 1
                    | None => Ok (trim p0)
                    end ;;
        others <-
          fold_right
            (fun p acc =>
               let loc := trim (replace cs trailing_punct_all erase (trim p)) in
               loc' <- match exec ci before_conj loc with
                       | Some conjMatch => grp_trim conjMatch 1
                       | None => Ok loc
                       end ;;
               l <- acc ;;
               Ok (loc' :: l))
            (Ok []) rest ;;
        Ok (Some (firstLoc :: others))
    | _ => Ok None
    end
  else Ok None.

Definition basicStopWords : list jstring := map str
  ["I"; "You"; "He"; "She"; "They"; "We"; "It"; "Who"; "What"; "Where"; "When";
   "Why"; "How";
   "January"; "February"; "March"; "April"; "May"; "June"; "July"; "August";
   "September"; "October"; "November"; "December";
   "Monday"; "Tuesday"; "Wednesday"; "Thursday"; "Friday"; "Saturday"; "Sunday";
   "The"; "A"; "An"; "And"; "Or"; "But"; "If"; "Then"; "So"; "Because"; "Route";
   "Path";
   "Map"; "Directions"; "Show"; "Get"; "Find"; "Create"; "Make"; "Give"]%string.

Definition basicCommonLocations : list (jstring * list jstring) :=
  map (fun p => (str (fst p), map str (snd p)))
  [("New York", ["new york"; "nyc"]);
   ("Los Angeles", ["los angeles"; "la"]);
   ("San Francisco", ["san francisco"; "sf"]);
   ("Chicago", ["chicago"]);
   ("Boston", ["boston"]);
   ("Washington DC", ["washington dc"; "washington d.c."; "dc"]);
   ("Seattle", ["seattle"]);
   ("Miami", ["miami"]);
   ("London", ["london"]);
   ("Paris", ["paris"]);
   ("Tokyo", ["tokyo"]);
   ("Beijing", ["beijing"; "peking"]);
   ("Sydney", ["sydney"]);
   ("Mediterranean", ["mediterranean"]);
   ("China", ["china"]);
   ("Africa", ["africa"]);
   ("Constantinople", ["constantinople"; "istanbul"]);
   ("Europe", ["europe"]);
   ("Asia", ["asia"]);
   ("America", ["america"]);
   ("Australia", ["australia"])]%string.

(** /\b(from|to|and|then|towards?)\b/ *)
Definition token_word : regex :=
  seq [WordB;
       Grp 1 (alt [lit "from"; lit "to"; lit "and"; lit "then";
                   seq [lit "toward"; opt (lit "s")]]);
       WordB].
(** /^(from|to|and|then|towards?)$/ *)
Definition only_token : regex :=
  seq [Bol;
       Grp 1 (alt [lit "from"; lit "to"; lit "and"; lit "then";
                   seq [lit "toward"; opt (lit "s")]]);
       Eol].

Definition is_route_token (tok : option jstring) : bool :=
  match tok with
  | Some t => mem t (map str ["from"; "to"; "towards"; "toward"]%string)
  | None => false
  end.

(** Lines 735-748: the loop over [routeTokens]; [routeTokens[i + 1].trim()]
    throws on an [undefined] element. *)
Fixpoint tokenLoop (routeTokens : list (option jstring)) (locations : list jstring)
  : res (list jstring) :=
  match routeTokens with
  | [] => Ok locations
  | tok :: rest =>
      if is_route_token tok then
        match rest with
        | [] => Ok locations
        | None :: _ => Throw TypeError
        | Some next :: _ =>
            let potentialLoc := trim next in
            if truthy potentialLoc && (1 <? length potentialLoc) &&
               negb (test cs only_token potentialLoc) then
              let formattedLoc := titleCase potentialLoc in
              if mem formattedLoc locations then tokenLoop rest locations
              else tokenLoop rest (locations ++ [formattedLoc])
            else tokenLoop rest locations
        end
      else tokenLoop rest locations
  end.

(** Lines 680-751: capitalised names, known places, tokens after keywords. *)
Definition generalLocations (text : jstring) : res (list jstring) :=
  let potentialLocations := map (@m_0) (matchAll cs capitalizedPattern text) in
  let locations := filter (fun loc => negb (mem loc basicStopWords))
                          potentialLocations in
  let lowerText := toLowerCase text in
  let locations :=
    fold_left
      (fun locs loc =>
         let shouldAdd := existsb (fun checkTerm => includes lowerText checkTerm)
                                  (snd loc) in
         if shouldAdd && negb (mem (fst loc) locs) then locs ++ [fst loc]
         else locs)
      basicCommonLocations locations in
  if includes lowerText (str "route") || includes lowerText (str " to ") ||
     includes lowerText (str "from")
  then tokenLoop (split_opt cs token_word lowerText) locations
  else Ok locations.

Definition extractLocationsBasic (text : jstring) : res (list jstring) :=
  match simpleWaypoints 5 fromToPattern5 text with
  | Some waypoints => Ok waypoints
  | None =>
  match simpleWaypoints 4 toPattern4 text with
  | Some waypoints => Ok waypoints
  | None =>
      let allMatches :=
        flat_map (fun pattern => flat_map (cleanGroups 5) (matchAll ci pattern text))
                 routePatterns in
      if 2 <=? length allMatches then Ok (unique allMatches)
      else
        manual <- manualSplit text ;;
        match manual with
        | Some locations => Ok locations
        | None => generalLocations text
        end
  end
  end.

(** *** processNaturalLanguageInput (lines 11-483) *)

(** /\b(walk|walking)\b.*?\b(from|in)\s+(.*?)\s+to\s+(.*?)(?:\s|$|\.|,)/i *)
Definition walkingRoutePattern : regex :=
  seq [WordB; Grp 1 (alt [lit "walk"; lit "walking"]); WordB; star_lazy dot;
       WordB; Grp 2 (alt [lit "from"; lit "in"]); plus sp;
       Grp 3 (star_lazy dot); plus sp; lit "to"; plus sp;
       Grp 4 (star_lazy dot); alt [sp; Eol; lit "."; lit ","]].

(** /{[\s\S]*?}/ *)
Definition json_span : regex := seq [lit "{"; star_lazy anyc; lit "}"].

(** /\b(walking|cycling|driving|transit)\b/i *)
Definition mode_words : regex :=
  seq [WordB;
       Grp 1 (alt [lit "walking"; lit "cycling"; lit "driving"; lit "transit"]);
       WordB].

Definition gibbonLocations : list Location :=
  [plain (str "Mediterranean"); plain (str "sub-Saharan Africa");
   plain (str "China");
   {| name := str "Constantinople"; timeContext := str "1453" |}].

Definition gibbonResult : ExtractionResult :=
  {| isRouteRequest := false;
     locations := gibbonLocations;
     travelMode := str "driving";
     preferences := [];
     message := str "I found several geographical locations mentioned in this historical text. Would you like to see them visualized on a map?";
     suggestedSequence := map str ["Mediterranean"; "sub-Saharan Africa"; "China";
                                   "Constantinople"]%string |}.

Definition twoStops (mode intro from to : jstring) : ExtractionResult :=
  {| isRouteRequest := true;
     locations := [plain from; plain to];
     travelMode := mode;
     preferences := [];
     message := intro ++ from ++ str " to " ++ to;
     suggestedSequence := [from; to] |}.

(** Lines 197-218. *)
Definition simpleRoute (inputText : jstring) : option ExtractionResult :=
  match exec ci simpleRoutePattern inputText with
  | Some m =>
      if truthy (grp_str m 1) && truthy (grp_str m 2) then
        let mode := shortcutMode inputText in
        Some (twoStops mode (str "Creating a " ++ mode ++ str " route from ")
                       (trim (grp_str m 1)) (trim (grp_str m 2)))
      else None
  | None => None
  end.

(** Lines 221-240. *)
Definition walkingRoute (inputText : jstring) : option ExtractionResult :=
  match exec ci walkingRoutePattern inputText with
  | Some m =>
      if truthy (grp_str m 3) && truthy (grp_str m 4) then
        Some (twoStops (str "walking") (str "Creating a walking route from ")
                       (trim (grp_str m 3)) (trim (grp_str m 4)))
      else None
  | None => None
  end.

(** [inputText.match(/\b(walking|cycling|driving|transit)\b/i)?.[1]?.toLowerCase() || 'driving'] *)
Definition fallbackMode (inputText : jstring) : jstring :=
  match exec ci mode_words inputText with
  | Some m => match grp m 1 with
              | Some w => if truthy (toLowerCase w) then toLowerCase w
                          else str "driving"
              | None => str "driving"
              end
  | None => str "driving"
  end.

(** [loc => typeof loc === 'string' ? { name: loc, timeContext: "" } : loc] *)
Definition objectOfString (loc : value) : value :=
  match loc with
  | VStr s => VObj [("name", VStr s); ("timeContext", VStr [])]%string
  | _ => loc
  end.

(** [loc => loc && loc.name && typeof loc.name === 'string'] *)
Definition hasName (loc : value) : bool :=
  to_bool loc &&
  match prop loc "name" with
  | Ok n => to_bool n && is_string n
  | Throw _ => false
  end.

Section Pipeline.

(** The host: the answer of the /api/gemini endpoint to the request built
    around the input text, and [JSON.parse]. *)
Variable gemini : jstring -> res response.
Variable JSON_parse : jstring -> res value.

(** Lines 363-380 (and 390-407): parse, validate and normalise. *)
Definition parseResult (jsonText : jstring) : res obj :=
  result <- JSON_parse jsonText ;;
  locs <- prop result "locations" ;;
  if negb (to_bool locs) || negb (is_array locs) then
    Throw (Error "Invalid locations data in API response")
  else
    match result, locs with
    | VObj o, VArr l =>
        let l := if existsb is_string l then map objectOfString l else l in
        Ok (set_field "locations" (VArr (filter hasName l)) o)
    | _, _ => Throw TypeError
    end.

Definition double_quote : ascii := ascii_of_nat 34.

(** Lines 384-387: the lenient rewriting of the response text. *)
Definition lenient (responseText : jstring) : jstring :=
  replaceAll cs (Chr [CC double_quote]) (fun _ => [double_quote])
    (replaceAll cs (Chr [CC double_quote]) (fun _ => [double_quote])
       (replaceAll cs (plus (Chr [CC "013"%char; CC "010"%char]))
                   (fun _ => str " ") responseText)).

(** Lines 327-415: the body of the [try]. *)
Definition languageModel (inputText : jstring) : res obj :=
  response <- gemini inputText ;;
  if negb (ok response) then
    Throw (Error ("Gemini API request failed with status " ++
                  decimal (status response)))
  else
    data <- json response ;;
    candidates <- prop data "candidates" ;;
    len <- (if to_bool candidates then prop candidates "length" else Ok VUndef) ;;
    if negb (to_bool candidates) ||
       match len with VNum n => (n =? 0)%Z | _ => false end
    then Throw (Error "No response from Gemini API")
    else
      c0 <- idx candidates 0 ;;
      content <- prop c0 "content" ;;
      parts <- prop content "parts" ;;
      p0 <- idx parts 0 ;;
      responseText <- prop p0 "text" ;;
      match responseText with
      | VStr responseText =>
          match exec cs json_span responseText with
          | Some jsonMatch =>
              try_catch (parseResult (m_0 jsonMatch))
                (fun parseError =>
                   match exec cs json_span (lenient responseText) with
                   | Some fixedJson =>
                       try_catch (parseResult (m_0 fixedJson))
                         (fun e => Throw (Error "Failed to parse JSON even with lenient approach"))
                   | None =>
                       Throw (Error "Could not parse JSON from Gemini response")
                   end)
          | None => Throw (Error "Could not parse JSON from Gemini response")
          end
      | _ => Throw TypeError
      end.

(** /from\s+(.*?)\s+to\s+(.*?)(?:\s+to\s+(.*?))?(?:\s+to\s+(.*?))?(?:\s+to\s+(.*?))?(?:$|\.)/i,
    the pattern of line 447, is [fromToPattern5]. *)

(** Lines 416-482: the body of the [catch]. *)
Definition fallback (inputText : jstring) : res ExtractionResult :=
  let isLikelyRouteRequest := test ci routingKeywords inputText in
  if includes inputText (str "Mediterranean") &&
     includes inputText (str "sub-Saharan Africa") &&
     includes inputText (str "China") &&
     includes inputText (str "Constantinople")
  then Ok gibbonResult
  else if negb isLikelyRouteRequest then Ok (extractLocationsFromParagraph inputText)
  else
    match simpleWaypoints 5 fromToPattern5 inputText with
    | Some waypoints =>
        Ok {| isRouteRequest := true;
              locations := map plain waypoints;
              travelMode := fallbackMode inputText;
              preferences := [];
              message := str "Creating a route with multiple stops: " ++
                         join (str " → ") waypoints;
              suggestedSequence := waypoints |}
    | None =>
        basic <- extractLocationsBasic inputText ;;
        again <- extractLocationsBasic inputText ;;
        Ok {| isRouteRequest := isLikelyRouteRequest;
              locations := map plain basic;
              travelMode := fallbackMode inputText;
              preferences := [];
              message :=
                if isLikelyRouteRequest
                then str "I had trouble understanding the details, but I'll try to map what I understood."
                else str "I found some potential locations in your text. Would you like to see them on the map?";
              suggestedSequence := again |}
    end.

Definition processNaturalLanguageInput (inputText : jstring) : res outcome :=
  multi <- multiWaypoint inputText ;;
  match multi with
  | Some r => Ok (Built r)
  | None =>
  match simpleRoute inputText with
  | Some r => Ok (Built r)
  | None =>
  match walkingRoute inputText with
  | Some r => Ok (Built r)
  | None =>
      let isGibbonExample :=
        includes inputText (str "Gibbon's canvas") &&
        includes inputText (str "Mediterranean") &&
        includes inputText (str "Constantinople in 1453") in
      if isGibbonExample then Ok (Built gibbonResult)
      else
        try_catch (o <- languageModel inputText ;; Ok (FromModel o))
                  (fun error => r <- fallback inputText ;; Ok (Built r))
  end
  end
  end.

End Pipeline.

(** *** createRoute (lines 1047-1049): the travel mode sent to the router *)


(** *** What a consumer reads from an outcome *)

Definition out_isRouteRequest (o : outcome) : value :=
  match o with
  | Built r => VBool (isRouteRequest r)
  | FromModel f => get_field "isRouteRequest" f
  end.

Definition locationValue (l : Location) : value :=
  VObj [("name", VStr (name l)); ("timeContext", VStr (timeContext l))]%string.

Definition out_locations (o : outcome) : value :=
  match o with
  | Built r => VArr (map locationValue (locations r))
  | FromModel f => get_field "locations" f
  end.

Definition out_travelMode (o : outcome) : value :=
  match o with
  | Built r => VStr (travelMode r)
  | FromModel f => get_field "travelMode" f
  end.

Definition out_message (o : outcome) : value :=
  match o with
  | Built r => VStr (message r)
  | FromModel f => get_field "message" f
  end.

Definition out_suggestedSequence (o : outcome) : value :=
  match o with
  | Built r => VArr (map VStr (suggestedSequence r))
  | FromModel f => get_field "suggestedSequence" f
  end.

(** [locations.map(loc => loc.name)] on a value. *)
Definition names (locs : value) : list value :=
  match locs with
  | VArr l => map (fun loc => match prop loc "name" with
                              | Ok n => n
                              | Throw _ => VUndef
                              end) l
  | _ => []
  end.

(** *** createRoute (lines 1034-1412): the guard and the cleaned names *)

(** Lines 1039-1042: [!locations || locations.length < 2] for an array of
    names; the route is not computed when it holds. *)
Definition tooFewLocations (locations : list jstring) : bool :=
  length locations <? 2.


End Enhanced.

(** ** nlp.js (lines 1495-1868) *)

Module Nlp.

Record Preferences := {
  transportMode : jstring;
  avoidTolls : bool;
  avoidHighways : bool;
  avoidFerries : bool
}.

(** What [extractLocationsWithRegex] returns. *)
Record RegexResult := { locations : list jstring; preferences : Preferences }.

(** What [processNaturalLanguage] resolves to: the properties [locations]
    and [preferences] of the returned object. *)
Record Result := { r_locations : value; r_preferences : obj }.

Definition defaultPreferences : obj :=
  [("transportMode", VStr (str "driving")); ("avoidTolls", VBool false);
   ("avoidHighways", VBool false); ("avoidFerries", VBool false)]%string.

Definition validModes : list jstring :=
  map str ["driving"; "walking"; "cycling"; "transit"]%string.

(** [validModes.includes(v)] *)
Definition includesMode (v : value) : bool :=
  match v with
  | VStr m => mem m validModes
  | _ => false
  end.

(** [{ ...a, ...b }] *)
Definition merge (a b : obj) : obj :=
  fold_left (fun o kv => set_field (fst kv) (snd kv) o) b a.

(** Lines 1743-1770. *)
Definition validateAndFormatResponse (response : value) : res Result :=
  locs <- prop response "locations" ;;
  let locations := if is_array locs then locs else VArr [] in
  prefs <- prop response "preferences" ;;
  let preferences :=
    if to_bool prefs then merge defaultPreferences (spread prefs)
    else defaultPreferences in
  let preferences :=
    if negb (includesMode (get_field "transportMode" preferences))
    then set_field "transportMode" (VStr (str "driving")) preferences
    else preferences in
  Ok {| r_locations := locations; r_preferences := preferences |}.

(** /(?:by|using|with|via)\s+(car|driving|walking|cycling|bike|transit|bus|train)/i *)
Definition by_mode : regex :=
  seq [alt [lit "by"; lit "using"; lit "with"; lit "via"]; plus sp;
       Grp 1 (alt [lit "car"; lit "driving"; lit "walking"; lit "cycling";
                   lit "bike"; lit "transit"; lit "bus"; lit "train"])].

(** /avoid(?:ing)?\s+(?:toll|tolls)/i and the like *)
Definition avoiding (what : list regex) : regex :=
  seq [lit "avoid"; opt (lit "ing"); plus sp; alt what].

Definition alpha_sp := Chr [CR "A" "Z"; CR "a" "z"; CS].

(** /route\s+from\s+([A-Za-z\s]+?)\s+to\s+([A-Za-z\s]+)(?:\s|$)/i *)
Definition routeFromToPattern : regex :=
  seq [lit "route"; plus sp; lit "from"; plus sp; Grp 1 (plus_lazy alpha_sp);
       plus sp; lit "to"; plus sp; Grp 2 (plus alpha_sp); alt [sp; Eol]].

(** /(?:from|to|through|via|between|in|at)\s+([A-Z][a-zA-Z0-9\s,]+?)(?:\s+(?:to|and|through|via|,)|$)/gi *)
Definition prepositionPattern : regex :=
  seq [alt [lit "from"; lit "to"; lit "through"; lit "via"; lit "between";
            lit "in"; lit "at"];
       plus sp;
       Grp 1 (seq [Chr [CR "A" "Z"];
                   plus_lazy (Chr [CR "a" "z"; CR "A" "Z"; CR "0" "9"; CS;
                                   CC ","])]);
       alt [seq [plus sp;
                 alt [lit "to"; lit "and"; lit "through"; lit "via"; lit ","]];
            Eol]].

(** new RegExp([' to ', ', ', ' and ', ' => ', ','].join('|'), 'gi') *)
Definition separatorPattern : regex :=
  alt [lit " to "; lit ", "; lit " and "; lit " => "; lit ","].

(** /[A-Za-z]/ *)
Definition has_letter : regex := Chr [CR "A" "Z"; CR "a" "z"].

(** /^(?:route|path|directions|way|road|show me|find|get|display)\s+(?:from|to|between)?\s+/i *)
Definition descriptive_prefix : regex :=
  seq [Bol;
       alt [lit "route"; lit "path"; lit "directions"; lit "way"; lit "road";
            lit "show me"; lit "find"; lit "get"; lit "display"];
       plus sp; opt (alt [lit "from"; lit "to"; lit "between"]); plus sp].

(** Lines 1789-1801. *)
Definition regexMode (query : jstring) : res jstring :=
  match exec ci by_mode query with
  | Some transportModeMatch =>
      match grp transportModeMatch 1 with
      | None => Throw TypeError
      | Some g =>
          let mode := toLowerCase g in
          Ok (if text_eqb mode (str "car") then str "driving"
              else if text_eqb mode (str "bike") then str "cycling"
              else if mem mode (map str ["bus"; "train"]%string) then str "transit"
              else if mem mode validModes then mode
              else str "driving")
      end
  | None => Ok (str "driving")
  end.

(** Lines 1777-1862. *)
Definition extractLocationsWithRegex (query : jstring) : res RegexResult :=
  mode <- regexMode query ;;
  let preferences :=
    {| transportMode := mode;
       avoidTolls := test ci (avoiding [lit "toll"; lit "tolls"]) query;
       avoidHighways := test ci (avoiding [lit "highway"; lit "highways";
                                           lit "freeway"; lit "freeways"]) query;
       avoidFerries := test ci (avoiding [lit "ferry"; lit "ferries"]) query |} in
  let routeMatch := exec ci routeFromToPattern query in
  match (match routeMatch with
         | Some m => if truthy (grp_str m 1) && truthy (grp_str m 2)
                     then Some [trim (grp_str m 1); trim (grp_str m 2)]
                     else None
         | None => None
         end) with
  | Some locations => Ok {| locations := locations; preferences := preferences |}
  | None =>
      let locations :=
        flat_map (fun m => if truthy (grp_str m 1) && truthy (trim (grp_str m 1))
                           then [trim (grp_str m 1)] else [])
                 (matchAll ci prepositionPattern query) in
      let locations :=
        if length locations =? 0 then
          filter (fun loc => (0 <? length loc) && test cs has_letter loc)
                 (map trim (split ci separatorPattern query))
        else locations in
      let locations :=
        if length locations =? 0 then
          let cleanedQuery := trim (replace ci descriptive_prefix erase query) in
          if truthy cleanedQuery then [cleanedQuery] else locations
        else locations in
      Ok {| locations := locations; preferences := preferences |}
  end.

(** /```(?:json)?\s*([\s\S]*?)\s*```/ *)
Definition fenced_json : regex :=
  seq [lit "```"; opt (lit "json"); star sp; Grp 1 (star_lazy anyc); star sp;
       lit "```"].

(** /({[\s\S]*})/ *)
Definition braces : regex := Grp 1 (seq [lit "{"; star anyc; lit "}"]).

(** [text.match(fenced) || text.match(braces)] *)
Definition jsonMatch (text : jstring) : option rmatch :=
  match exec cs fenced_json text with
  | Some m => Some m
  | None => exec cs braces text
  end.

(** The elements a [for ... of] loop visits; numbers, booleans and plain
    objects are not iterable. *)
Definition iterate (v : value) : res (list value) :=
  match v with
  | VArr l => Ok l
  | VStr s => Ok (map (fun c => VStr [c]) s)
  | _ => Throw TypeError
  end.

(** [JSON.parse(JSON.stringify(v))]: a copy of a JSON value; stringifying
    [undefined] gives [undefined], which does not parse. *)
Definition clone (v : value) : res value :=
  match v with
  | VUndef => Throw SyntaxError
  | _ => Ok v
  end.

Section Pipeline.

(** The host: the answers of /api/gemini to the function-calling request and
    to the prompt request built around the query, and [JSON.parse]. *)
Variable gemini_call : jstring -> res response.
Variable gemini_prompt : jstring -> res response.
Variable JSON_parse : jstring -> res value.

(** [data.candidates && data.candidates[0] && data.candidates[0].content &&
     data.candidates[0].content.parts]: the [parts], when all are truthy. *)
Definition partsOf (data : value) : res (option value) :=
  candidates <- prop data "candidates" ;;
  if negb (to_bool candidates) then Ok None else
  c0 <- idx candidates 0 ;;
  if negb (to_bool c0) then Ok None else
  content <- prop c0 "content" ;;
  if negb (to_bool content) then Ok None else
  parts <- prop content "parts" ;;
  if negb (to_bool parts) then Ok None else Ok (Some parts).

(** Lines 1659-1663: the first loop over the parts. *)
Fixpoint findFunctionCall (parts : list value) : res (option value) :=
  match parts with
  | [] => Ok None
  | part :: rest =>
      functionCall <- prop part "functionCall" ;;
      if to_bool functionCall then
        name <- prop functionCall "name" ;;
        match name with
        | VStr n =>
            if text_eqb n (str "extractRouteInfo") then
              args <- prop functionCall "args" ;;
              v <- clone args ;;
              Ok (Some v)
            else findFunctionCall rest
        | _ => findFunctionCall rest
        end
      else findFunctionCall rest
  end.

(** Lines 1666-1680: the second loop; what is thrown inside its [try] is
    logged and the loop goes on. *)
Fixpoint findJsonText (parts : list value) : res (option value) :=
  match parts with
  | [] => Ok None
  | part :: rest =>
      text <- prop part "text" ;;
      if to_bool text then
        found <-
          try_catch
            (match text with
             | VStr t =>
                 match jsonMatch t with
                 | Some m =>
                     if truthy (grp_str m 1) then
                       match grp m 1 with
                       | Some g => v <- JSON_parse (trim g) ;; Ok (Some v)
                       | None => Ok None
                       end
                     else Ok None
                 | None => Ok None
                 end
             | _ => Throw TypeError
             end)
            (fun error => Ok None) ;;
        match found with
        | Some v => Ok (Some v)
        | None => findJsonText rest
        end
      else findJsonText rest
  end.

(** Lines 1595-1684. *)
Definition fetchGeminiWithFunctionCalling (query : jstring) : res value :=
  response <- gemini_call query ;;
  if negb (ok response) then Throw (Error "Gemini API error") else
  data <- json response ;;
  parts <- partsOf data ;;
  found <-
    match parts with
    | Some parts =>
        l <- iterate parts ;;
        call <- findFunctionCall l ;;
        match call with
        | Some v => Ok (Some v)
        | None => findJsonText l
        end
    | None => Ok None
    end ;;
  match found with
  | Some v => Ok v
  | None => Throw (Error "Could not extract structured data from Gemini response")
  end.

(** Lines 1691-1736. *)
Definition fetchGeminiResponse (query : jstring) : res value :=
  response <- gemini_prompt query ;;
  if negb (ok response) then Throw (Error "Gemini API error") else
  data <- json response ;;
  parts <- partsOf data ;;
  p0 <- match parts with
        | Some parts => idx parts 0
        | None => Ok VUndef
        end ;;
  if is_some parts && to_bool p0 then
    textResponse <- prop p0 "text" ;;
    try_catch
      (match textResponse with
       | VStr t =>
           match jsonMatch t with
           | Some m =>
               match grp m 1 with
               | Some g => if truthy g then JSON_parse (trim g)
                           else JSON_parse (trim t)
               | None => JSON_parse (trim t)
               end
           | None => JSON_parse (trim t)
           end
       | _ => Throw TypeError
       end)
      (fun error => Throw (Error "Invalid response format from Gemini API"))
  else Throw (Error "Unexpected response structure from Gemini API").

(** [regexLocations.length] and [error.fallback]: the object that
    [extractLocationsWithRegex] returns has the properties [locations] and
    [preferences] only, and no error raised in this module has a [fallback]
    property. *)
Definition lengthOf (r : RegexResult) : value := VUndef.
Definition fallbackOf (e : exn) : value := VUndef.

(** [v >= 2] *)
Definition atLeastTwo (v : value) : bool :=
  match v with
  | VNum n => (2 <=? n)%Z
  | _ => false
  end.

Definition preferencesValue (p : Preferences) : obj :=
  [("transportMode", VStr (transportMode p)); ("avoidTolls", VBool (avoidTolls p));
   ("avoidHighways", VBool (avoidHighways p));
   ("avoidFerries", VBool (avoidFerries p))]%string.

(** The object [{ locations, preferences }] that is returned. *)
Definition resultObject (r : Result) : obj :=
  [("locations", r_locations r); ("preferences", VObj (r_preferences r))]%string.

(** The object a [RegexResult] stands for. *)
Definition resultOfRegex (r : RegexResult) : Result :=
  {| r_locations := VArr (map VStr (locations r));
     r_preferences := preferencesValue (preferences r) |}.

(** Lines 1512-1521: the preferences of the regex shortcut. *)
Definition shortcutPreferences (query : jstring) : obj :=
  [("transportMode",
    VStr (if test ci (alt [lit "walk"; lit "walking"; lit "on foot"]) query
          then str "walking"
          else if test ci (alt [lit "cycl"; lit "bike"; lit "biking";
                                lit "bicycle"]) query
          then str "cycling" else str "driving"));
   ("avoidTolls",
    VBool (test ci (alt [lit "no toll"; lit "avoid toll"; lit "without toll"]) query));
   ("avoidHighways",
    VBool (test ci (alt [lit "no highway"; lit "avoid highway";
                         lit "without highway"]) query));
   ("avoidFerries",
    VBool (test ci (alt [lit "no ferr"; lit "avoid ferr"; lit "without ferr"]) query))
  ]%string.

(** [{ locations: regexLocations, preferences: p }] *)
Definition shortcutResult (regexLocations : RegexResult) (p : obj) : Result :=
  {| r_locations := VObj [("locations", VArr (map VStr (locations regexLocations)));
                          ("preferences",
                           VObj (preferencesValue (preferences regexLocations)))]%string;
     r_preferences := p |}.

(** Lines 1505-1588. *)
Definition processNaturalLanguage (query : jstring) : res Result :=
  try_catch
    (regexLocations <- extractLocationsWithRegex query ;;
     if atLeastTwo (lengthOf regexLocations) then
       Ok (shortcutResult regexLocations (shortcutPreferences query))
     else
       response <- fetchGeminiWithFunctionCalling query ;;
       validateAndFormatResponse response)
    (fun error =>
       early <-
         (if to_bool (fallbackOf error) then
            regexLocations <- extractLocationsWithRegex query ;;
            if atLeastTwo (lengthOf regexLocations) then
              Ok (Some (shortcutResult regexLocations defaultPreferences))
            else Ok None
          else Ok None) ;;
       match early with
       | Some r => Ok r
       | None =>
           try_catch
             (response <- fetchGeminiResponse query ;;
              validateAndFormatResponse response)
             (fun secondError =>
                r <- extractLocationsWithRegex query ;;
                Ok (resultOfRegex r))
       end).

End Pipeline.
End Nlp.

(** ** nlp.js, the exported extractLocationsWithRegex (lines 1869-2006) *)

Module NlpRegex.

Record Preferences := {
  transportMode : jstring;
  avoidTolls : bool;
  avoidHighways : bool;
  avoidFerries : bool
}.

Record RegexResult := { locations : list jstring; preferences : Preferences }.

(** /\b(walk|walking|on foot)\b/i *)
Definition walk_words : regex :=
  seq [WordB; Grp 1 (alt [lit "walk"; lit "walking"; lit "on foot"]); WordB].
(** /\b(cycl|bike|biking|bicycle)\b/i *)
Definition cycle_words : regex :=
  seq [WordB; Grp 1 (alt [lit "cycl"; lit "bike"; lit "biking"; lit "bicycle"]);
       WordB].
(** /\b(no toll|avoid toll|without toll)\b/i *)
Definition toll_words : regex :=
  seq [WordB; Grp 1 (alt [lit "no toll"; lit "avoid toll"; lit "without toll"]);
       WordB].
(** /\b(no highway|avoid highway|without highway)\b/i *)
Definition highway_words : regex :=
  seq [WordB; Grp 1 (alt [lit "no highway"; lit "avoid highway";
                          lit "without highway"]); WordB].
(** /\b(no ferr|avoid ferr|without ferr)\b/i *)
Definition ferry_words : regex :=
  seq [WordB; Grp 1 (alt [lit "no ferr"; lit "avoid ferr"; lit "without ferr"]);
       WordB].

Definition alpha_sp := Chr [CR "A" "Z"; CR "a" "z"; CS].

(** /route\s+from\s+([A-Za-z\s]+?)\s+to\s+([A-Za-z\s]+)(?:\s|$)/i *)
Definition routePattern : regex :=
  seq [lit "route"; plus sp; lit "from"; plus sp; Grp 1 (plus_lazy alpha_sp);
       plus sp; lit "to"; plus sp; Grp 2 (plus alpha_sp); alt [sp; Eol]].

(** /between\s+([A-Za-z\s]+)\s+and\s+([A-Za-z\s]+)/i *)
Definition betweenPattern : regex :=
  seq [lit "between"; plus sp; Grp 1 (plus alpha_sp); plus sp; lit "and";
       plus sp; Grp 2 (plus alpha_sp)].

(** The separators other than the last, [/\s+between\s+/i]:
    /\s+to\s+/i, /\s+and\s+/i, /\s*,\s*/, /\s+through\s+/i, /\s+via\s+/i. *)
Definition splitSeparators : list (bool * regex) :=
  [(ci, seq [plus sp; lit "to"; plus sp]);
   (ci, seq [plus sp; lit "and"; plus sp]);
   (cs, seq [star sp; lit ","; star sp]);
   (ci, seq [plus sp; lit "through"; plus sp]);
   (ci, seq [plus sp; lit "via"; plus sp])].

(** /\s+between\s+/i *)
Definition betweenSeparator : regex := seq [plus sp; lit "between"; plus sp].

(** /^(from|to|in|at|starting|ending|beginning|route)\s+/i *)
Definition part_prefix : regex :=
  seq [Bol; Grp 1 (alt [lit "from"; lit "to"; lit "in"; lit "at"; lit "starting";
                        lit "ending"; lit "beginning"; lit "route"]); plus sp].

(** /^(show|find|get|display|give me|route|path|directions?|map)\s+/i *)
Definition verb_prefix : regex :=
  seq [Bol; Grp 1 (alt [lit "show"; lit "find"; lit "get"; lit "display";
                        lit "give me"; lit "route"; lit "path";
                        seq [lit "direction"; opt (lit "s")]; lit "map"]); plus sp].
(** /^(from|to|in|at)\s+/i *)
Definition prep_prefix : regex :=
  seq [Bol; Grp 1 (alt [lit "from"; lit "to"; lit "in"; lit "at"]); plus sp].
(** /\s+(route|path|directions?|map)$/i *)
Definition noun_suffix : regex :=
  seq [plus sp; Grp 1 (alt [lit "route"; lit "path";
                            seq [lit "direction"; opt (lit "s")]; lit "map"]); Eol].

(** Lines 1944-1953: the cleaned parts of a split. *)
Definition cleanParts (icase : bool) (separator : regex) (normalizedText : jstring)
  : list jstring :=
  filter (fun part => 0 <? length part)
    (map (fun part => trim (replace ci part_prefix erase part))
         (split icase separator normalizedText)).

(** Lines 1924-1970: the loop over the separators other than the last. *)
Fixpoint trySeparators (seps : list (bool * regex)) (normalizedText : jstring)
  : option (list jstring) :=
  match seps with
  | [] => None
  | (icase, separator) :: rest =>
      if test icase separator normalizedText then
        let parts := cleanParts icase separator normalizedText in
        if 2 <=? length parts then Some parts
        else trySeparators rest normalizedText
      else trySeparators rest normalizedText
  end.

(** Lines 1874-2006.  [None] stands for the empty array that is returned
    for an empty text. *)
Definition extractLocationsWithRegex (text : jstring) : res (option RegexResult) :=
  if negb (truthy text) then Ok None else
  let normalizedText := replaceAll cs (plus sp) (fun _ => str " ") (trim text) in
  let preferences :=
    {| transportMode :=
         if test ci walk_words normalizedText then str "walking"
         else if test ci cycle_words normalizedText then str "cycling"
         else str "driving";
       avoidTolls := test ci toll_words normalizedText;
       avoidHighways := test ci highway_words normalizedText;
       avoidFerries := test ci ferry_words normalizedText |} in
  let result locations :=
    Ok (Some {| locations := locations; preferences := preferences |}) in
  match exec ci routePattern normalizedText with
  | Some routeMatch =>
      from <- grp_trim routeMatch 1 ;;
      to <- grp_trim routeMatch 2 ;;
      result [from; to]
  | None =>
  match trySeparators splitSeparators normalizedText with
  | Some parts => result parts
  | None =>
  match (if test ci betweenSeparator normalizedText
         then exec ci betweenPattern normalizedText else None) with
  | Some betweenMatch =>
      from <- grp_trim betweenMatch 1 ;;
      to <- grp_trim betweenMatch 2 ;;
      result [from; to]
  | None =>
      let cleanedText :=
        trim (replace ci noun_suffix erase
                (replace ci prep_prefix erase
                   (replace ci verb_prefix erase normalizedText))) in
      if truthy cleanedText && negb (text_eqb cleanedText normalizedText)
      then result [cleanedText]
      else result [trim text]
  end
  end
  end.

End NlpRegex.

(** ** nlp-secure.js (lines 2007-2271) *)

Module NlpSecure.

Record Preferences := {
  transportMode : jstring;
  avoidTolls : bool;
  avoidHighways : bool;
  avoidFerries : bool
}.

Record RegexResult := { locations : list jstring; preferences : Preferences }.

(** What [processNaturalLanguage] resolves to: the properties [locations]
    and [preferences] of the returned object. *)
Record Result := { r_locations : list jstring; r_preferences : obj }.

(** /[.!?]+$/ *)
Definition trailing_marks : regex := seq [plus (oneof ".!?"); Eol].
(** /\s+to\s+/i *)
Definition ws_to_ws : regex := seq [plus sp; lit "to"; plus sp].
(** /^from\s+/i *)
Definition from_prefix : regex := seq [Bol; lit "from"; plus sp].

(** Lines 2182-2234. *)
Definition extractLocationsWithRegex (query : jstring) : RegexResult :=
  let cleanQuery := trim (replace cs trailing_marks erase (trim query)) in
  let startsWithFrom := startsWith (toLowerCase cleanQuery) (str "from ") in
  let parts := split ci ws_to_ws cleanQuery in
  let locations :=
    if 1 <? length parts then
      match map trim parts with
      | first :: rest =>
          if startsWithFrom then trim (replace ci from_prefix erase first) :: rest
          else first :: rest
      | [] => []
      end
    else if startsWithFrom then [trim (replace ci from_prefix erase cleanQuery)]
    else [cleanQuery] in
  let locations := filter (fun loc => 0 <? length loc) locations in
  {| locations := locations;
     preferences :=
       {| transportMode :=
            if includes cleanQuery (str "walking") then str "walking"
            else if includes cleanQuery (str "cycling") ||
                    includes cleanQuery (str "bike") then str "cycling"
            else str "driving";
          avoidTolls := includes cleanQuery (str "avoid tolls") ||
                        includes cleanQuery (str "no tolls");
          avoidHighways := includes cleanQuery (str "avoid highways") ||
                           includes cleanQuery (str "no highways");
          avoidFerries := includes cleanQuery (str "avoid ferries") ||
                          includes cleanQuery (str "no ferries") |} |}.

(** [loc => loc && typeof loc === 'string' && loc.trim().length > 0] *)
Definition keepLocation (loc : value) : list jstring :=
  match loc with
  | VStr s => if truthy s && (0 <? length (trim s)) then [s] else []
  | _ => []
  end.

(** [v === true] *)
Definition is_true (v : value) : bool :=
  match v with VBool true => true | _ => false end.

(** Lines 2241-2268.  The module is strict code, where setting a property
    of a primitive value throws. *)
Definition validateAndFormatResponse (response : value) : res Result :=
  if negb (to_bool response) then Throw (Error "Empty response from NLP processing")
  else
    match response with
    | VObj _ | VArr _ =>
        locs <- prop response "locations" ;;
        let locations :=
          match locs with VArr l => flat_map keepLocation l | _ => [] end in
        prefs <- prop response "preferences" ;;
        let preferences :=
          match prefs with
          | VObj p => p
          | VArr l => indexed 0 l
          | _ => []
          end in
        let mode := get_field "transportMode" preferences in
        let preferences :=
          set_field "avoidFerries" (VBool (is_true (get_field "avoidFerries" preferences)))
            (set_field "avoidHighways" (VBool (is_true (get_field "avoidHighways" preferences)))
               (set_field "avoidTolls" (VBool (is_true (get_field "avoidTolls" preferences)))
                  (set_field "transportMode"
                     (if to_bool mode then mode else VStr (str "driving"))
                     preferences))) in
        Ok {| r_locations := locations; r_preferences := preferences |}
    | _ => Throw TypeError
    end.

Definition preferencesValue (p : Preferences) : obj :=
  [("transportMode", VStr (transportMode p)); ("avoidTolls", VBool (avoidTolls p));
   ("avoidHighways", VBool (avoidHighways p));
   ("avoidFerries", VBool (avoidFerries p))]%string.

(** The object with the properties [locations] and [preferences]. *)
Definition resultObject (r : Result) : obj :=
  [("locations", VArr (map VStr (r_locations r)));
   ("preferences", VObj (r_preferences r))]%string.

Definition resultOfRegex (r : RegexResult) : Result :=
  {| r_locations := locations r; r_preferences := preferencesValue (preferences r) |}.

Section Pipeline.

Variable gemini_call : jstring -> res response.
Variable gemini_prompt : jstring -> res response.
Variable JSON_parse : jstring -> res value.

(** Lines 2066-2117; the loops over the parts are those of nlp.js. *)
Definition fetchGeminiWithFunctionCalling (query : jstring) : res value :=
  response <- gemini_call query ;;
  if negb (ok response) then Throw (Error "Gemini API error") else
  data <- json response ;;
  parts <- Nlp.partsOf data ;;
  found <-
    match parts with
    | Some parts =>
        l <- Nlp.iterate parts ;;
        call <- Nlp.findFunctionCall l ;;
        match call with
        | Some v => Ok (Some v)
        | None => Nlp.findJsonText JSON_parse l
        end
    | None => Ok None
    end ;;
  match found with
  | Some v => Ok v
  | None => Throw (Error "Could not extract structured data from Gemini response")
  end.

(** [m && m[1]] *)
Definition group1 (m : option rmatch) : option jstring :=
  match m with
  | Some m => match grp m 1 with
              | Some g => if truthy g then Some g else None
              | None => None
              end
  | None => None
  end.

(** Lines 2124-2175. *)
Definition fetchGeminiResponse (query : jstring) : res value :=
  response <- gemini_prompt query ;;
  if negb (ok response) then Throw (Error "Gemini API error") else
  data <- json response ;;
  parts <- Nlp.partsOf data ;;
  p0 <- match parts with
        | Some parts => idx parts 0
        | None => Ok VUndef
        end ;;
  if is_some parts && to_bool p0 then
    textResponse <- prop p0 "text" ;;
    try_catch
      (match textResponse with
       | VStr t =>
           match group1 (exec cs Nlp.fenced_json t) with
           | Some g => JSON_parse (trim g)
           | None =>
               match group1 (exec cs Nlp.braces t) with
               | Some g => JSON_parse (trim g)
               | None => JSON_parse (trim t)
               end
           end
       | _ => Throw TypeError
       end)
      (fun error => Throw (Error "Could not parse Gemini response as JSON"))
  else Throw (Error "Invalid response format from Gemini API").

(** Lines 2014-2059. *)
Definition processNaturalLanguage (query : jstring) : res Result :=
  try_catch
    (response <- fetchGeminiWithFunctionCalling query ;;
     validateAndFormatResponse response)
    (fun error =>
       try_catch
         (response <- fetchGeminiResponse query ;;
          validateAndFormatResponse response)
         (fun secondError => Ok (resultOfRegex (extractLocationsWithRegex query)))).

End Pipeline.

End NlpSecure.

(** ** script.js *)

Module Script.

Import Enhanced.

Definition commonCities : list jstring := map str
  ["New York"; "Los Angeles"; "San Francisco"; "Las Vegas"; "San Diego";
   "Washington DC"; "New Orleans"; "San Jose"; "Saint Louis"; "St Louis";
   "Mexico City"; "New Delhi"; "Hong Kong"; "Rio de Janeiro"; "Buenos Aires";
   "Tel Aviv"; "St Petersburg"; "Central Park"; "Times Square"]%string.

(** Lines 514-540; [None] is [null]. *)
Definition matchPartialCityName (partialName : jstring) (cityList : list jstring)
  : option jstring :=
  if negb (truthy partialName) then None else
  let cleaned := toLowerCase (trim partialName) in
  match find (fun city => text_eqb (toLowerCase city) cleaned) cityList with
  | Some city => Some city
  | None =>
      find (fun city =>
              let cityWords := split cs (plus sp) (toLowerCase city) in
              (1 <? length cityWords) &&
              match cityWords with
              | w0 :: _ => text_eqb w0 cleaned
              | [] => false
              end)
           cityList
  end.

(** [matchPartialCityName(x, commonCities) || x] *)
Definition fullName (x : jstring) : jstring :=
  match matchPartialCityName x commonCities with
  | Some city => if truthy city then city else x
  | None => x
  end.

(** (?:$|\.|\s+via\s+|\s+through\s+) *)
Definition stop_end : regex :=
  alt [Eol; lit "."; seq [plus sp; lit "via"; plus sp];
       seq [plus sp; lit "through"; plus sp]].

(** /(?:walking|driving|cycling|biking)?\s*route\s+(?:from\s+)?(.*?)\s+to\s+(.*?)(?:$|\.|\s+via\s+|\s+through\s+)/i *)
Definition specificRoutePattern : regex :=
  seq [opt (alt [lit "walking"; lit "driving"; lit "cycling"; lit "biking"]);
       star sp; lit "route"; plus sp; opt (seq [lit "from"; plus sp]);
       Grp 1 (star_lazy dot); plus sp; lit "to"; plus sp; Grp 2 (star_lazy dot);
       stop_end].

(** /(?:from|in)\s+(.*?)\s+to\s+(.*?)(?:$|\.|\s+via\s+|\s+through\s+)/i *)
Definition fromToPattern : regex :=
  seq [alt [lit "from"; lit "in"]; plus sp; Grp 1 (star_lazy dot); plus sp;
       lit "to"; plus sp; Grp 2 (star_lazy dot); stop_end].

(** /^(.*?)\s+to\s+(.*?)(?:$|\.|\s+via\s+|\s+through\s+)/i *)
Definition toPattern : regex :=
  seq [Bol; Grp 1 (star_lazy dot); plus sp; lit "to"; plus sp;
       Grp 2 (star_lazy dot); stop_end].

(** /[.!?]+$/ *)
Definition trailing_marks : regex := seq [plus (oneof ".!?"); Eol].
(** /^[\s,;:]+/ *)
Definition leading_separators : regex :=
  seq [Bol; plus (Chr [CS; CC ","; CC ";"; CC ":"])].
(** /[\s,;:.!?]+$/ *)
Definition trailing_separators : regex :=
  seq [plus (Chr [CS; CC ","; CC ";"; CC ":"; CC "."; CC "!"; CC "?"]); Eol].
(** /^(walking|driving|cycling|route|path|directions?)\s+/i *)
Definition first_prefix : regex :=
  seq [Bol; Grp 1 (alt [lit "walking"; lit "driving"; lit "cycling"; lit "route";
                        lit "path"; seq [lit "direction"; opt (lit "s")]]);
       plus sp].
(** /[,.?!:;]+$/ *)
Definition trailing_punct_all : regex := seq [plus (oneof ",.?!:;"); Eol].

(** A two-stop pattern: [m && m[1] && m[2]], then the two names. *)
Definition twoStops (pattern : regex) (normalizedText : jstring)
  : option (list jstring) :=
  match exec ci pattern normalizedText with
  | Some m =>
      if truthy (grp_str m 1) && truthy (grp_str m 2) then
        Some [fullName (trim (grp_str m 1)); fullName (trim (grp_str m 2))]
      else None
  | None => None
  end.

(** Lines 430-456: several waypoints after "from". *)
Definition multiWaypoints (normalizedText : jstring) : option (list jstring) :=
  if includes (toLowerCase normalizedText) (str "from") &&
     (2 <=? length (matchAll ci word_to normalizedText)) then
    match split ci word_from (toLowerCase normalizedText) with
    | _ :: afterFrom :: _ =>
        let parts := split ci word_to afterFrom in
        if 2 <=? length parts then
          let waypoints :=
            filter (fun part => 0 <? length part)
              (map (fun part => replace cs trailing_separators erase
                                  (replace cs leading_separators erase (trim part)))
                   parts) in
          Some (map fullName waypoints)
        else None
    | _ => None
    end
  else None.

(** Lines 474-503: the split on " to ". *)
Definition lastResort (normalizedText : jstring) : option (list jstring) :=
  let parts := split ci ws_to_ws normalizedText in
  if 2 <=? length parts then
    let cleanedParts :=
      filter (fun p => 0 <? length p)
        (map (fun part =>
                let cleaned := trim part in
                let cleaned :=
                  if text_eqb part (hd [] parts) then
                    let cleaned :=
                      if startsWith (toLowerCase cleaned) (str "from ")
                      then trim (substring 5 cleaned) else cleaned in
                    trim (replace ci first_prefix erase cleaned)
                  else cleaned in
                trim (replace cs trailing_punct_all erase cleaned))
             parts) in
    Some (map fullName cleanedParts)
  else None.

(** Lines 380-506. *)
Definition extractBasicRouteLocations (text : jstring) : list jstring :=
  if negb (truthy text) then [] else
  let normalizedText := trim (replace cs trailing_marks erase (trim text)) in
  match twoStops specificRoutePattern normalizedText with
  | Some l => l
  | None =>
  match twoStops fromToPattern normalizedText with
  | Some l => l
  | None =>
  match multiWaypoints normalizedText with
  | Some l => l
  | None =>
  match twoStops toPattern normalizedText with
  | Some l => l
  | None =>
  match lastResort normalizedText with
  | Some l => l
  | None => []
  end end end end end.

(** Lines 252-263: the result adapted from the object of
    [extractLocationsWithRegex]. *)
Definition adaptedResult (regexResult : NlpRegex.RegexResult) : ExtractionResult :=
  let p := NlpRegex.preferences regexResult in
  {| isRouteRequest := true;
     locations := map plain (NlpRegex.locations regexResult);
     travelMode := if truthy (NlpRegex.transportMode p)
                   then NlpRegex.transportMode p else str "driving";
     preferences :=
       (if NlpRegex.avoidTolls p then [str "avoid tolls"] else []) ++
       (if NlpRegex.avoidHighways p then [str "avoid highways"] else []) ++
       (if NlpRegex.avoidFerries p then [str "avoid ferries"] else []);
     message := str "Creating a route between " ++
                join (str " and ") (NlpRegex.locations regexResult);
     suggestedSequence := NlpRegex.locations regexResult |}.

(** Lines 272-279. *)
Definition basicResult (basicLocations : list jstring) : ExtractionResult :=
  {| isRouteRequest := true;
     locations := map plain basicLocations;
     travelMode := str "driving";
     preferences := [];
     message := str "Creating a route between " ++ join (str " and ") basicLocations;
     suggestedSequence := basicLocations |}.

(** Lines 240-285: the [catch] of the click handler, reached when the
    pipeline is slower than the timer.  [None]: the message asking for a
    more specific request. *)
Definition timeoutFallback (inputValue : jstring) : res (option ExtractionResult) :=
  regexResult <- NlpRegex.extractLocationsWithRegex inputValue ;;
  match regexResult with
  | Some r =>
      if 2 <=? length (NlpRegex.locations r) then Ok (Some (adaptedResult r))
      else
        let basicLocations := extractBasicRouteLocations inputValue in
        Ok (if 2 <=? length basicLocations then Some (basicResult basicLocations)
            else None)
  | None =>
      let basicLocations := extractBasicRouteLocations inputValue in
      Ok (if 2 <=? length basicLocations then Some (basicResult basicLocations)
          else None)
  end.

(** What [handleProcessedResult] does with a result. *)
Inductive display :=
| NoLocationsFound                      (* the "No locations were found" message *)
| DrawRoute (routeLocations : value) (travelMode : value)
| ShowChips (locations : value)         (* chips and markers, no route *)
| Nothing.

(** [v.length] of an array or a string, as a number. *)
Definition lengthOf (v : value) : option nat :=
  match v with
  | VArr l => Some (length l)
  | VStr s => Some (length s)
  | _ => None
  end.

Definition atLeast (n : nat) (v : value) : bool :=
  match lengthOf v with Some k => n <=? k | None => false end.

(** Lines 299-365. *)
Definition handleProcessedResult (result : outcome) : display :=
  let locs := out_locations result in
  if negb (to_bool locs) ||
     match lengthOf locs with Some 0 => true | _ => false end
  then NoLocationsFound
  else
    let locationNames := names locs in
    if to_bool (out_isRouteRequest result) && (2 <=? length locationNames) then
      let sequence := out_suggestedSequence result in
      DrawRoute (if to_bool sequence && atLeast 2 sequence then sequence
                 else VArr locationNames)
                (if to_bool (out_travelMode result) then out_travelMode result
                 else VStr (str "driving"))
    else if 0 <? length locationNames then ShowChips locs
    else Nothing.

End Script.

(** ** scripts-04.js: the classifier of getRouteCoordinates
    (scripts-03.js, lines 119-146 and 184-186, has the same code) *)

Module Scripts04.

(** The first argument of [getRouteCoordinates]: a text, or an array of
    location names. *)
Inductive input :=
| Text (s : jstring)
| Names (l : list jstring).

(** [input.toString()] *)
Definition toString (i : input) : jstring :=
  match i with
  | Text s => s
  | Names l => join (str ",") l
  end.

(** Lines 171-188: the locations of a text and whether it starts with
    "from ". *)
Definition extractLocations (input : jstring) : list jstring * bool :=
  let inputString := trim (replace cs Script.trailing_marks erase (trim input)) in
  let startsWithFrom := startsWith (toLowerCase inputString) (str "from ") in
  let inputString :=
    if startsWithFrom then trim (substring 5 inputString) else inputString in
  (filter (fun location => 0 <? length location)
          (map trim (split ci Enhanced.ws_to_ws inputString)),
   startsWithFrom).

(** Lines 199-202: the classification before geocoding. *)
Definition isRouteRequestBefore (input : jstring) : bool :=
  let (locations, startsWithFrom) := extractLocations input in
  let hasToKeyword := includes (toLowerCase input) (str " to ") in
  (1 <? length locations) || startsWithFrom || hasToKeyword.

(** Lines 360-362: the classification after geocoding, [coordinates] being
    the number of geocoded locations. *)
Definition isRouteRequestAfter (i : input) (coordinates : nat) : bool :=
  let startsWithFrom :=
    startsWith (trim (toLowerCase (toString i))) (str "from ") in
  let hasToKeyword := includes (toLowerCase (toString i)) (str " to ") in
  (1 <? coordinates) || startsWithFrom || hasToKeyword.

End Scripts04.

(** * Vocabulary of the statements *)

Unset Implicit Arguments.

(** [x] occurs in [s]. *)
Definition occurs (x s : jstring) : Prop := exists a b, s = a ++ x ++ b.

(** A result of the matcher is a later (forward) or earlier (backward)
    position of the same input. *)
Definition ext (d : dir) (s y : mstate) : Prop :=
  match d with
  | Fwd => exists m, suf s = m ++ suf y /\ pre y = rev m ++ pre s
  | Bwd => exists m, pre s = m ++ pre y /\ suf y = rev m ++ suf s
  end.

(** The iterations of a quantifier. *)
Inductive iter (body : mstate -> list mstate) (gs : list nat)
  : mstate -> mstate -> Prop :=
| iter_done s : iter body gs s s
| iter_more s y z :
    In y (body (reset gs s)) -> iter body gs y z -> iter body gs s z.

Definition has_group (n : nat) (r : regex) : bool := existsb (Nat.eqb n) (groups r).

(** [defines n r]: every match of [r] sets group [n]. *)
Fixpoint defines (n : nat) (r : regex) : bool :=
  match r with
  | Eps | Chr _ | Bol | Eol | WordB => false
  | Seq a b => (defines n a && negb (has_group n b)) ||
               (defines n b && negb (has_group n a))
  | Alt a b => defines n a && defines n b
  | Rep min max _ r' =>
      negb (min =? 0) && negb (match max with Some 0 => true | _ => false end)
      && defines n r'
  | Grp k r' => (k =? n) || defines n r'
  | Ahead r' | Behind r' => defines n r'
  end.

Ltac ok := eexists; reflexivity.


(** A language model that cannot be reached, and a [JSON.parse] that
    rejects every text. *)
Definition down : jstring -> res response := fun _ => Throw NetworkError.
Definition unparsable : jstring -> res value := fun _ => Throw SyntaxError.

(** [l1] is [l2] with some elements left out, the order kept. *)
Inductive subsequence {A : Type} : list A -> list A -> Prop :=
| sub_nil : subsequence [] []
| sub_skip x l1 l2 : subsequence l1 l2 -> subsequence l1 (x :: l2)
| sub_keep x l1 l2 : subsequence l1 l2 -> subsequence (x :: l1) (x :: l2).


(** ** Sample answers of the language model *)

Definition quoted (s : string) : jstring :=
  Enhanced.double_quote :: str s ++ [Enhanced.double_quote].

(** An endpoint that answers every request with one candidate whose first
    part is [text]. *)
Definition answers (text : jstring) : jstring -> res response :=
  fun _ =>
    Ok {| ok := true; status := 200;
          json := Ok (VObj [("candidates",
                     VArr [VObj [("content",
                       VObj [("parts", VArr [VObj [("text", VStr text)]])])]])]%string) |}.

(** [JSON.parse] on the one text that the samples need. *)
Definition parses (text : jstring) (v : value) : jstring -> res value :=
  fun s => if text_eqb s text then Ok v else Throw SyntaxError.

(** The answer
    {"isRouteRequest": false, "locations": ["Rome", "Paris"],
     "travelMode": "bus", "suggestedSequence": ["Paris", "Rome"]}
    and its parse. *)
Definition sampleAnswer : jstring :=
  str "{" ++ quoted "isRouteRequest" ++ str ": false, " ++
  quoted "locations" ++ str ": [" ++ quoted "Rome" ++ str ", " ++
  quoted "Paris" ++ str "], " ++
  quoted "travelMode" ++ str ": " ++ quoted "bus" ++ str ", " ++
  quoted "suggestedSequence" ++ str ": [" ++ quoted "Paris" ++ str ", " ++
  quoted "Rome" ++ str "]}".

Definition sampleValue : value :=
  VObj [("isRouteRequest", VBool false);
        ("locations", VArr [VStr (str "Rome"); VStr (str "Paris")]);
        ("travelMode", VStr (str "bus"));
        ("suggestedSequence", VArr [VStr (str "Paris"); VStr (str "Rome")])]%string.

(** The stages that can produce the outcome [o] for the input [t]. *)
Definition shortcut_outcome (t : jstring) (o : Enhanced.outcome) : Prop :=
  (exists w, 2 <= length w /\ o = Enhanced.Built (Enhanced.multiStop t w)) \/
  (exists mode intro a b,
      In mode (map str ["walking"; "cycling"; "driving"]%string) /\ intro <> [] /\
      o = Enhanced.Built (Enhanced.twoStops mode intro a b)) \/
  o = Enhanced.Built Enhanced.gibbonResult.

Definition fallback_result (t : jstring) (r : Enhanced.ExtractionResult) : Prop :=
  r = Enhanced.gibbonResult \/
  r = Enhanced.extractLocationsFromParagraph t \/
  (exists w, 2 <= length w /\
     r = {| Enhanced.isRouteRequest := true;
            Enhanced.locations := map Enhanced.plain w;
            Enhanced.travelMode := Enhanced.fallbackMode t;
            Enhanced.preferences := [];
            Enhanced.message := str "Creating a route with multiple stops: " ++
                                join (str " → ") w;
            Enhanced.suggestedSequence := w |}) \/
  (exists basic, Enhanced.extractLocationsBasic t = Ok basic /\
     Enhanced.isRouteRequest r = test ci Enhanced.routingKeywords t /\
     Enhanced.locations r = map Enhanced.plain basic /\
     Enhanced.travelMode r = Enhanced.fallbackMode t /\
     Enhanced.preferences r = [] /\
     Enhanced.suggestedSequence r = basic).

(** ** Characters and what a pattern must consume *)

Definition all_ascii : list ascii := map ascii_of_nat (List.seq 0 256).

(** [consumes ic P r]: every match of [r] contains a character in [P]. *)
Fixpoint consumes (icase : bool) (P : ascii -> bool) (r : regex) : bool :=
  match r with
  | Chr cs => forallb (fun c => implb (class_mem icase cs c) (P c)) all_ascii
  | Seq a b => consumes icase P a || consumes icase P b
  | Alt a b => consumes icase P a && consumes icase P b
  | Rep min max _ r' =>
      negb (min =? 0) && negb (match max with Some 0 => true | _ => false end)
      && consumes icase P r'
  | Grp _ r' => consumes icase P r'
  | Eps | Bol | Eol | WordB | Ahead _ | Behind _ => false
  end.

(** The text that the matcher went over between two states. *)
Definition consumed (d : dir) (s y : mstate) (m : jstring) : Prop :=
  match d with
  | Fwd => suf s = m ++ suf y /\ pre y = rev m ++ pre s
  | Bwd => pre s = m ++ pre y /\ suf y = rev m ++ suf s
  end.

(** No character of [s] is in [P]. *)
Definition free_of (P : ascii -> bool) (s : jstring) : Prop :=
  Forall (fun c => P c = false) s.

Definition space_or_comma (c : ascii) : bool := is_space c || ascii_eqb c ",".

(** ** The classifier, in the words of the spec *)

(** Follows the words of the spec: true if the count is greater than 1, or
    the text, ignoring case, starts with "from ", or the text contains the
    word "to" between two white-space characters. *)
Definition classify_spec (text : jstring) (count : nat) : bool :=
  (1 <? count) || startsWith (toLowerCase text) (str "from ") ||
  test ci (Regex.seq [sp; lit "to"; sp]) text.

Definition tab : ascii := "009"%char.

Definition prefix_of (a b : jstring) : Prop := exists c, b = a ++ c.

(** After leading white space comes "from " and then something that is not
    all white space. *)
Definition starts_with_from (s : jstring) : Prop :=
  exists ws rest,
    s = ws ++ str "from " ++ rest /\
    Forall (fun c => is_space c = true) ws /\
    Exists (fun c => is_space c = false) rest.

(** ** Words in a text *)

(** [w] matches a prefix of [s], character by character (with the [i]
    flag when [icase] is set). *)
Fixpoint prefix_ci (icase : bool) (w s : jstring) : bool :=
  match w, s with
  | [], _ => true
  | x :: w', c :: s' => class_mem icase [CC x] c && prefix_ci icase w' s'
  | _ :: _, [] => false
  end.

(** The word [w] stands at a position: [p] is the text before the position,
    reversed, [s] the text from it on; no word character right before,
    [w] ignoring case, no word character right after. *)
Definition word_here (w p s : jstring) : bool :=
  negb (word_before (MS p s [])) && prefix_ci true w s &&
  negb (word_after (MS p (skipn (length w) s) [])).

(** /\bw\b/i for a word [w]. *)
Definition word_pattern (w : jstring) : regex :=
  Seq WordB (Seq (lit_chars w) WordB).

(** A word of lower-case ASCII letters. *)
Definition lower_word (w : jstring) : Prop :=
  w <> [] /\ Forall (fun x => is_lower x = true) w.

(** ** Names *)

(** A name that the multi-waypoint shortcut returns as it is: not empty,
    without white space around it, without a punctuation mark of
    [,.!?;] at its end, and without the words "to" and "from". *)
Definition waypoint_name (n : jstring) : bool :=
  truthy n && text_eqb (trim n) n &&
  text_eqb (replace cs Enhanced.trailing_punct1 erase n) n &&
  negb (test ci Enhanced.word_to n) && negb (test ci Enhanced.word_from n).

(** The pieces of names joined by " to ", when the text is cut at the word
    "to"; [piece] is what precedes the first name in its piece. *)
Fixpoint chain (piece : jstring) (names : list jstring) : list jstring :=
  match names with
  | [] => [piece]
  | [n] => [piece ++ n]
  | n :: rest => (piece ++ n ++ str " ") :: chain (str " ") rest
  end.

(** The text has no standalone word "to" (or "from"). *)
Definition no_to (n : jstring) : Prop := test ci Enhanced.word_to n = false.
Definition no_from (n : jstring) : Prop := test ci Enhanced.word_from n = false.

(** The word "from" as the examples of the sources write it. *)
Definition from_word (F : jstring) : Prop :=
  In F [str "from"; str "From"; str "FROM"].

(** Every white-space character of the text is a space that is followed
    by a character that is not white space. *)
Fixpoint single_spaced (s : jstring) : bool :=
  match s with
  | [] => true
  | c :: s' =>
      (negb (is_space c) ||
       (ascii_eqb c " " &&
        match s' with d :: _ => negb (is_space d) | [] => false end)) &&
      single_spaced s'
  end.

(** A name that the split on " to " returns as it is: not empty, without
    white space around it, its words separated by single spaces, without
    the words "to" and "from", and not starting with a word that
    [extractLocationsWithRegex] strips from a part. *)
Definition place_name (n : jstring) : bool :=
  truthy n && text_eqb (trim n) n && single_spaced n &&
  negb (test ci Enhanced.word_to n) && negb (test ci Enhanced.word_from n) &&
  text_eqb (replace ci NlpRegex.part_prefix erase n) n.

(** What may follow a name after the first: nothing, or one punctuation
    mark of [,.!?;]. *)
Definition mark (q : jstring) : bool :=
  match q with
  | [] => true
  | [c] => class_mem cs (map CC (str ",.!?;")) c
  | _ => false
  end.

(** A stop after the first: a name and what follows it. *)
Definition stop_text (s : jstring * jstring) : jstring := fst s ++ snd s.

Definition stop_ok (s : jstring * jstring) : bool :=
  waypoint_name (fst s) && mark (snd s).

(** What may precede "from": nothing, or a text that ends with white space
    and has neither the word "to" nor the word "from". *)
Definition lead (P : jstring) : bool :=
  match rev P with [] => true | c :: _ => is_space c end &&
  negb (test ci Enhanced.word_to P) && negb (test ci Enhanced.word_from P).

(** A second name that /^(.*?)\s+to\s+(.*?)(?:$|\.|\s+via\s+|\s+through\s+)/i
    takes whole: without the marks . ! ? and without the words "via" and
    "through". *)
Definition whole_name (n : jstring) : bool :=
  forallb (fun c => negb (class_mem cs (map CC (str ".!?")) c)) n &&
  negb (test ci (word_pattern (str "via")) n) &&
  negb (test ci (word_pattern (str "through")) n).

(** The first result of the matcher. *)
Definition heads {A} (y : A) (l : list A) : Prop := exists tail, l = y :: tail.

(** [T] only matches in front of white space. *)
Definition needs_space (T : regex) : Prop :=
  forall s, run ci Fwd T s <> [] ->
            exists c t, suf s = c :: t /\ is_space c = true.

(** What is left of the input in the direction of the match. *)
Definition room (d : dir) (s : mstate) : nat :=
  match d with
  | Fwd => length (suf s)
  | Bwd => length (pre s)
  end.

(** The state is a position of the text [t]. *)
Definition at_text (t : jstring) (s : mstate) : Prop := rev (pre s) ++ suf s = t.

(** A first name in which neither "route", "from" nor "in" is followed by
    white space: the patterns that [extractBasicRouteLocations] tries
    before /^(.*?)\s+to\s+.../i start with one of these. *)
Definition clear_name (n : jstring) : bool :=
  negb (test ci (Seq (lit "route") sp) n) &&
  negb (test ci (Seq (lit "from") sp) n) &&
  negb (test ci (Seq (lit "in") sp) n).

(** ** Cleaning *)

(** /[...]+$/ for a class of characters. *)
Definition trailing (cls : list cclass) : regex := Seq (plus (Chr cls)) Eol.

(** The text ends with a character of the class. *)
Definition ends_in (cls : list cclass) (s : jstring) : bool :=
  match rev s with
  | c :: _ => class_mem cs cls c
  | [] => false
  end.

(** The text ends with white space. *)
Definition ends_with_space (s : jstring) : bool :=
  match rev s with
  | c :: _ => is_space c
  | [] => false
  end.

(** ** Stops of a text "A to B to C" *)

(** A stop: not empty, without white space around it, its words separated
    by single spaces, and without the standalone word "to". *)
Definition stop_name (n : jstring) : bool :=
  truthy n && text_eqb (trim n) n && single_spaced n &&
  negb (test ci Enhanced.word_to n).

(** The last stop of a list. *)
Definition last_stop (names : list jstring) : jstring := last names [].

(** Marks . ! ? only. *)
Definition end_marks (q : jstring) : bool :=
  forallb (class_mem cs (map CC (str ".!?"))) q.

(** ** Locations of a model answer *)


(** ** The second name of /...\s+to\s+(.*?)(?:\s|$|\.|,)/i *)

(** A character that ends the name: white space, a full stop or a comma. *)
Definition name_end (c : ascii) : bool :=
  is_space c || ascii_eqb c "." || ascii_eqb c ",".

(** [Y] is the first word of the text [Y ++ q]: it is not empty, has none
    of these characters, and one of them or nothing follows it. *)
Definition first_word (Y q : jstring) : bool :=
  truthy Y && forallb (fun c => negb (name_end c)) Y &&
  match q with
  | [] => true
  | c :: _ => name_end c
  end.

(** (?:\s|$|\.|,) *)
Definition name_stop : regex := alt [sp; Eol; lit "."; lit ","].

(** ** Answers of the language model *)

Definition backtick : ascii := "`"%char.

(** The tag after the opening fence: "json", or nothing when the text
    does not go on with the letter j. *)
Definition fence_tag (J rest : jstring) : Prop :=
  J = str "json" \/
  (J = [] /\ match rest with c :: _ => c <> "j"%char | [] => True end).

(** A text without the character [c]. *)
Definition without (c : ascii) (s : jstring) : Prop :=
  Forall (fun x => x <> c) s.

(** * Facts *)

(** ** Strings *)

Lemma ascii_eqb_eq (a b : ascii) : ascii_eqb a b = true <-> a = b.
Proof.
  unfold ascii_eqb, code. rewrite N.eqb_eq. split.
  - intros H. rewrite <- (ascii_N_embedding a), <- (ascii_N_embedding b).
    now rewrite H.
  - now intros ->.
Qed.

Lemma ascii_eqb_refl (a : ascii) : ascii_eqb a a = true.
Proof. now apply ascii_eqb_eq. Qed.

Lemma text_eqb_eq (a b : jstring) : text_eqb a b = true <-> a = b.
Proof.
  revert b. induction a as [|x a IH]; intros [|y b]; simpl; try easy.
  rewrite andb_true_iff, ascii_eqb_eq, IH. split.
  - now intros [-> ->].
  - intros H. now inversion H.
Qed.

Lemma text_eqb_refl (a : jstring) : text_eqb a a = true.
Proof. now apply text_eqb_eq. Qed.

Lemma mem_In (x : jstring) (l : list jstring) : mem x l = true <-> In x l.
Proof.
  unfold mem. rewrite existsb_exists. split.
  - intros [y [Hy E]]. apply text_eqb_eq in E. now subst.
  - intros H. exists x. split; [assumption | apply text_eqb_refl].
Qed.

Lemma startsWith_spec (s p : jstring) :
  startsWith s p = true <-> exists b, s = p ++ b.
Proof.
  revert s. induction p as [|x p IH]; intros s.
  - destruct s; simpl; (split; [intros _; eexists; reflexivity | easy]).
  - destruct s as [|y s]; simpl.
    + split; [easy | intros [b Hb]; discriminate].
    + rewrite andb_true_iff, ascii_eqb_eq, IH. split.
      * intros [-> [b ->]]. now exists b.
      * intros [b Hb]. inversion Hb. split; [reflexivity | now exists b].
Qed.

Lemma includes_spec (s p : jstring) : includes s p = true <-> occurs p s.
Proof.
  induction s as [|c s IH].
  - change (includes [] p) with (startsWith [] p || false).
    rewrite orb_false_r, startsWith_spec. split.
    + intros [b Hb]. now exists [], b.
    + intros [a [b H]]. destruct a; [now exists b | discriminate].
  - change (includes (c :: s) p) with (startsWith (c :: s) p || includes s p).
    rewrite orb_true_iff, startsWith_spec, IH. split.
    + intros [[b Hb] | [a [b Hb]]].
      * now exists [], b.
      * exists (c :: a), b. now rewrite Hb.
    + intros [a [b H]]. destruct a as [|c' a].
      * left. now exists b.
      * right. inversion H. now exists a, b.
Qed.

Lemma occurs_trans (x y z : jstring) : occurs x y -> occurs y z -> occurs x z.
Proof.
  intros [a [b ->]] [a' [b' ->]]. exists (a' ++ a), (b ++ b').
  now rewrite !app_assoc.
Qed.

Lemma occurs_lower (x s : jstring) :
  occurs x s -> occurs (toLowerCase x) (toLowerCase s).
Proof.
  intros [a [b ->]]. exists (toLowerCase a), (toLowerCase b).
  unfold toLowerCase. now rewrite !map_app.
Qed.

(** A lower-cased part contains what the lower-cased whole does not. *)
Lemma includes_lower_part (x s w : jstring) :
  occurs x s -> includes (toLowerCase s) w = false ->
  includes (toLowerCase x) w = false.
Proof.
  intros Hx Hs. destruct (includes (toLowerCase x) w) eqn:E; [|reflexivity].
  apply includes_spec in E.
  assert (H : includes (toLowerCase s) w = true).
  { apply includes_spec. eapply occurs_trans; [exact E|]. now apply occurs_lower. }
  congruence.
Qed.

(** ** The matcher *)

Section MatcherFacts.

Variable icase : bool.

Lemma ext_refl d s : ext d s s.
Proof. destruct d; now exists []. Qed.

Lemma ext_same d s y : pre y = pre s -> suf y = suf s -> ext d s y.
Proof. intros Hp Hs. destruct d; exists []; simpl; now rewrite Hp, Hs. Qed.

Lemma ext_trans d s y z : ext d s y -> ext d y z -> ext d s z.
Proof.
  destruct d; intros [m [H1 H2]] [m' [H3 H4]]; exists (m ++ m').
  - rewrite H1, H3, H4, H2, rev_app_distr, !app_assoc. now split.
  - rewrite H1, H3, H4, H2, rev_app_distr, !app_assoc. now split.
Qed.

Lemma ext_from d s s' y :
  pre s' = pre s -> suf s' = suf s -> ext d s' y -> ext d s y.
Proof. intros Hp Hs. destruct d; simpl; now rewrite Hp, Hs. Qed.

Lemma ext_to d s y y' :
  pre y' = pre y -> suf y' = suf y -> ext d s y -> ext d s y'.
Proof. intros Hp Hs. destruct d; simpl; now rewrite Hp, Hs. Qed.

Lemma rep_loop_iter body gs greedy fuel :
  forall min max s z,
    In z (rep_loop body gs greedy fuel min max s) -> iter body gs s z.
Proof.
  induction fuel as [|fuel IH]; intros min max s z Hz.
  - simpl in Hz. destruct max as [[|m]|]; simpl in Hz; try easy.
    destruct Hz as [<-|[]]. constructor.
  - simpl in Hz.
    assert (Hiter : forall l,
      In z (flat_map (fun y => if (min =? 0) && (pos y =? pos s) then []
                               else rep_loop body gs greedy fuel (pred min)
                                             (option_map pred max) y) l) ->
      (forall y, In y l -> In y (body (reset gs s))) -> iter body gs s z).
    { intros l Hl Hsub. apply in_flat_map in Hl. destruct Hl as [y [Hy Hin]].
      destruct ((min =? 0) && (pos y =? pos s)); [easy|].
      eapply iter_more; [apply Hsub; exact Hy | eapply IH; exact Hin]. }
    destruct max as [[|m]|].
    + destruct Hz as [<-|[]]. constructor.
    + destruct (negb (min =? 0)).
      * eapply Hiter; [exact Hz | auto].
      * destruct greedy.
        -- apply in_app_or in Hz. destruct Hz as [Hz|[<-|[]]].
           ++ eapply Hiter; [exact Hz | auto].
           ++ constructor.
        -- destruct Hz as [<-|Hz]; [constructor|].
           eapply Hiter; [exact Hz | auto].
    + destruct (negb (min =? 0)).
      * eapply Hiter; [exact Hz | auto].
      * destruct greedy.
        -- apply in_app_or in Hz. destruct Hz as [Hz|[<-|[]]].
           ++ eapply Hiter; [exact Hz | auto].
           ++ constructor.
        -- destruct Hz as [<-|Hz]; [constructor|].
           eapply Hiter; [exact Hz | auto].
Qed.

(** With a minimum of one, there is a first iteration. *)
Lemma rep_loop_first body gs greedy fuel min max s z :
  min <> 0 -> max <> Some 0 ->
  In z (rep_loop body gs greedy fuel min max s) ->
  exists y, In y (body (reset gs s)) /\ iter body gs y z.
Proof.
  intros Hmin Hmax Hz. destruct fuel as [|fuel].
  - simpl in Hz. destruct max as [[|m]|]; simpl in Hz; easy.
  - simpl in Hz.
    assert (E : negb (min =? 0) = true).
    { apply negb_true_iff, Nat.eqb_neq. exact Hmin. }
    rewrite E in Hz.
    destruct max as [[|m]|]; try congruence;
      apply in_flat_map in Hz; destruct Hz as [y [Hy Hin]];
      (destruct ((min =? 0) && (pos y =? pos s)); [easy|]);
      exists y; (split; [exact Hy | eapply rep_loop_iter; exact Hin]).
Qed.

Lemma step_char_ext d p s y : In y (step_char d p s) -> ext d s y.
Proof.
  unfold step_char. destruct d.
  - destruct (suf s) as [|c rest] eqn:E; [easy|].
    destruct (p c); [|easy]. intros [<-|[]]. exists [c]. simpl. now rewrite E.
  - destruct (pre s) as [|c rest] eqn:E; [easy|].
    destruct (p c); [|easy]. intros [<-|[]]. exists [c]. simpl. now rewrite E.
Qed.

Lemma run_ext r : forall d s y, In y (run icase d r s) -> ext d s y.
Proof.
  induction r as [|cs|a IHa b IHb|a IHa b IHb|min max g r IH|n r IH| | |
                  |r IH|r IH]; intros d s y Hy; cbn [run] in Hy.
  - destruct Hy as [<-|[]]. apply ext_refl.
  - eapply step_char_ext; exact Hy.
  - destruct d; apply in_flat_map in Hy; destruct Hy as [x [Hx Hy]].
    + eapply ext_trans; [eapply IHa | eapply IHb]; eassumption.
    + eapply ext_trans; [eapply IHb | eapply IHa]; eassumption.
  - apply in_app_or in Hy. destruct Hy; [eapply IHa | eapply IHb]; eassumption.
  - apply rep_loop_iter in Hy. induction Hy as [s|s x z Hx _ IHz].
    + apply ext_refl.
    + eapply ext_trans; [|exact IHz].
      eapply ext_from; [| |eapply IH; exact Hx]; reflexivity.
  - apply in_map_iff in Hy. destruct Hy as [x [<- Hx]].
    eapply ext_to; [| |eapply IH; exact Hx]; reflexivity.
  - destruct (is_nil (pre s)); [|easy]. destruct Hy as [<-|[]]. apply ext_refl.
  - destruct (is_nil (suf s)); [|easy]. destruct Hy as [<-|[]]. apply ext_refl.
  - destruct (xorb _ _); [|easy]. destruct Hy as [<-|[]]. apply ext_refl.
  - destruct (run icase Fwd r s); [easy|]. destruct Hy as [<-|[]].
    now apply ext_same.
  - destruct (run icase Bwd r s); [easy|]. destruct Hy as [<-|[]].
    now apply ext_same.
Qed.

(** *** Captures *)

Lemma has_group_false n r : has_group n r = false -> ~ In n (groups r).
Proof.
  unfold has_group. intros H Hin.
  assert (E : existsb (Nat.eqb n) (groups r) = true).
  { apply existsb_exists. exists n. split; [exact Hin | apply Nat.eqb_refl]. }
  congruence.
Qed.

Lemma lookup_reset n gs s :
  ~ In n gs -> lookup n (caps (reset gs s)) = lookup n (caps s).
Proof.
  unfold reset. simpl. induction gs as [|g gs IH]; intros Hn; simpl; [easy|].
  destruct (g =? n) eqn:E.
  - apply Nat.eqb_eq in E. subst. exfalso. apply Hn. now left.
  - apply IH. intros H. apply Hn. now right.
Qed.

(** A match leaves the groups that are not its own as they were. *)
Lemma run_frame n r : forall d s y,
  In y (run icase d r s) -> ~ In n (groups r) ->
  lookup n (caps y) = lookup n (caps s).
Proof.
  induction r as [|cs|a IHa b IHb|a IHa b IHb|min max g r IH|k r IH| | |
                  |r IH|r IH]; intros d s y Hy Hn; cbn [run] in Hy;
    cbn [groups] in Hn.
  - destruct Hy as [<-|[]]. reflexivity.
  - unfold step_char in Hy. destruct d.
    + destruct (suf s); [easy|]. destruct (class_mem _ _ _); [|easy].
      now destruct Hy as [<-|[]].
    + destruct (pre s); [easy|]. destruct (class_mem _ _ _); [|easy].
      now destruct Hy as [<-|[]].
  - assert (Ha : ~ In n (groups a)) by (intros H; apply Hn, in_or_app; now left).
    assert (Hb : ~ In n (groups b)) by (intros H; apply Hn, in_or_app; now right).
    destruct d; apply in_flat_map in Hy; destruct Hy as [x [Hx Hy]].
    + rewrite (IHb _ _ _ Hy Hb). now apply (IHa _ _ _ Hx).
    + rewrite (IHa _ _ _ Hy Ha). now apply (IHb _ _ _ Hx).
  - assert (Ha : ~ In n (groups a)) by (intros H; apply Hn, in_or_app; now left).
    assert (Hb : ~ In n (groups b)) by (intros H; apply Hn, in_or_app; now right).
    apply in_app_or in Hy. destruct Hy as [Hy|Hy];
      [now apply (IHa _ _ _ Hy) | now apply (IHb _ _ _ Hy)].
  - apply rep_loop_iter in Hy. induction Hy as [s|s x z Hx _ IHz]; [reflexivity|].
    rewrite IHz, (IH _ _ _ Hx Hn). now apply lookup_reset.
  - apply in_map_iff in Hy. destruct Hy as [x [<- Hx]]. simpl.
    destruct (k =? n) eqn:E.
    + apply Nat.eqb_eq in E. exfalso. apply Hn. now left.
    + apply (IH _ _ _ Hx). intros H. apply Hn. now right.
  - destruct (is_nil (pre s)); [|easy]. now destruct Hy as [<-|[]].
  - destruct (is_nil (suf s)); [|easy]. now destruct Hy as [<-|[]].
  - destruct (xorb _ _); [|easy]. now destruct Hy as [<-|[]].
  - destruct (run icase Fwd r s) as [|x l] eqn:E; [easy|].
    destruct Hy as [<-|[]]. simpl. apply (IH Fwd s x); [|exact Hn].
    rewrite E. now left.
  - destruct (run icase Bwd r s) as [|x l] eqn:E; [easy|].
    destruct Hy as [<-|[]]. simpl. apply (IH Bwd s x); [|exact Hn].
    rewrite E. now left.
Qed.

(** The last state of a non-empty run of iterations is a result of the
    body. *)
Lemma iter_last body gs s z :
  iter body gs s z -> z = s \/ exists w, In z (body (reset gs w)).
Proof.
  induction 1 as [s|s y z Hy _ IH]; [now left|].
  right. destruct IH as [->|IH]; [now exists s | exact IH].
Qed.

Lemma run_defines n r : forall d s y,
  In y (run icase d r s) -> defines n r = true -> lookup n (caps y) <> None.
Proof.
  induction r as [|cs|a IHa b IHb|a IHa b IHb|min max g r IH|k r IH| | |
                  |r IH|r IH]; intros d s y Hy Hd; cbn [run] in Hy;
    cbn [defines] in Hd; try discriminate.
  - apply orb_true_iff in Hd.
    destruct Hd as [Hd|Hd]; apply andb_true_iff in Hd; destruct Hd as [Hd Hg];
      apply negb_true_iff, has_group_false in Hg;
      destruct d; apply in_flat_map in Hy; destruct Hy as [x [Hx Hy]].
    + rewrite (run_frame _ _ _ _ _ Hy Hg). now apply (IHa _ _ _ Hx).
    + now apply (IHa _ _ _ Hy).
    + now apply (IHb _ _ _ Hy).
    + rewrite (run_frame _ _ _ _ _ Hy Hg). now apply (IHb _ _ _ Hx).
  - apply andb_true_iff in Hd. destruct Hd as [Ha Hb].
    apply in_app_or in Hy. destruct Hy as [Hy|Hy];
      [now apply (IHa _ _ _ Hy) | now apply (IHb _ _ _ Hy)].
  - apply andb_true_iff in Hd. destruct Hd as [Hd Hr].
    apply andb_true_iff in Hd. destruct Hd as [Hmin Hmax].
    apply rep_loop_first in Hy.
    + destruct Hy as [x [Hx Hit]]. apply iter_last in Hit.
      destruct Hit as [->|[w Hw]].
      * now apply (IH _ _ _ Hx).
      * now apply (IH _ _ _ Hw).
    + apply negb_true_iff, Nat.eqb_neq in Hmin. exact Hmin.
    + intros ->. discriminate.
  - apply in_map_iff in Hy. destruct Hy as [x [<- Hx]]. simpl.
    destruct (k =? n) eqn:E; [discriminate|]. simpl in Hd.
    now apply (IH _ _ _ Hx).
  - destruct (run icase Fwd r s) as [|x l] eqn:E; [easy|].
    destruct Hy as [<-|[]]. simpl. apply (IH Fwd s x); [|exact Hd].
    rewrite E. now left.
  - destruct (run icase Bwd r s) as [|x l] eqn:E; [easy|].
    destruct Hy as [<-|[]]. simpl. apply (IH Bwd s x); [|exact Hd].
    rewrite E. now left.
Qed.

(** *** Matches *)

Lemma captured_fwd s y w :
  pre y = rev w ++ pre s -> captured Fwd s y = w.
Proof.
  intros Hp. unfold captured, pos. rewrite Hp, length_app, length_rev.
  replace (length w + length (pre s) - length (pre s)) with (length (rev w) + 0)
    by (rewrite length_rev; lia).
  rewrite firstn_app_2. simpl. now rewrite app_nil_r, rev_involutive.
Qed.

Lemma match_at_spec r p s m :
  match_at icase r p s = Some m ->
  m_pre m = p /\ s = m_0 m ++ m_rest m /\
  exists y, In y (run icase Fwd r (MS p s [])) /\ m_caps m = caps y.
Proof.
  unfold match_at. destruct (run icase Fwd r (MS p s [])) as [|y l] eqn:E;
    [discriminate|].
  intros H. inversion H. subst m. clear H. cbn [m_pre m_0 m_rest m_caps].
  assert (Hy : In y (run icase Fwd r (MS p s []))) by (rewrite E; now left).
  destruct (run_ext _ _ _ _ Hy) as [w [Hs Hp]]. simpl in Hs, Hp.
  split; [reflexivity|]. split.
  - change (s = captured Fwd (MS p s []) y ++ suf y).
    rewrite (captured_fwd (MS p s []) y w Hp). exact Hs.
  - exists y. split; [now left | reflexivity].
Qed.

Lemma search_spec r : forall s p m,
  search icase r p s = Some m ->
  exists a, s = a ++ m_0 m ++ m_rest m /\ m_pre m = rev a ++ p /\
            match_at icase r (rev a ++ p) (m_0 m ++ m_rest m) = Some m.
Proof.
  induction s as [|c s IH]; intros p m H; simpl in H.
  - destruct (match_at icase r p []) as [m'|] eqn:E; [|discriminate].
    inversion H. subst m'. destruct (match_at_spec _ _ _ _ E) as [Hp [Hs _]].
    exists []. simpl. rewrite <- Hs. now split.
  - destruct (match_at icase r p (c :: s)) as [m'|] eqn:E.
    + inversion H. subst m'. destruct (match_at_spec _ _ _ _ E) as [Hp [Hs _]].
      exists []. simpl. rewrite <- Hs. now split.
    + destruct (IH _ _ H) as [a [Hs [Hp Hm]]]. exists (c :: a).
      simpl. rewrite <- app_assoc. simpl. rewrite Hs at 1. now split.
Qed.

(** A group that every match of [r] sets is defined in what [exec]
    returns. *)
Lemma search_defines r n s p m :
  search icase r p s = Some m -> defines n r = true -> grp m n <> None.
Proof.
  intros H Hd. destruct (search_spec _ _ _ _ H) as [a [_ [_ Hm]]].
  destruct (match_at_spec _ _ _ _ Hm) as [_ [_ [y [Hy Hc]]]].
  unfold grp. rewrite Hc. eapply run_defines; eassumption.
Qed.

Lemma exec_defines r n s m :
  exec icase r s = Some m -> defines n r = true -> grp m n <> None.
Proof. apply search_defines. Qed.

(** *** split *)

Lemma split_loop_nonempty r fuel : forall p piece s,
  split_loop icase fuel r p piece s <> [].
Proof.
  induction fuel as [|fuel IH]; intros p piece s; simpl; [easy|].
  destruct s as [|c s]; [easy|].
  destruct (match_at icase r p (c :: s)) as [m|]; [|apply IH].
  destruct (is_nil (m_0 m) && is_nil piece); [apply IH | easy].
Qed.

Lemma split_nonempty r s : s <> [] -> split icase r s <> [].
Proof.
  intros Hs. unfold split, split_opt. destruct s as [|c s]; [easy|].
  intros H. apply map_eq_nil in H. revert H. apply split_loop_nonempty.
Qed.

(** The pieces of a split by a pattern without groups occur in the input. *)
Lemma split_loop_occurs r (Hg : groups r = []) input fuel : forall p piece s o,
  rev p ++ s = input -> (exists p0, p = piece ++ p0) ->
  In o (split_loop icase fuel r p piece s) ->
  exists x, o = Some x /\ occurs x input.
Proof.
  induction fuel as [|fuel IH]; intros p piece s o Hin [p0 Hp] Ho; simpl in Ho.
  - destruct Ho as [<-|[]]. eexists. split; [reflexivity|].
    exists (rev p0), []. rewrite app_nil_r, <- Hin, Hp, rev_app_distr.
    now rewrite !app_assoc.
  - assert (Hpiece : occurs (rev piece) input).
    { exists (rev p0), s. rewrite <- Hin, Hp, rev_app_distr.
      now rewrite !app_assoc. }
    destruct s as [|c s].
    + destruct Ho as [<-|[]]. eexists. split; [reflexivity | exact Hpiece].
    + assert (Hstep : In o (split_loop icase fuel r (c :: p) (c :: piece) s) ->
                      exists x, o = Some x /\ occurs x input).
      { apply IH.
        - simpl. rewrite <- app_assoc. exact Hin.
        - exists p0. simpl. now rewrite Hp. }
      destruct (match_at icase r p (c :: s)) as [m|] eqn:E; [|now apply Hstep].
      destruct (is_nil (m_0 m) && is_nil piece); [now apply Hstep|].
      rewrite Hg in Ho. simpl in Ho. destruct Ho as [<-|Ho].
      * eexists. split; [reflexivity | exact Hpiece].
      * destruct (match_at_spec _ _ _ _ E) as [_ [Hs _]].
        eapply IH; [| |exact Ho].
        -- rewrite rev_app_distr, rev_involutive, <- app_assoc, <- Hs. exact Hin.
        -- exists (rev (m_0 m) ++ p). reflexivity.
Qed.

Lemma split_occurs r s x :
  groups r = [] -> In x (split icase r s) -> occurs x s.
Proof.
  intros Hg Hx. unfold split in Hx. apply in_map_iff in Hx.
  destruct Hx as [o [Ho Hin]]. unfold split_opt in Hin.
  destruct s as [|c s].
  - destruct (match_at icase r [] []); [easy|]. destruct Hin as [<-|[]].
    subst x. now exists [], [].
  - eapply split_loop_occurs in Hin; [|exact Hg|reflexivity|now exists []].
    destruct Hin as [y [-> Hy]]. now subst x.
Qed.

(** The elements of a split are all defined when every group of the
    pattern is set by every match. *)
Lemma split_loop_defined r
    (Hd : forall n, In n (groups r) -> defines n r = true) fuel :
  forall p piece s o, In o (split_loop icase fuel r p piece s) -> o <> None.
Proof.
  induction fuel as [|fuel IH]; intros p piece s o Ho; simpl in Ho.
  - now destruct Ho as [<-|[]].
  - destruct s as [|c s]; [now destruct Ho as [<-|[]]|].
    destruct (match_at icase r p (c :: s)) as [m|] eqn:E; [|eapply IH; exact Ho].
    destruct (is_nil (m_0 m) && is_nil piece); [eapply IH; exact Ho|].
    destruct Ho as [<-|Ho]; [easy|].
    apply in_app_or in Ho. destruct Ho as [Ho|Ho]; [|eapply IH; exact Ho].
    apply in_map_iff in Ho. destruct Ho as [n [<- Hn]].
    destruct (match_at_spec _ _ _ _ E) as [_ [_ [y [Hy Hc]]]].
    unfold grp. rewrite Hc. eapply run_defines; [exact Hy | now apply Hd].
Qed.

Lemma split_opt_defined r s o :
  (forall n, In n (groups r) -> defines n r = true) ->
  In o (split_opt icase r s) -> o <> None.
Proof.
  intros Hd Ho. unfold split_opt in Ho. destruct s as [|c s].
  - destruct (match_at icase r [] []); [easy|]. now destruct Ho as [<-|[]].
  - eapply split_loop_defined; eassumption.
Qed.

End MatcherFacts.

(** ** The pure stages never throw *)

Lemma bind_ok {A B} (m : res A) (k : A -> res B) :
  (exists a, m = Ok a) -> (forall a, exists b, k a = Ok b) ->
  exists b, bind m k = Ok b.
Proof. intros [a ->] Hk. simpl. apply Hk. Qed.


Lemma grp_trim_ok icase r s m n :
  exec icase r s = Some m -> defines n r = true ->
  exists t, grp_trim m n = Ok t.
Proof.
  intros Hm Hd. unfold grp_trim.
  destruct (grp m n) eqn:E; [ok|].
  exfalso. eapply exec_defines; eassumption.
Qed.

Module EnhancedFacts.

Import Enhanced.

Lemma multiRoute_ok inputText :
  includes (toLowerCase inputText) (str "from") = false ->
  exists r, multiRoute inputText = Ok r.
Proof.
  intros Hfrom. unfold multiRoute.
  destruct (nth_error (split ci word_route inputText) 1) as [afterRoute|] eqn:E;
    [|ok].
  destruct (truthy afterRoute); [|ok].
  assert (Hocc : occurs afterRoute inputText).
  { apply split_occurs with (icase := ci) (r := word_route); [reflexivity|].
    eapply nth_error_In; exact E. }
  rewrite (includes_lower_part _ _ _ Hocc Hfrom). simpl. ok.
Qed.

Lemma multiDirect_ok inputText :
  inputText <> [] -> exists r, multiDirect inputText = Ok r.
Proof.
  intros Hne. unfold multiDirect.
  destruct (split ci ws_to_ws inputText) as [|p0 rest] eqn:E; [|ok].
  exfalso. revert E. now apply split_nonempty.
Qed.

Lemma multiWaypoint_ok inputText : exists r, multiWaypoint inputText = Ok r.
Proof.
  unfold multiWaypoint.
  destruct inputText as [|c inputText]; [ok|].
  set (t := c :: inputText).
  destruct (_ && _); [|ok].
  apply bind_ok.
  - destruct (includes (toLowerCase t) (str "from")) eqn:Hfrom; [ok|].
    destruct (includes (toLowerCase t) (str "route")); [|ok].
    now apply multiRoute_ok.
  - intros [waypoints|]; [ok|].
    apply bind_ok; [now apply multiDirect_ok | intros; ok].
Qed.

Lemma manualSplit_ok text : exists r, manualSplit text = Ok r.
Proof.
  unfold manualSplit. destruct (_ && _); [|ok].
  destruct (split ci ws_to_ws text) as [|p0 [|p1 rest]]; try ok.
  apply bind_ok.
  - destruct (exec ci from_rest p0) as [m|] eqn:E; [|ok].
    eapply grp_trim_ok; [exact E | reflexivity].
  - intros firstLoc. apply bind_ok; [|intros; ok].
    induction (p1 :: rest) as [|p l IH]; simpl; [ok|].
    apply bind_ok.
    + destruct (exec ci before_conj _) as [m|] eqn:E; [|ok].
      eapply grp_trim_ok; [exact E | reflexivity].
    + intros loc. apply bind_ok; [exact IH | intros; ok].
Qed.

Lemma tokenLoop_ok routeTokens :
  (forall o, In o routeTokens -> o <> None) ->
  forall locations, exists r, tokenLoop routeTokens locations = Ok r.
Proof.
  induction routeTokens as [|tok rest IH]; intros Hall locations; simpl; [ok|].
  assert (Hrest : forall o, In o rest -> o <> None)
    by (intros o Ho; apply Hall; now right).
  destruct (is_route_token tok); [|now apply IH].
  destruct rest as [|[next|] rest']; [ok| |].
  - destruct (_ && _); [|now apply IH].
    destruct (mem _ _); now apply IH.
  - exfalso. apply (Hall None); [right; now left | reflexivity].
Qed.

Lemma generalLocations_ok text : exists r, generalLocations text = Ok r.
Proof.
  unfold generalLocations. destruct (_ || _); [|ok].
  apply tokenLoop_ok. intros o Ho.
  apply split_opt_defined with (icase := cs) (r := token_word)
                               (s := toLowerCase text); [|exact Ho].
  intros n [<-|[]]. reflexivity.
Qed.

Lemma extractLocationsBasic_ok text : exists r, extractLocationsBasic text = Ok r.
Proof.
  unfold extractLocationsBasic.
  destruct (simpleWaypoints 5 fromToPattern5 text); [ok|].
  destruct (simpleWaypoints 4 toPattern4 text); [ok|].
  destruct (2 <=? _); [ok|].
  apply bind_ok; [apply manualSplit_ok|].
  intros [l|]; [ok | apply generalLocations_ok].
Qed.

Lemma fallback_ok inputText : exists r, fallback inputText = Ok r.
Proof.
  unfold fallback. destruct (_ && _); [ok|].
  destruct (negb _); [ok|].
  destruct (simpleWaypoints 5 fromToPattern5 inputText); [ok|].
  apply bind_ok; [apply extractLocationsBasic_ok|]. intros basic.
  apply bind_ok; [apply extractLocationsBasic_ok|]. intros again. ok.
Qed.

End EnhancedFacts.

Module EnhancedMessages.

Import Enhanced.







End EnhancedMessages.

Module NlpFacts.

Import Nlp.

Lemma regexMode_ok query : exists m, regexMode query = Ok m.
Proof.
  unfold regexMode. destruct (exec ci by_mode query) as [m|] eqn:E; [|ok].
  destruct (grp m 1) eqn:G; [ok|].
  exfalso. eapply exec_defines; [exact E | | exact G]. reflexivity.
Qed.

Lemma extractLocationsWithRegex_ok query :
  exists r, extractLocationsWithRegex query = Ok r.
Proof.
  unfold extractLocationsWithRegex.
  apply bind_ok; [apply regexMode_ok|]. intros mode.
  destruct (match exec ci routeFromToPattern query with
            | Some m => _ | None => _ end); ok.
Qed.

End NlpFacts.

(** ** The stages of processNaturalLanguageInput *)

Module EnhancedStages.

Import Enhanced.

Lemma shortcutMode_enum t :
  In (shortcutMode t) (map str ["walking"; "cycling"; "driving"]%string).
Proof.
  unfold shortcutMode. destruct (test ci walk_words t); [now left|].
  destruct (test ci cycle_words t); [right; now left | right; right; now left].
Qed.

Lemma multiFrom_two t w : multiFrom t = Some w -> 2 <= length w.
Proof.
  unfold multiFrom. destruct (nth_error _ 1) as [afterFrom|]; [|discriminate].
  destruct (truthy afterFrom); [|discriminate].
  destruct (2 <=? length (waypointsAfter afterFrom)) eqn:E; [|discriminate].
  intros H. inversion H. subst. now apply Nat.leb_le.
Qed.

Lemma multiRoute_two t w : multiRoute t = Ok (Some w) -> 2 <= length w.
Proof.
  unfold multiRoute. destruct (nth_error _ 1) as [afterRoute|]; [|discriminate].
  destruct (truthy afterRoute); [|discriminate].
  destruct (if includes (toLowerCase afterRoute) (str "from") then _ else _)
    as [l|e]; cbn [bind]; [|discriminate].
  destruct (2 <=? length l) eqn:E; [|discriminate].
  intros H. inversion H. subst. now apply Nat.leb_le.
Qed.

Lemma multiDirect_two t w : multiDirect t = Ok (Some w) -> 2 <= length w.
Proof.
  unfold multiDirect. destruct (split ci ws_to_ws t) as [|p0 rest]; [discriminate|].
  match goal with |- Ok (if 2 <=? length ?l then _ else _) = _ -> _ =>
    destruct (2 <=? length l) eqn:E end; [|discriminate].
  intros H. inversion H. subst. now apply Nat.leb_le.
Qed.

Lemma multiWaypoint_cases t r :
  multiWaypoint t = Ok (Some r) -> exists w, 2 <= length w /\ r = multiStop t w.
Proof.
  unfold multiWaypoint. destruct (_ && _); [|discriminate].
  destruct (if includes (toLowerCase t) (str "from") then Ok (multiFrom t)
            else if includes (toLowerCase t) (str "route") then multiRoute t
                 else Ok None) as [[w|]|e] eqn:E; cbn [bind]; try discriminate.
  - intros H. inversion H. exists w. split; [|reflexivity].
    destruct (includes (toLowerCase t) (str "from")).
    + inversion E. now apply (multiFrom_two t).
    + destruct (includes (toLowerCase t) (str "route")); [|discriminate].
      now apply (multiRoute_two t).
  - destruct (multiDirect t) as [[w|]|e] eqn:D; cbn [bind option_map]; try discriminate.
    intros H. inversion H. exists w. split; [|reflexivity].
    now apply (multiDirect_two t).
Qed.

Lemma fallback_cases t r : fallback t = Ok r -> fallback_result t r.
Proof.
  unfold fallback, fallback_result. destruct (_ && _).
  { intros H. inversion H. now left. }
  destruct (negb _).
  { intros H. inversion H. right. now left. }
  destruct (simpleWaypoints 5 fromToPattern5 t) as [w|] eqn:E.
  { intros H. inversion H. right. right. left. exists w. split; [|reflexivity].
    unfold simpleWaypoints in E. destruct (exec _ _ _); [|discriminate].
    destruct (2 <=? _) eqn:L; [|discriminate]. inversion E. subst.
    now apply Nat.leb_le. }
  destruct (extractLocationsBasic t) as [basic|e] eqn:B; cbn [bind]; [|discriminate].
  intros H. inversion H. right. right. right. exists basic. simpl. tauto.
Qed.

(** Every outcome comes from a pattern shortcut, from the language model,
    or from the fallback after a failure of the language model. *)
Lemma pipeline_cases gemini JSON_parse t :
  exists o,
    processNaturalLanguageInput gemini JSON_parse t = Ok o /\
    (shortcut_outcome t o \/
     (exists f, languageModel gemini JSON_parse t = Ok f /\ o = FromModel f) \/
     (exists e r, languageModel gemini JSON_parse t = Throw e /\
                  fallback t = Ok r /\ fallback_result t r /\ o = Built r)).
Proof.
  unfold processNaturalLanguageInput.
  destruct (EnhancedFacts.multiWaypoint_ok t) as [multi Hm]. rewrite Hm.
  cbn [bind]. destruct multi as [r|].
  { eexists. split; [reflexivity|]. left. left.
    destruct (multiWaypoint_cases t r Hm) as [w [Hw ->]]. now exists w. }
  destruct (simpleRoute t) as [r|] eqn:Hs.
  { eexists. split; [reflexivity|]. left. right. left.
    unfold simpleRoute in Hs. destruct (exec _ _ _); [|discriminate].
    destruct (_ && _); [|discriminate]. inversion Hs.
    do 4 eexists. split; [apply shortcutMode_enum|]. split; [|reflexivity].
    discriminate. }
  destruct (walkingRoute t) as [r|] eqn:Hw.
  { eexists. split; [reflexivity|]. left. right. left.
    unfold walkingRoute in Hw. destruct (exec _ _ _); [|discriminate].
    destruct (_ && _); [|discriminate]. inversion Hw.
    do 4 eexists. split; [now left|]. split; [|reflexivity]. discriminate. }
  destruct (_ && _).
  { eexists. split; [reflexivity|]. left. right. now right. }
  destruct (languageModel gemini JSON_parse t) as [f|e] eqn:E.
  { eexists. split; [reflexivity|]. right. left. now exists f. }
  cbn [try_catch bind]. destruct (EnhancedFacts.fallback_ok t) as [r Hr].
  assert (Hc := fallback_cases t r Hr). rewrite Hr. cbn [bind].
  eexists. split; [reflexivity|]. right. right. exists e, r.
  split; [reflexivity|]. split; [reflexivity|]. split; [exact Hc | reflexivity].
Qed.

Lemma map_name_plain w : map name (map plain w) = w.
Proof. induction w as [|x w IH]; simpl; [reflexivity | now rewrite IH]. Qed.

End EnhancedStages.

(** ** What a pattern must consume *)

Lemma all_ascii_complete (c : ascii) : In c all_ascii.
Proof.
  unfold all_ascii. rewrite <- (ascii_nat_embedding c). apply in_map.
  apply in_seq. pose proof (nat_ascii_bounded c). lia.
Qed.

Lemma forall_ascii (P : ascii -> bool) :
  forallb P all_ascii = true -> forall c, P c = true.
Proof.
  intros H c. rewrite forallb_forall in H. apply H, all_ascii_complete.
Qed.

Section Consumes.

Variable icase : bool.
Variable P : ascii -> bool.

Lemma consumed_refl d s : consumed d s s [].
Proof. destruct d; now split. Qed.

Lemma consumed_trans d s y z m1 m2 :
  consumed d s y m1 -> consumed d y z m2 -> consumed d s z (m1 ++ m2).
Proof.
  destruct d; intros [H1 H2] [H3 H4]; split.
  - now rewrite H1, H3, app_assoc.
  - now rewrite H4, H2, rev_app_distr, app_assoc.
  - now rewrite H1, H3, app_assoc.
  - now rewrite H4, H2, rev_app_distr, app_assoc.
Qed.

Lemma run_consumed r d s y :
  In y (run icase d r s) -> exists m, consumed d s y m.
Proof.
  intros H. apply run_ext in H. destruct d; destruct H as [m Hm]; now exists m.
Qed.

Lemma consumed_unique d s y m1 m2 :
  consumed d s y m1 -> consumed d s y m2 -> m1 = m2.
Proof.
  destruct d; intros [H1 _] [H2 _]; rewrite H1 in H2;
    now apply app_inv_tail in H2.
Qed.

Lemma iter_consumed r d s z :
  iter (run icase d r) (groups r) s z -> exists m, consumed d s z m.
Proof.
  induction 1 as [s|s y z Hy _ [m2 IH]].
  - exists []. apply consumed_refl.
  - apply run_consumed in Hy. destruct Hy as [m1 H1].
    exists (m1 ++ m2). eapply consumed_trans; [|exact IH].
    destruct d; exact H1.
Qed.

(** A match of a pattern that consumes a character of [P] went over such
    a character. *)
Lemma run_consumes r : forall d s y m,
  consumes icase P r = true -> In y (run icase d r s) -> consumed d s y m ->
  Exists (fun c => P c = true) m.
Proof.
  induction r as [|cs|a IHa b IHb|a IHa b IHb|min max g r IH|n r IH| | |
                  |r IH|r IH]; intros d s y m Hc Hy Hm; cbn [run] in Hy;
    cbn [consumes] in Hc; try discriminate.
  - assert (Hp := forall_ascii _ Hc).
    unfold step_char in Hy. destruct d.
    + destruct (suf s) as [|c rest] eqn:E; [easy|].
      destruct (class_mem icase cs c) eqn:M; [|easy]. destruct Hy as [<-|[]].
      destruct Hm as [H1 _]. simpl in H1. rewrite E in H1.
      change (c :: rest) with ([c] ++ rest) in H1. apply app_inv_tail in H1.
      subst m. constructor. specialize (Hp c). cbv beta in Hp. rewrite M in Hp. exact Hp.
    + destruct (pre s) as [|c rest] eqn:E; [easy|].
      destruct (class_mem icase cs c) eqn:M; [|easy]. destruct Hy as [<-|[]].
      destruct Hm as [H1 _]. simpl in H1. rewrite E in H1.
      change (c :: rest) with ([c] ++ rest) in H1. apply app_inv_tail in H1.
      subst m. constructor. specialize (Hp c). cbv beta in Hp. rewrite M in Hp. exact Hp.
  - assert (Hsplit : forall r1 r2 x,
              In x (run icase d r1 s) -> In y (run icase d r2 x) ->
              (consumes icase P r1 = true ->
               forall m1, consumed d s x m1 -> Exists (fun c => P c = true) m1) ->
              (consumes icase P r2 = true ->
               forall m2, consumed d x y m2 -> Exists (fun c => P c = true) m2) ->
              consumes icase P r1 || consumes icase P r2 = true ->
              Exists (fun c => P c = true) m).
    { intros r1 r2 x Hx Hy' H1 H2 Hor.
      destruct (run_consumed _ _ _ _ Hx) as [m1 Hm1].
      destruct (run_consumed _ _ _ _ Hy') as [m2 Hm2].
      assert (Em : m = m1 ++ m2).
      { eapply consumed_unique; [exact Hm|].
        eapply consumed_trans; eassumption. }
      subst m. apply Exists_app. apply orb_true_iff in Hor.
      destruct Hor as [Hor|Hor]; [left; now apply H1 | right; now apply H2]. }
    destruct d; apply in_flat_map in Hy; destruct Hy as [x [Hx Hy]].
    + eapply (Hsplit a b x); try eassumption.
      * intros Ha m1 Hm1. eapply IHa; eassumption.
      * intros Hb m2 Hm2. eapply IHb; eassumption.
    + eapply (Hsplit b a x); try eassumption.
      * intros Hb m1 Hm1. eapply IHb; eassumption.
      * intros Ha m2 Hm2. eapply IHa; eassumption.
      * now rewrite orb_comm.
  - apply andb_true_iff in Hc. destruct Hc as [Ha Hb].
    apply in_app_or in Hy. destruct Hy as [Hy|Hy];
      [eapply IHa | eapply IHb]; eassumption.
  - apply andb_true_iff in Hc. destruct Hc as [Hc Hr].
    apply andb_true_iff in Hc. destruct Hc as [Hmin Hmax].
    apply rep_loop_first in Hy.
    + destruct Hy as [x [Hx Hit]].
      destruct (run_consumed _ _ _ _ Hx) as [m1 Hm1].
      destruct (iter_consumed _ _ _ _ Hit) as [m2 Hm2].
      assert (Hm1' : consumed d s x m1) by (destruct d; exact Hm1).
      assert (Em : m = m1 ++ m2).
      { eapply consumed_unique; [exact Hm|].
        eapply consumed_trans; eassumption. }
      subst m. apply Exists_app. left. eapply IH; eassumption.
    + apply negb_true_iff, Nat.eqb_neq in Hmin. exact Hmin.
    + intros ->. discriminate.
  - apply in_map_iff in Hy. destruct Hy as [x [<- Hx]].
    eapply IH; [exact Hc | exact Hx |]. destruct d; exact Hm.
Qed.

(** On a text without characters of [P] such a pattern does not match. *)
Lemma run_free r p s k :
  consumes icase P r = true -> free_of P s ->
  run icase Fwd r (MS p s k) = [].
Proof.
  intros Hc Hf. destruct (run icase Fwd r (MS p s k)) as [|y l] eqn:E;
    [reflexivity|].
  assert (Hy : In y (run icase Fwd r (MS p s k))) by (rewrite E; now left).
  destruct (run_consumed _ _ _ _ Hy) as [m Hm].
  assert (Hex := run_consumes r Fwd _ y m Hc Hy Hm).
  destruct Hm as [H1 _]. simpl in H1. unfold free_of in Hf. rewrite H1 in Hf.
  apply Forall_app in Hf. destruct Hf as [Hf _].
  apply Exists_exists in Hex. destruct Hex as [c [Hin Hp]].
  rewrite Forall_forall in Hf. specialize (Hf c Hin). congruence.
Qed.

Lemma match_at_free r p s :
  consumes icase P r = true -> free_of P s -> match_at icase r p s = None.
Proof. intros Hc Hf. unfold match_at. now rewrite run_free. Qed.

Lemma search_free r : forall s p,
  consumes icase P r = true -> free_of P s -> search icase r p s = None.
Proof.
  induction s as [|c s IH]; intros p Hc Hf; simpl.
  - now rewrite match_at_free.
  - rewrite match_at_free by assumption. apply IH; [assumption|].
    now inversion Hf.
Qed.

Lemma exec_free r s :
  consumes icase P r = true -> free_of P s -> exec icase r s = None.
Proof. apply search_free. Qed.

Lemma test_free r s :
  consumes icase P r = true -> free_of P s -> test icase r s = false.
Proof. intros Hc Hf. unfold test. now rewrite exec_free. Qed.

Lemma replace_free r f s :
  consumes icase P r = true -> free_of P s -> replace icase r f s = s.
Proof. intros Hc Hf. unfold replace. now rewrite exec_free. Qed.

Lemma matchAll_free r s :
  consumes icase P r = true -> free_of P s -> matchAll icase r s = [].
Proof.
  intros Hc Hf. unfold matchAll. simpl. now rewrite search_free.
Qed.

Lemma split_loop_free r fuel : forall s p piece,
  consumes icase P r = true -> free_of P s ->
  split_loop icase fuel r p piece s = [Some (rev piece ++ s)].
Proof.
  induction fuel as [|fuel IH]; intros s p piece Hc Hf; simpl; [reflexivity|].
  destruct s as [|c s]; [now rewrite app_nil_r|].
  rewrite match_at_free by assumption.
  rewrite IH; [|assumption|now inversion Hf]. simpl.
  now rewrite <- app_assoc.
Qed.

Lemma split_free r s :
  consumes icase P r = true -> free_of P s -> s <> [] ->
  split icase r s = [s].
Proof.
  intros Hc Hf Hs. unfold split, split_opt. destruct s as [|c s]; [easy|].
  now rewrite split_loop_free.
Qed.

End Consumes.

(** ** Texts without white space *)

Lemma free_of_weaken (P Q : ascii -> bool) s :
  (forall c, Q c = true -> P c = true) -> free_of P s -> free_of Q s.
Proof.
  intros H Hf. unfold free_of in *. rewrite Forall_forall in *.
  intros c Hc. specialize (Hf c Hc). destruct (Q c) eqn:E; [|reflexivity].
  apply H in E. congruence.
Qed.

Lemma free_of_space s : free_of space_or_comma s -> free_of is_space s.
Proof.
  apply free_of_weaken. intros c H. unfold space_or_comma. now rewrite H.
Qed.

Lemma free_of_app P a b : free_of P (a ++ b) <-> free_of P a /\ free_of P b.
Proof. apply Forall_app. Qed.

Lemma free_of_rev P s : free_of P s -> free_of P (rev s).
Proof. apply Forall_rev. Qed.

Lemma trimStart_free s : free_of is_space s -> trimStart s = s.
Proof.
  destruct s as [|c s]; [reflexivity|]. intros H. inversion H as [|? ? Hc _].
  simpl. now rewrite Hc.
Qed.

Lemma trim_free s : free_of is_space s -> trim s = s.
Proof.
  intros H. unfold trim, trimEnd. rewrite (trimStart_free s H).
  rewrite trimStart_free by now apply free_of_rev. apply rev_involutive.
Qed.

Lemma replaceAll_free icase P r f s :
  consumes icase P r = true -> free_of P s -> replaceAll icase r f s = s.
Proof.
  intros Hc Hf. unfold replaceAll. simpl. now rewrite (search_free icase P).
Qed.

Module RegexOnWords.

(** The single-location answers of the two [extractLocationsWithRegex]. *)

Lemma NlpRegex_grp_trim_ok r s m n :
  exec ci r s = Some m -> defines n r = true -> exists t, grp_trim m n = Ok t.
Proof. apply grp_trim_ok. Qed.

Lemma NlpRegex_never_throws text :
  exists r, NlpRegex.extractLocationsWithRegex text = Ok r.
Proof.
  unfold NlpRegex.extractLocationsWithRegex. destruct (negb (truthy text)); [ok|].
  cbv zeta.
  destruct (exec ci NlpRegex.routePattern _) as [m|] eqn:E.
  { destruct (grp_trim_ok ci _ _ m 1 E eq_refl) as [a ->].
    destruct (grp_trim_ok ci _ _ m 2 E eq_refl) as [b ->]. cbn [bind]. ok. }
  destruct (NlpRegex.trySeparators _ _); [ok|].
  destruct (if test ci NlpRegex.betweenSeparator _ then _ else None)
    as [m|] eqn:B.
  { destruct (test ci NlpRegex.betweenSeparator _); [|discriminate].
    destruct (grp_trim_ok ci _ _ m 1 B eq_refl) as [a ->].
    destruct (grp_trim_ok ci _ _ m 2 B eq_refl) as [b ->]. cbn [bind]. ok. }
  destruct (_ && _); ok.
Qed.

Lemma NlpRegex_single text :
  text <> [] -> free_of space_or_comma text ->
  exists p, NlpRegex.extractLocationsWithRegex text
            = Ok (Some {| NlpRegex.locations := [text];
                          NlpRegex.preferences := p |}).
Proof.
  intros Hne Hf. assert (Hs := free_of_space _ Hf).
  unfold NlpRegex.extractLocationsWithRegex.
  destruct text as [|c0 text0] eqn:Et; [easy|]. rewrite <- Et in *.
  replace (truthy text) with true by (rewrite Et; reflexivity).
  cbn [negb]. cbv zeta. rewrite (trim_free _ Hs).
  rewrite (replaceAll_free cs is_space) by (assumption || reflexivity).
  rewrite (exec_free ci is_space) by (assumption || reflexivity).
  assert (Hsep : NlpRegex.trySeparators NlpRegex.splitSeparators text = None).
  { unfold NlpRegex.splitSeparators. cbn [NlpRegex.trySeparators].
    rewrite !(test_free _ space_or_comma) by (assumption || reflexivity).
    reflexivity. }
  rewrite Hsep.
  rewrite (test_free ci is_space) by (assumption || reflexivity).
  rewrite (replace_free ci is_space NlpRegex.verb_prefix)
    by (assumption || reflexivity).
  rewrite (replace_free ci is_space NlpRegex.prep_prefix)
    by (assumption || reflexivity).
  rewrite (replace_free ci is_space NlpRegex.noun_suffix)
    by (assumption || reflexivity).
  rewrite (trim_free _ Hs), text_eqb_refl, andb_false_r. ok.
Qed.

Lemma Nlp_never_throws query :
  exists r, Nlp.extractLocationsWithRegex query = Ok r.
Proof. apply NlpFacts.extractLocationsWithRegex_ok. Qed.

Lemma Nlp_single query :
  query <> [] -> free_of space_or_comma query ->
  exists p, Nlp.extractLocationsWithRegex query
            = Ok {| Nlp.locations := [query]; Nlp.preferences := p |}.
Proof.
  intros Hne Hf. assert (Hs := free_of_space _ Hf).
  unfold Nlp.extractLocationsWithRegex, Nlp.regexMode.
  rewrite (exec_free ci is_space) by (assumption || reflexivity).
  cbn [bind].
  rewrite (exec_free ci is_space Nlp.routeFromToPattern)
    by (assumption || reflexivity).
  rewrite (matchAll_free ci is_space) by (assumption || reflexivity).
  cbn [flat_map length Nat.eqb].
  rewrite (split_free ci space_or_comma) by (assumption || reflexivity).
  cbn [map]. rewrite (trim_free _ Hs).
  rewrite (replace_free ci is_space) by (assumption || reflexivity).
  rewrite (trim_free _ Hs).
  assert (Hlen : (0 <? length query) = true) by (destruct query; easy).
  assert (Htr : truthy query = true) by (destruct query; easy).
  cbn [filter]. rewrite Hlen. cbn [andb].
  destruct (test cs Nlp.has_letter query).
  - cbn [length Nat.eqb]. ok.
  - cbn [length Nat.eqb]. rewrite Htr. ok.
Qed.

End RegexOnWords.

(** ** Inversion of the matcher on the pattern constructors *)

Section RunInversion.

Variable icase : bool.

Lemma run_seq_inv a b s y :
  In y (run icase Fwd (Seq a b) s) ->
  exists x, In x (run icase Fwd a s) /\ In y (run icase Fwd b x).
Proof. cbn [run]. intros H. now apply in_flat_map in H. Qed.




Lemma run_eol_inv d s y : In y (run icase d Eol s) -> y = s /\ suf s = [].
Proof.
  cbn [run]. destruct (suf s); [|easy]. intros [<-|[]]. now split.
Qed.

Lemma run_bol_inv d s y : In y (run icase d Bol s) -> y = s /\ pre s = [].
Proof.
  cbn [run]. destruct (pre s); [|easy]. intros [<-|[]]. now split.
Qed.



End RunInversion.



Module EnhancedModes.

Import Enhanced.



End EnhancedModes.

(** ** The transport mode of nlp.js *)

Lemma get_set_same k v o : get_field k (set_field k v o) = v.
Proof.
  induction o as [|[k' v'] o IH]; simpl.
  - now rewrite String.eqb_refl.
  - destruct (String.eqb k k') eqn:E; simpl.
    + now rewrite String.eqb_refl.
    + now rewrite E.
Qed.

Module NlpModes.

Import Nlp.





End NlpModes.

(** ** trim *)

Lemma trimStart_spaces ws s :
  Forall (fun c => is_space c = true) ws -> trimStart (ws ++ s) = trimStart s.
Proof.
  induction 1 as [|c ws Hc _ IH]; [reflexivity|]. simpl. now rewrite Hc.
Qed.

Lemma trimStart_app x y :
  Exists (fun c => is_space c = false) x -> trimStart (x ++ y) = trimStart x ++ y.
Proof.
  induction x as [|c x IH]; intros H; [inversion H|]. simpl.
  destruct (is_space c) eqn:E; [|reflexivity].
  apply IH. inversion H as [? ? Hc|? ? Hx]; [congruence | exact Hx].
Qed.

(** [trimStart] removes a run of white space in front of a text that does
    not start with white space. *)
Lemma trimStart_split s :
  exists ws, s = ws ++ trimStart s /\ Forall (fun c => is_space c = true) ws /\
             match trimStart s with
             | c :: _ => is_space c = false
             | [] => True
             end.
Proof.
  induction s as [|c s [ws [H1 [H2 H3]]]].
  - exists []. simpl. repeat split. constructor.
  - simpl. destruct (is_space c) eqn:E.
    + exists (c :: ws). simpl. rewrite <- H1. repeat split; [|exact H3].
      now constructor.
    + exists []. simpl. repeat split; [constructor | exact E].
Qed.

Lemma trimEnd_split s :
  exists ws, s = trimEnd s ++ ws /\ Forall (fun c => is_space c = true) ws /\
             (trimEnd s = [] \/
              exists a c, trimEnd s = a ++ [c] /\ is_space c = false).
Proof.
  unfold trimEnd. destruct (trimStart_split (rev s)) as [ws [H1 [H2 H3]]].
  exists (rev ws). split; [|split].
  - rewrite <- rev_app_distr, <- H1. now rewrite rev_involutive.
  - now apply Forall_rev.
  - destruct (trimStart (rev s)) as [|c t]; [now left|].
    right. exists (rev t), c. now split.
Qed.

Lemma trimEnd_app a b :
  Exists (fun c => is_space c = false) b -> trimEnd (a ++ b) = a ++ trimEnd b.
Proof.
  intros H. unfold trimEnd. rewrite rev_app_distr, trimStart_app.
  - now rewrite rev_app_distr, rev_involutive.
  - apply Exists_rev. exact H.
Qed.

Lemma prefix_of_refl a : prefix_of a a.
Proof. exists []. now rewrite app_nil_r. Qed.

Lemma prefix_of_trans a b c : prefix_of a b -> prefix_of b c -> prefix_of a c.
Proof. intros [x ->] [y ->]. exists (x ++ y). now rewrite app_assoc. Qed.

Lemma trimEnd_prefix s : prefix_of (trimEnd s) s.
Proof. destruct (trimEnd_split s) as [ws [H _]]. now exists ws. Qed.

Lemma trim_head s :
  match trim s with c :: _ => is_space c = false | [] => True end.
Proof.
  unfold trim. destruct (trimStart_split s) as [_ [_ [_ H]]].
  destruct (trimEnd_prefix (trimStart s)) as [x Hx].
  destruct (trimEnd (trimStart s)) as [|c t]; [exact I|].
  rewrite Hx in H. exact H.
Qed.

(** A prefix of a trimmed text loses at most its trailing white space when
    it is trimmed. *)
Lemma trim_of_prefix v s : prefix_of v (trim s) -> prefix_of (trim v) (trim s).
Proof.
  intros Hv. assert (Hh := trim_head s). destruct Hv as [x Hx].
  assert (Ev : trimStart v = v).
  { destruct v as [|c v]; [reflexivity|]. rewrite Hx in Hh. simpl in Hh.
    simpl. now rewrite Hh. }
  unfold trim at 1. rewrite Ev.
  eapply prefix_of_trans; [apply trimEnd_prefix | now exists x].
Qed.

Lemma is_space_lower c : is_space (lower_char c) = is_space c.
Proof.
  assert (H : forallb (fun c => Bool.eqb (is_space (lower_char c)) (is_space c))
                      all_ascii = true) by (vm_compute; reflexivity).
  apply eqb_prop. exact (forall_ascii _ H c).
Qed.

Lemma trimStart_lower s : trimStart (toLowerCase s) = toLowerCase (trimStart s).
Proof.
  induction s as [|c s IH]; [reflexivity|]. simpl.
  rewrite is_space_lower. destruct (is_space c); [exact IH | reflexivity].
Qed.

Lemma rev_lower s : rev (toLowerCase s) = toLowerCase (rev s).
Proof. unfold toLowerCase. symmetry. apply map_rev. Qed.

Lemma trim_lower s : trim (toLowerCase s) = toLowerCase (trim s).
Proof.
  unfold trim, trimEnd.
  now rewrite trimStart_lower, rev_lower, trimStart_lower, rev_lower.
Qed.

Lemma prefix_of_lower a b :
  prefix_of a b -> prefix_of (toLowerCase a) (toLowerCase b).
Proof.
  intros [c ->]. exists (toLowerCase c). unfold toLowerCase. apply map_app.
Qed.

Lemma startsWith_prefix a b p :
  prefix_of a b -> startsWith a p = true -> startsWith b p = true.
Proof.
  intros [c ->] H. apply startsWith_spec in H. destruct H as [x ->].
  apply startsWith_spec. exists (x ++ c). now rewrite app_assoc.
Qed.

(** The trimmed text starts with "from " exactly when "from " comes after
    the leading white space and is followed by more than white space. *)
Lemma trim_starts_with_from s :
  startsWith (trim s) (str "from ") = true <-> starts_with_from s.
Proof.
  split.
  - intros H. apply startsWith_spec in H. destruct H as [b Hb].
    destruct (trimStart_split s) as [ws1 [H1 [H2 _]]].
    destruct (trimEnd_split (trimStart s)) as [ws2 [H3 [_ H4]]].
    fold (trim s) in H3, H4. rewrite Hb in H3, H4.
    exists ws1, (b ++ ws2). split; [|split; [exact H2|]].
    + rewrite H1 at 1. rewrite H3. now rewrite <- !app_assoc.
    + destruct H4 as [H4|[a [c [H4 Hc]]]]; [discriminate|].
      apply Exists_app. left.
      destruct (exists_last (l := b)) as [b' [c' Eb]].
      { intros ->. rewrite app_nil_r in H4.
        assert (E : rev (str "from ") = rev (a ++ [c])) by now rewrite H4.
        rewrite rev_app_distr in E. simpl in E. inversion E. subst c.
        discriminate Hc. }
      rewrite Eb in H4. rewrite app_assoc in H4.
      apply app_inj_tail in H4. destruct H4 as [_ ->]. rewrite Eb.
      apply Exists_app. right. now constructor.
  - intros [ws [rest [-> [Hws Hrest]]]].
    unfold trim. rewrite (trimStart_spaces ws _ Hws).
    change (trimStart (str "from " ++ rest)) with (str "from " ++ rest).
    rewrite (trimEnd_app _ _ Hrest). apply startsWith_spec.
    now exists (trimEnd rest).
Qed.

(** ** Patterns that end at the end of the input *)

Lemma match_at_state icase r p s m :
  match_at icase r p s = Some m ->
  exists y, In y (run icase Fwd r (MS p s [])) /\ m_rest m = suf y.
Proof.
  unfold match_at. destruct (run icase Fwd r (MS p s [])) as [|y l] eqn:E;
    [discriminate|].
  intros H. inversion H. exists y. split; [now left | reflexivity].
Qed.

(** Erasing a match that reaches the end of the input leaves a prefix. *)
Lemma replace_to_end icase a s :
  prefix_of (replace icase (Seq a Eol) erase s) s.
Proof.
  unfold replace. destruct (exec icase (Seq a Eol) s) as [m|] eqn:E;
    [|apply prefix_of_refl].
  destruct (search_spec _ _ _ _ _ E) as [x [Hs [Hp Hm]]].
  destruct (match_at_state _ _ _ _ _ Hm) as [y [Hy Hr]].
  apply run_seq_inv in Hy. destruct Hy as [z [_ Hy]].
  apply run_eol_inv in Hy. destruct Hy as [-> Hz].
  rewrite Hr, Hz, Hp, rev_app_distr, rev_involutive. simpl.
  rewrite app_nil_r. exists (m_0 m ++ m_rest m). exact Hs.
Qed.

(** ** Literals and words, by computation *)

Section Literals.

Variable icase : bool.

Lemma run_chr_cons cs p c s k :
  run icase Fwd (Chr cs) (MS p (c :: s) k) =
  if class_mem icase cs c then [MS (c :: p) s k] else [].
Proof. reflexivity. Qed.

Lemma run_chr_nil cs p k : run icase Fwd (Chr cs) (MS p [] k) = [].
Proof. reflexivity. Qed.

Lemma run_seq_fwd a b s :
  run icase Fwd (Seq a b) s = flat_map (run icase Fwd b) (run icase Fwd a s).
Proof. reflexivity. Qed.

Lemma run_lit_prefix w : forall p s k,
  run icase Fwd (lit_chars w) (MS p s k) =
  if prefix_ci icase w s
  then [MS (rev (firstn (length w) s) ++ p) (skipn (length w) s) k]
  else [].
Proof.
  induction w as [|x w IH]; intros p s k; [reflexivity|].
  assert (Hone : run icase Fwd (Chr [CC x]) (MS p s k) =
                 match s with
                 | c :: s' => if class_mem icase [CC x] c
                              then [MS (c :: p) s' k] else []
                 | [] => []
                 end) by (destruct s; reflexivity).
  destruct w as [|x' w'].
  - cbn [lit_chars]. rewrite Hone. destruct s as [|c s]; [reflexivity|].
    cbn [prefix_ci length firstn skipn]. rewrite andb_true_r.
    destruct (class_mem icase [CC x] c); [|reflexivity].
    destruct s; reflexivity.
  - change (lit_chars (x :: x' :: w'))
      with (Seq (Chr [CC x]) (lit_chars (x' :: w'))).
    rewrite run_seq_fwd, Hone. destruct s as [|c s]; [reflexivity|].
    change (prefix_ci icase (x :: x' :: w') (c :: s))
      with (class_mem icase [CC x] c && prefix_ci icase (x' :: w') s).
    destruct (class_mem icase [CC x] c); [|reflexivity].
    cbn [flat_map andb]. rewrite IH, app_nil_r.
    destruct (prefix_ci icase (x' :: w') s); [|reflexivity].
    cbn [length firstn skipn rev]. now rewrite <- app_assoc.
Qed.

End Literals.

(** What matches a lower-case letter with the [i] flag is a word
    character. *)
Lemma ci_letter_is_word x c :
  is_lower x = true -> class_mem true [CC x] c = true -> is_word c = true.
Proof.
  intros Hx Hc.
  assert (H : forallb (fun x => forallb (fun c =>
                implb (is_lower x && class_mem true [CC x] c) (is_word c))
                all_ascii) all_ascii = true) by (vm_compute; reflexivity).
  assert (H1 := forall_ascii _ H x). cbv beta in H1.
  assert (H2 := forall_ascii _ H1 c). cbv beta in H2.
  now rewrite Hx, Hc in H2.
Qed.

Lemma prefix_ci_length ic w : forall s,
  prefix_ci ic w s = true -> length w <= length s.
Proof.
  induction w as [|x w IH]; intros [|c s] H; simpl in *; try lia; try easy.
  apply andb_true_iff in H. destruct H as [_ H]. apply IH in H. lia.
Qed.

Lemma prefix_ci_head w s x :
  is_lower x = true -> prefix_ci true (x :: w) s = true ->
  word_after (MS [] s []) = true.
Proof.
  destruct s as [|c s]; [easy|]. intros Hx H. cbn [prefix_ci] in H.
  apply andb_true_iff in H. destruct H as [H _]. simpl.
  eapply ci_letter_is_word; eassumption.
Qed.

(** The last character of a match of a word of letters is a word
    character. *)
Lemma prefix_ci_last w : forall s,
  lower_word w -> prefix_ci true w s = true ->
  word_before (MS (rev (firstn (length w) s)) [] []) = true.
Proof.
  induction w as [|x w IH]; intros s [Hne Hall] H; [easy|].
  destruct s as [|c s]; [easy|]. cbn [prefix_ci] in H.
  apply andb_true_iff in H. destruct H as [Hc H].
  inversion Hall as [|? ? Hx Hw]. subst.
  destruct w as [|x' w'].
  - simpl. eapply ci_letter_is_word; eassumption.
  - assert (Hl : lower_word (x' :: w')) by (split; [easy | exact Hw]).
    specialize (IH s Hl H). cbn [length firstn rev].
    destruct s as [|c' s']; [easy|].
    cbn [length firstn rev] in IH |- *. unfold word_before in *. cbn [pre] in *.
    destruct (rev (firstn (length w') s') ++ [c']) as [|z zs] eqn:E.
    + destruct (rev (firstn (length w') s')); discriminate.
    + exact IH.
Qed.

(** The pattern of a word matches at a position exactly when the word
    stands there. *)
Lemma match_at_word w p s :
  lower_word w ->
  match_at true (word_pattern w) p s =
  if word_here w p s
  then Some (RM p (firstn (length w) s) (skipn (length w) s) [])
  else None.
Proof.
  intros Hw. unfold match_at, word_pattern, word_here. cbn [run].
  destruct (prefix_ci true w s) eqn:Hp.
  - assert (Hafter : word_after (MS p s []) = true).
    { destruct Hw as [Hne Hall]. destruct w as [|x w]; [easy|].
      inversion Hall. subst.
      now apply (prefix_ci_head w s x). }
    rewrite Hafter, xorb_true_r.
    destruct (word_before (MS p s [])); cbn [negb andb]; [reflexivity|].
    cbn [flat_map]. rewrite run_lit_prefix, Hp, app_nil_r. cbn [flat_map].
    rewrite app_nil_r.
    assert (Hb : word_before (MS (rev (firstn (length w) s) ++ p)
                                 (skipn (length w) s) []) = true).
    { assert (H := prefix_ci_last w s Hw Hp). unfold word_before in *.
      cbn [pre] in *. destruct (rev (firstn (length w) s)); [easy | exact H]. }
    rewrite Hb. cbn [xorb].
    assert (Ha : word_after (MS (rev (firstn (length w) s) ++ p)
                                (skipn (length w) s) [])
                 = word_after (MS p (skipn (length w) s) [])) by reflexivity.
    rewrite Ha.
    destruct (word_after (MS p (skipn (length w) s) [])); cbn [negb];
      [reflexivity|].
    f_equal. f_equal. apply captured_fwd. reflexivity.
  - rewrite andb_false_r. cbn [andb].
    destruct (xorb _ _); [|reflexivity].
    cbn [flat_map]. now rewrite run_lit_prefix, Hp.
Qed.

(** ** Scanning a text for a pattern *)

Section Scan.

Variable icase : bool.
Variable r : regex.

Lemma search_hit p s m :
  match_at icase r p s = Some m -> search icase r p s = Some m.
Proof. intros H. destruct s; simpl; now rewrite H. Qed.

(** The search skips a stretch in which the pattern matches nowhere. *)
Lemma search_skip N : forall p S,
  (forall a b, N = a ++ b -> b <> [] ->
               match_at icase r (rev a ++ p) (b ++ S) = None) ->
  search icase r p (N ++ S) = search icase r (rev N ++ p) S.
Proof.
  induction N as [|c N IH]; intros p S H; [reflexivity|].
  assert (H0 := H [] (c :: N) eq_refl ltac:(easy)). cbn [rev app] in H0.
  cbn [app search]. rewrite H0, IH.
  - cbn [rev]. now rewrite <- app_assoc.
  - intros a b -> Hb. specialize (H (c :: a) b eq_refl Hb).
    cbn [rev] in H. now rewrite <- app_assoc in H.
Qed.

(** A search that fails has failed at every position. *)
Lemma search_none s : forall p,
  search icase r p s = None ->
  forall a b, s = a ++ b -> match_at icase r (rev a ++ p) b = None.
Proof.
  induction s as [|c s IH]; intros p H a b E.
  - destruct a; [|discriminate]. destruct b; [|discriminate].
    simpl in H |- *. now destruct (match_at icase r p []).
  - cbn [search] in H.
    destruct (match_at icase r p (c :: s)) eqn:M; [discriminate|].
    destruct a as [|x a].
    + simpl in E. subst b. exact M.
    + injection E as -> ->. cbn [rev]. rewrite <- app_assoc. now apply IH.
Qed.

Lemma all_from_cons fuel p s m :
  search icase r p s = Some m -> m_0 m <> [] ->
  all_from icase (S fuel) r p s =
  m :: all_from icase fuel r (rev (m_0 m) ++ m_pre m) (m_rest m).
Proof.
  intros H Hm. cbn [all_from]. rewrite H. destruct (m_0 m); [easy | reflexivity].
Qed.

Lemma split_loop_miss fuel p piece c s :
  match_at icase r p (c :: s) = None ->
  split_loop icase (S fuel) r p piece (c :: s) =
  split_loop icase fuel r (c :: p) (c :: piece) s.
Proof. intros H. cbn [split_loop]. now rewrite H. Qed.

Lemma split_loop_hit fuel p piece c s m :
  match_at icase r p (c :: s) = Some m -> m_0 m <> [] ->
  split_loop icase (S fuel) r p piece (c :: s) =
  Some (rev piece) :: map (fun n => grp m n) (groups r) ++
  split_loop icase fuel r (rev (m_0 m) ++ p) [] (m_rest m).
Proof.
  intros H Hm. cbn [split_loop]. rewrite H.
  destruct (m_0 m); [easy | reflexivity].
Qed.

Lemma split_loop_skip N : forall fuel p piece S,
  (forall a b, N = a ++ b -> b <> [] ->
               match_at icase r (rev a ++ p) (b ++ S) = None) ->
  split_loop icase (length N + fuel) r p piece (N ++ S) =
  split_loop icase fuel r (rev N ++ p) (rev N ++ piece) S.
Proof.
  induction N as [|c N IH]; intros fuel p piece S H; [reflexivity|].
  assert (H0 := H [] (c :: N) eq_refl ltac:(easy)). cbn [rev app] in H0.
  cbn [app length Nat.add].
  rewrite (split_loop_miss _ _ _ _ _ H0), IH.
  - cbn [rev]. now rewrite <- !app_assoc.
  - intros a b -> Hb. specialize (H (c :: a) b eq_refl Hb).
    cbn [rev] in H. now rewrite <- app_assoc in H.
Qed.

Lemma split_opt_nonempty s :
  s <> [] ->
  split_opt icase r s = split_loop icase (2 * length s + 2) r [] [] s.
Proof. now destruct s. Qed.

Lemma split_loop_end fuel p piece :
  split_loop icase (S fuel) r p piece [] = [Some (rev piece)].
Proof. reflexivity. Qed.

End Scan.

(** ** A word inside its surroundings *)

Lemma prefix_ci_context w : forall b S,
  Forall (fun x => is_lower x = true) w ->
  word_after (MS [] S []) = false ->
  prefix_ci true w (b ++ S) = prefix_ci true w b.
Proof.
  induction w as [|x w IH]; intros b S Hw HS; [reflexivity|].
  inversion Hw as [|? ? Hx Hw']. subst.
  destruct b as [|c b].
  - cbn [app prefix_ci]. destruct S as [|c S]; [reflexivity|].
    destruct (class_mem true [CC x] c) eqn:E; [|reflexivity].
    apply (ci_letter_is_word x c Hx) in E.
    unfold word_after in HS. cbn [suf] in HS. congruence.
  - cbn [app prefix_ci]. now rewrite IH.
Qed.

(** Between two characters that are not word characters, a word stands
    at a position of a text exactly when it does in the text alone. *)
Lemma word_here_context w a b p S :
  lower_word w ->
  word_before (MS p [] []) = false -> word_after (MS [] S []) = false ->
  word_here w (rev a ++ p) (b ++ S) = word_here w (rev a) b.
Proof.
  intros [Hne Hw] Hp HS. unfold word_here.
  rewrite (prefix_ci_context w b S Hw HS).
  assert (Hb : word_before (MS (rev a ++ p) (b ++ S) []) =
               word_before (MS (rev a) b [])).
  { unfold word_before in *. cbn [pre] in *.
    destruct (rev a); [exact Hp | reflexivity]. }
  rewrite Hb.
  destruct (prefix_ci true w b) eqn:E; [|now rewrite !andb_false_r].
  apply prefix_ci_length in E.
  rewrite skipn_app. replace (length w - length b) with 0 by lia.
  cbn [skipn]. f_equal. f_equal.
  unfold word_after in *. cbn [suf] in *.
  destruct (skipn (length w) b); [exact HS | reflexivity].
Qed.

(** A text that the pattern of a word does not match has no match of it
    inside such surroundings either. *)
Lemma word_not_inside w N p S :
  lower_word w ->
  test true (word_pattern w) N = false ->
  word_before (MS p [] []) = false -> word_after (MS [] S []) = false ->
  forall a b, N = a ++ b ->
              match_at true (word_pattern w) (rev a ++ p) (b ++ S) = None.
Proof.
  intros Hw Ht Hp HS a b E.
  rewrite (match_at_word w _ _ Hw), (word_here_context w a b p S Hw Hp HS).
  unfold test, exec in Ht.
  destruct (search true (word_pattern w) [] N) eqn:Hs; [discriminate|].
  assert (H := search_none true (word_pattern w) N [] Hs a b E).
  rewrite app_nil_r, (match_at_word w _ _ Hw) in H.
  now destruct (word_here w (rev a) b).
Qed.

(** ** White space and word characters *)

Lemma ci_space c : class_mem true [CS] c = is_space c.
Proof.
  assert (H : forallb (fun c => Bool.eqb (class_mem true [CS] c) (is_space c))
                      all_ascii = true) by (vm_compute; reflexivity).
  assert (H1 := forall_ascii _ H c). cbv beta in H1.
  now apply Bool.eqb_prop in H1.
Qed.

Lemma space_not_word c : is_space c = true -> is_word c = false.
Proof.
  assert (H : forallb (fun c => implb (is_space c) (negb (is_word c)))
                      all_ascii = true) by (vm_compute; reflexivity).
  assert (H1 := forall_ascii _ H c). cbv beta in H1.
  intros Hc. rewrite Hc in H1. now apply negb_true_iff in H1.
Qed.

(** Inside a text that ends with a character that is not a word character
    and that the pattern of a word does not match, the pattern matches
    nowhere, whatever follows the text. *)
Lemma word_not_inside_open w N S :
  lower_word w ->
  test true (word_pattern w) N = false ->
  match rev N with c :: _ => is_word c = false | [] => True end ->
  forall a b, N = a ++ b -> b <> [] ->
              match_at true (word_pattern w) (rev a ++ []) (b ++ S) = None.
Proof.
  intros Hw Ht Hlast a b E Hb.
  destruct (exists_last Hb) as [b' [x Eb]]. subst b.
  rewrite E, rev_app_distr, rev_app_distr in Hlast. cbn [rev app] in Hlast.
  assert (Hin := word_not_inside w N [] [] Hw Ht eq_refl eq_refl a (b' ++ [x]) E).
  assert (C1 := word_here_context w a b' [] ([x] ++ S) Hw eq_refl Hlast).
  assert (C2 := word_here_context w a b' [] [x] Hw eq_refl Hlast).
  rewrite (match_at_word w _ _ Hw). rewrite (match_at_word w _ _ Hw) in Hin.
  rewrite <- app_assoc, C1. rewrite (app_nil_r (b' ++ [x])), C2 in Hin.
  now destruct (word_here w (rev a) b').
Qed.

(** ** Chains of names *)

Lemma lower_word_to : lower_word (str "to").
Proof. split; [easy | repeat constructor]. Qed.

Lemma lower_word_from : lower_word (str "from").
Proof. split; [easy | repeat constructor]. Qed.

(** White space around a trimmed text is what [trim] removes. *)
Lemma trim_padded n ws1 ws2 :
  n <> [] -> trim n = n ->
  Forall (fun c => is_space c = true) ws1 ->
  Forall (fun c => is_space c = true) ws2 ->
  trim (ws1 ++ n ++ ws2) = n.
Proof.
  intros Hne Ht H1 H2.
  assert (Hh := trim_head n). rewrite Ht in Hh.
  destruct n as [|c n]; [easy|].
  assert (Hs : trimStart (c :: n) = c :: n) by (simpl; now rewrite Hh).
  assert (He : trimEnd (c :: n) = c :: n).
  { unfold trim in Ht. now rewrite Hs in Ht. }
  unfold trim. rewrite (trimStart_spaces ws1 _ H1).
  change ((c :: n) ++ ws2) with (c :: (n ++ ws2)).
  cbn [trimStart]. rewrite Hh.
  change (c :: (n ++ ws2)) with ((c :: n) ++ ws2).
  unfold trimEnd. rewrite rev_app_distr.
  rewrite trimStart_spaces by (now apply Forall_rev).
  exact He.
Qed.

(** A text that [trim] leaves as it is starts and ends with characters that
    are not white space. *)
Lemma trimmed_ends n :
  n <> [] -> trim n = n ->
  (exists c n', n = c :: n' /\ is_space c = false) /\
  trimStart n = n /\ trimEnd n = n /\
  Exists (fun c => is_space c = false) n.
Proof.
  intros Hne Ht. assert (Hh := trim_head n). rewrite Ht in Hh.
  destruct n as [|c n]; [easy|].
  assert (Hs : trimStart (c :: n) = c :: n) by (simpl; now rewrite Hh).
  split; [now exists c, n|]. split; [exact Hs|]. split.
  - unfold trim in Ht. now rewrite Hs in Ht.
  - now left.
Qed.

Lemma trim_joined X M Y :
  X <> [] -> trim X = X -> Y <> [] -> trim Y = Y ->
  trim (X ++ M ++ Y) = X ++ M ++ Y.
Proof.
  intros HX HtX HY HtY.
  destruct (trimmed_ends X HX HtX) as [[c [X' [-> Hc]]] _].
  destruct (trimmed_ends Y HY HtY) as [_ [_ [He Hex]]].
  unfold trim. cbn [app trimStart]. rewrite Hc.
  change (c :: X' ++ M ++ Y) with ((c :: X') ++ M ++ Y).
  rewrite app_assoc, (trimEnd_app _ _ Hex), He. reflexivity.
Qed.

Section WordScan.

Variable w : jstring.
Hypothesis Hw : lower_word w.

Lemma split_loop_word_skip N fuel p piece S :
  test ci (word_pattern w) N = false ->
  word_before (MS p [] []) = false -> word_after (MS [] S []) = false ->
  split_loop ci (length N + fuel) (word_pattern w) p piece (N ++ S) =
  split_loop ci fuel (word_pattern w) (rev N ++ p) (rev N ++ piece) S.
Proof.
  intros Ht Hp HS. apply split_loop_skip. intros a b E _.
  exact (word_not_inside w N p S Hw Ht Hp HS a b E).
Qed.

Lemma search_word_skip N p S :
  test ci (word_pattern w) N = false ->
  word_before (MS p [] []) = false -> word_after (MS [] S []) = false ->
  search ci (word_pattern w) p (N ++ S) =
  search ci (word_pattern w) (rev N ++ p) S.
Proof.
  intros Ht Hp HS. apply search_skip. intros a b E _.
  exact (word_not_inside w N p S Hw Ht Hp HS a b E).
Qed.

End WordScan.

Lemma word_here_miss w p s : prefix_ci true w s = false -> word_here w p s = false.
Proof. intros H. unfold word_here. now rewrite H, andb_false_r. Qed.

Lemma word_at_end w p :
  lower_word w -> search ci (word_pattern w) p [] = None.
Proof.
  intros Hw. cbn [search]. rewrite (match_at_word _ _ _ Hw), word_here_miss.
  - reflexivity.
  - destruct Hw as [Hne _]. now destruct w.
Qed.

Lemma search_miss icase r p c s :
  match_at icase r p (c :: s) = None ->
  search icase r p (c :: s) = search icase r (c :: p) s.
Proof. intros H. cbn [search]. now rewrite H. Qed.

Module MultiWaypointFacts.

Import Enhanced.

Lemma to_miss p c s :
  class_mem true [CC "t"%char] c = false -> match_at ci word_to p (c :: s) = None.
Proof.
  intros H. change word_to with (word_pattern (str "to")).
  rewrite (match_at_word _ _ _ lower_word_to), word_here_miss; [reflexivity|].
  cbn [str list_ascii_of_string prefix_ci]. now rewrite H.
Qed.

Lemma from_miss p c s :
  class_mem true [CC "f"%char] c = false -> match_at ci word_from p (c :: s) = None.
Proof.
  intros H. change word_from with (word_pattern (str "from")).
  rewrite (match_at_word _ _ _ lower_word_from), word_here_miss; [reflexivity|].
  cbn [str list_ascii_of_string prefix_ci]. now rewrite H.
Qed.

(** The word "to" between two spaces is a match of /\bto\b/i. *)
Lemma to_hit p X :
  match_at ci word_to (" "%char :: p) (str "to " ++ X) =
  Some (RM (" "%char :: p) (str "to") (" "%char :: X) []).
Proof.
  change word_to with (word_pattern (str "to")).
  now rewrite (match_at_word _ _ _ lower_word_to).
Qed.

(** Cutting names joined by " to " at the word "to". *)
Lemma split_to_chain names :
  names <> [] -> Forall no_to names ->
  forall fuel p piece,
    length (join (str " to ") names) < fuel ->
    word_before (MS p [] []) = false ->
    split_loop ci fuel word_to p piece (join (str " to ") names) =
    map Some (chain (rev piece) names).
Proof.
  induction names as [|N rest IH]; [easy|].
  intros _ Hall fuel p piece Hf Hp.
  inversion Hall as [|? ? HN Hrest]. subst.
  destruct rest as [|N2 rest].
  - cbn [join chain map] in *.
    replace fuel with (length N + S (fuel - length N - 1)) by lia.
    assert (H := split_loop_word_skip (str "to") lower_word_to N
                   (S (fuel - length N - 1)) p piece [] HN Hp eq_refl).
    rewrite app_nil_r in H. change word_to with (word_pattern (str "to")).
    rewrite H, split_loop_end, rev_app_distr, rev_involutive. reflexivity.
  - change (join (str " to ") (N :: N2 :: rest))
      with (N ++ str " to " ++ join (str " to ") (N2 :: rest)) in *.
    change (chain (rev piece) (N :: N2 :: rest))
      with ((rev piece ++ N ++ str " ") :: chain (str " ") (N2 :: rest)).
    remember (join (str " to ") (N2 :: rest)) as T eqn:ET.
    rewrite !length_app in Hf.
    change (length (str " to ")) with 4 in Hf.
    replace fuel with (length N + S (S (S (S (fuel - length N - 4))))) by lia.
    change word_to with (word_pattern (str "to")).
    rewrite (split_loop_word_skip (str "to") lower_word_to N _ p piece
               (str " to " ++ T) HN Hp eq_refl).
    change (word_pattern (str "to")) with word_to.
    change (str " to " ++ T) with (" "%char :: str "to " ++ T).
    rewrite (split_loop_miss _ _ _ _ _ _ _ (to_miss _ " "%char _ eq_refl)).
    change (str "to " ++ T) with ("t"%char :: str "o " ++ T).
    rewrite (split_loop_hit _ _ _ _ _ _ _ _ (to_hit _ T) ltac:(easy)).
    cbn [m_0 m_rest].
    rewrite (split_loop_miss _ _ _ _ _ _ _ (to_miss _ " "%char _ eq_refl)).
    rewrite IH; [|easy|exact Hrest|lia|reflexivity].
    cbn [map groups word_to Regex.seq lit lit_chars str list_ascii_of_string app].
    cbn [rev]. rewrite rev_app_distr, rev_involutive, <- app_assoc.
    reflexivity.
Qed.

(** No standalone "from" is found in names joined by " to ". *)
Lemma split_from_chain names :
  names <> [] -> Forall no_from names ->
  forall fuel p piece,
    length (join (str " to ") names) < fuel ->
    word_before (MS p [] []) = false ->
    split_loop ci fuel word_from p piece (join (str " to ") names) =
    [Some (rev piece ++ join (str " to ") names)].
Proof.
  induction names as [|N rest IH]; [easy|].
  intros _ Hall fuel p piece Hf Hp.
  inversion Hall as [|? ? HN Hrest]. subst.
  destruct rest as [|N2 rest].
  - cbn [join] in *.
    replace fuel with (length N + S (fuel - length N - 1)) by lia.
    assert (H := split_loop_word_skip (str "from") lower_word_from N
                   (S (fuel - length N - 1)) p piece [] HN Hp eq_refl).
    rewrite app_nil_r in H. change word_from with (word_pattern (str "from")).
    rewrite H, split_loop_end, rev_app_distr, rev_involutive. reflexivity.
  - change (join (str " to ") (N :: N2 :: rest))
      with (N ++ str " to " ++ join (str " to ") (N2 :: rest)) in *.
    remember (join (str " to ") (N2 :: rest)) as T eqn:ET.
    rewrite !length_app in Hf.
    change (length (str " to ")) with 4 in Hf.
    replace fuel with (length N + S (S (S (S (fuel - length N - 4))))) by lia.
    change word_from with (word_pattern (str "from")).
    rewrite (split_loop_word_skip (str "from") lower_word_from N _ p piece
               (str " to " ++ T) HN Hp eq_refl).
    change (word_pattern (str "from")) with word_from.
    change (str " to " ++ T)
      with (" "%char :: "t"%char :: "o"%char :: " "%char :: T).
    rewrite (split_loop_miss _ _ _ _ _ _ _ (from_miss _ " "%char _ eq_refl)).
    rewrite (split_loop_miss _ _ _ _ _ _ _ (from_miss _ "t"%char _ eq_refl)).
    rewrite (split_loop_miss _ _ _ _ _ _ _ (from_miss _ "o"%char _ eq_refl)).
    rewrite (split_loop_miss _ _ _ _ _ _ _ (from_miss _ " "%char _ eq_refl)).
    rewrite IH; [|easy|exact Hrest|lia|reflexivity].
    cbn [rev]. rewrite !rev_app_distr, rev_involutive. cbn [rev app].
    rewrite <- !app_assoc. reflexivity.
Qed.

Lemma waypoint_name_spec n :
  waypoint_name n = true ->
  n <> [] /\ trim n = n /\ replace cs trailing_punct1 erase n = n /\
  no_to n /\ no_from n.
Proof.
  unfold waypoint_name, no_to, no_from. rewrite !andb_true_iff.
  rewrite !text_eqb_eq, !negb_true_iff.
  intros [[[[H1 H2] H3] H4] H5]. repeat split; try assumption.
  now destruct n.
Qed.

(** A mark is neither a word character nor white space. *)
Lemma mark_char c :
  class_mem cs (map CC (str ",.!?;")) c = true ->
  is_word c = false /\ is_space c = false.
Proof.
  assert (H : forallb (fun c => implb (class_mem cs (map CC (str ",.!?;")) c)
                                      (negb (is_word c) && negb (is_space c)))
                      all_ascii = true) by (vm_compute; reflexivity).
  assert (H1 := forall_ascii _ H c). cbv beta in H1.
  intros Hc. rewrite Hc in H1. cbn [implb] in H1.
  apply andb_true_iff in H1. now rewrite !negb_true_iff in H1.
Qed.

Lemma mark_spec q :
  mark q = true ->
  q = [] \/ exists c, q = [c] /\ class_mem cs (map CC (str ",.!?;")) c = true.
Proof.
  destruct q as [|c [|d q]]; intros H; [now left | right | discriminate].
  now exists c.
Qed.

(** A character that is not a word character after a text adds no word. *)
Lemma no_word_snoc w n c :
  lower_word w -> test ci (word_pattern w) n = false -> is_word c = false ->
  test ci (word_pattern w) (n ++ [c]) = false.
Proof.
  intros Hw Hn Hc. unfold test, exec.
  rewrite (search_word_skip w Hw n [] [c] Hn eq_refl Hc).
  rewrite search_miss.
  - now rewrite (word_at_end w _ Hw).
  - rewrite (match_at_word _ _ _ Hw), word_here_miss; [reflexivity|].
    destruct Hw as [Hne Hall]. destruct w as [|x w]; [easy|].
    inversion Hall as [|? ? Hx _]. subst. cbn [prefix_ci].
    destruct (class_mem true [CC x] c) eqn:E; [|reflexivity].
    apply (ci_letter_is_word x c Hx) in E. congruence.
Qed.

Lemma stop_text_no_word w s :
  lower_word w -> test ci (word_pattern w) (fst s) = false ->
  mark (snd s) = true -> test ci (word_pattern w) (stop_text s) = false.
Proof.
  intros Hw Hn Hq. unfold stop_text.
  destruct (mark_spec _ Hq) as [->|[c [-> Hc]]].
  - now rewrite app_nil_r.
  - apply no_word_snoc; try assumption. now apply mark_char.
Qed.

(** /[,.!?;]$/ removes a mark at the end. *)
Lemma strip_mark n c :
  class_mem cs (map CC (str ",.!?;")) c = true ->
  replace cs trailing_punct1 erase (n ++ [c]) = n.
Proof.
  intros Hc. unfold replace, exec.
  rewrite (search_skip cs trailing_punct1 n [] [c]).
  - assert (Hm : match_at cs trailing_punct1 (rev n ++ []) [c] =
                 Some (RM (rev n ++ []) [c] [] [])).
    { unfold match_at, trailing_punct1, oneof. cbn [Regex.seq].
      rewrite run_seq_fwd, run_chr_cons, Hc. cbn [flat_map run is_nil suf app].
      cbn [caps suf]. f_equal. f_equal. apply captured_fwd. reflexivity. }
    rewrite (search_hit _ _ _ _ _ Hm). cbn [m_pre m_rest erase].
    now rewrite !app_nil_r, rev_involutive.
  - intros a b E Hb. destruct b as [|d b]; [easy|].
    unfold match_at, trailing_punct1, oneof. cbn [Regex.seq app].
    rewrite run_seq_fwd, run_chr_cons.
    destruct (class_mem cs (map CC (str ",.!?;")) d); [|reflexivity].
    cbn [flat_map run suf]. now destruct b.
Qed.

Lemma stop_ok_spec s :
  stop_ok s = true -> waypoint_name (fst s) = true /\ mark (snd s) = true.
Proof. unfold stop_ok. now rewrite andb_true_iff. Qed.

Lemma stop_text_trimmed s :
  stop_ok s = true -> stop_text s <> [] /\ trim (stop_text s) = stop_text s.
Proof.
  intros Hs. apply stop_ok_spec in Hs. destruct Hs as [Hn Hq].
  apply waypoint_name_spec in Hn. destruct Hn as [Hne [Ht _]].
  unfold stop_text. destruct (mark_spec _ Hq) as [->|[c [-> Hc]]].
  - now rewrite app_nil_r.
  - split; [now destruct (fst s)|].
    apply mark_char in Hc. destruct Hc as [_ Hc].
    assert (Hc1 : [c] <> []) by discriminate.
    assert (H := trim_joined (fst s) [] [c] Hne Ht Hc1).
    cbn [app] in H. apply H. unfold trim, trimEnd.
    cbn [trimStart rev app]. rewrite Hc. cbn [trimStart rev app].
    now rewrite Hc.
Qed.

(** What lines 40-47 make of the piece of a stop: its name. *)
Lemma stop_clean s ws :
  stop_ok s = true -> Forall (fun c => is_space c = true) ws ->
  trim (replace cs trailing_punct1 erase (trim (str " " ++ stop_text s ++ ws)))
  = fst s.
Proof.
  intros Hs Hws. destruct (stop_text_trimmed s Hs) as [Hne Ht].
  rewrite (trim_padded (stop_text s) (str " ") ws Hne Ht); [|now repeat constructor|exact Hws].
  apply stop_ok_spec in Hs. destruct Hs as [Hn Hq].
  apply waypoint_name_spec in Hn. destruct Hn as [_ [Htn [Hr _]]].
  unfold stop_text. destruct (mark_spec _ Hq) as [->|[c [-> Hc]]].
  - now rewrite app_nil_r, Hr.
  - now rewrite (strip_mark _ _ Hc).
Qed.

Lemma first_clean n ws :
  waypoint_name n = true -> Forall (fun c => is_space c = true) ws ->
  trim (str " " ++ n ++ ws) = n.
Proof.
  intros Hn Hws. apply waypoint_name_spec in Hn.
  destruct Hn as [Hne [Ht _]].
  apply trim_padded; try assumption. now repeat constructor.
Qed.

Lemma chain_clean rest :
  rest <> [] -> Forall (fun s => stop_ok s = true) rest ->
  flat_map (fun p =>
              if truthy (trim (replace cs trailing_punct1 erase (trim p)))
              then [trim (replace cs trailing_punct1 erase (trim p))] else [])
           (chain (str " ") (map stop_text rest)) = map fst rest.
Proof.
  induction rest as [|s rest IH]; [easy|]. intros _ Hall.
  inversion Hall as [|? ? Hs Hrest]. subst.
  assert (Hne : fst s <> []).
  { apply stop_ok_spec in Hs. destruct Hs as [Hn _].
    now apply waypoint_name_spec in Hn. }
  destruct rest as [|s2 rest].
  - cbn [map chain flat_map]. rewrite app_nil_r.
    assert (H := stop_clean s [] Hs ltac:(constructor)).
    rewrite app_nil_r in H. rewrite H. now destruct (fst s).
  - change (chain (str " ") (map stop_text (s :: s2 :: rest)))
      with ((str " " ++ stop_text s ++ str " ")
              :: chain (str " ") (map stop_text (s2 :: rest))).
    change (map fst (s :: s2 :: rest)) with (fst s :: map fst (s2 :: rest)).
    cbn [flat_map]. rewrite IH by easy.
    rewrite (stop_clean s (str " ") Hs ltac:(now repeat constructor)).
    now destruct (fst s).
Qed.

Section Stops.

Variables (first : jstring) (rest : list (jstring * jstring)).
Hypothesis Hfirst : waypoint_name first = true.
Hypothesis Hrest : Forall (fun s => stop_ok s = true) rest.

Let pieces := first :: map stop_text rest.

Lemma pieces_no_to : Forall no_to pieces.
Proof.
  constructor; [now apply waypoint_name_spec in Hfirst|].
  apply Forall_map. eapply Forall_impl; [|exact Hrest].
  intros s Hs. apply stop_ok_spec in Hs. destruct Hs as [Hn Hq].
  apply waypoint_name_spec in Hn.
  apply (stop_text_no_word (str "to") s lower_word_to); tauto.
Qed.

Lemma pieces_no_from : Forall no_from pieces.
Proof.
  constructor; [now apply waypoint_name_spec in Hfirst|].
  apply Forall_map. eapply Forall_impl; [|exact Hrest].
  intros s Hs. apply stop_ok_spec in Hs. destruct Hs as [Hn Hq].
  apply waypoint_name_spec in Hn.
  apply (stop_text_no_word (str "from") s lower_word_from); tauto.
Qed.

(** Lines 35-52 on the stops joined by " to ": their names. *)
Lemma waypointsAfter_chain :
  waypointsAfter (str " " ++ join (str " to ") pieces) = first :: map fst rest.
Proof.
  assert (Hs : split ci word_to (str " " ++ join (str " to ") pieces) =
               chain (str " ") pieces).
  { remember (join (str " to ") pieces) as T eqn:ET.
    unfold split, split_opt. cbn [str list_ascii_of_string app length].
    replace (2 * S (length T) + 2) with (S (S (S (2 * length T + 1)))) by lia.
    rewrite (split_loop_miss _ _ _ _ _ _ _ (to_miss _ " "%char _ eq_refl)).
    subst T.
    rewrite split_to_chain; [|easy|exact pieces_no_to|lia|reflexivity].
    rewrite map_map. cbn [rev app]. apply map_id. }
  unfold waypointsAfter. rewrite Hs. cbv zeta. unfold pieces.
  assert (Hnn : first <> []) by now apply waypoint_name_spec in Hfirst.
  destruct rest as [|s rest'] eqn:Er.
  - cbn [map chain tl flat_map]. rewrite app_nil_r.
    assert (H := first_clean first [] Hfirst ltac:(constructor)).
    rewrite app_nil_r in H. cbn [str list_ascii_of_string app truthy] in H |- *.
    now rewrite H.
  - change (chain (str " ") (first :: map stop_text (s :: rest')))
      with ((str " " ++ first ++ str " ")
              :: chain (str " ") (map stop_text (s :: rest'))).
    cbn [tl]. rewrite chain_clean by easy.
    assert (H := first_clean first (str " ") Hfirst ltac:(now repeat constructor)).
    cbn [str list_ascii_of_string app truthy] in H |- *.
    now rewrite H.
Qed.

End Stops.

(** The next standalone "to" after a name. *)
Lemma search_to_next n X p :
  no_to n -> word_before (MS p [] []) = false ->
  search ci word_to p (n ++ str " to " ++ X) =
  Some (RM (" "%char :: rev n ++ p) (str "to") (" "%char :: X) []).
Proof.
  intros Hn Hp. change word_to with (word_pattern (str "to")).
  rewrite (search_word_skip (str "to") lower_word_to n p (str " to " ++ X)
             Hn Hp eq_refl).
  change (word_pattern (str "to")) with word_to.
  change (str " to " ++ X) with (" "%char :: str "to " ++ X).
  rewrite (search_miss _ _ _ _ _ (to_miss _ " "%char _ eq_refl)).
  apply search_hit, to_hit.
Qed.

Lemma lead_spec P :
  lead P = true ->
  match rev P with c :: _ => is_word c = false | [] => True end /\
  word_before (MS (rev P) [] []) = false /\ no_to P /\ no_from P.
Proof.
  unfold lead, no_to, no_from. rewrite !andb_true_iff, !negb_true_iff.
  intros [[H1 H2] H3]. unfold word_before. cbn [pre].
  destruct (rev P) as [|c l]; [easy|]. apply space_not_word in H1. easy.
Qed.

Section Input.

Variables (P F first : jstring) (rest : list (jstring * jstring)).
Hypothesis HP : lead P = true.
Hypothesis HF : from_word F.
Hypothesis Hfirst : waypoint_name first = true.
Hypothesis Hrest : Forall (fun s => stop_ok s = true) rest.

Let pieces := first :: map stop_text rest.
Let inputText := P ++ F ++ str " " ++ join (str " to ") pieces.

Lemma input_includes_from :
  includes (toLowerCase inputText) (str "from") = true.
Proof.
  apply includes_spec.
  exists (toLowerCase P), (toLowerCase (str " " ++ join (str " to ") pieces)).
  unfold inputText, toLowerCase. rewrite !map_app.
  destruct HF as [<-|[<-|[<-|[]]]]; reflexivity.
Qed.

Lemma from_here T :
  match_at ci word_from (rev P ++ []) (F ++ str " " ++ T) =
  Some (RM (rev P ++ []) F (str " " ++ T) []).
Proof.
  destruct (lead_spec P HP) as [_ [Hb _]].
  change word_from with (word_pattern (str "from")).
  rewrite (match_at_word _ _ _ lower_word_from). unfold word_here.
  rewrite app_nil_r.
  assert (Hb' : word_before (MS (rev P) (F ++ str " " ++ T) []) = false)
    by exact Hb.
  rewrite Hb'. destruct HF as [<-|[<-|[<-|[]]]]; reflexivity.
Qed.

Lemma input_after_from :
  nth_error (split ci word_from inputText) 1 =
  Some (str " " ++ join (str " to ") pieces).
Proof.
  destruct (lead_spec P HP) as [Hlast [Hb [_ HPfrom]]].
  unfold inputText. remember (join (str " to ") pieces) as T eqn:ET.
  assert (Hlen : length F = 4) by (destruct HF as [<-|[<-|[<-|[]]]]; reflexivity).
  unfold split. rewrite split_opt_nonempty.
  2:{ destruct HF as [<-|[<-|[<-|[]]]]; now destruct P. }
  replace (2 * length (P ++ F ++ str " " ++ T) + 2)
    with (length P + S (S (S (length P + 2 * length T + 9)))).
  2:{ rewrite !length_app, Hlen. cbn [length str list_ascii_of_string]. lia. }
  change word_from with (word_pattern (str "from")).
  rewrite (split_loop_skip ci (word_pattern (str "from")) P _ [] []
             (F ++ str " " ++ T)).
  2:{ intros a b E Hne.
      exact (word_not_inside_open (str "from") P _ lower_word_from HPfrom Hlast
               a b E Hne). }
  change (word_pattern (str "from")) with word_from.
  assert (Hm := from_here T).
  destruct F as [|c F']; [discriminate|].
  cbn [app] in Hm |- *.
  rewrite (split_loop_hit _ _ _ _ _ _ _ _ Hm ltac:(easy)).
  cbn [m_0 m_rest str list_ascii_of_string app].
  rewrite (split_loop_miss _ _ _ _ _ _ _ (from_miss _ " "%char _ eq_refl)).
  subst T.
  rewrite split_from_chain;
    [|easy|exact (pieces_no_from first rest Hfirst Hrest)| |reflexivity].
  - reflexivity.
  - cbn [length] in *. lia.
Qed.

Lemma input_multiFrom :
  1 <= length rest -> multiFrom inputText = Some (first :: map fst rest).
Proof.
  intros Hlen. unfold multiFrom. rewrite input_after_from.
  change (truthy (str " " ++ join (str " to ") pieces)) with true. cbv iota.
  unfold pieces. rewrite (waypointsAfter_chain first rest Hfirst Hrest).
  cbn [length]. rewrite length_map.
  destruct rest; [simpl in Hlen; lia | reflexivity].
Qed.

(** With three stops, the word "to" occurs at least twice. *)
Lemma input_has_multiple_to :
  2 <= length rest -> (2 <=? length (matchAll ci word_to inputText)) = true.
Proof.
  intros Hlen.
  destruct (lead_spec P HP) as [Hlast [Hb [HPto _]]].
  assert (Hto := pieces_no_to first rest Hfirst Hrest).
  unfold inputText, pieces in *.
  destruct rest as [|s2 [|s3 more]]; try (simpl in Hlen; lia).
  inversion Hto as [|? ? Hn1 Hto']. inversion Hto' as [|? ? Hn2 _]. subst.
  change (join (str " to ") (first :: map stop_text (s2 :: s3 :: more)))
    with (first ++ str " to " ++ stop_text s2 ++ str " to " ++
          join (str " to ") (map stop_text (s3 :: more))).
  remember (join (str " to ") (map stop_text (s3 :: more))) as T eqn:ET.
  assert (HFto : test ci (word_pattern (str "to")) F = false)
    by (destruct HF as [<-|[<-|[<-|[]]]]; reflexivity).
  set (R := str " " ++ first ++ str " to " ++ stop_text s2 ++ str " to " ++ T).
  assert (Hs1 : search ci word_to [] (P ++ F ++ R)
                = Some (RM (" "%char :: rev first ++ " "%char :: rev F ++ rev P ++ [])
                           (str "to")
                           (" "%char :: stop_text s2 ++ str " to " ++ T) [])).
  { change word_to with (word_pattern (str "to")).
    rewrite (search_skip ci (word_pattern (str "to")) P [] (F ++ R)).
    2:{ intros a b E Hne.
        exact (word_not_inside_open (str "to") P _ lower_word_to HPto Hlast
                 a b E Hne). }
    rewrite (search_word_skip (str "to") lower_word_to F (rev P ++ []) R HFto).
    2:{ rewrite app_nil_r. exact Hb. }
    2:{ reflexivity. }
    change (word_pattern (str "to")) with word_to. unfold R.
    change (str " " ++ first ++ str " to " ++ stop_text s2 ++ str " to " ++ T)
      with (" "%char :: first ++ str " to " ++ stop_text s2 ++ str " to " ++ T).
    rewrite (search_miss _ _ _ _ _ (to_miss _ " "%char _ eq_refl)).
    now apply search_to_next. }
  unfold matchAll.
  destruct (length (P ++ F ++ R)) as [|fuel] eqn:El.
  { rewrite !length_app in El.
    destruct HF as [<-|[<-|[<-|[]]]]; cbn [length str list_ascii_of_string] in El; lia. }
  rewrite (all_from_cons _ _ _ _ _ _ Hs1 ltac:(easy)). cbn [m_0 m_rest m_pre].
  assert (Hs2 : search ci word_to
                  (rev (str "to") ++ " "%char :: rev first ++ " "%char :: rev F ++ rev P ++ [])
                  (" "%char :: stop_text s2 ++ str " to " ++ T)
                = Some (RM (" "%char :: rev (stop_text s2) ++ " "%char
                              :: rev (str "to") ++
                            " "%char :: rev first ++ " "%char :: rev F ++ rev P ++ [])
                           (str "to") (" "%char :: T) [])).
  { rewrite (search_miss _ _ _ _ _ (to_miss _ " "%char _ eq_refl)).
    now apply search_to_next. }
  rewrite (all_from_cons _ _ _ _ _ _ Hs2 ltac:(easy)). reflexivity.
Qed.

Lemma input_multiWaypoint :
  2 <= length rest ->
  multiWaypoint inputText
  = Ok (Some (multiStop inputText (first :: map fst rest))).
Proof.
  intros Hlen. unfold multiWaypoint.
  rewrite (input_has_multiple_to Hlen), input_includes_from.
  cbn [andb orb bind]. rewrite input_multiFrom by lia. reflexivity.
Qed.

End Input.

End MultiWaypointFacts.

(** ** One or more characters of a class *)

Section Plus.

Variable icase : bool.
Variable cs : list cclass.

Lemma rep_loop_step body gs greedy fuel min s :
  rep_loop body gs greedy (S fuel) min None s =
  let iter :=
    flat_map (fun y => if (min =? 0) && (pos y =? pos s) then []
                       else rep_loop body gs greedy fuel (pred min) None y)
             (body (reset gs s)) in
  if negb (min =? 0) then iter
  else if greedy then iter ++ [s] else s :: iter.
Proof. reflexivity. Qed.

(** [c+] before a character that is not in the class. *)
Lemma run_plus_none p s k :
  match s with c :: _ => class_mem icase cs c = false | [] => True end ->
  run icase Fwd (plus (Chr cs)) (MS p s k) = [].
Proof.
  intros H. unfold plus. cbn [run]. rewrite rep_loop_step. cbv zeta.
  cbn [Nat.eqb negb groups reset pre suf caps map app run step_char].
  destruct s as [|c s]; [reflexivity|]. now rewrite H.
Qed.

(** [c+] on a single character of the class. *)
Lemma run_plus_one p c rest k :
  class_mem icase cs c = true ->
  match rest with d :: _ => class_mem icase cs d = false | [] => True end ->
  run icase Fwd (plus (Chr cs)) (MS p (c :: rest) k) = [MS (c :: p) rest k].
Proof.
  intros Hc Hd. unfold plus. cbn [run]. rewrite rep_loop_step. cbv zeta.
  cbn [Nat.eqb negb groups reset pre suf caps map app run step_char].
  rewrite Hc. cbn [flat_map andb pred option_map length Nat.add].
  rewrite rep_loop_step. cbv zeta.
  cbn [Nat.eqb negb groups reset pre suf caps map app run step_char].
  destruct rest as [|d rest]; [reflexivity|]. now rewrite Hd.
Qed.

End Plus.

(** ** The separator /\s+to\s+/i *)

Module SeparatorFacts.

Import Enhanced.

Lemma sep_miss p c s :
  is_space c = false -> match_at ci ws_to_ws p (c :: s) = None.
Proof.
  intros Hc. unfold match_at, ws_to_ws. cbn [Regex.seq].
  rewrite run_seq_fwd. unfold sp.
  rewrite run_plus_none; [reflexivity|]. now rewrite ci_space.
Qed.

Lemma sep_nil p : match_at ci ws_to_ws p [] = None.
Proof. reflexivity. Qed.

(** Where the separator matches after one white-space character, the
    word "to" stands. *)
Lemma sep_word p c d rest m :
  is_space d = false ->
  match_at ci ws_to_ws p (c :: d :: rest) = Some m ->
  word_here (str "to") (c :: p) (d :: rest) = true.
Proof.
  intros Hd H. destruct (is_space c) eqn:Hc;
    [|rewrite (sep_miss _ _ _ Hc) in H; discriminate].
  unfold match_at, ws_to_ws in H. cbn [Regex.seq] in H.
  rewrite run_seq_fwd in H. unfold sp in H.
  rewrite run_plus_one in H; [|now rewrite ci_space|now rewrite ci_space].
  cbn [flat_map] in H. rewrite app_nil_r, run_seq_fwd in H.
  unfold lit in H. rewrite run_lit_prefix in H.
  unfold word_here. unfold ci in H.
  destruct (prefix_ci true (str "to") (d :: rest)) eqn:E;
    [|cbn [flat_map] in H; discriminate].
  cbn [flat_map] in H. rewrite app_nil_r in H.
  assert (Hb : word_before (MS (c :: p) (d :: rest) []) = false)
    by (apply space_not_word; exact Hc).
  rewrite Hb. cbn [negb andb].
  destruct (skipn (length (str "to")) (d :: rest)) as [|e t] eqn:Es.
  - rewrite run_plus_none in H; [cbn [app] in H; discriminate | exact I].
  - destruct (is_space e) eqn:He.
    + unfold word_after. cbn [suf]. now rewrite (space_not_word _ He).
    + rewrite run_plus_none in H;
        [cbn [app] in H; discriminate | now rewrite ci_space].
Qed.

(** " to " before a character that is not white space is a match. *)
Lemma sep_hit p y Y :
  is_space y = false ->
  match_at ci ws_to_ws p (str " to " ++ y :: Y) =
  Some (RM p (str " to ") (y :: Y) []).
Proof.
  intros Hy. unfold match_at, ws_to_ws. cbn [Regex.seq].
  rewrite run_seq_fwd. unfold sp.
  change (str " to " ++ y :: Y) with (" "%char :: str "to " ++ y :: Y).
  rewrite run_plus_one; [|reflexivity|reflexivity].
  cbn [flat_map]. rewrite app_nil_r, run_seq_fwd.
  unfold lit. rewrite run_lit_prefix.
  change (prefix_ci ci (str "to") (str "to " ++ y :: Y)) with true.
  cbn [flat_map]. rewrite app_nil_r.
  change (skipn (length (str "to")) (str "to " ++ y :: Y))
    with (" "%char :: y :: Y).
  rewrite run_plus_one; [|reflexivity|now rewrite ci_space].
  cbn [suf caps]. f_equal. f_equal. apply captured_fwd. reflexivity.
Qed.

Lemma single_spaced_tail a : forall b,
  single_spaced (a ++ b) = true -> single_spaced b = true.
Proof.
  induction a as [|c a IH]; intros b H; [exact H|].
  cbn [app single_spaced] in H. apply andb_true_iff in H. now apply IH.
Qed.

(** In a single-spaced text, white space is followed by something else. *)
Lemma single_spaced_next a c b :
  single_spaced (a ++ c :: b) = true -> is_space c = true ->
  exists d b', b = d :: b' /\ is_space d = false.
Proof.
  intros H Hc. apply single_spaced_tail in H. cbn [single_spaced] in H.
  rewrite Hc in H. cbn [negb orb] in H.
  apply andb_true_iff in H. destruct H as [H _].
  apply andb_true_iff in H. destruct H as [_ H].
  destruct b as [|d b']; [discriminate|].
  exists d, b'. split; [reflexivity | now apply negb_true_iff].
Qed.

(** The separator does not match inside a single-spaced text without the
    word "to", whatever follows it. *)
Lemma sep_not_inside n p S :
  single_spaced n = true -> no_to n ->
  word_before (MS p [] []) = false -> word_after (MS [] S []) = false ->
  forall a b, n = a ++ b -> b <> [] ->
              match_at ci ws_to_ws (rev a ++ p) (b ++ S) = None.
Proof.
  intros Hs Hn Hp HS a b E Hb. destruct b as [|c b]; [easy|].
  destruct (is_space c) eqn:Hc; [|now apply sep_miss].
  subst n. destruct (single_spaced_next a c b Hs Hc) as [d [b' [-> Hd]]].
  destruct (match_at ci ws_to_ws (rev a ++ p) ((c :: d :: b') ++ S))
    as [m|] eqn:M; [|reflexivity].
  cbn [app] in M. apply (sep_word _ _ _ _ _ Hd) in M.
  change (c :: rev a ++ p) with ((c :: rev a) ++ p) in M.
  assert (Hr : c :: rev a = rev (a ++ [c])) by (now rewrite rev_app_distr).
  rewrite Hr in M.
  change (d :: b' ++ S) with ((d :: b') ++ S) in M.
  rewrite (word_here_context _ _ _ _ _ lower_word_to Hp HS) in M.
  unfold no_to, test, exec in Hn.
  destruct (search ci word_to [] (a ++ c :: d :: b')) eqn:Hsr; [discriminate|].
  assert (H := search_none ci word_to _ [] Hsr (a ++ [c]) (d :: b')
                 ltac:(now rewrite <- app_assoc)).
  rewrite app_nil_r in H. change word_to with (word_pattern (str "to")) in H.
  rewrite (match_at_word _ _ _ lower_word_to), M in H. discriminate.
Qed.

End SeparatorFacts.

(** ** White-space normalisation *)

Lemma match_space_none p c s :
  is_space c = false -> match_at cs (plus sp) p (c :: s) = None.
Proof.
  intros Hc. unfold match_at, sp. rewrite run_plus_none; [reflexivity|].
  unfold class_mem. cbn [existsb class1 andb orb]. now rewrite Hc.
Qed.

Lemma match_space_one p d s :
  is_space d = false ->
  match_at cs (plus sp) p (" "%char :: d :: s) =
  Some (RM p (str " ") (d :: s) []).
Proof.
  intros Hd. unfold match_at, sp. rewrite run_plus_one; [|reflexivity|].
  - cbn [suf caps]. f_equal. f_equal. apply captured_fwd. reflexivity.
  - unfold class_mem. cbn [existsb class1 andb orb]. now rewrite Hd.
Qed.

(** The first white space of a single-spaced text is one space. *)
Lemma search_space s : forall p,
  single_spaced s = true ->
  search cs (plus sp) p s = None \/
  exists A B, s = A ++ " "%char :: B /\ single_spaced B = true /\
              search cs (plus sp) p s = Some (RM (rev A ++ p) (str " ") B []).
Proof.
  induction s as [|c s IH]; intros p Hs; [now left|].
  cbn [single_spaced] in Hs. apply andb_true_iff in Hs. destruct Hs as [Hc Hs].
  destruct (is_space c) eqn:Ec.
  - cbn [negb orb] in Hc. apply andb_true_iff in Hc. destruct Hc as [Hc Hd].
    apply ascii_eqb_eq in Hc. subst c.
    destruct s as [|d s]; [discriminate|]. apply negb_true_iff in Hd.
    right. exists [], (d :: s). repeat split; [exact Hs|].
    apply search_hit. now apply match_space_one.
  - rewrite (search_miss _ _ _ _ _ (match_space_none p c s Ec)).
    destruct (IH (c :: p) Hs) as [H|[A [B [E [HB H]]]]]; [now left|].
    right. exists (c :: A), B. repeat split.
    + cbn [app]. now rewrite E.
    + exact HB.
    + rewrite H. cbn [rev]. now rewrite <- app_assoc.
Qed.

(** Replacing the runs of white space of a single-spaced text by a space
    changes nothing. *)
Lemma normalise_single_spaced fuel : forall s p,
  single_spaced s = true ->
  replace_from cs fuel (plus sp) (fun _ => str " ") p s = s.
Proof.
  induction fuel as [|fuel IH]; intros s p Hs; [reflexivity|].
  cbn [replace_from].
  destruct (search_space s p Hs) as [H|[A [B [E [HB H]]]]]; rewrite H;
    [reflexivity|].
  cbn [m_pre m_0 m_rest str list_ascii_of_string].
  rewrite (IH B _ HB), length_app, length_rev.
  replace (length A + length p - length p) with (length A + 0) by lia.
  rewrite E, firstn_app_2. cbn [firstn]. now rewrite app_nil_r.
Qed.

Lemma single_spaced_app a b :
  single_spaced a = true -> single_spaced b = true ->
  single_spaced (a ++ b) = true.
Proof.
  induction a as [|c a IH]; intros Ha Hb; [exact Hb|].
  cbn [single_spaced] in Ha. apply andb_true_iff in Ha. destruct Ha as [Hc Ha].
  cbn [app single_spaced]. rewrite (IH Ha Hb), andb_true_r.
  destruct a as [|d a]; [|exact Hc].
  rewrite andb_false_r, orb_false_r in Hc. cbn [app]. now rewrite Hc.
Qed.

(** ** What a match of [c+] has consumed *)

Section PlusInversion.

Variable icase : bool.
Variable cs : list cclass.

Lemma chr_step s y :
  In y (run icase Fwd (Chr cs) s) ->
  exists c t, suf s = c :: t /\ class_mem icase cs c = true /\
              y = MS (c :: pre s) t (caps s).
Proof.
  cbn [run step_char]. destruct (suf s) as [|c t]; [easy|].
  destruct (class_mem icase cs c) eqn:E; [|easy].
  intros [<-|[]]. now exists c, t.
Qed.

Lemma iter_chr_last gs s z :
  iter (run icase Fwd (Chr cs)) gs s z ->
  (exists c q, pre s = c :: q /\ class_mem icase cs c = true) ->
  exists c q, pre z = c :: q /\ class_mem icase cs c = true.
Proof.
  induction 1 as [s|s y z Hy _ IH]; intros Hs; [exact Hs|].
  apply IH. apply chr_step in Hy. destruct Hy as [c [t [_ [Hc ->]]]].
  now exists c, (pre (reset gs s)).
Qed.

(** A match of [c+] starts and ends with a character of the class. *)
Lemma plus_ends s y :
  In y (run icase Fwd (plus (Chr cs)) s) ->
  (exists c t, suf s = c :: t /\ class_mem icase cs c = true) /\
  (exists c q, pre y = c :: q /\ class_mem icase cs c = true).
Proof.
  unfold plus. cbn [run]. intros H.
  apply rep_loop_first in H; [|easy|easy].
  destruct H as [y1 [Hy1 Hit]].
  assert (H1 := chr_step _ _ Hy1). destruct H1 as [c [t [Hs [Hc ->]]]].
  split; [now exists c, t|].
  apply (iter_chr_last _ _ _ Hit). now exists c, (pre (reset (groups (Chr cs)) s)).
Qed.

End PlusInversion.

(** ** "X to Y" in the exported extractLocationsWithRegex *)

Module ToFacts.

Import Enhanced SeparatorFacts.

(** Where /route\s+from\s+.../i matches, the word "from" stands. *)
Lemma route_needs_from p s y :
  In y (run ci Fwd NlpRegex.routePattern (MS p s [])) ->
  exists a b, rev p ++ s = a ++ b /\ word_here (str "from") (rev a) b = true.
Proof.
  unfold NlpRegex.routePattern. cbn [Regex.seq]. intros H.
  rewrite run_seq_fwd in H. apply in_flat_map in H. destruct H as [y1 [H1 H]].
  rewrite run_seq_fwd in H. apply in_flat_map in H. destruct H as [y2 [H2 H]].
  rewrite run_seq_fwd in H. apply in_flat_map in H. destruct H as [y3 [H3 H]].
  rewrite run_seq_fwd in H. apply in_flat_map in H. destruct H as [y4 [H4 _]].
  assert (E1 := run_ext ci _ _ _ _ H1). assert (E2 := run_ext ci _ _ _ _ H2).
  destruct (ext_trans _ _ _ _ E1 E2) as [m [Hs Hp]]. cbn [suf pre] in Hs, Hp.
  apply plus_ends in H2. destruct H2 as [_ [c [q [Hc Hcs]]]].
  apply plus_ends in H4. destruct H4 as [[c0 [t [Hc0 Hcs0]]] _].
  rewrite ci_space in Hcs, Hcs0.
  destruct y2 as [p2 s2 k2]. cbn [pre suf] in *.
  unfold lit in H3. rewrite run_lit_prefix in H3.
  destruct (prefix_ci ci (str "from") s2) eqn:Ep; [|easy].
  destruct H3 as [<-|[]]. cbn [suf] in Hc0.
  exists (rev p2), s2. split.
  - rewrite Hp, Hs, rev_app_distr, rev_involutive, <- app_assoc. reflexivity.
  - rewrite rev_involutive. unfold word_here, word_before, word_after.
    cbn [pre suf]. unfold ci in Ep. rewrite Hc, Ep.
    change (length (str "from")) with 4 in *. rewrite Hc0.
    now rewrite (space_not_word _ Hcs), (space_not_word _ Hcs0).
Qed.

Lemma route_none T : no_from T -> exec ci NlpRegex.routePattern T = None.
Proof.
  intros Hn. destruct (exec ci NlpRegex.routePattern T) as [m|] eqn:E;
    [|reflexivity].
  unfold exec in E. apply search_spec in E. destruct E as [a [ET [_ M]]].
  apply match_at_spec in M. destruct M as [_ [_ [y [Hy _]]]].
  apply route_needs_from in Hy. destruct Hy as [a' [b' [Eab Hw]]].
  rewrite app_nil_r, rev_involutive, <- ET in Eab.
  unfold no_from, test, exec in Hn.
  destruct (search ci word_from [] T) eqn:Hs; [discriminate|].
  assert (H := search_none ci word_from T [] Hs a' b' Eab).
  rewrite app_nil_r in H. change word_from with (word_pattern (str "from")) in H.
  rewrite (match_at_word _ _ _ lower_word_from), Hw in H. discriminate.
Qed.

Lemma no_from_joined X Y :
  no_from X -> no_from Y -> no_from (X ++ str " to " ++ Y).
Proof.
  intros HX HY. unfold no_from, test, exec.
  change word_from with (word_pattern (str "from")).
  rewrite (search_word_skip (str "from") lower_word_from X [] (str " to " ++ Y)
             HX eq_refl eq_refl).
  change (word_pattern (str "from")) with word_from.
  change (str " to " ++ Y)
    with (" "%char :: "t"%char :: "o"%char :: " "%char :: Y).
  rewrite (search_miss _ _ _ _ _ (MultiWaypointFacts.from_miss _ " "%char _ eq_refl)).
  rewrite (search_miss _ _ _ _ _ (MultiWaypointFacts.from_miss _ "t"%char _ eq_refl)).
  rewrite (search_miss _ _ _ _ _ (MultiWaypointFacts.from_miss _ "o"%char _ eq_refl)).
  rewrite (search_miss _ _ _ _ _ (MultiWaypointFacts.from_miss _ " "%char _ eq_refl)).
  assert (H := search_word_skip (str "from") lower_word_from Y
                 (" "%char :: "o"%char :: "t"%char :: " "%char :: rev X) []
                 HY eq_refl eq_refl).
  rewrite app_nil_r in H |- *. change word_from with (word_pattern (str "from")).
  now rewrite H, (word_at_end _ _ lower_word_from).
Qed.

Lemma place_name_spec n :
  place_name n = true ->
  n <> [] /\ trim n = n /\ single_spaced n = true /\ no_to n /\ no_from n /\
  replace ci NlpRegex.part_prefix erase n = n.
Proof.
  unfold place_name, no_to, no_from. rewrite !andb_true_iff.
  rewrite !text_eqb_eq, !negb_true_iff.
  intros [[[[[H1 H2] H3] H4] H5] H6]. repeat split; try assumption.
  now destruct n.
Qed.

Section Joined.

Variables X Y : jstring.
Hypothesis HX : place_name X = true.
Hypothesis HY : place_name Y = true.

Let text := X ++ str " to " ++ Y.

Lemma joined_trim : trim text = text.
Proof.
  apply place_name_spec in HX, HY.
  apply trim_joined; tauto.
Qed.

Lemma joined_single_spaced : single_spaced text = true.
Proof.
  apply place_name_spec in HX, HY.
  destruct HX as [_ [_ [HsX _]]]. destruct HY as [HneY [HtY [HsY _]]].
  destruct (trimmed_ends Y HneY HtY) as [[c [Y' [E Hc]]] _].
  unfold text. apply single_spaced_app; [exact HsX|].
  rewrite E in *. cbn [str list_ascii_of_string app single_spaced].
  cbn [single_spaced] in HsY. rewrite Hc in *. exact HsY.
Qed.

Lemma joined_split : split ci ws_to_ws text = [X; Y].
Proof.
  assert (HX' := place_name_spec _ HX). assert (HY' := place_name_spec _ HY).
  destruct HX' as [HneX [_ [HsX [HtoX _]]]].
  destruct HY' as [HneY [HtY [HsY [HtoY _]]]].
  destruct (trimmed_ends Y HneY HtY) as [[y [Y' [EY Hy]]] _].
  unfold split, text.
  rewrite split_opt_nonempty by (destruct X; easy).
  replace (2 * length (X ++ str " to " ++ Y) + 2)
    with (length X + S (length Y + S (length X + length Y + 8))).
  2:{ rewrite !length_app. change (length (str " to ")) with 4. lia. }
  rewrite (split_loop_skip ci ws_to_ws X _ [] [] (str " to " ++ Y)).
  2:{ intros a b E Hb.
      apply (sep_not_inside X [] (str " to " ++ Y) HsX HtoX eq_refl eq_refl a b E Hb). }
  assert (Hhit : forall p, match_at ci ws_to_ws p (" "%char :: str "to " ++ Y) =
                           Some (RM p (str " to ") Y []))
    by (intros p; rewrite EY; now apply sep_hit).
  change (str " to " ++ Y) with (" "%char :: str "to " ++ Y).
  rewrite (split_loop_hit _ _ _ _ _ _ _ _ (Hhit _) ltac:(easy)).
  cbn [m_0 m_rest]. rewrite !app_nil_r.
  assert (H := split_loop_skip ci ws_to_ws Y (S (length X + length Y + 8))
                 (rev (str " to ") ++ rev X) [] []).
  rewrite !app_nil_r in H. rewrite H.
  2:{ intros a b E Hb.
      assert (H' := sep_not_inside Y (rev (str " to ") ++ rev X) []
                      HsY HtoY eq_refl eq_refl a b E Hb).
      exact H'. }
  rewrite split_loop_end.
  cbn [map groups ws_to_ws Regex.seq app].
  now rewrite !rev_involutive.
Qed.

Lemma joined_test : test ci ws_to_ws text = true.
Proof.
  assert (HX' := place_name_spec _ HX). assert (HY' := place_name_spec _ HY).
  destruct HX' as [HneX [_ [HsX [HtoX _]]]].
  destruct HY' as [HneY [HtY _]].
  destruct (trimmed_ends Y HneY HtY) as [[y [Y' [EY Hy]]] _].
  unfold test, exec, text.
  rewrite (search_skip ci ws_to_ws X [] (str " to " ++ Y)).
  2:{ intros a b E Hb.
      apply (sep_not_inside X [] (str " to " ++ Y) HsX HtoX eq_refl eq_refl a b E Hb). }
  rewrite EY. now rewrite (search_hit _ _ _ _ _ (sep_hit _ y Y' Hy)).
Qed.

Lemma joined_nonempty : text <> [].
Proof.
  apply place_name_spec in HX. unfold text. destruct X; [tauto | easy].
Qed.

(** White space around the text is dropped first. *)
Lemma joined_locations l r :
  Forall (fun c => is_space c = true) l ->
  Forall (fun c => is_space c = true) r ->
  exists prefs,
    NlpRegex.extractLocationsWithRegex (l ++ text ++ r) =
    Ok (Some {| NlpRegex.locations := [X; Y]; NlpRegex.preferences := prefs |}).
Proof.
  intros Hl Hr.
  assert (HX' := place_name_spec _ HX). assert (HY' := place_name_spec _ HY).
  destruct HX' as [HneX [HtX [_ [_ [HfX HpX]]]]].
  destruct HY' as [HneY [HtY [_ [_ [HfY HpY]]]]].
  unfold NlpRegex.extractLocationsWithRegex. cbv zeta.
  assert (Ht : truthy (l ++ text ++ r) = true).
  { assert (H := joined_nonempty). destruct l; [|reflexivity].
    destruct text; [easy | reflexivity]. }
  rewrite Ht. cbn [negb].
  rewrite (trim_padded text l r joined_nonempty joined_trim Hl Hr).
  unfold replaceAll. rewrite (normalise_single_spaced _ _ _ joined_single_spaced).
  rewrite (route_none text (no_from_joined X Y HfX HfY)).
  cbn [NlpRegex.splitSeparators NlpRegex.trySeparators].
  change (Regex.seq [plus sp; lit "to"; plus sp]) with ws_to_ws.
  rewrite joined_test. unfold NlpRegex.cleanParts. rewrite joined_split.
  cbn [map filter]. rewrite HpX, HpY, HtX, HtY.
  assert (LX : (0 <? length X) = true) by (destruct X; [easy | reflexivity]).
  assert (LY : (0 <? length Y) = true) by (destruct Y; [easy | reflexivity]).
  rewrite LX, LY. cbn [length Nat.leb]. eexists. reflexivity.
Qed.

(** The handler of a slow pipeline takes the two locations and makes the
    result a route request. *)
Lemma joined_fallback l r :
  Forall (fun c => is_space c = true) l ->
  Forall (fun c => is_space c = true) r ->
  exists result,
    Script.timeoutFallback (l ++ text ++ r) = Ok (Some result) /\
    isRouteRequest result = true /\
    map name (locations result) = [X; Y] /\
    suggestedSequence result = [X; Y].
Proof.
  intros Hl Hr. destruct (joined_locations l r Hl Hr) as [prefs H].
  unfold Script.timeoutFallback. rewrite H. cbn [bind NlpRegex.locations length Nat.leb].
  eexists. split; [reflexivity|]. repeat split.
Qed.

End Joined.

End ToFacts.

(** ** A word between white space, inside a longer pattern *)

Section SpacedWord.

Variable w : jstring.
Hypothesis Hw : lower_word w.

Lemma needs_space_plus : needs_space (plus sp).
Proof.
  intros s H. destruct (run ci Fwd (plus sp) s) as [|y l] eqn:E; [easy|].
  assert (Hy : In y (run ci Fwd (plus sp) s)) by (rewrite E; now left).
  apply plus_ends in Hy. destruct Hy as [[c [t [Hs Hc]]] _].
  exists c, t. now rewrite <- ci_space.
Qed.

Lemma needs_space_seq K : needs_space (Seq (plus sp) K).
Proof.
  intros s H. apply needs_space_plus. rewrite run_seq_fwd in H.
  now destruct (run ci Fwd (plus sp) s).
Qed.

Lemma spaced_miss T p c s k :
  is_space c = false -> run ci Fwd (Seq (plus sp) T) (MS p (c :: s) k) = [].
Proof.
  intros Hc. rewrite run_seq_fwd. unfold sp.
  rewrite run_plus_none; [reflexivity|]. now rewrite ci_space.
Qed.

Lemma spaced_nil T p k : run ci Fwd (Seq (plus sp) T) (MS p [] k) = [].
Proof. reflexivity. Qed.

(** Where /\s+w T/ matches after one white-space character, [T] needing
    white space, the word [w] stands. *)
Lemma spaced_word T p c d rest k :
  needs_space T -> is_space d = false ->
  run ci Fwd (Seq (plus sp) (Seq (lit_chars w) T)) (MS p (c :: d :: rest) k) <> [] ->
  word_here w (c :: p) (d :: rest) = true.
Proof.
  intros HT Hd H. destruct (is_space c) eqn:Hc;
    [|now rewrite (spaced_miss _ _ _ _ _ Hc) in H].
  rewrite run_seq_fwd in H. unfold sp in H.
  rewrite run_plus_one in H; [|now rewrite ci_space|now rewrite ci_space].
  cbn [flat_map] in H. rewrite app_nil_r, run_seq_fwd, run_lit_prefix in H.
  unfold word_here. unfold ci in H.
  destruct (prefix_ci true w (d :: rest)) eqn:E; [|now cbn [flat_map] in H].
  cbn [flat_map] in H. rewrite app_nil_r in H.
  apply HT in H. destruct H as [e [t [He Hs]]]. cbn [suf] in He.
  unfold word_before, word_after. cbn [pre suf].
  now rewrite (space_not_word _ Hc), He, (space_not_word _ Hs).
Qed.

(** /\s+w T/ does not match inside a single-spaced text without the word
    [w], whatever follows the text. *)
Lemma spaced_not_inside T n p S k :
  needs_space T ->
  single_spaced n = true -> test ci (word_pattern w) n = false ->
  word_before (MS p [] []) = false -> word_after (MS [] S []) = false ->
  forall a b, n = a ++ b -> b <> [] ->
    run ci Fwd (Seq (plus sp) (Seq (lit_chars w) T)) (MS (rev a ++ p) (b ++ S) k) = [].
Proof.
  intros HT Hs Hn Hp HS a b E Hb. destruct b as [|c b]; [easy|].
  destruct (is_space c) eqn:Hc; [|now apply spaced_miss].
  subst n.
  destruct (SeparatorFacts.single_spaced_next a c b Hs Hc) as [d [b' [-> Hd]]].
  destruct (run ci Fwd (Seq (plus sp) (Seq (lit_chars w) T))
              (MS (rev a ++ p) ((c :: d :: b') ++ S) k)) as [|y l] eqn:M;
    [reflexivity|].
  assert (M' : run ci Fwd (Seq (plus sp) (Seq (lit_chars w) T))
                 (MS (rev a ++ p) (c :: d :: b' ++ S) k) <> [])
    by (cbn [app] in M; now rewrite M).
  apply (spaced_word _ _ _ _ _ _ HT Hd) in M'.
  change (c :: rev a ++ p) with ((c :: rev a) ++ p) in M'.
  assert (Hr : c :: rev a = rev (a ++ [c])) by (now rewrite rev_app_distr).
  rewrite Hr in M'.
  change (d :: b' ++ S) with ((d :: b') ++ S) in M'.
  rewrite (word_here_context _ _ _ _ _ Hw Hp HS) in M'.
  unfold test, exec in Hn.
  destruct (search ci (word_pattern w) [] (a ++ c :: d :: b')) eqn:Hsr;
    [discriminate|].
  assert (H := search_none ci (word_pattern w) _ [] Hsr (a ++ [c]) (d :: b')
                 ltac:(now rewrite <- app_assoc)).
  rewrite app_nil_r, (match_at_word _ _ _ Hw), M' in H. discriminate.
Qed.

End SpacedWord.

(** ** A lazy star of a class in front of a continuation *)

Lemma heads_app {A} (y : A) l1 l2 : heads y l1 -> heads y (l1 ++ l2).
Proof. intros [t ->]. now exists (t ++ l2). Qed.

Lemma flat_map_of_map {A B C} (f : B -> list C) (g : A -> B) l :
  flat_map f (map g l) = flat_map (fun x => f (g x)) l.
Proof. induction l as [|x l IH]; simpl; [reflexivity | now rewrite IH]. Qed.

Section Lazy.

Variable icase : bool.
Variable cls : list cclass.
Variable cont : mstate -> list mstate.

(** The characters of [A] are taken one by one as long as the continuation
    fails; the first results are those of the continuation after [A]. *)
Lemma lazy_steps (A : jstring) :
  forall fuel (p B : jstring) (k : list (nat * option jstring)),
  length A < fuel ->
  Forall (fun c => class_mem icase cls c = true) A ->
  (forall a b : jstring, A = a ++ b -> b <> [] ->
               cont (MS (rev a ++ p) (b ++ B) k) = []) ->
  exists tail,
    flat_map cont (rep_loop (run icase Fwd (Chr cls)) [] false fuel 0 None
                            (MS p (A ++ B) k))
    = cont (MS (rev A ++ p) B k) ++ tail.
Proof.
  induction A as [|c A IH]; intros fuel p B k Hf Hall Hnone.
  - destruct fuel as [|fuel]; [simpl in Hf; lia|].
    rewrite rep_loop_step. cbv zeta. cbn [Nat.eqb negb flat_map app rev].
    eexists. reflexivity.
  - destruct fuel as [|fuel]; [simpl in Hf; lia|].
    inversion Hall as [|? ? Hc Hall']. subst.
    rewrite rep_loop_step. cbv zeta.
    unfold reset. cbn [Nat.eqb negb pre suf caps map app].
    rewrite run_chr_cons, Hc. cbn [flat_map andb pos pre length pred option_map].
    assert (Hpos : (S (length p) =? length p) = false)
      by (apply Nat.eqb_neq; lia).
    rewrite Hpos, app_nil_r.
    assert (H0 := Hnone [] (c :: A) eq_refl ltac:(easy)).
    cbn [rev app] in H0. rewrite H0. cbn [app].
    destruct (IH fuel (c :: p) B k) as [tail Ht].
    + simpl in Hf. lia.
    + exact Hall'.
    + intros a b -> Hb. specialize (Hnone (c :: a) b eq_refl Hb).
      cbn [rev] in Hnone. now rewrite <- app_assoc in Hnone.
    + exists tail. rewrite Ht. cbn [rev]. now rewrite <- app_assoc.
Qed.

End Lazy.

(** The same for a group: /(c*?)K/. *)
Lemma lazy_group icase cls n K (A B p : jstring)
    (k : list (nat * option jstring)) :
  Forall (fun c => class_mem icase cls c = true) A ->
  (forall a b : jstring, A = a ++ b -> b <> [] ->
     run icase Fwd K (MS (rev a ++ p) (b ++ B) ((n, Some a) :: k)) = []) ->
  exists tail,
    run icase Fwd (Seq (Grp n (star_lazy (Chr cls))) K) (MS p (A ++ B) k)
    = run icase Fwd K (MS (rev A ++ p) B ((n, Some A) :: k)) ++ tail.
Proof.
  intros Hall Hnone.
  set (cont := fun y => run icase Fwd K
     (MS (pre y) (suf y) ((n, Some (captured Fwd (MS p (A ++ B) k) y)) :: caps y))).
  assert (E : run icase Fwd (Seq (Grp n (star_lazy (Chr cls))) K) (MS p (A ++ B) k)
              = flat_map cont
                  (rep_loop (run icase Fwd (Chr cls)) [] false
                     (S (length (A ++ B) + length p)) 0 None (MS p (A ++ B) k))).
  { rewrite run_seq_fwd. unfold star_lazy. cbn [run groups suf pre Nat.add].
    exact (flat_map_of_map (run icase Fwd K)
             (fun y => MS (pre y) (suf y)
                ((n, Some (captured Fwd (MS p (A ++ B) k) y)) :: caps y)) _). }
  destruct (lazy_steps icase cls cont A (S (length (A ++ B) + length p)) p B k)
    as [tail Ht].
  - rewrite length_app. lia.
  - exact Hall.
  - intros a b E' Hb. unfold cont. cbn [pre suf caps].
    rewrite (captured_fwd (MS p (A ++ B) k) (MS (rev a ++ p) (b ++ B) k) a eq_refl).
    now apply Hnone.
  - exists tail. rewrite E, Ht. unfold cont. cbn [pre suf caps].
    now rewrite (captured_fwd (MS p (A ++ B) k) (MS (rev A ++ p) B k) A eq_refl).
Qed.

(** ** "X to Y" in extractBasicRouteLocations *)

Lemma run_alt_app icase a b s :
  run icase Fwd (Alt a b) s = run icase Fwd a s ++ run icase Fwd b s.
Proof. reflexivity. Qed.

Lemma run_eol_cons icase p c s k : run icase Fwd Eol (MS p (c :: s) k) = [].
Proof. reflexivity. Qed.

(** The characters of a single-spaced text are matched by the dot. *)
Lemma dot_of_single_spaced n :
  single_spaced n = true -> Forall (fun c => class_mem ci [CDot] c = true) n.
Proof.
  assert (H : forallb (fun c => implb (negb (is_space c) || ascii_eqb c " ")
                                      (class_mem ci [CDot] c)) all_ascii = true)
    by (vm_compute; reflexivity).
  induction n as [|c n IH]; intros Hs; constructor.
  - cbn [single_spaced] in Hs. apply andb_true_iff in Hs. destruct Hs as [Hc _].
    assert (H1 := forall_ascii _ H c). cbv beta in H1.
    destruct (is_space c); cbn [negb orb] in Hc, H1; [|exact H1].
    apply andb_true_iff in Hc. destruct Hc as [Hc _]. now rewrite Hc in H1.
  - apply IH. cbn [single_spaced] in Hs. now apply andb_true_iff in Hs.
Qed.

Lemma not_a_dot c :
  class_mem cs (map CC (str ".!?")) c = false -> class_mem ci [CC "."%char] c = false.
Proof.
  assert (H : forallb (fun c => implb (negb (class_mem cs (map CC (str ".!?")) c))
                                      (negb (class_mem ci [CC "."%char] c)))
                      all_ascii = true) by (vm_compute; reflexivity).
  assert (H1 := forall_ascii _ H c). cbv beta in H1.
  intros Hc. rewrite Hc in H1. now apply negb_true_iff in H1.
Qed.

Lemma lower_word_via : lower_word (str "via").
Proof. split; [easy | repeat constructor]. Qed.

Lemma lower_word_through : lower_word (str "through").
Proof. split; [easy | repeat constructor]. Qed.

Module BasicFacts.

Import Enhanced Script.

Lemma whole_name_spec n :
  whole_name n = true ->
  Forall (fun c => class_mem cs (map CC (str ".!?")) c = false) n /\
  test ci (word_pattern (str "via")) n = false /\
  test ci (word_pattern (str "through")) n = false.
Proof.
  unfold whole_name. rewrite !andb_true_iff, !negb_true_iff.
  intros [[H1 H2] H3]. repeat split; try assumption.
  apply Forall_forall. intros c Hc.
  rewrite forallb_forall in H1. specialize (H1 c Hc).
  now apply negb_true_iff in H1.
Qed.

(** The end of the second name is found nowhere inside it. *)
Lemma stop_end_not_inside Y p k :
  single_spaced Y = true -> whole_name Y = true ->
  word_before (MS p [] []) = false ->
  forall a b, Y = a ++ b -> b <> [] ->
    run ci Fwd stop_end (MS (rev a ++ p) (b ++ []) k) = [].
Proof.
  intros Hs Hw Hp a b E Hb.
  destruct (whole_name_spec Y Hw) as [Hdot [Hvia Hthrough]].
  unfold stop_end. cbn [alt Regex.seq]. rewrite !run_alt_app. unfold lit.
  rewrite (spaced_not_inside (str "via") lower_word_via (plus sp) Y p [] k
             (needs_space_plus) Hs Hvia Hp eq_refl a b E Hb).
  rewrite (spaced_not_inside (str "through") lower_word_through (plus sp) Y p [] k
             (needs_space_plus) Hs Hthrough Hp eq_refl a b E Hb).
  destruct b as [|c b]; [easy|]. cbn [app].
  rewrite run_eol_cons. cbn [str list_ascii_of_string lit_chars].
  rewrite run_chr_cons.
  assert (Hc : class_mem cs (map CC (str ".!?")) c = false).
  { rewrite Forall_forall in Hdot. apply Hdot. rewrite E. apply in_or_app.
    right. now left. }
  now rewrite (not_a_dot c Hc).
Qed.

Section Joined.

Variables X Y : jstring.
Hypothesis HX : place_name X = true.
Hypothesis HY : place_name Y = true.
Hypothesis HW : whole_name Y = true.

Let text := X ++ str " to " ++ Y.

(** /^(.*?)\s+to\s+(.*?)(?:$|\.|\s+via\s+|\s+through\s+)/i takes X and Y. *)
Lemma toPattern_groups :
  exists m0,
    match_at ci toPattern [] text =
    Some (RM [] m0 [] [(2, Some Y); (1, Some X)]).
Proof.
  assert (HX' := ToFacts.place_name_spec _ HX).
  assert (HY' := ToFacts.place_name_spec _ HY).
  destruct HX' as [HneX [_ [HsX [HtoX _]]]].
  destruct HY' as [HneY [HtY [HsY [HtoY _]]]].
  destruct (trimmed_ends Y HneY HtY) as [[y [Y' [EY Hy]]] _].
  destruct (lazy_group ci [CDot] 1
              (Seq (plus sp) (Seq (lit "to") (Seq (plus sp)
                 (Seq (Grp 2 (star_lazy dot)) stop_end))))
              X (str " to " ++ Y) [] [] (dot_of_single_spaced X HsX))
    as [tail1 E1].
  { intros a b E Hb.
    exact (spaced_not_inside (str "to") lower_word_to
             (Seq (plus sp) (Seq (Grp 2 (star_lazy dot)) stop_end))
             X [] (str " to " ++ Y) _ (needs_space_seq _)
             HsX HtoX eq_refl eq_refl a b E Hb). }
  set (p2 := " "%char :: rev (firstn (length (str "to")) (str "to " ++ Y)) ++
             " "%char :: rev X ++ []).
  assert (Hp2 : word_before (MS p2 [] []) = false) by reflexivity.
  destruct (lazy_group ci [CDot] 2 stop_end Y [] p2 [(1, Some X)]
              (dot_of_single_spaced Y HsY)) as [tail2 E2].
  { intros a b E Hb. now apply (stop_end_not_inside Y p2 _ HsY HW Hp2 a b E Hb). }
  rewrite app_nil_r in E2.
  assert (Hrun : heads (MS (rev Y ++ p2) [] [(2, Some Y); (1, Some X)])
                       (run ci Fwd toPattern (MS [] text []))).
  { unfold toPattern, text. cbn [Regex.seq].
    rewrite run_seq_fwd.
    change (run ci Fwd Bol (MS [] (X ++ str " to " ++ Y) []))
      with [MS [] (X ++ str " to " ++ Y) []].
    cbn [flat_map]. rewrite app_nil_r.
    change (Grp 1 (star_lazy dot)) with (Grp 1 (star_lazy (Chr [CDot]))).
    rewrite E1. apply heads_app.
    change (str " to " ++ Y) with (" "%char :: str "to " ++ Y).
    rewrite run_seq_fwd. unfold sp.
    rewrite run_plus_one; [|reflexivity|reflexivity].
    cbn [flat_map]. rewrite app_nil_r, run_seq_fwd.
    unfold lit at 1. rewrite run_lit_prefix.
    change (prefix_ci ci (str "to") (str "to " ++ Y)) with true.
    cbn [flat_map]. rewrite app_nil_r.
    change (skipn (length (str "to")) (str "to " ++ Y)) with (" "%char :: Y).
    rewrite run_seq_fwd.
    rewrite run_plus_one; [|reflexivity|rewrite EY; now rewrite ci_space].
    cbn [flat_map]. rewrite app_nil_r. fold p2.
    change (Grp 2 (star_lazy dot)) with (Grp 2 (star_lazy (Chr [CDot]))).
    rewrite E2. apply heads_app.
    unfold stop_end. cbn [alt]. rewrite run_alt_app. apply heads_app.
    eexists. reflexivity. }
  destruct Hrun as [tail Hrun]. unfold match_at. rewrite Hrun.
  cbn [suf caps]. eexists. reflexivity.
Qed.

(** The word "to" occurs once: the block for several waypoints is not
    entered. *)
Lemma joined_multiWaypoints : multiWaypoints text = None.
Proof.
  assert (HX' := ToFacts.place_name_spec _ HX).
  assert (HY' := ToFacts.place_name_spec _ HY).
  destruct HX' as [HneX [_ [_ [HtoX _]]]].
  destruct HY' as [_ [_ [_ [HtoY _]]]].
  unfold multiWaypoints.
  assert (H : (2 <=? length (matchAll ci word_to text)) = false).
  { unfold matchAll, text.
    assert (Hs1 := MultiWaypointFacts.search_to_next X Y [] HtoX eq_refl).
    rewrite (all_from_cons _ _ _ _ _ _ Hs1 ltac:(easy)). cbn [m_0 m_rest m_pre].
    destruct (length (X ++ str " to " ++ Y)) as [|fuel] eqn:El.
    { rewrite !length_app in El. cbn [length str list_ascii_of_string] in El. lia. }
    cbn [all_from].
    rewrite (search_miss _ _ _ _ _
               (MultiWaypointFacts.to_miss _ " "%char _ eq_refl)).
    assert (Hs2 := search_word_skip (str "to") lower_word_to Y
                     (" "%char :: rev (str "to") ++ " "%char :: rev X ++ []) []
                     HtoY eq_refl eq_refl).
    rewrite (app_nil_r Y) in Hs2. change word_to with (word_pattern (str "to")).
    rewrite Hs2, (word_at_end _ _ lower_word_to). reflexivity. }
  rewrite H. now rewrite andb_false_r.
Qed.

Lemma joined_toPattern :
  twoStops toPattern text = Some [fullName X; fullName Y].
Proof.
  assert (HX' := ToFacts.place_name_spec _ HX).
  assert (HY' := ToFacts.place_name_spec _ HY).
  destruct HX' as [HneX [HtX _]]. destruct HY' as [HneY [HtY _]].
  destruct toPattern_groups as [m0 Hm].
  unfold twoStops, exec. rewrite (search_hit _ _ _ _ _ Hm).
  cbn [grp_str grp m_caps lookup Nat.eqb].
  rewrite HtX, HtY. destruct X; [easy|]. destruct Y; [easy | reflexivity].
Qed.

End Joined.

(** /[.!?]+$/ does not match a text that ends with another character. *)
Lemma trailing_marks_none s c :
  class_mem cs (map CC (str ".!?")) c = false ->
  exec cs trailing_marks (s ++ [c]) = None.
Proof.
  intros Hc. destruct (exec cs trailing_marks (s ++ [c])) as [m|] eqn:E;
    [|reflexivity].
  unfold exec in E. apply search_spec in E. destruct E as [a [Es [_ M]]].
  apply match_at_spec in M. destruct M as [_ [_ [y [Hy _]]]].
  unfold trailing_marks, oneof in Hy. cbn [Regex.seq] in Hy.
  rewrite run_seq_fwd in Hy. apply in_flat_map in Hy.
  destruct Hy as [y1 [H1 H2]].
  assert (Ex := run_ext cs _ _ _ _ H1). destruct Ex as [w [Hw Hp]].
  cbn [suf pre] in Hw, Hp.
  apply plus_ends in H1. destruct H1 as [_ [c' [q [Hq Hc']]]].
  cbn [run] in H2. destruct (suf y1) as [|z zs] eqn:Ez; [|easy].
  rewrite app_nil_r in Hw. rewrite app_nil_r in Hp. rewrite Hw in Es.
  assert (Hr : rev (s ++ [c]) = pre y1).
  { rewrite Es, Hp, rev_app_distr. reflexivity. }
  rewrite rev_app_distr, Hq in Hr. cbn [rev app] in Hr.
  injection Hr as -> _. congruence.
Qed.

Section Padded.

Variables X Y l r : jstring.
Hypothesis HX : place_name X = true.
Hypothesis HY : place_name Y = true.
Hypothesis HW : whole_name Y = true.
Hypothesis Hl : Forall (fun c => is_space c = true) l.
Hypothesis Hr : Forall (fun c => is_space c = true) r.

Let text := X ++ str " to " ++ Y.

Lemma joined_normalized :
  trim (replace cs trailing_marks erase (trim (l ++ text ++ r))) = text.
Proof.
  rewrite (trim_padded text l r (ToFacts.joined_nonempty X Y HX)
             (ToFacts.joined_trim X Y HX HY) Hl Hr).
  assert (HY' := ToFacts.place_name_spec _ HY). destruct HY' as [HneY _].
  destruct (whole_name_spec Y HW) as [Hdot _].
  destruct (exists_last HneY) as [Y0 [c EY]].
  assert (Hc : class_mem cs (map CC (str ".!?")) c = false).
  { rewrite Forall_forall in Hdot. apply Hdot. rewrite EY. apply in_or_app.
    right. now left. }
  unfold replace.
  assert (E : exec cs trailing_marks text = None).
  { unfold text. rewrite EY.
    replace (X ++ str " to " ++ Y0 ++ [c]) with ((X ++ str " to " ++ Y0) ++ [c])
      by (now rewrite <- !app_assoc).
    now apply trailing_marks_none. }
  rewrite E. exact (ToFacts.joined_trim X Y HX HY).
Qed.

(** Lines 380-506 on "X to Y", when the two patterns tried first do not
    apply. *)
Lemma joined_basic :
  twoStops specificRoutePattern text = None ->
  twoStops fromToPattern text = None ->
  extractBasicRouteLocations (l ++ text ++ r) = [fullName X; fullName Y].
Proof.
  intros H1 H2. unfold extractBasicRouteLocations. cbv zeta.
  assert (Ht : truthy (l ++ text ++ r) = true).
  { assert (H := ToFacts.joined_nonempty X Y HX). fold text in H.
    destruct l; [|reflexivity]. destruct text; [easy | reflexivity]. }
  rewrite Ht. cbn [negb]. rewrite joined_normalized, H1, H2. unfold text.
  now rewrite (joined_multiWaypoints X Y HX HY), (joined_toPattern X Y HX HY HW).
Qed.

End Padded.

End BasicFacts.

(** ** The fuel of the quantifier is enough *)

Lemma flat_map_ext_In {A B} (f g : A -> list B) l :
  (forall x, In x l -> f x = g x) -> flat_map f l = flat_map g l.
Proof.
  induction l as [|x l IH]; intros H; [reflexivity|]. cbn [flat_map].
  rewrite (H x) by now left. rewrite IH; [reflexivity|].
  intros y Hy. apply H. now right.
Qed.

Lemma ext_room d s y :
  ext d s y -> room d y <= room d s /\ (pos y <> pos s -> room d y < room d s).
Proof.
  unfold pos. destruct d; intros [m [H1 H2]]; cbn [room].
  - rewrite H1, H2, !length_app, length_rev. split; [lia|]. intros H. lia.
  - rewrite H1, !length_app. split; [lia|]. intros H.
    destruct m; [now contradiction H | cbn [length]; lia].
Qed.

Section Fuel.

Variable d : dir.
Variable body : mstate -> list mstate.
Variable gs : list nat.
Variable greedy : bool.
Hypothesis body_ext : forall s y, In y (body s) -> ext d s y.

(** Beyond the least number of iterations plus the length of the input
    that is left, more fuel changes nothing: an iteration that counts
    consumes a character. *)
Lemma rep_loop_fuel fuel1 : forall fuel2 min max s,
  min + room d s < fuel1 -> min + room d s < fuel2 ->
  rep_loop body gs greedy fuel1 min max s =
  rep_loop body gs greedy fuel2 min max s.
Proof.
  induction fuel1 as [|fuel1 IH]; intros fuel2 min max s H1 H2; [lia|].
  destruct fuel2 as [|fuel2]; [lia|].
  assert (E : forall max',
    flat_map (fun y => if (min =? 0) && (pos y =? pos s) then []
                       else rep_loop body gs greedy fuel1 (pred min) max' y)
             (body (reset gs s)) =
    flat_map (fun y => if (min =? 0) && (pos y =? pos s) then []
                       else rep_loop body gs greedy fuel2 (pred min) max' y)
             (body (reset gs s))).
  { intros max'. apply flat_map_ext_In. intros y Hy.
    apply body_ext in Hy. apply ext_room in Hy.
    assert (Hr : room d (reset gs s) = room d s) by (now destruct d).
    assert (Hp : pos (reset gs s) = pos s) by reflexivity.
    rewrite Hr, Hp in Hy. destruct Hy as [Hle Hlt].
    destruct (min =? 0) eqn:Em; cbn [andb].
    - apply Nat.eqb_eq in Em. subst min.
      destruct (pos y =? pos s) eqn:Ep; [reflexivity|].
      apply Nat.eqb_neq in Ep. apply Hlt in Ep.
      apply IH; cbn [pred]; lia.
    - apply Nat.eqb_neq in Em. apply IH; lia. }
  destruct max as [[|m]|]; [reflexivity| |]; cbn [rep_loop]; now rewrite E.
Qed.

End Fuel.

(** The fuel that the matcher gives to a quantifier could be any larger
    number. *)
Lemma run_rep_fuel icase d min max greedy r s fuel :
  min + (length (suf s) + length (pre s)) < fuel ->
  run icase d (Rep min max greedy r) s =
  rep_loop (run icase d r) (groups r) greedy fuel min max s.
Proof.
  intros H. cbn [run]. apply rep_loop_fuel with (d := d).
  - intros x y Hy. now apply (run_ext icase r d).
  - destruct d; cbn [room]; lia.
  - destruct d; cbn [room]; lia.
Qed.

(** ** The fuel of the loops over the matches is enough *)

Section LoopFuel.

Variable icase : bool.
Variable r : regex.

Lemma search_shorter s p m :
  search icase r p s = Some m ->
  length (m_0 m) + length (m_rest m) <= length s.
Proof.
  intros H. apply search_spec in H. destruct H as [a [E _]].
  rewrite E, !length_app. lia.
Qed.

Lemma all_from_fuel fuel1 : forall fuel2 p s,
  length s < fuel1 -> length s < fuel2 ->
  all_from icase fuel1 r p s = all_from icase fuel2 r p s.
Proof.
  induction fuel1 as [|fuel1 IH]; intros fuel2 p s H1 H2; [lia|].
  destruct fuel2 as [|fuel2]; [lia|]. cbn [all_from].
  destruct (search icase r p s) as [m|] eqn:E; [|reflexivity].
  apply search_shorter in E. f_equal.
  destruct (m_0 m) as [|c w]; cbn [length] in E.
  - destruct (m_rest m) as [|c rest]; [reflexivity|]. cbn [length] in E.
    apply IH; lia.
  - apply IH; lia.
Qed.

Lemma replace_from_fuel f fuel1 : forall fuel2 p s,
  length s < fuel1 -> length s < fuel2 ->
  replace_from icase fuel1 r f p s = replace_from icase fuel2 r f p s.
Proof.
  induction fuel1 as [|fuel1 IH]; intros fuel2 p s H1 H2; [lia|].
  destruct fuel2 as [|fuel2]; [lia|]. cbn [replace_from].
  destruct (search icase r p s) as [m|] eqn:E; [|reflexivity].
  apply search_shorter in E. f_equal. f_equal.
  destruct (m_0 m) as [|c w]; cbn [length] in E.
  - destruct (m_rest m) as [|c rest]; [reflexivity|]. cbn [length] in E.
    f_equal. apply IH; lia.
  - apply IH; lia.
Qed.

Lemma split_loop_fuel fuel1 : forall fuel2 p piece s,
  2 * length s + (if is_nil piece then 0 else 1) < fuel1 ->
  2 * length s + (if is_nil piece then 0 else 1) < fuel2 ->
  split_loop icase fuel1 r p piece s = split_loop icase fuel2 r p piece s.
Proof.
  induction fuel1 as [|fuel1 IH]; intros fuel2 p piece s H1 H2; [lia|].
  destruct fuel2 as [|fuel2]; [lia|]. cbn [split_loop].
  destruct s as [|c s]; [reflexivity|]. cbn [length] in H1, H2.
  assert (Hmiss : split_loop icase fuel1 r (c :: p) (c :: piece) s =
                  split_loop icase fuel2 r (c :: p) (c :: piece) s)
    by (apply IH; cbn [is_nil]; lia).
  destruct (match_at icase r p (c :: s)) as [m|] eqn:E; [|exact Hmiss].
  apply match_at_spec in E. destruct E as [_ [E _]].
  assert (L : length (m_0 m) + length (m_rest m) = S (length s))
    by (rewrite <- length_app, <- E; reflexivity).
  destruct (m_0 m) as [|x w] eqn:E0; cbn [is_nil andb length] in *.
  - destruct piece as [|y piece]; cbn [is_nil] in *; [exact Hmiss|].
    f_equal. f_equal. apply IH; cbn [is_nil]; lia.
  - f_equal. f_equal. apply IH; cbn [is_nil]; lia.
Qed.

End LoopFuel.

(** ** Where the separator can match *)

Lemma ext_at_text t s y : ext Fwd s y -> at_text t s -> at_text t y.
Proof.
  intros [m [H1 H2]] H. unfold at_text in *.
  now rewrite H2, rev_app_distr, rev_involutive, <- app_assoc, <- H1.
Qed.

Lemma iter_ext d body gs s z :
  (forall x y, In y (body x) -> ext d x y) ->
  iter body gs s z -> ext d s z.
Proof.
  intros Hb. induction 1 as [s|s y z Hy _ IH]; [apply ext_refl|].
  eapply ext_trans; [|exact IH].
  eapply ext_from; [| |exact (Hb _ _ Hy)]; reflexivity.
Qed.

(** A match of [c+] consumes a first character of the class and more. *)
Lemma plus_span icase cls s y :
  In y (run icase Fwd (plus (Chr cls)) s) ->
  exists c m, suf s = c :: m ++ suf y /\ pre y = rev m ++ c :: pre s /\
              class_mem icase cls c = true.
Proof.
  unfold plus. cbn [run]. intros H.
  apply rep_loop_first in H; [|easy|easy].
  destruct H as [y1 [Hy1 Hit]].
  assert (H1 := chr_step _ _ _ _ Hy1). destruct H1 as [c [t [Hs [Hc E]]]].
  apply (iter_ext Fwd) in Hit.
  2:{ intros x z Hz. now apply (run_ext icase (Chr cls) Fwd). }
  destruct Hit as [m [Hm Hp]]. subst y1. unfold reset in *.
  cbn [suf pre caps] in Hm, Hp, Hs.
  exists c, m. repeat split; [now rewrite Hs, Hm | exact Hp | exact Hc].
Qed.

Lemma prefix_ci_firstn icase w : forall s t,
  prefix_ci icase w s = true ->
  prefix_ci icase w (firstn (length w) s ++ t) = true /\
  length (firstn (length w) s) = length w.
Proof.
  induction w as [|x w IH]; intros s t H; [now split|].
  destruct s as [|c s]; [discriminate|]. cbn [prefix_ci] in H.
  apply andb_true_iff in H. destruct H as [Hc H].
  destruct (IH s t H) as [H1 H2].
  cbn [length firstn app prefix_ci]. rewrite Hc, H1, H2. now split.
Qed.

Lemma skipn_exact {A} (a t : list A) n : length a = n -> skipn n (a ++ t) = t.
Proof. intros <-. now rewrite skipn_app, skipn_all, Nat.sub_diag. Qed.

(** A word followed by white space before a position inside [X] is a word
    followed by white space in [X]. *)
Lemma lead_inside w X R ya y1 y2 y3 :
  at_text (X ++ R) ya ->
  In y1 (run ci Fwd (lit_chars w) ya) ->
  In y2 (run ci Fwd (plus sp) y1) ->
  ext Fwd y2 y3 -> pre y3 = rev X ->
  test ci (Seq (lit_chars w) sp) X = true.
Proof.
  intros Ha H1 H2 [m3 [_ Hp3]] HX.
  destruct ya as [pa sa ka]. rewrite run_lit_prefix in H1.
  destruct (prefix_ci ci w sa) eqn:Ep; [|easy]. destruct H1 as [<-|[]].
  apply plus_span in H2. destruct H2 as [c [m [Hs2 [Hp2 Hc]]]].
  cbn [pre suf] in *.
  assert (EX : X = rev pa ++ firstn (length w) sa ++ c :: m ++ m3).
  { rewrite <- (rev_involutive X), <- HX, Hp3, Hp2.
    rewrite !rev_app_distr. cbn [rev]. rewrite !rev_app_distr, !rev_involutive.
    cbn [rev app]. rewrite <- !app_assoc. reflexivity. }
  destruct (prefix_ci_firstn ci w sa (c :: m ++ m3) Ep) as [Hpre Hlen].
  unfold test, exec.
  destruct (search ci (Seq (lit_chars w) sp) [] X) eqn:Hs; [reflexivity|].
  assert (H := search_none ci _ X [] Hs (rev pa)
                 (firstn (length w) sa ++ c :: m ++ m3) EX).
  unfold match_at in H.
  rewrite run_seq_fwd, run_lit_prefix, Hpre in H. cbn [flat_map] in H.
  rewrite app_nil_r in H.
  rewrite (skipn_exact _ _ _ Hlen) in H.
  unfold sp in H. rewrite run_chr_cons, Hc in H. discriminate.
Qed.

Section OnlyAt.

Variables X Y : jstring.
Hypothesis HX : place_name X = true.
Hypothesis HY : place_name Y = true.
Variable T : regex.
Hypothesis HT : needs_space T.

(** In "X to Y" the separator only matches between X and Y. *)
Lemma sep_only_at s :
  at_text (X ++ str " to " ++ Y) s ->
  run ci Fwd (Seq (plus sp) (Seq (lit_chars (str "to")) T)) s <> [] ->
  pre s = rev X.
Proof.
  assert (HX' := ToFacts.place_name_spec _ HX).
  assert (HY' := ToFacts.place_name_spec _ HY).
  destruct HX' as [HneX [_ [HsX [HtoX _]]]].
  destruct HY' as [HneY [HtY [HsY [HtoY _]]]].
  destruct (trimmed_ends Y HneY HtY) as [[y [Y' [EY Hy]]] _].
  destruct s as [p b k]. unfold at_text. cbn [pre suf]. intros Ha Hrun.
  assert (Hp : p = rev (rev p)) by (now rewrite rev_involutive).
  apply app_eq_app in Ha. destruct Ha as [l [[Ea Eb]|[Ea Eb]]].
  - (* the position is at or after the end of X *)
    destruct l as [|c1 l]; [rewrite app_nil_r in Ea; now rewrite <- Ea|].
    exfalso. apply Hrun. rewrite Hp, Ea.
    cbn [str list_ascii_of_string app] in Eb. injection Eb as <- Eb.
    destruct l as [|c2 l].
    { cbn [app] in Eb. subst b. now apply spaced_miss. }
    injection Eb as <- Eb. destruct l as [|c3 l].
    { cbn [app] in Eb. subst b. now apply spaced_miss. }
    injection Eb as <- Eb. destruct l as [|c4 l].
    { cbn [app] in Eb. subst b.
      destruct (run ci Fwd (Seq (plus sp) (Seq (lit_chars (str "to")) T))
                  (MS (rev (X ++ str " to")) (" "%char :: Y) k)) as [|z zs] eqn:M;
        [exact M|]. exfalso.
      assert (M' : run ci Fwd (Seq (plus sp) (Seq (lit_chars (str "to")) T))
                     (MS (rev (X ++ str " to")) (" "%char :: y :: Y') k) <> [])
        by (rewrite <- EY, M; discriminate).
      apply (spaced_word _ _ _ _ _ _ _ HT Hy) in M'.
      assert (C := word_here_context (str "to") [] Y
                     (" "%char :: rev (X ++ str " to")) [] lower_word_to
                     eq_refl eq_refl).
      cbn [rev app] in C. rewrite app_nil_r in C.
      rewrite <- EY in M'. rewrite C in M'.
      unfold no_to, test, exec in HtoY.
      destruct (search ci Enhanced.word_to [] Y) eqn:Hs; [discriminate|].
      assert (H := search_none ci Enhanced.word_to Y [] Hs [] Y eq_refl).
      cbn [rev app] in H.
      change Enhanced.word_to with (word_pattern (str "to")) in H.
      rewrite (match_at_word _ _ _ lower_word_to), M' in H. discriminate. }
    injection Eb as <- Eb.
    destruct b as [|cb b]; [reflexivity|].
    assert (H := spaced_not_inside (str "to") lower_word_to T Y
                   (" "%char :: "o"%char :: "t"%char :: " "%char :: rev X) [] k
                   HT HsY HtoY eq_refl eq_refl l (cb :: b) Eb ltac:(easy)).
    rewrite app_nil_r in H. rewrite <- H. f_equal. f_equal.
    change (X ++ " "%char :: "t"%char :: "o"%char :: " "%char :: l)
      with (X ++ str " to " ++ l).
    rewrite !rev_app_distr. cbn [rev str list_ascii_of_string app].
    rewrite <- !app_assoc. reflexivity.
  - (* the position is inside X *)
    destruct l as [|c1 l]; [rewrite app_nil_r in Ea; now rewrite Ea|].
    exfalso. apply Hrun. rewrite Hp, Eb.
    assert (H := spaced_not_inside (str "to") lower_word_to T X [] 
                   (str " to " ++ Y) k HT HsX HtoX eq_refl eq_refl
                   (rev p) (c1 :: l) Ea ltac:(easy)).
    now rewrite app_nil_r in H.
Qed.

End OnlyAt.

(** ** The patterns that extractBasicRouteLocations tries first *)

Module EarlierPatterns.

Import Enhanced Script.

Lemma clear_name_spec n :
  clear_name n = true ->
  test ci (Seq (lit_chars (str "route")) sp) n = false /\
  test ci (Seq (lit_chars (str "from")) sp) n = false /\
  test ci (Seq (lit_chars (str "in")) sp) n = false.
Proof.
  unfold clear_name, lit. rewrite !andb_true_iff, !negb_true_iff. tauto.
Qed.

Section Joined.

Variables X Y : jstring.
Hypothesis HX : place_name X = true.
Hypothesis HY : place_name Y = true.
Hypothesis HC : clear_name X = true.

Let text := X ++ str " to " ++ Y.

(** /(?:from|in)\s+(.*?)\s+to\s+.../i needs "from" or "in" and white space
    before the separator, that is, inside X. *)
Lemma fromTo_none : exec ci fromToPattern text = None.
Proof.
  destruct (clear_name_spec X HC) as [_ [Hfrom Hin]].
  destruct (exec ci fromToPattern text) as [m|] eqn:E; [|reflexivity].
  exfalso. unfold exec in E. apply search_spec in E.
  destruct E as [a [Et [_ M]]]. apply match_at_spec in M.
  destruct M as [_ [_ [y [Hy _]]]].
  assert (H0 : at_text text (MS (rev a ++ []) (m_0 m ++ m_rest m) [])).
  { unfold at_text. cbn [pre suf]. now rewrite app_nil_r, rev_involutive. }
  unfold fromToPattern in Hy. cbn [Regex.seq alt] in Hy.
  rewrite run_seq_fwd in Hy. apply in_flat_map in Hy. destruct Hy as [y1 [H1 Hy]].
  rewrite run_seq_fwd in Hy. apply in_flat_map in Hy. destruct Hy as [y2 [H2 Hy]].
  rewrite run_seq_fwd in Hy. apply in_flat_map in Hy. destruct Hy as [y3 [H3 Hy]].
  assert (E1 := run_ext ci _ _ _ _ H1). assert (E2 := run_ext ci _ _ _ _ H2).
  assert (E3 := run_ext ci _ _ _ _ H3).
  assert (A3 : at_text text y3).
  { apply (ext_at_text _ _ _ E3), (ext_at_text _ _ _ E2), (ext_at_text _ _ _ E1).
    exact H0. }
  assert (P3 : pre y3 = rev X).
  { apply (sep_only_at X Y HX HY
             (Seq (plus sp) (Seq (Grp 2 (star_lazy dot)) stop_end))
             (needs_space_seq _) y3 A3).
    intros Hn. unfold lit in Hy. rewrite Hn in Hy. exact Hy. }
  rewrite run_alt_app in H1. apply in_app_or in H1. destruct H1 as [H1|H1].
  - assert (H := lead_inside (str "from") X _ _ y1 y2 y3 H0 H1 H2 E3 P3).
    congruence.
  - assert (H := lead_inside (str "in") X _ _ y1 y2 y3 H0 H1 H2 E3 P3).
    congruence.
Qed.

(** /(?:walking|...)?\s*route\s+(?:from\s+)?(.*?)\s+to\s+.../i needs
    "route" and white space inside X. *)
Lemma specific_none : exec ci specificRoutePattern text = None.
Proof.
  destruct (clear_name_spec X HC) as [Hroute _].
  destruct (exec ci specificRoutePattern text) as [m|] eqn:E; [|reflexivity].
  exfalso. unfold exec in E. apply search_spec in E.
  destruct E as [a [Et [_ M]]]. apply match_at_spec in M.
  destruct M as [_ [_ [y [Hy _]]]].
  assert (H0 : at_text text (MS (rev a ++ []) (m_0 m ++ m_rest m) [])).
  { unfold at_text. cbn [pre suf]. now rewrite app_nil_r, rev_involutive. }
  unfold specificRoutePattern in Hy. cbn [Regex.seq] in Hy.
  rewrite run_seq_fwd in Hy. apply in_flat_map in Hy. destruct Hy as [ya1 [Ha1 Hy]].
  rewrite run_seq_fwd in Hy. apply in_flat_map in Hy. destruct Hy as [ya [Ha Hy]].
  rewrite run_seq_fwd in Hy. apply in_flat_map in Hy. destruct Hy as [y1 [H1 Hy]].
  rewrite run_seq_fwd in Hy. apply in_flat_map in Hy. destruct Hy as [y2 [H2 Hy]].
  rewrite run_seq_fwd in Hy. apply in_flat_map in Hy. destruct Hy as [y2b [H2b Hy]].
  rewrite run_seq_fwd in Hy. apply in_flat_map in Hy. destruct Hy as [y3 [H3 Hy]].
  assert (Ea1 := run_ext ci _ _ _ _ Ha1). assert (Ea := run_ext ci _ _ _ _ Ha).
  assert (E1 := run_ext ci _ _ _ _ H1). assert (E2 := run_ext ci _ _ _ _ H2).
  assert (E2b := run_ext ci _ _ _ _ H2b). assert (E3 := run_ext ci _ _ _ _ H3).
  assert (Aa : at_text text ya).
  { apply (ext_at_text _ _ _ Ea), (ext_at_text _ _ _ Ea1). exact H0. }
  assert (A3 : at_text text y3).
  { apply (ext_at_text _ _ _ E3), (ext_at_text _ _ _ E2b),
      (ext_at_text _ _ _ E2), (ext_at_text _ _ _ E1). exact Aa. }
  assert (P3 : pre y3 = rev X).
  { apply (sep_only_at X Y HX HY
             (Seq (plus sp) (Seq (Grp 2 (star_lazy dot)) stop_end))
             (needs_space_seq _) y3 A3).
    intros Hn. unfold lit in Hy. rewrite Hn in Hy. exact Hy. }
  assert (H := lead_inside (str "route") X _ ya y1 y2 y3 Aa H1 H2
                 (ext_trans _ _ _ _ E2b E3) P3).
  congruence.
Qed.

Lemma earlier_none :
  twoStops specificRoutePattern text = None /\
  twoStops fromToPattern text = None.
Proof. unfold twoStops. now rewrite specific_none, fromTo_none. Qed.

End Joined.

(** Lines 380-506 on "X to Y": the names, completed to listed cities. *)
Lemma joined_basic_clear X Y l r :
  place_name X = true -> place_name Y = true ->
  clear_name X = true -> whole_name Y = true ->
  Forall (fun c => is_space c = true) l ->
  Forall (fun c => is_space c = true) r ->
  extractBasicRouteLocations (l ++ (X ++ str " to " ++ Y) ++ r)
  = [fullName X; fullName Y].
Proof.
  intros HX HY HC HW Hl Hr.
  destruct (earlier_none X Y HX HY HC) as [H1 H2].
  exact (BasicFacts.joined_basic X Y l r HX HY HW Hl Hr H1 H2).
Qed.

End EarlierPatterns.

(** * The statements of the specification *)

(** ** C1: the entry points never reject *)



(** ** C10: the paragraph fallback *)

Section RemoveDuplicates.

Import Enhanced.

Lemma removeDuplicates_names locs : forall seen x,
  In x (map name (removeDuplicates seen locs)) ->
  In x (map name locs) /\ ~ In x seen.
Proof.
  induction locs as [|loc rest IH]; intros seen x Hx; simpl in *; [easy|].
  destruct (mem (name loc) seen) eqn:E.
  - destruct (IH _ _ Hx) as [H1 H2]. split; [now right | exact H2].
  - simpl in Hx. destruct Hx as [<-|Hx].
    + split; [now left|]. intros H. apply mem_In in H. congruence.
    + destruct (IH _ _ Hx) as [H1 H2]. split; [now right|].
      intros H. apply H2. now right.
Qed.

Lemma removeDuplicates_NoDup locs : forall seen,
  NoDup (map name (removeDuplicates seen locs)).
Proof.
  induction locs as [|loc rest IH]; intros seen; simpl; [constructor|].
  destruct (mem (name loc) seen); [apply IH|].
  simpl. constructor; [|apply IH].
  intros H. apply removeDuplicates_names in H. destruct H as [_ H].
  apply H. now left.
Qed.

Lemma removeDuplicates_subsequence locs : forall seen,
  subsequence (removeDuplicates seen locs) locs.
Proof.
  induction locs as [|loc rest IH]; intros seen; simpl; [constructor|].
  destruct (mem (name loc) seen); constructor; apply IH.
Qed.

Lemma removeDuplicates_complete locs : forall seen loc,
  In loc locs ->
  In (name loc) seen \/ In (name loc) (map name (removeDuplicates seen locs)).
Proof.
  induction locs as [|l rest IH]; intros seen loc Hin; simpl in *; [easy|].
  destruct Hin as [->|Hin].
  - destruct (mem (name loc) seen) eqn:E.
    + left. now apply mem_In.
    + right. now left.
  - destruct (mem (name l) seen) eqn:E.
    + now apply IH.
    + destruct (IH (name l :: seen) loc Hin) as [[H|H]|H].
      * right. simpl. left. exact H.
      * now left.
      * right. simpl. now right.
Qed.

(** What is kept is the first mention of its name. *)
Lemma removeDuplicates_first locs : forall seen loc,
  In loc (removeDuplicates seen locs) ->
  exists before after,
    locs = before ++ loc :: after /\ ~ In (name loc) (map name before).
Proof.
  induction locs as [|l rest IH]; intros seen loc Hin; simpl in *; [easy|].
  destruct (mem (name l) seen) eqn:E.
  - destruct (IH _ _ Hin) as [b [a [-> Hb]]].
    assert (Hl : In (name loc) (map name (removeDuplicates seen (b ++ loc :: a))))
      by now apply in_map.
    apply removeDuplicates_names in Hl. destruct Hl as [_ Hl].
    exists (l :: b), a. split; [reflexivity|]. simpl. intros [H|H]; [|easy].
    apply Hl. rewrite <- H. now apply mem_In.
  - destruct Hin as [->|Hin].
    + exists [], rest. split; [reflexivity | easy].
    + destruct (IH _ _ Hin) as [b [a [-> Hb]]].
      assert (Hl : In (name loc)
                      (map name (removeDuplicates (name l :: seen) (b ++ loc :: a))))
        by now apply in_map.
      apply removeDuplicates_names in Hl. destruct Hl as [_ Hl].
      exists (l :: b), a. split; [reflexivity|]. simpl. intros [H|H]; [|easy].
      apply Hl. now left.
Qed.

End RemoveDuplicates.

(** C10: for every input text, the paragraph fallback returns a result that
    is never a route request, whose locations are the mentions found
    ([paragraphMentions]) with the later mentions of a name left out (no
    name twice, the order of the mentions kept, every mentioned name
    present, each kept location the first mention of its name), and whose
    suggested sequence is the names of those locations. *)
Theorem C10_paragraph_fallback :
  forall text,
    let r := Enhanced.extractLocationsFromParagraph text in
    let mentions := Enhanced.paragraphMentions text in
    Enhanced.isRouteRequest r = false /\
    NoDup (map Enhanced.name (Enhanced.locations r)) /\
    subsequence (Enhanced.locations r) mentions /\
    (forall loc, In loc mentions ->
                 In (Enhanced.name loc) (map Enhanced.name (Enhanced.locations r))) /\
    (forall loc, In loc (Enhanced.locations r) ->
                 exists before after,
                   mentions = before ++ loc :: after /\
                   ~ In (Enhanced.name loc) (map Enhanced.name before)) /\
    Enhanced.suggestedSequence r = map Enhanced.name (Enhanced.locations r).
Proof.
  intros text r mentions. subst r mentions.
  unfold Enhanced.extractLocationsFromParagraph. cbn [Enhanced.isRouteRequest
    Enhanced.locations Enhanced.suggestedSequence].
  split; [reflexivity|]. split; [apply removeDuplicates_NoDup|].
  split; [apply removeDuplicates_subsequence|]. split.
  - intros loc Hin.
    destruct (removeDuplicates_complete _ [] loc Hin) as [[]|H]. exact H.
  - split; [|reflexivity]. intros loc Hin.
    eapply removeDuplicates_first. exact Hin.
Qed.

(** ** C2: route requests with fewer than two locations *)



(** ** C4: "avoid tolls and walking from Boston to Providence" *)

(** C4, as stated, fails: the result of [processNaturalLanguageInput] has
    an empty list of preferences, with no "avoid tolls" in it, and
    [extractLocationsWithRegex] returns other locations and no toll
    avoidance. *)
Lemma C4_tolls_not_extracted :
  (exists r,
      Enhanced.processNaturalLanguageInput down unparsable
        (str "avoid tolls and walking from Boston to Providence")
      = Ok (Enhanced.Built r) /\
      Enhanced.preferences r = []) /\
  NlpRegex.extractLocationsWithRegex
    (str "avoid tolls and walking from Boston to Providence")
  = Ok (Some {| NlpRegex.locations :=
                  [str "avoid tolls and walking from Boston"; str "Providence"];
                NlpRegex.preferences :=
                  {| NlpRegex.transportMode := str "walking";
                     NlpRegex.avoidTolls := false;
                     NlpRegex.avoidHighways := false;
                     NlpRegex.avoidFerries := false |} |}).
Proof.
  split.
  - eexists. split; [vm_compute; reflexivity | reflexivity].
  - vm_compute. reflexivity.
Qed.

(** C4, amended: for the input "avoid tolls and walking from Boston to
    Providence", whatever the language model does,
    [processNaturalLanguageInput] returns a route request with the
    locations Boston and Providence in that order, the travel mode walking
    and an empty list of preferences. *)
Theorem C4_boston_to_providence :
  forall gemini JSON_parse,
    Enhanced.processNaturalLanguageInput gemini JSON_parse
      (str "avoid tolls and walking from Boston to Providence")
    = Ok (Enhanced.Built
            {| Enhanced.isRouteRequest := true;
               Enhanced.locations :=
                 [{| Enhanced.name := str "Boston"; Enhanced.timeContext := [] |};
                  {| Enhanced.name := str "Providence";
                     Enhanced.timeContext := [] |}];
               Enhanced.travelMode := str "walking";
               Enhanced.preferences := [];
               Enhanced.message :=
                 str "Creating a walking route from Boston to Providence";
               Enhanced.suggestedSequence := [str "Boston"; str "Providence"] |}).
Proof. intros gemini JSON_parse. vm_compute. reflexivity. Qed.

(** ** C9: suggestedSequence and locations *)

(** C9, as stated, fails: the result of the language-model stage is
    returned as the model gave it; here its locations are Rome, Paris and
    its suggested sequence Paris, Rome. *)
Lemma C9_model_sequence_differs :
  exists f,
    Enhanced.processNaturalLanguageInput
      (answers sampleAnswer) (parses sampleAnswer sampleValue)
      (str "Rome and Paris by bus") = Ok (Enhanced.FromModel f) /\
    Enhanced.names (Enhanced.out_locations (Enhanced.FromModel f))
    = [VStr (str "Rome"); VStr (str "Paris")] /\
    Enhanced.out_suggestedSequence (Enhanced.FromModel f)
    = VArr [VStr (str "Paris"); VStr (str "Rome")].
Proof. eexists. split; [vm_compute; reflexivity|]. split; reflexivity. Qed.

(** C9, amended: every result that the code builds itself (the pattern
    shortcuts and the fallback of [processNaturalLanguageInput], the
    paragraph fallback, the adapted and basic results of script.js) has a
    suggested sequence that lists the names of its locations, in order; a
    result of the language-model stage is the object of the model. *)
Theorem C9_sequence_matches_locations :
  forall gemini JSON_parse t,
    (exists o,
        Enhanced.processNaturalLanguageInput gemini JSON_parse t = Ok o /\
        match o with
        | Enhanced.Built r =>
            Enhanced.suggestedSequence r = map Enhanced.name (Enhanced.locations r)
        | Enhanced.FromModel f =>
            Enhanced.languageModel gemini JSON_parse t = Ok f
        end) /\
    (let r := Enhanced.extractLocationsFromParagraph t in
     Enhanced.suggestedSequence r = map Enhanced.name (Enhanced.locations r)) /\
    match Script.timeoutFallback t with
    | Ok (Some r) =>
        Enhanced.suggestedSequence r = map Enhanced.name (Enhanced.locations r)
    | _ => True
    end.
Proof.
  intros gemini JSON_parse t. split; [|split].
  - destruct (EnhancedStages.pipeline_cases gemini JSON_parse t) as [o [Ho Hc]].
    exists o. split; [exact Ho|].
    destruct Hc as [Hs|[[f [Hf ->]]|[e [r [_ [_ [Hr ->]]]]]]].
    + destruct Hs as [[w [_ ->]]|[[mode [i0 [a [b [_ [_ ->]]]]]]| ->]]; simpl;
        [now rewrite EnhancedStages.map_name_plain | reflexivity | reflexivity].
    + exact Hf.
    + destruct Hr as [-> |[-> |[[w [_ ->]]|[basic [_ [_ [Hl [_ [_ Hq]]]]]]]]].
      * reflexivity.
      * reflexivity.
      * simpl. now rewrite EnhancedStages.map_name_plain.
      * now rewrite Hq, Hl, EnhancedStages.map_name_plain.
  - reflexivity.
  - unfold Script.timeoutFallback.
    destruct (NlpRegex.extractLocationsWithRegex t) as [[r|]|e]; cbn [bind];
      [| |exact I].
    + destruct (2 <=? length (NlpRegex.locations r)).
      * simpl. now rewrite EnhancedStages.map_name_plain.
      * destruct (2 <=? _); [|exact I].
        simpl. now rewrite EnhancedStages.map_name_plain.
    + destruct (2 <=? _); [|exact I].
      simpl. now rewrite EnhancedStages.map_name_plain.
Qed.

(** ** C8: what the pattern entry points return when nothing matches *)

(** C8, as stated, fails: for "Paris", where no pattern matches, the
    exported [extractLocationsWithRegex] returns one location and not an
    empty result; and for "from Boston" the preposition rule of the other
    [extractLocationsWithRegex] contributes a single item. *)
Lemma C8_single_location_returned :
  NlpRegex.extractLocationsWithRegex (str "Paris")
  = Ok (Some {| NlpRegex.locations := [str "Paris"];
                NlpRegex.preferences :=
                  {| NlpRegex.transportMode := str "driving";
                     NlpRegex.avoidTolls := false;
                     NlpRegex.avoidHighways := false;
                     NlpRegex.avoidFerries := false |} |}) /\
  Nlp.extractLocationsWithRegex (str "from Boston")
  = Ok {| Nlp.locations := [str "Boston"];
          Nlp.preferences :=
            {| Nlp.transportMode := str "driving";
               Nlp.avoidTolls := false;
               Nlp.avoidHighways := false;
               Nlp.avoidFerries := false |} |}.
Proof. split; vm_compute; reflexivity. Qed.

(** C8, amended: the two [extractLocationsWithRegex] never throw, whatever
    the text; the exported one returns the empty array for the empty text;
    and on a non-empty text without white space and commas, where no
    pattern matches, each returns exactly one location, the text itself. *)
Theorem C8_no_match_gives_the_text :
  forall text,
    text <> [] -> free_of space_or_comma text ->
    (forall query, exists r, NlpRegex.extractLocationsWithRegex query = Ok r) /\
    (forall query, exists r, Nlp.extractLocationsWithRegex query = Ok r) /\
    NlpRegex.extractLocationsWithRegex [] = Ok None /\
    (exists p, NlpRegex.extractLocationsWithRegex text
               = Ok (Some {| NlpRegex.locations := [text];
                             NlpRegex.preferences := p |})) /\
    (exists p, Nlp.extractLocationsWithRegex text
               = Ok {| Nlp.locations := [text]; Nlp.preferences := p |}).
Proof.
  intros text Hne Hf. split; [|split; [|split; [|split]]].
  - apply RegexOnWords.NlpRegex_never_throws.
  - apply RegexOnWords.Nlp_never_throws.
  - reflexivity.
  - now apply RegexOnWords.NlpRegex_single.
  - now apply RegexOnWords.Nlp_single.
Qed.

(** A run of it, on "Paris". *)
Lemma C8_no_match_gives_the_text_witness :
  str "Paris" <> [] /\ free_of space_or_comma (str "Paris") /\
  (exists p, NlpRegex.extractLocationsWithRegex (str "Paris")
             = Ok (Some {| NlpRegex.locations := [str "Paris"];
                           NlpRegex.preferences := p |})).
Proof.
  assert (Hne : str "Paris" <> []) by discriminate.
  assert (Hf : free_of space_or_comma (str "Paris"))
    by (repeat constructor).
  split; [exact Hne|]. split; [exact Hf|].
  exact (proj1 (proj2 (proj2 (proj2
           (C8_no_match_gives_the_text (str "Paris") Hne Hf))))).
Defined.

(** ** C3: the travel mode *)



(** ** C7: the route classifier *)

(** C7, as stated, fails.  With tabs around the word "to"
    (x TAB to TAB .) one location is extracted and the classifier answers
    false, where the rule of the claim answers true; and for "from ." the
    classification before geocoding is false and the one after, with the one
    extracted location, is true. *)
Lemma C7_classifier_differs :
  let text := str "x" ++ [tab] ++ str "to" ++ [tab] ++ str "." in
  length (fst (Scripts04.extractLocations text)) = 1 /\
  Scripts04.isRouteRequestBefore text = false /\
  Scripts04.isRouteRequestAfter (Scripts04.Text text) 1 = false /\
  classify_spec text 1 = true /\
  length (fst (Scripts04.extractLocations (str "from ."))) = 1 /\
  Scripts04.isRouteRequestBefore (str "from .") = false /\
  Scripts04.isRouteRequestAfter (Scripts04.Text (str "from .")) 1 = true.
Proof. vm_compute. repeat split; reflexivity. Qed.

(** C7, amended: after geocoding, the classifier answers true exactly when
    the number of coordinates is greater than 1, or the lower-cased input,
    after its leading white space, starts with "from " followed by more
    than white space, or the lower-cased input contains " to " (the word
    between two space characters).  Before geocoding the same three tests
    are made with the number of extracted locations, the "from " test on
    the input trimmed and without its trailing marks (. ! ?): whenever
    the classification before geocoding is true, so is the one after
    geocoding for the same count. *)
Theorem C7_route_classifier :
  forall text count,
    (Scripts04.isRouteRequestAfter (Scripts04.Text text) count = true <->
     1 < count \/ starts_with_from (toLowerCase text) \/
     occurs (str " to ") (toLowerCase text)) /\
    (Scripts04.isRouteRequestBefore text =
     (1 <? length (fst (Scripts04.extractLocations text))) ||
     snd (Scripts04.extractLocations text) ||
     includes (toLowerCase text) (str " to ")) /\
    implb (Scripts04.isRouteRequestBefore text)
          (Scripts04.isRouteRequestAfter (Scripts04.Text text)
             (length (fst (Scripts04.extractLocations text)))) = true.
Proof.
  intros text count. split; [|split].
  - unfold Scripts04.isRouteRequestAfter. cbn [Scripts04.toString].
    rewrite !orb_true_iff, Nat.ltb_lt, trim_starts_with_from, includes_spec.
    tauto.
  - unfold Scripts04.isRouteRequestBefore.
    destruct (Scripts04.extractLocations text) as [locations startsWithFrom].
    reflexivity.
  - unfold Scripts04.isRouteRequestBefore, Scripts04.isRouteRequestAfter.
    cbn [Scripts04.toString].
    destruct (Scripts04.extractLocations text) as [locations startsWithFrom] eqn:E.
    cbn [fst].
    destruct (1 <? length locations); [reflexivity|].
    destruct (includes (toLowerCase text) (str " to ")); [now rewrite !orb_true_r|].
    rewrite !orb_false_r. cbn [orb].
    destruct startsWithFrom; [|reflexivity]. cbn [implb].
    unfold Scripts04.extractLocations in E. injection E as _ Hs.
    rewrite trim_lower.
    eapply startsWith_prefix; [|exact Hs].
    apply prefix_of_lower. apply trim_of_prefix.
    unfold Script.trailing_marks. cbn [Regex.seq]. apply replace_to_end.
Qed.

(** ** C6: routes with several stops *)

(** C6, as stated, fails.  The shortcut of [processNaturalLanguageInput]
    only looks at the text between the first and the second word "from":
    for "from Paris to London, then from London to Rome", where three
    segments are separated by "to", it returns two waypoints.  The first
    waypoint keeps its trailing punctuation.  And in script.js the pattern
    for two stops is tried first, so that "From New York to Los Angeles to
    Chicago" gives two locations there. *)
Lemma C6_waypoints_miscounted :
  (exists r,
      Enhanced.processNaturalLanguageInput
        (answers sampleAnswer) (parses sampleAnswer sampleValue)
        (str "from Paris to London, then from London to Rome")
      = Ok (Enhanced.Built r) /\
      map Enhanced.name (Enhanced.locations r)
      = [str "Paris"; str "London, then"]) /\
  (exists r,
      Enhanced.processNaturalLanguageInput
        (answers sampleAnswer) (parses sampleAnswer sampleValue)
        (str "from Paris, to London to Rome")
      = Ok (Enhanced.Built r) /\
      map Enhanced.name (Enhanced.locations r)
      = [str "Paris,"; str "London"; str "Rome"]) /\
  Script.extractBasicRouteLocations
    (str "From New York to Los Angeles to Chicago")
  = [str "New York"; str "Los Angeles to Chicago"].
Proof.
  split; [|split].
  - eexists. split; vm_compute; reflexivity.
  - eexists. split; vm_compute; reflexivity.
  - vm_compute. reflexivity.
Qed.

(** C6, amended: take an input made of the word "from", a space, and
    three or more stops joined by " to ", where the first stop is a name
    and each later stop a name that may be followed by one punctuation
    mark of [,.!?;]; a name is not empty, has no white space around it, no
    such mark at its end and contains neither the word "to" nor the word
    "from"; before "from" there may be a text that ends with white space
    and has neither of the two words.  Then [processNaturalLanguageInput]
    returns, whatever the language model does, a route request whose
    locations are the names, without the marks, in their order and as
    many; for example "From New York to Los Angeles to Chicago" gives
    New York, Los Angeles, Chicago. *)
Theorem C6_multi_waypoint_names :
  forall gemini JSON_parse P F first rest,
    lead P = true -> from_word F -> waypoint_name first = true ->
    Forall (fun s => stop_ok s = true) rest -> 2 <= length rest ->
    exists r,
      Enhanced.processNaturalLanguageInput gemini JSON_parse
        (P ++ F ++ str " " ++ join (str " to ") (first :: map stop_text rest))
      = Ok (Enhanced.Built r) /\
      Enhanced.isRouteRequest r = true /\
      map Enhanced.name (Enhanced.locations r) = first :: map fst rest /\
      Enhanced.suggestedSequence r = first :: map fst rest /\
      length (Enhanced.locations r) = S (length rest).
Proof.
  intros gemini JSON_parse P F first rest HP HF Hfirst Hrest Hlen.
  exists (Enhanced.multiStop
            (P ++ F ++ str " " ++ join (str " to ") (first :: map stop_text rest))
            (first :: map fst rest)).
  split; [|split; [|split; [|split]]].
  - unfold Enhanced.processNaturalLanguageInput.
    now rewrite (MultiWaypointFacts.input_multiWaypoint
                   P F first rest HP HF Hfirst Hrest Hlen).
  - reflexivity.
  - apply EnhancedStages.map_name_plain.
  - reflexivity.
  - cbn [Enhanced.multiStop Enhanced.locations]. rewrite !length_map.
    cbn [length]. now rewrite length_map.
Qed.

(** A run of it, on "Drive From New York to Los Angeles, to Chicago.". *)
Lemma C6_multi_waypoint_names_witness :
  exists r,
    Enhanced.processNaturalLanguageInput
      (answers sampleAnswer) (parses sampleAnswer sampleValue)
      (str "Drive From New York to Los Angeles, to Chicago.")
    = Ok (Enhanced.Built r) /\
    map Enhanced.name (Enhanced.locations r)
    = [str "New York"; str "Los Angeles"; str "Chicago"].
Proof.
  assert (HP : lead (str "Drive ") = true) by (vm_compute; reflexivity).
  assert (HF : from_word (str "From")) by (right; left; reflexivity).
  assert (Hfirst : waypoint_name (str "New York") = true)
    by (vm_compute; reflexivity).
  assert (Hrest : Forall (fun s => stop_ok s = true)
                    [(str "Los Angeles", str ","); (str "Chicago", str ".")])
    by (repeat (constructor; [vm_compute; reflexivity|]); constructor).
  assert (Hlen : 2 <= length [(str "Los Angeles", str ","); (str "Chicago", str ".")])
    by (simpl; lia).
  destruct (C6_multi_waypoint_names
              (answers sampleAnswer) (parses sampleAnswer sampleValue)
              (str "Drive ") (str "From") (str "New York")
              [(str "Los Angeles", str ","); (str "Chicago", str ".")]
              HP HF Hfirst Hrest Hlen) as [r [H1 [_ [H2 _]]]].
  exists r. split; [exact H1 | exact H2].
Defined.

(** ** C5: "X to Y" *)

(** C5, as stated, fails: the names are not always trim(X) and trim(Y).
    [extractLocationsWithRegex] strips a leading "in" (and others) from a
    part, so that "in Rome to Paris" gives Rome and Paris, also through the
    handler of script.js; [extractBasicRouteLocations] replaces the first
    word of a listed city by the city ("Los" by "Los Angeles"), and its
    pattern for "in ... to ..." takes "Mitte" from "Berlin Mitte to Rome". *)
Lemma C5_names_rewritten :
  (exists prefs,
      NlpRegex.extractLocationsWithRegex (str "in Rome to Paris") =
      Ok (Some {| NlpRegex.locations := [str "Rome"; str "Paris"];
                  NlpRegex.preferences := prefs |})) /\
  (exists result,
      Script.timeoutFallback (str "in Rome to Paris") = Ok (Some result) /\
      map Enhanced.name (Enhanced.locations result) = [str "Rome"; str "Paris"]) /\
  Script.extractBasicRouteLocations (str "Los to Paris")
  = [str "Los Angeles"; str "Paris"] /\
  Script.extractBasicRouteLocations (str "Berlin Mitte to Rome")
  = [str "Mitte"; str "Rome"].
Proof.
  split; [|split; [|split]].
  - eexists. vm_compute. reflexivity.
  - eexists. split; vm_compute; reflexivity.
  - vm_compute. reflexivity.
  - vm_compute. reflexivity.
Qed.

(** C5, amended: let X and Y be names that are not empty, have no white
    space around them, single spaces between their words, contain neither
    the word "to" nor the word "from" and do not start with a word that
    the code strips from a part (from, to, in, at, starting, ending,
    beginning, route).  For the input X to Y, with any white space around
    it, [extractLocationsWithRegex] returns exactly the two locations X and
    Y in that order, and the handler of script.js makes of them a result
    that is a route request with the locations and the suggested sequence
    X, Y.  When moreover "route", "from" and "in" are nowhere followed by
    white space in X, and Y has none of the marks . ! ? and neither the
    word "via" nor "through", [extractBasicRouteLocations] returns two
    names too: X and Y, each replaced by the listed city that it names or
    starts, if any. *)
Theorem C5_x_to_y :
  forall X Y l r,
    place_name X = true -> place_name Y = true ->
    Forall (fun c => is_space c = true) l ->
    Forall (fun c => is_space c = true) r ->
    (exists prefs,
        NlpRegex.extractLocationsWithRegex (l ++ (X ++ str " to " ++ Y) ++ r) =
        Ok (Some {| NlpRegex.locations := [X; Y];
                    NlpRegex.preferences := prefs |})) /\
    (exists result,
        Script.timeoutFallback (l ++ (X ++ str " to " ++ Y) ++ r)
        = Ok (Some result) /\
        Enhanced.isRouteRequest result = true /\
        map Enhanced.name (Enhanced.locations result) = [X; Y] /\
        Enhanced.suggestedSequence result = [X; Y]) /\
    (clear_name X = true -> whole_name Y = true ->
     Script.extractBasicRouteLocations (l ++ (X ++ str " to " ++ Y) ++ r)
     = [Script.fullName X; Script.fullName Y]).
Proof.
  intros X Y l r HX HY Hl Hr. split; [|split].
  - exact (ToFacts.joined_locations X Y HX HY l r Hl Hr).
  - exact (ToFacts.joined_fallback X Y HX HY l r Hl Hr).
  - intros HC HW.
    exact (EarlierPatterns.joined_basic_clear X Y l r HX HY HC HW Hl Hr).
Qed.

(** A run of it, on " New York to Boston". *)
Lemma C5_x_to_y_witness :
  (exists prefs,
      NlpRegex.extractLocationsWithRegex (str " New York to Boston") =
      Ok (Some {| NlpRegex.locations := [str "New York"; str "Boston"];
                  NlpRegex.preferences := prefs |})) /\
  Script.extractBasicRouteLocations (str " New York to Boston")
  = [Script.fullName (str "New York"); Script.fullName (str "Boston")].
Proof.
  assert (HX : place_name (str "New York") = true) by (vm_compute; reflexivity).
  assert (HY : place_name (str "Boston") = true) by (vm_compute; reflexivity).
  assert (Hl : Forall (fun c => is_space c = true) (str " "))
    by (repeat constructor).
  assert (Hr : Forall (fun c => is_space c = true) []) by constructor.
  assert (HW : whole_name (str "Boston") = true) by (vm_compute; reflexivity).
  assert (HC : clear_name (str "New York") = true) by (vm_compute; reflexivity).
  destruct (C5_x_to_y (str "New York") (str "Boston") (str " ") []
                      HX HY Hl Hr) as [Ha [_ Hb]].
  split; [exact Ha | exact (Hb HC HW)].
Defined.

(** * Further facts on the cleaning steps *)

(** ** Trimming twice *)

Lemma trimStart_head c s : is_space c = false -> trimStart (c :: s) = c :: s.
Proof. intros H. cbn [trimStart]. now rewrite H. Qed.

Lemma trim_idem s : trim (trim s) = trim s.
Proof.
  assert (Hh := trim_head s).
  destruct (trimEnd_split (trimStart s)) as [ws [_ [_ He]]].
  fold (trim s) in He.
  destruct He as [He | [a [c [He Hc]]]]; [now rewrite He|].
  destruct (trim s) as [|h t] eqn:E; [reflexivity|].
  unfold trim at 1. rewrite (trimStart_head h t Hh).
  unfold trimEnd. rewrite He, rev_app_distr. cbn [rev app].
  rewrite (trimStart_head c (rev a) Hc). cbn [rev].
  now rewrite rev_involutive.
Qed.

(** What [.map(s => s.trim()).filter(s => s.length > 0)] keeps. *)
Lemma trimmed_parts (parts : list jstring) :
  Forall (fun l => l <> [] /\ trim l = l)
         (filter (fun l : jstring => 0 <? length l) (map trim parts)).
Proof.
  apply Forall_forall. intros l Hl. apply filter_In in Hl.
  destruct Hl as [Hin Hlen]. apply in_map_iff in Hin.
  destruct Hin as [p [<- _]]. split; [|apply trim_idem].
  intros E. rewrite E in Hlen. discriminate.
Qed.

(** ** The first match of a search *)

(** [search] returns the match at the first position that has one. *)
Lemma search_first icase r : forall s p m,
  search icase r p s = Some m ->
  exists a, s = a ++ m_0 m ++ m_rest m /\ m_pre m = rev a ++ p /\
            match_at icase r (rev a ++ p) (m_0 m ++ m_rest m) = Some m /\
            forall a1 b1, a = a1 ++ b1 -> b1 <> [] ->
              match_at icase r (rev a1 ++ p) (b1 ++ m_0 m ++ m_rest m) = None.
Proof.
  induction s as [|c s IH]; intros p m H; cbn [search] in H.
  - destruct (match_at icase r p []) as [m'|] eqn:M; [|discriminate].
    injection H as ->. destruct (match_at_spec icase r p [] m M) as [Hp [Hs _]].
    exists []. cbn [rev app]. split; [exact Hs|]. split; [exact Hp|].
    split; [now rewrite <- Hs|].
    intros a1 b1 E Hb. destruct a1; [cbn in E; now subst b1 | discriminate].
  - destruct (match_at icase r p (c :: s)) as [m'|] eqn:M.
    + injection H as ->. destruct (match_at_spec icase r p _ m M) as [Hp [Hs _]].
      exists []. cbn [rev app]. split; [exact Hs|]. split; [exact Hp|].
      split; [now rewrite <- Hs|].
      intros a1 b1 E Hb. destruct a1; [cbn in E; now subst b1 | discriminate].
    + destruct (IH (c :: p) m H) as [a [Hs [Hp [Hm Hfirst]]]].
      exists (c :: a). cbn [rev app]. rewrite <- !app_assoc. cbn [app].
      split; [now rewrite <- Hs|]. split; [exact Hp|]. split; [exact Hm|].
      intros a1 b1 E Hb. destruct a1 as [|c1 a1].
      * cbn [app] in E. subst b1. cbn [rev app]. rewrite <- Hs. exact M.
      * cbn [app] in E. injection E as <- E. cbn [rev]. rewrite <- app_assoc.
        cbn [app]. now apply Hfirst.
Qed.

(** ** Characters of a class at the end of a text: /[...]+$/ *)

Section Trailing.

Variable icase : bool.
Variable cls : list cclass.

Let in_class (c : ascii) : Prop := class_mem icase cls c = true.

(** The iterations of [c*] go over characters of the class. *)
Lemma iter_class gs s z :
  iter (run icase Fwd (Chr cls)) gs s z ->
  exists m, suf s = m ++ suf z /\ pre z = rev m ++ pre s /\ Forall in_class m.
Proof.
  induction 1 as [s|s y z Hy _ IH].
  - exists []. repeat split. constructor.
  - apply chr_step in Hy. destruct Hy as [c [t [Hs [Hc ->]]]].
    destruct IH as [m [Hm [Hp Hall]]]. unfold reset in *. cbn [pre suf caps] in *.
    exists (c :: m). repeat split.
    + now rewrite Hs, Hm.
    + rewrite Hp. cbn [rev]. now rewrite <- app_assoc.
    + now constructor.
Qed.

Lemma plus_class s y :
  In y (run icase Fwd (plus (Chr cls)) s) ->
  exists m, m <> [] /\ suf s = m ++ suf y /\ pre y = rev m ++ pre s /\
            Forall in_class m.
Proof.
  unfold plus. cbn [run]. intros H.
  apply rep_loop_first in H; [|easy|easy]. destruct H as [y1 [Hy1 Hit]].
  apply chr_step in Hy1. destruct Hy1 as [c [t [Hs [Hc ->]]]].
  apply iter_class in Hit. destruct Hit as [m [Hm [Hp Hall]]].
  unfold reset in *. cbn [pre suf caps] in *.
  exists (c :: m). repeat split.
  - easy.
  - now rewrite Hs, Hm.
  - rewrite Hp. cbn [rev]. now rewrite <- app_assoc.
  - now constructor.
Qed.

(** The greedy quantifier takes all the characters of a text of the class
    first. *)
Lemma greedy_all s : forall fuel min p k,
  Forall in_class s -> length s < fuel -> min <= length s ->
  heads (MS (rev s ++ p) [] k)
        (rep_loop (run icase Fwd (Chr cls)) [] true fuel min None (MS p s k)).
Proof.
  induction s as [|c s IH]; intros fuel min p k Hall Hf Hmin;
    (destruct fuel as [|fuel]; [cbn [length] in Hf; lia|]);
    rewrite rep_loop_step; cbv zeta; unfold reset;
    cbn [pre suf caps map app].
  - cbn [length] in Hmin. replace min with 0 by lia.
    rewrite run_chr_nil. cbn [flat_map Nat.eqb negb app rev]. now exists [].
  - inversion Hall as [|? ? Hc Hall']. subst.
    rewrite run_chr_cons. unfold in_class in Hc. rewrite Hc.
    cbn [flat_map pos pre length pred option_map].
    assert (Hpos : (S (length p) =? length p) = false)
      by (apply Nat.eqb_neq; lia).
    rewrite Hpos, andb_false_r, app_nil_r.
    cbn [length] in Hf, Hmin.
    assert (H := IH fuel (pred min) (c :: p) k Hall' ltac:(lia) ltac:(lia)).
    cbn [rev]. rewrite <- app_assoc. cbn [app].
    destruct (negb (min =? 0)); [exact H | now apply heads_app].
Qed.

Lemma trailing_hit p s :
  s <> [] -> Forall in_class s ->
  match_at icase (trailing cls) p s = Some (RM p s [] []).
Proof.
  intros Hne Hall. unfold match_at, trailing. rewrite run_seq_fwd.
  unfold plus.
  rewrite (run_rep_fuel icase Fwd 1 None true (Chr cls) (MS p s [])
             (S (S (length s + length p)))) by (cbn [suf pre]; lia).
  cbn [groups].
  destruct (greedy_all s (S (S (length s + length p))) 1 p [] Hall
              ltac:(lia) ltac:(destruct s; [easy | cbn [length]; lia]))
    as [tail Ht].
  rewrite Ht. cbn [flat_map run is_nil suf app caps].
  f_equal. f_equal. apply captured_fwd. reflexivity.
Qed.

Lemma trailing_match p s m :
  match_at icase (trailing cls) p s = Some m ->
  s <> [] /\ Forall in_class s /\ m = RM p s [] [].
Proof.
  intros M. assert (M' := M). unfold match_at in M'.
  destruct (run icase Fwd (trailing cls) (MS p s [])) as [|y l] eqn:R; [discriminate|].
  assert (Hy : In y (run icase Fwd (trailing cls) (MS p s []))) by (rewrite R; now left).
  unfold trailing in Hy. apply run_seq_inv in Hy. destruct Hy as [x [Hx Hy]].
  apply run_eol_inv in Hy. destruct Hy as [-> Hsuf].
  apply plus_class in Hx. destruct Hx as [w [Hne [Hs [_ Hall]]]].
  cbn [suf] in Hs. rewrite Hsuf, app_nil_r in Hs. subst w.
  split; [exact Hne|]. split; [exact Hall|].
  rewrite (trailing_hit p s Hne Hall) in M. now injection M as <-.
Qed.

(** [s.replace(/[...]+$/, '')] is what is left of [s] without the
    characters of the class at its end. *)
Lemma replace_trailing s :
  exists q, s = replace icase (trailing cls) erase s ++ q /\ Forall in_class q /\
            forall a c, replace icase (trailing cls) erase s = a ++ [c] ->
                        class_mem icase cls c = false.
Proof.
  unfold replace, exec.
  destruct (search icase (trailing cls) [] s) as [m|] eqn:S.
  - destruct (search_first icase (trailing cls) s [] m S) as [a [Hs [Hp [Hm Hfirst]]]].
    destruct m as [mp w mr mc]. cbn [m_0 m_rest m_pre] in *.
    apply trailing_match in Hm. destruct Hm as [Hne [Hall Hm]].
    injection Hm as _ Hw Hr _. subst mr mp.
    rewrite app_nil_r in Hs, Hall, Hne.
    cbn [erase app]. rewrite !app_nil_r, rev_involutive.
    exists w. split; [exact Hs|]. split; [exact Hall|].
    intros a' c E. destruct (class_mem icase cls c) eqn:Hc; [|reflexivity].
    assert (H := Hfirst a' [c] E ltac:(easy)). rewrite !app_nil_r in H.
    rewrite (trailing_hit (rev a') ([c] ++ w)) in H; [discriminate | easy |].
    constructor; [exact Hc | exact Hall].
  - exists []. rewrite app_nil_r. split; [reflexivity|]. split; [constructor|].
    intros a c E. destruct (class_mem icase cls c) eqn:Hc; [|reflexivity].
    assert (H := search_none icase (trailing cls) s [] S a [c] E).
    rewrite app_nil_r in H.
    rewrite (trailing_hit (rev a) [c]) in H; [discriminate | easy |].
    constructor; [exact Hc | constructor].
Qed.

(** The characters of the class at the end of a text are determined. *)
Lemma class_prefix_unique (u : jstring) : forall u' v v',
  u ++ v = u' ++ v' -> Forall in_class u -> Forall in_class u' ->
  match v with c :: _ => class_mem icase cls c = false | [] => True end ->
  match v' with c :: _ => class_mem icase cls c = false | [] => True end ->
  v = v'.
Proof.
  unfold in_class.
  induction u as [|c u IH]; intros u' v v' E Hu Hu' Hv Hv'.
  - destruct u' as [|c' u']; [exact E|]. cbn [app] in E. subst v.
    inversion Hu' as [|? ? Hc _]. congruence.
  - destruct u' as [|c' u'].
    + cbn [app] in E. subst v'. inversion Hu as [|? ? Hc _]. congruence.
    + cbn [app] in E. injection E as -> E.
      inversion Hu. inversion Hu'. subst. now apply (IH u').
Qed.

Lemma no_class_end (s : jstring) :
  (forall a c, s = a ++ [c] -> class_mem icase cls c = false) <->
  match rev s with c :: _ => class_mem icase cls c = false | [] => True end.
Proof.
  split.
  - intros H. destruct (rev s) as [|c l] eqn:E; [exact I|].
    apply (H (rev l) c). now rewrite <- (rev_involutive s), E.
  - intros H a c ->. rewrite rev_app_distr in H. exact H.
Qed.

(** [(s + q).replace(/[...]+$/, '')] is [s] when [q] is made of characters
    of the class and [s] does not end with one. *)
Lemma replace_trailing_exact s q :
  (forall a c, s = a ++ [c] -> class_mem icase cls c = false) ->
  Forall in_class q ->
  replace icase (trailing cls) erase (s ++ q) = s.
Proof.
  intros Hs Hq. destruct (replace_trailing (s ++ q)) as [q' [E [Hq' HR]]].
  remember (replace icase (trailing cls) erase (s ++ q)) as R.
  apply (f_equal (@rev ascii)) in E. rewrite !rev_app_distr in E.
  rewrite <- (rev_involutive R), <- (rev_involutive s). f_equal. symmetry.
  apply (class_prefix_unique (rev q) (rev q') (rev s) (rev R) E).
  - apply Forall_rev. exact Hq.
  - apply Forall_rev. exact Hq'.
  - now apply no_class_end.
  - now apply no_class_end.
Qed.

End Trailing.

(** The characters of /[...]/ for a class that lists characters. *)
Lemma oneof_In w c : class_mem cs (map CC w) c = true <-> In c w.
Proof.
  unfold class_mem, cs. rewrite andb_false_l, orb_false_r.
  induction w as [|x w IH]; [cbn; intuition discriminate|].
  cbn [map existsb class1 In]. rewrite orb_true_iff, IH, ascii_eqb_eq. tauto.
Qed.

Lemma ends_in_spec cls s :
  ends_in cls s = false <->
  forall a c, s = a ++ [c] -> class_mem cs cls c = false.
Proof.
  unfold ends_in. rewrite no_class_end.
  destruct (rev s); [tauto | reflexivity].
Qed.

(** * Texts of stops joined by " to " *)

Module StopFacts.

Import Enhanced SeparatorFacts.

Lemma stop_name_spec n :
  stop_name n = true ->
  n <> [] /\ trim n = n /\ single_spaced n = true /\ no_to n.
Proof.
  unfold stop_name, no_to. rewrite !andb_true_iff, text_eqb_eq, negb_true_iff.
  intros [[[H1 H2] H3] H4]. repeat split; try assumption. now destruct n.
Qed.

(** The first character of a stop. *)
Lemma stop_head n :
  stop_name n = true -> exists c n', n = c :: n' /\ is_space c = false.
Proof.
  intros H. apply stop_name_spec in H. destruct H as [Hne [Ht _]].
  exact (proj1 (trimmed_ends n Hne Ht)).
Qed.

Lemma join_head (names : list jstring) n :
  Forall (fun n => stop_name n = true) (n :: names) ->
  exists c t, join (str " to ") (n :: names) = c :: t /\ is_space c = false.
Proof.
  intros H. inversion H as [|? ? Hn _]. subst.
  destruct (stop_head n Hn) as [c [n' [-> Hc]]].
  destruct names; cbn [join app]; eauto.
Qed.

(** The split of the stops at /\s+to\s+/i. *)
Lemma sep_chain names :
  Forall (fun n => stop_name n = true) names ->
  forall fuel p piece,
    2 * length (join (str " to ") names) + 1 < fuel ->
    word_before (MS p [] []) = false ->
    split_loop ci fuel ws_to_ws p piece (join (str " to ") names) =
    match names with
    | n :: rest => Some (rev piece ++ n) :: map Some rest
    | [] => [Some (rev piece)]
    end.
Proof.
  induction names as [|n rest IH]; intros Hall fuel p piece Hf Hp.
  - destruct fuel; [lia | reflexivity].
  - inversion Hall as [|? ? Hn Hrest]. subst.
    destruct (stop_name_spec n Hn) as [Hne [Ht [Hs Hto]]].
    destruct rest as [|n2 rest].
    + cbn [join map].
      set (F := 2 * length n + 2).
      rewrite (split_loop_fuel ci ws_to_ws fuel (length n + F) p piece n)
        by (cbn [join] in Hf; destruct (is_nil piece); unfold F; lia).
      rewrite <- (app_nil_r n) at 2.
      rewrite (split_loop_skip ci ws_to_ws n F p piece []).
      2:{ intros a b E Hb.
          exact (sep_not_inside n p [] Hs Hto Hp eq_refl a b E Hb). }
      unfold F. rewrite Nat.add_comm. cbn [Nat.add].
      rewrite split_loop_end, rev_app_distr, rev_involutive. reflexivity.
    + destruct (join_head rest n2 Hrest) as [y [Y [EJ Hy]]].
      change (join (str " to ") (n :: n2 :: rest))
        with (n ++ str " to " ++ join (str " to ") (n2 :: rest)) in *.
      set (J := join (str " to ") (n2 :: rest)) in *.
      set (F := 2 * length (n ++ str " to " ++ J) + 2).
      rewrite (split_loop_fuel ci ws_to_ws fuel (length n + F) p piece _)
        by (destruct (is_nil piece); unfold F; lia).
      rewrite (split_loop_skip ci ws_to_ws n F p piece (str " to " ++ J)).
      2:{ intros a b E Hb.
          exact (sep_not_inside n p (str " to " ++ J) Hs Hto Hp eq_refl a b E Hb). }
      assert (Hhit : match_at ci ws_to_ws (rev n ++ p) (" "%char :: str "to " ++ J)
                     = Some (RM (rev n ++ p) (str " to ") J []))
        by (rewrite EJ; now apply sep_hit).
      change (str " to " ++ J) with (" "%char :: str "to " ++ J).
      unfold F at 1. rewrite Nat.add_comm. cbn [Nat.add].
      rewrite (split_loop_hit _ _ _ _ _ _ _ _ Hhit ltac:(easy)).
      cbn [m_0 m_rest groups ws_to_ws Regex.seq plus sp lit lit_chars str
           list_ascii_of_string app map].
      rewrite rev_app_distr, rev_involutive.
      rewrite (IH Hrest).
      * reflexivity.
      * rewrite !length_app. cbn [length]. lia.
      * reflexivity.
Qed.

Lemma split_stops names :
  names <> [] -> Forall (fun n => stop_name n = true) names ->
  split ci ws_to_ws (join (str " to ") names) = names.
Proof.
  intros Hne Hall. destruct names as [|n rest]; [easy|].
  destruct (join_head rest n Hall) as [c [t [E _]]].
  unfold split. rewrite split_opt_nonempty by (rewrite E; easy).
  rewrite (sep_chain (n :: rest) Hall) by (try reflexivity; lia).
  cbn [rev app map]. f_equal. rewrite map_map. apply map_id.
Qed.

(** The stops joined are a trimmed text. *)
Lemma join_trimmed names :
  names <> [] -> Forall (fun n => stop_name n = true) names ->
  join (str " to ") names <> [] /\
  trim (join (str " to ") names) = join (str " to ") names.
Proof.
  induction names as [|n rest IH]; intros Hne Hall; [easy|].
  inversion Hall as [|? ? Hn Hrest]. subst.
  destruct (stop_name_spec n Hn) as [Hn1 [Hn2 _]].
  destruct rest as [|n2 rest]; [now split|].
  destruct (IH ltac:(easy) Hrest) as [H1 H2].
  change (join (str " to ") (n :: n2 :: rest))
    with (n ++ str " to " ++ join (str " to ") (n2 :: rest)).
  split; [destruct n; easy|]. now apply trim_joined.
Qed.

(** The last character of the joined stops is that of the last stop. *)
Lemma join_last names :
  names <> [] ->
  exists a, join (str " to ") names = a ++ last_stop names.
Proof.
  unfold last_stop.
  induction names as [|n rest IH]; intros Hne; [easy|].
  destruct rest as [|n2 rest]; [now exists []|].
  destruct (IH ltac:(easy)) as [a Ha].
  change (join (str " to ") (n :: n2 :: rest))
    with (n ++ str " to " ++ join (str " to ") (n2 :: rest)).
  exists (n ++ str " to " ++ a). rewrite Ha. cbn [last].
  now rewrite <- !app_assoc.
Qed.

Lemma last_stop_name names :
  names <> [] -> Forall (fun n => stop_name n = true) names ->
  stop_name (last_stop names) = true.
Proof.
  intros Hne Hall. rewrite Forall_forall in Hall. apply Hall.
  unfold last_stop. destruct names as [|n rest]; [easy|].
  clear. revert n. induction rest as [|n2 rest IH]; intros n; [now left|].
  right. apply IH.
Qed.

(** "to" does not stand in a text that is made of two texts without it and
    a space between them. *)
Lemma no_to_spaced A B : no_to A -> no_to B -> no_to (A ++ str " " ++ B).
Proof.
  intros HA HB. unfold no_to, test, exec.
  change word_to with (word_pattern (str "to")).
  rewrite (search_word_skip (str "to") lower_word_to A [] (str " " ++ B)
             HA eq_refl eq_refl).
  change (word_pattern (str "to")) with word_to.
  change (str " " ++ B) with (" "%char :: B).
  rewrite (search_miss _ _ _ _ _ (MultiWaypointFacts.to_miss _ " "%char _ eq_refl)).
  assert (H := search_word_skip (str "to") lower_word_to B
                 (" "%char :: rev A) [] HB eq_refl eq_refl).
  rewrite app_nil_r in H |- *. change word_to with (word_pattern (str "to")).
  now rewrite H, (word_at_end _ _ lower_word_to).
Qed.

(** "from" and a stop make a stop. *)
Lemma from_stop F n :
  from_word F -> stop_name n = true -> stop_name (F ++ str " " ++ n) = true.
Proof.
  intros HF Hn. destruct (stop_name_spec n Hn) as [Hne [Ht [Hs Hto]]].
  destruct (stop_head n Hn) as [c [n' [E Hc]]].
  assert (HF' : F <> [] /\ trim F = F /\ single_spaced F = true /\ no_to F).
  { destruct HF as [<-|[<-|[<-|[]]]]; repeat split; easy. }
  destruct HF' as [HF1 [HF2 [HF3 HF4]]].
  unfold stop_name. rewrite !andb_true_iff, text_eqb_eq, negb_true_iff.
  repeat split.
  - destruct F; easy.
  - now apply trim_joined.
  - apply single_spaced_app; [exact HF3|]. rewrite E in *.
    cbn [str list_ascii_of_string app single_spaced]. rewrite Hc.
    cbn [single_spaced] in Hs. rewrite Hc in Hs.
    apply andb_true_iff. split; [reflexivity | exact Hs].
  - now apply no_to_spaced.
Qed.

(** What [.map(s => s.trim()).filter(s => s.length > 0)] does to stops. *)
Lemma clean_stops names :
  Forall (fun n => stop_name n = true) names ->
  filter (fun l : jstring => 0 <? length l) (map trim names) = names.
Proof.
  induction 1 as [|n rest Hn _ IH]; [reflexivity|].
  destruct (stop_name_spec n Hn) as [Hne [Ht _]].
  cbn [map filter]. rewrite Ht, IH. destruct n; [easy | reflexivity].
Qed.

Lemma trim_stops names :
  Forall (fun n => stop_name n = true) names -> map trim names = names.
Proof.
  induction 1 as [|n rest Hn _ IH]; [reflexivity|].
  destruct (stop_name_spec n Hn) as [_ [Ht _]]. cbn [map]. now rewrite Ht, IH.
Qed.

Lemma keep_stops names :
  Forall (fun n => stop_name n = true) names ->
  filter (fun l : jstring => 0 <? length l) names = names.
Proof.
  intros H. rewrite <- (trim_stops names H) at 1. now apply clean_stops.
Qed.

Lemma join_prefix (P n : jstring) rest :
  P ++ join (str " to ") (n :: rest) = join (str " to ") ((P ++ n) :: rest).
Proof. destruct rest; cbn [join]; [reflexivity | now rewrite <- app_assoc]. Qed.

Lemma ends_in_app cls a b : b <> [] -> ends_in cls (a ++ b) = ends_in cls b.
Proof.
  intros Hb. unfold ends_in. rewrite rev_app_distr.
  destruct (rev b) as [|c t] eqn:E; [|reflexivity].
  apply (f_equal (@rev ascii)) in E. rewrite rev_involutive in E. now subst b.
Qed.

(** The text cleaned by [.trim().replace(/[.!?]+$/, '').trim()]. *)
Lemma normalized T q l r :
  T <> [] -> trim T = T -> ends_in (map CC (str ".!?")) T = false ->
  end_marks q = true ->
  Forall (fun c => is_space c = true) l ->
  Forall (fun c => is_space c = true) r ->
  trim (replace cs Script.trailing_marks erase (trim (l ++ (T ++ q) ++ r))) = T.
Proof.
  intros Hne Ht He Hq Hl Hr.
  assert (Hq' : Forall (fun c => class_mem cs (map CC (str ".!?")) c = true) q).
  { apply Forall_forall. intros c Hc. unfold end_marks in Hq.
    rewrite forallb_forall in Hq. now apply Hq. }
  assert (Hqs : trim q = q).
  { apply trim_free. eapply Forall_impl; [|exact Hq']. intros c Hc.
    apply oneof_In in Hc. cbn in Hc.
    destruct Hc as [<-|[<-|[<-|[]]]]; reflexivity. }
  assert (HTq : trim (T ++ q) = T ++ q).
  { destruct q as [|c q]; [now rewrite app_nil_r|].
    rewrite <- (app_nil_l (c :: q)) at 1 2.
    apply (trim_joined T [] (c :: q)); easy. }
  rewrite (trim_padded (T ++ q) l r); [|destruct T; easy|exact HTq|exact Hl|exact Hr].
  change Script.trailing_marks with (trailing (map CC (str ".!?"))).
  rewrite replace_trailing_exact; [exact Ht| |exact Hq'].
  now apply ends_in_spec.
Qed.

(** /^from\s+/i at the start of "from T". *)
Lemma from_prefix_strip F c T :
  from_word F -> is_space c = false ->
  replace ci NlpSecure.from_prefix erase (F ++ str " " ++ c :: T) = c :: T.
Proof.
  intros HF Hc. unfold replace, exec.
  assert (M : match_at ci NlpSecure.from_prefix [] (F ++ str " " ++ c :: T)
              = Some (RM [] (F ++ str " ") (c :: T) [])).
  { unfold match_at, NlpSecure.from_prefix. cbn [Regex.seq].
    rewrite run_seq_fwd.
    change (run ci Fwd Bol (MS [] (F ++ str " " ++ c :: T) []))
      with [MS [] (F ++ str " " ++ c :: T) []].
    cbn [flat_map]. rewrite app_nil_r, run_seq_fwd.
    unfold lit. rewrite run_lit_prefix.
    assert (E : prefix_ci ci (str "from") (F ++ str " " ++ c :: T) = true /\
                skipn (length (str "from")) (F ++ str " " ++ c :: T)
                = " "%char :: c :: T /\
                firstn (length (str "from")) (F ++ str " " ++ c :: T) = F).
    { destruct HF as [<-|[<-|[<-|[]]]]; repeat split. }
    destruct E as [E1 [E2 E3]]. rewrite E1, E2, E3.
    cbn [flat_map]. rewrite app_nil_r. unfold sp.
    rewrite run_plus_one; [|reflexivity|now rewrite ci_space].
    cbn [suf caps]. f_equal. f_equal. apply captured_fwd.
    cbn [pre]. rewrite rev_app_distr. reflexivity. }
  rewrite (search_hit _ _ _ _ _ M). reflexivity.
Qed.

Lemma from_start F T :
  from_word F ->
  startsWith (toLowerCase (F ++ str " " ++ T)) (str "from ") = true /\
  substring 5 (F ++ str " " ++ T) = T.
Proof.
  intros HF. split.
  - apply startsWith_spec. exists (toLowerCase T). unfold toLowerCase.
    rewrite !map_app. destruct HF as [<-|[<-|[<-|[]]]]; reflexivity.
  - destruct HF as [<-|[<-|[<-|[]]]]; reflexivity.
Qed.

End StopFacts.

(** * Objects *)

Lemma get_set_other k k' v o :
  k <> k' -> get_field k (set_field k' v o) = get_field k o.
Proof.
  intros Hk. induction o as [|[k0 v0] o IH]; cbn [set_field get_field].
  - destruct (String.eqb_spec k k'); [contradiction | reflexivity].
  - destruct (String.eqb_spec k' k0) as [->|Hk0]; cbn [get_field].
    + destruct (String.eqb_spec k k0); [contradiction | reflexivity].
    + destruct (String.eqb_spec k k0); [reflexivity | exact IH].
Qed.

Lemma set_field_key k v o : In k (map fst (set_field k v o)).
Proof.
  induction o as [|[k0 v0] o IH]; cbn [set_field]; [now left|].
  destruct (String.eqb_spec k k0); cbn [map fst In]; tauto.
Qed.

Lemma set_field_keeps k v o k' :
  In k' (map fst o) -> In k' (map fst (set_field k v o)).
Proof.
  induction o as [|[k0 v0] o IH]; cbn [set_field]; [easy|].
  destruct (String.eqb_spec k k0) as [->|]; cbn [map fst In]; tauto.
Qed.

(** Writing the value that a property has changes nothing. *)
Lemma set_field_same k v o :
  In k (map fst o) -> get_field k o = v -> set_field k v o = o.
Proof.
  induction o as [|[k0 v0] o IH]; [easy|]. cbn [map fst In get_field set_field].
  destruct (String.eqb_spec k k0) as [->|Hk].
  - now intros _ ->.
  - intros [E|Hin] Hv; [now subst|]. now rewrite IH.
Qed.

(** * "from X to Y" in processNaturalLanguageInput *)

(** /\s+/ on a single white-space character. *)
Lemma run_sp_one p c rest k :
  is_space c = true ->
  match rest with d :: _ => is_space d = false | [] => True end ->
  run ci Fwd (plus sp) (MS p (c :: rest) k) = [MS (c :: p) rest k].
Proof.
  intros Hc Hd. unfold sp. apply run_plus_one; [now rewrite ci_space|].
  destruct rest; [exact I | now rewrite ci_space].
Qed.

Module TwoStopFacts.

Import Enhanced.

Lemma first_word_spec Y q :
  first_word Y q = true ->
  Y <> [] /\ Forall (fun c => name_end c = false) Y /\
  match q with [] => True | c :: _ => name_end c = true end.
Proof.
  unfold first_word. rewrite !andb_true_iff. intros [[H1 H2] H3].
  split; [now destruct Y|]. split.
  - apply Forall_forall. intros c Hc. rewrite forallb_forall in H2.
    apply negb_true_iff. now apply H2.
  - destruct q; [exact I | exact H3].
Qed.

(** A character of a name is matched by the dot and by none of the
    alternatives of the end. *)
Lemma name_char c :
  name_end c = false ->
  class_mem ci [CDot] c = true /\ is_space c = false /\
  class_mem ci [CC "."%char] c = false /\ class_mem ci [CC ","%char] c = false.
Proof.
  assert (H : forallb (fun c => implb (negb (name_end c))
                 (class_mem ci [CDot] c && negb (is_space c) &&
                  negb (class_mem ci [CC "."%char] c) &&
                  negb (class_mem ci [CC ","%char] c))) all_ascii = true)
    by (vm_compute; reflexivity).
  intros Hc. assert (H1 := forall_ascii _ H c). cbv beta in H1.
  rewrite Hc in H1. cbn [negb implb] in H1.
  rewrite !andb_true_iff, !negb_true_iff in H1. tauto.
Qed.

Lemma end_char c :
  name_end c = true ->
  is_space c = true \/ class_mem ci [CC "."%char] c = true \/
  class_mem ci [CC ","%char] c = true.
Proof.
  assert (H : forallb (fun c => implb (name_end c)
                 (is_space c || class_mem ci [CC "."%char] c ||
                  class_mem ci [CC ","%char] c)) all_ascii = true)
    by (vm_compute; reflexivity).
  intros Hc. assert (H1 := forall_ascii _ H c). cbv beta in H1.
  rewrite Hc in H1. cbn [implb] in H1.
  rewrite !orb_true_iff in H1. tauto.
Qed.

(** The end of the name is found nowhere inside the name. *)
Lemma name_stop_not_inside Y q p k :
  Forall (fun c => name_end c = false) Y ->
  forall a b, Y = a ++ b -> b <> [] ->
    run ci Fwd name_stop (MS (rev a ++ p) (b ++ q) k) = [].
Proof.
  intros HY a b E Hb. destruct b as [|c b]; [easy|].
  assert (Hc : name_end c = false).
  { rewrite Forall_forall in HY. apply HY. rewrite E. apply in_or_app.
    right. now left. }
  destruct (name_char c Hc) as [_ [H1 [H2 H3]]].
  unfold name_stop. cbn [alt app]. rewrite !run_alt_app. unfold sp, lit.
  cbn [str list_ascii_of_string lit_chars].
  rewrite !run_chr_cons, ci_space, H1, H2, H3. reflexivity.
Qed.

(** The end of the name is found after the name. *)
Lemma name_stop_after q p k :
  match q with [] => True | c :: _ => name_end c = true end ->
  exists y tail, run ci Fwd name_stop (MS p q k) = y :: tail /\ caps y = k.
Proof.
  intros Hq. unfold name_stop. cbn [alt]. rewrite !run_alt_app. unfold sp, lit.
  cbn [str list_ascii_of_string lit_chars].
  destruct q as [|c q].
  - rewrite run_chr_nil. cbn [run is_nil suf app]. eauto.
  - rewrite !run_chr_cons, ci_space.
    destruct (end_char c Hq) as [H|[H|H]].
    + rewrite H. cbn [app]. eauto.
    + rewrite H. destruct (is_space c); cbn [app run is_nil suf]; eauto.
    + rewrite H. destruct (is_space c); [cbn [app]; eauto|].
      destruct (class_mem ci [CC "."%char] c); cbn [app run is_nil suf]; eauto.
Qed.

Section TwoStops.

Variables F X Y q : jstring.
Hypothesis HF : from_word F.
Hypothesis HX : stop_name X = true.
Hypothesis HY : first_word Y q = true.
Hypothesis HT : no_to (Y ++ q).

Let inputText := F ++ str " " ++ X ++ str " to " ++ Y ++ q.

Lemma from_facts :
  F <> [] /\ no_to F /\
  forall T, prefix_ci ci (str "from") (F ++ T) = true /\
            skipn (length (str "from")) (F ++ T) = T /\
            firstn (length (str "from")) (F ++ T) = F.
Proof. destruct HF as [<-|[<-|[<-|[]]]]; repeat split; easy. Qed.

(** /(?:from\s+|...)(.*?)\s+to\s+(.*?)(?:\s|$|\.|,)/i takes X and Y. *)
Lemma simple_groups :
  exists m0 rest,
    match_at ci simpleRoutePattern [] inputText =
    Some (RM [] m0 rest [(2, Some Y); (1, Some X)]).
Proof.
  destruct (StopFacts.stop_name_spec X HX) as [HneX [HtX [HsX HtoX]]].
  destruct (StopFacts.stop_head X HX) as [x [X' [EX Hx]]].
  destruct (first_word_spec Y q HY) as [HneY [HallY Hq]].
  assert (EY : exists y Y', Y = y :: Y' /\ is_space y = false).
  { destruct Y as [|y Y']; [easy|]. exists y, Y'. split; [reflexivity|].
    inversion HallY as [|? ? Hy _]. now apply name_char in Hy. }
  destruct EY as [y [Y' [EY Hy]]].
  destruct from_facts as [HneF [HtoF Hfrom]].
  set (p1 := " "%char :: rev F).
  assert (Hp1 : word_before (MS p1 [] []) = false) by reflexivity.
  destruct (lazy_group ci [CDot] 1
              (Seq (plus sp) (Seq (lit "to") (Seq (plus sp)
                 (Seq (Grp 2 (star_lazy dot)) name_stop))))
              X (str " to " ++ Y ++ q) p1 [] (dot_of_single_spaced X HsX))
    as [tail1 E1].
  { intros a b E Hb.
    exact (spaced_not_inside (str "to") lower_word_to
             (Seq (plus sp) (Seq (Grp 2 (star_lazy dot)) name_stop))
             X p1 (str " to " ++ Y ++ q) _ (needs_space_seq _)
             HsX HtoX Hp1 eq_refl a b E Hb). }
  set (p2 := " "%char :: rev (str "to") ++ " "%char :: rev X ++ p1).
  destruct (lazy_group ci [CDot] 2 name_stop Y q p2 [(1, Some X)]) as [tail2 E2].
  { eapply Forall_impl; [|exact HallY]. intros c Hc. now apply name_char in Hc. }
  { intros a b E Hb. now apply (name_stop_not_inside Y q p2 _ HallY a b E Hb). }
  destruct (name_stop_after q (rev Y ++ p2) [(2, Some Y); (1, Some X)] Hq)
    as [y3 [tail3 [E3 Hcaps]]].
  assert (Hrun : exists tail, run ci Fwd simpleRoutePattern (MS [] inputText [])
                              = y3 :: tail).
  { unfold simpleRoutePattern, inputText. cbn [Regex.seq alt].
    change (Alt sp (Alt Eol (Alt (lit ".") (lit ",")))) with name_stop.
    rewrite run_seq_fwd, run_alt_app, run_seq_fwd.
    change (lit "from") with (lit_chars (str "from")). rewrite run_lit_prefix.
    destruct (Hfrom (str " " ++ X ++ str " to " ++ Y ++ q)) as [H1 [H2 H3]].
    rewrite H1, H2, H3. cbn [flat_map]. rewrite app_nil_r.
    change (str " " ++ X ++ str " to " ++ Y ++ q)
      with (" "%char :: X ++ str " to " ++ Y ++ q).
    rewrite run_sp_one; [|reflexivity|now rewrite EX].
    cbn [app flat_map]. rewrite app_nil_r. fold p1.
    change (Grp 1 (star_lazy dot)) with (Grp 1 (star_lazy (Chr [CDot]))).
    rewrite E1.
    change (str " to " ++ Y ++ q) with (" "%char :: str "to " ++ Y ++ q).
    rewrite run_seq_fwd.
    rewrite run_sp_one; [|reflexivity|reflexivity].
    cbn [flat_map]. rewrite app_nil_r, run_seq_fwd.
    change (lit "to") with (lit_chars (str "to")). rewrite run_lit_prefix.
    change (prefix_ci ci (str "to") (str "to " ++ Y ++ q)) with true.
    cbn [flat_map]. rewrite app_nil_r.
    change (skipn (length (str "to")) (str "to " ++ Y ++ q))
      with (" "%char :: Y ++ q).
    change (firstn (length (str "to")) (str "to " ++ Y ++ q)) with (str "to").
    rewrite run_seq_fwd.
    rewrite run_sp_one; [|reflexivity|now rewrite EY].
    cbn [flat_map]. rewrite app_nil_r. fold p2.
    change (Grp 2 (star_lazy dot)) with (Grp 2 (star_lazy (Chr [CDot]))).
    rewrite E2, E3. cbn [app]. eauto. }
  destruct Hrun as [tail Hrun]. unfold match_at. rewrite Hrun, Hcaps.
  eauto.
Qed.

Lemma simple_route :
  simpleRoute inputText =
  Some (twoStops (shortcutMode inputText)
          (str "Creating a " ++ shortcutMode inputText ++ str " route from ") X Y).
Proof.
  destruct (StopFacts.stop_name_spec X HX) as [HneX [HtX _]].
  destruct (first_word_spec Y q HY) as [HneY [HallY _]].
  assert (HtY : trim Y = Y).
  { apply trim_free. eapply Forall_impl; [|exact HallY].
    intros c Hc. now apply name_char in Hc. }
  destruct simple_groups as [m0 [rest Hm]].
  unfold simpleRoute, exec. rewrite (search_hit _ _ _ _ _ Hm).
  cbn [grp_str grp m_caps lookup Nat.eqb].
  rewrite HtX, HtY. destruct X; [easy|]. destruct Y; [easy | reflexivity].
Qed.

(** The word "to" stands once in the text. *)
Lemma one_to : length (matchAll ci word_to inputText) = 1.
Proof.
  destruct (StopFacts.stop_name_spec X HX) as [_ [_ [_ HtoX]]].
  destruct from_facts as [HneF [HtoF _]].
  assert (HN : no_to (F ++ str " " ++ X)) by now apply StopFacts.no_to_spaced.
  unfold matchAll, inputText.
  assert (Hs1 := MultiWaypointFacts.search_to_next (F ++ str " " ++ X) (Y ++ q) []
                   HN eq_refl).
  rewrite <- !app_assoc in Hs1.
  rewrite (all_from_cons _ _ _ _ _ _ Hs1 ltac:(easy)). cbn [m_0 m_rest m_pre].
  destruct (length (F ++ str " " ++ X ++ str " to " ++ Y ++ q)) as [|fuel] eqn:El.
  { rewrite !length_app in El. cbn [length str list_ascii_of_string] in El. lia. }
  cbn [all_from].
  rewrite (search_miss _ _ _ _ _
             (MultiWaypointFacts.to_miss _ " "%char _ eq_refl)).
  assert (Hs2 := search_word_skip (str "to") lower_word_to (Y ++ q)
                   (" "%char :: rev (str "to") ++
                    " "%char :: rev (F ++ str " " ++ X) ++ []) []
                   HT eq_refl eq_refl).
  rewrite (app_nil_r (Y ++ q)) in Hs2. change word_to with (word_pattern (str "to")).
  rewrite Hs2, (word_at_end _ _ lower_word_to). reflexivity.
Qed.

Lemma no_multiWaypoint : multiWaypoint inputText = Ok None.
Proof. unfold multiWaypoint. cbv zeta. now rewrite one_to. Qed.

End TwoStops.

End TwoStopFacts.

(** * Lazy and greedy stars in front of a continuation *)

Section Stars.

Variable icase : bool.
Variable cls : list cclass.

(** /c*?K/: the characters of [A] are taken one by one as long as [K]
    fails. *)
Lemma lazy_star K (A B p : jstring) (k : list (nat * option jstring)) :
  Forall (fun c => class_mem icase cls c = true) A ->
  (forall a b : jstring, A = a ++ b -> b <> [] ->
     run icase Fwd K (MS (rev a ++ p) (b ++ B) k) = []) ->
  exists tail,
    run icase Fwd (Seq (star_lazy (Chr cls)) K) (MS p (A ++ B) k)
    = run icase Fwd K (MS (rev A ++ p) B k) ++ tail.
Proof.
  intros Hall Hnone. rewrite run_seq_fwd. unfold star_lazy. cbn [run groups suf pre].
  apply (lazy_steps icase cls (run icase Fwd K) A _ p B k); [|exact Hall|exact Hnone].
  rewrite length_app. lia.
Qed.

(** The greedy quantifier first takes all the characters of the class that
    stand at the position. *)
Lemma greedy_span (w : jstring) : forall fuel min p rest k,
  Forall (fun c => class_mem icase cls c = true) w ->
  match rest with c :: _ => class_mem icase cls c = false | [] => True end ->
  length w < fuel -> min <= length w ->
  heads (MS (rev w ++ p) rest k)
        (rep_loop (run icase Fwd (Chr cls)) [] true fuel min None
                  (MS p (w ++ rest) k)).
Proof.
  induction w as [|c w IH]; intros fuel min p rest k Hall Hrest Hf Hmin;
    (destruct fuel as [|fuel]; [cbn [length] in Hf; lia|]);
    rewrite rep_loop_step; cbv zeta; unfold reset;
    cbn [pre suf caps map app].
  - cbn [length] in Hmin. replace min with 0 by lia.
    assert (E : run icase Fwd (Chr cls) (MS p rest k) = []).
    { destruct rest as [|c rest]; [reflexivity|]. now rewrite run_chr_cons, Hrest. }
    rewrite E. cbn [flat_map Nat.eqb negb app rev]. now exists [].
  - inversion Hall as [|? ? Hc Hall']. subst.
    rewrite run_chr_cons, Hc.
    cbn [flat_map pos pre length pred option_map].
    assert (Hpos : (S (length p) =? length p) = false)
      by (apply Nat.eqb_neq; lia).
    rewrite Hpos, andb_false_r, app_nil_r.
    cbn [length] in Hf, Hmin.
    assert (H := IH fuel (pred min) (c :: p) rest k Hall' Hrest
                   ltac:(lia) ltac:(lia)).
    cbn [rev]. rewrite <- app_assoc. cbn [app].
    destruct (negb (min =? 0)); [exact H | now apply heads_app].
Qed.

(** /c*K/ where [K] matches after all the characters of the class. *)
Lemma greedy_star K (w rest p : jstring) (k : list (nat * option jstring)) y :
  Forall (fun c => class_mem icase cls c = true) w ->
  match rest with c :: _ => class_mem icase cls c = false | [] => True end ->
  heads y (run icase Fwd K (MS (rev w ++ p) rest k)) ->
  heads y (run icase Fwd (Seq (star (Chr cls)) K) (MS p (w ++ rest) k)).
Proof.
  intros Hall Hrest Hy. rewrite run_seq_fwd. unfold star.
  rewrite (run_rep_fuel icase Fwd 0 None true (Chr cls) (MS p (w ++ rest) k)
             (S (length (w ++ rest) + length p))) by (cbn [suf pre]; lia).
  cbn [groups].
  destruct (greedy_span w (S (length (w ++ rest) + length p)) 0 p rest k Hall Hrest)
    as [tail Ht]; [rewrite length_app; lia | lia |].
  rewrite Ht. cbn [flat_map]. now apply heads_app.
Qed.

(** What /c*/ goes over. *)
Lemma star_class s y :
  In y (run icase Fwd (star (Chr cls)) s) ->
  exists m, suf s = m ++ suf y /\ pre y = rev m ++ pre s /\
            Forall (fun c => class_mem icase cls c = true) m.
Proof.
  unfold star. cbn [run]. intros H. apply rep_loop_iter in H.
  now apply iter_class in H.
Qed.

End Stars.

(** /r?/ for a literal. *)
Lemma run_opt_lit icase w p s k :
  run icase Fwd (opt (lit_chars w)) (MS p s k) =
  (if prefix_ci icase w s && negb (length (rev (firstn (length w) s) ++ p) =? length p)
   then [MS (rev (firstn (length w) s) ++ p) (skipn (length w) s) k] else [])
  ++ [MS p s k].
Proof.
  assert (Hg : groups (lit_chars w) = []).
  { induction w as [|x [|x' w] IH]; [reflexivity | reflexivity |].
    cbn [lit_chars groups app] in *. exact IH. }
  unfold opt. cbn [run]. rewrite Hg.
  cbn [rep_loop Nat.add Nat.eqb negb andb option_map pred].
  unfold reset. cbn [pre suf caps map app].
  rewrite run_lit_prefix.
  destruct (prefix_ci icase w s); [|reflexivity].
  cbn [flat_map andb]. unfold pos. cbn [pre].
  destruct (length (rev (firstn (length w) s) ++ p) =? length p); cbn [negb];
    [reflexivity|].
  rewrite app_nil_r.
  destruct (length s + length p); reflexivity.
Qed.

(** A literal only matches where its first character stands. *)
Lemma lit_needs_head icase x w p c s k :
  class_mem icase [CC x] c = false ->
  run icase Fwd (lit_chars (x :: w)) (MS p (c :: s) k) = [].
Proof.
  intros Hc. rewrite run_lit_prefix. cbn [prefix_ci]. now rewrite Hc.
Qed.

(** A character of [cs] membership of a one-character class. *)
Lemma one_char_class x c : class_mem cs [CC x] c = true <-> c = x.
Proof.
  rewrite (oneof_In [x] c). cbn [In]. intuition.
Qed.

Lemma not_one_char x c : c <> x -> class_mem cs [CC x] c = false.
Proof.
  intros H. destruct (class_mem cs [CC x] c) eqn:E; [|reflexivity].
  now apply one_char_class in E.
Qed.

(** * The JSON text in an answer of the language model *)

Lemma any_char (s : jstring) : Forall (fun c => class_mem cs [CAll] c = true) s.
Proof. apply Forall_forall. intros c _. reflexivity. Qed.

Lemma without_In c (s a b : jstring) x :
  without c s -> s = a ++ x :: b -> x <> c.
Proof.
  intros H E. unfold without in H. rewrite Forall_forall in H. apply H.
  rewrite E. apply in_or_app. right. now left.
Qed.

(** /{[\s\S]*?}/ takes the text from the first opening brace to the first
    closing brace after it. *)
Lemma json_span_exec before body after :
  without "{"%char before -> without "}"%char body ->
  exec cs Enhanced.json_span (before ++ str "{" ++ body ++ str "}" ++ after)
  = Some (RM (rev before) (str "{" ++ body ++ str "}") after []).
Proof.
  intros Hpre Hbody. unfold exec.
  rewrite (search_skip cs Enhanced.json_span before []).
  2:{ intros a b E Hb. destruct b as [|c b]; [easy|].
      unfold match_at, Enhanced.json_span. cbn [Regex.seq app].
      rewrite run_seq_fwd. unfold lit. cbn [str list_ascii_of_string].
      rewrite lit_needs_head; [reflexivity|].
      apply not_one_char. exact (without_In _ _ _ _ _ Hpre E). }
  rewrite app_nil_r. apply search_hit.
  unfold match_at, Enhanced.json_span. cbn [Regex.seq].
  rewrite run_seq_fwd.
  change (lit "{") with (lit_chars (str "{")). rewrite run_lit_prefix.
  change (prefix_ci cs (str "{") (str "{" ++ body ++ str "}" ++ after)) with true.
  cbn [flat_map]. rewrite app_nil_r.
  change (skipn (length (str "{")) (str "{" ++ body ++ str "}" ++ after))
    with (body ++ str "}" ++ after).
  change (firstn (length (str "{")) (str "{" ++ body ++ str "}" ++ after))
    with (str "{").
  destruct (lazy_star cs [CAll] (lit "}") body (str "}" ++ after)
              (rev (str "{") ++ rev before) [] (any_char body)) as [tail E].
  { intros a b Eb Hb. destruct b as [|c b]; [easy|].
    unfold lit. cbn [str list_ascii_of_string app].
    apply lit_needs_head. apply not_one_char.
    exact (without_In _ _ _ _ _ Hbody Eb). }
  unfold anyc. rewrite E.
  change (run cs Fwd (lit "}") (MS (rev body ++ rev (str "{") ++ rev before)
                                   (str "}" ++ after) []))
    with [MS ("}"%char :: rev body ++ rev (str "{") ++ rev before) after []].
  cbn [app suf caps]. f_equal. f_equal. apply captured_fwd. cbn [pre].
  rewrite !rev_app_distr. cbn [rev str list_ascii_of_string app].
  now rewrite <- !app_assoc.
Qed.

(** ** The fenced block of an answer: /```(?:json)?\s*([\s\S]*?)\s*```/ *)

Section Fenced.

Variables before J ws1 body ws2 after : jstring.
Hypothesis Hbefore : without backtick before.
Hypothesis Hws1 : Forall (fun c => is_space c = true) ws1.
Hypothesis Hws2 : Forall (fun c => is_space c = true) ws2.
Hypothesis Hne : body <> [].
Hypothesis Htrim : trim body = body.
Hypothesis Hbody : without backtick body.
Hypothesis Htag : fence_tag J (ws1 ++ body).

Let fence := str "```".
Let closing := ws2 ++ fence ++ after.
Let text := before ++ fence ++ J ++ ws1 ++ body ++ closing.

Lemma space_class ws :
  Forall (fun c => is_space c = true) ws ->
  Forall (fun c => class_mem cs [CS] c = true) ws.
Proof.
  intros H. eapply Forall_impl; [|exact H]. intros c Hc.
  unfold class_mem. cbn [existsb class1 andb orb]. now rewrite Hc.
Qed.

Lemma closing_here p k :
  heads (MS (rev fence ++ rev ws2 ++ p) after k)
        (run cs Fwd (Seq (star sp) (lit "```")) (MS p closing k)).
Proof.
  unfold closing, sp. apply greedy_star.
  - now apply space_class.
  - reflexivity.
  - unfold lit. rewrite run_lit_prefix. now exists [].
Qed.

(** Inside the body the closing fence is not found. *)
Lemma closing_not_inside p k a b :
  body = a ++ b -> b <> [] ->
  run cs Fwd (Seq (star sp) (lit "```")) (MS (rev a ++ p) (b ++ closing) k) = [].
Proof.
  intros E Hb.
  destruct (run cs Fwd (Seq (star sp) (lit "```")) (MS (rev a ++ p) (b ++ closing) k))
    as [|y l] eqn:R; [reflexivity|]. exfalso.
  assert (Hy : In y (run cs Fwd (Seq (star sp) (lit "```"))
                       (MS (rev a ++ p) (b ++ closing) k)))
    by (rewrite R; now left).
  apply run_seq_inv in Hy. destruct Hy as [x [Hx Hy]].
  unfold sp in Hx. apply star_class in Hx. destruct Hx as [m [Hs [_ Hm]]].
  cbn [suf] in Hs. destruct x as [px sx kx]. cbn [suf] in Hs.
  unfold lit in Hy. rewrite run_lit_prefix in Hy.
  destruct (prefix_ci cs (str "```") sx) eqn:P; [|easy].
  destruct sx as [|c sx]; [discriminate|].
  cbn [str list_ascii_of_string prefix_ci] in P.
  apply andb_true_iff in P. destruct P as [Pc _].
  apply one_char_class in Pc. subst c.
  (* the last character of the body is not white space *)
  destruct (trimmed_ends body Hne Htrim) as [_ [_ [Hend _]]].
  destruct (trimEnd_split body) as [ws [Ews [_ Hlast]]]. rewrite Hend in Hlast.
  destruct Hlast as [Hnil | [a0 [c0 [Ea0 Hc0]]]]; [now rewrite Hnil in Hne|].
  assert (Eb : exists b0, b = b0 ++ [c0]).
  { rewrite Ea0 in E.
    destruct (rev b) as [|cb rb] eqn:Erb.
    - apply (f_equal (@rev ascii)) in Erb. rewrite rev_involutive in Erb.
      now subst b.
    - apply (f_equal (@rev ascii)) in Erb. rewrite rev_involutive in Erb.
      cbn [rev] in Erb. subst b. rewrite app_assoc in E.
      apply app_inj_tail in E. destruct E as [_ ->]. now exists (rev rb). }
  destruct Eb as [b0 Eb].
  apply app_eq_app in Hs. destruct Hs as [t [[E1 E2] | [E1 E2]]].
  - (* the white space stops inside [b] *)
    destruct t as [|c t].
    + rewrite app_nil_r in E1. subst m. rewrite Eb in Hm.
      apply Forall_app in Hm. destruct Hm as [_ Hm].
      inversion Hm as [|? ? Hc _]. unfold class_mem in Hc.
      cbn [existsb class1 andb orb] in Hc. rewrite Hc0 in Hc. discriminate.
    + cbn [app] in E2. injection E2 as Ec _. subst c.
      assert (H := without_In backtick body (a ++ m) t backtick Hbody).
      apply H; [|reflexivity]. rewrite E, E1, <- app_assoc. reflexivity.
  - (* the white space goes over [b] *)
    rewrite E1, Eb in Hm. apply Forall_app in Hm. destruct Hm as [Hm _].
    apply Forall_app in Hm. destruct Hm as [_ Hm].
    inversion Hm as [|? ? Hc _]. unfold class_mem in Hc.
    cbn [existsb class1 andb orb] in Hc. rewrite Hc0 in Hc. discriminate.
Qed.

Lemma body_head : exists c t, body = c :: t /\ is_space c = false.
Proof. exact (proj1 (trimmed_ends body Hne Htrim)). Qed.

(** The block from the start of the white space before the body. *)
Lemma block_here p k :
  exists y, caps y = (1, Some body) :: k /\
    heads y (run cs Fwd
               (Seq (star sp) (Seq (Grp 1 (star_lazy anyc))
                                   (Seq (star sp) (lit "```"))))
               (MS p (ws1 ++ body ++ closing) k)).
Proof.
  destruct body_head as [c [t [Ec Hc]]].
  eexists. split; [|unfold sp at 1; apply greedy_star].
  2:{ now apply space_class. }
  2:{ rewrite Ec. cbn [app]. unfold class_mem. cbn [existsb class1 andb orb].
      now rewrite Hc. }
  2:{ destruct (lazy_group cs [CAll] 1 (Seq (star sp) (lit "```")) body closing
                  (rev ws1 ++ p) k (any_char body)) as [tail E].
      - intros a b Eb Hb. now apply closing_not_inside.
      - unfold anyc. rewrite E. apply heads_app. apply closing_here. }
  reflexivity.
Qed.

Lemma fenced_match :
  exists m, exec cs Nlp.fenced_json text = Some m /\ grp m 1 = Some body.
Proof.
  unfold exec, text.
  rewrite (search_skip cs Nlp.fenced_json before []).
  2:{ intros a b E Hb. destruct b as [|c b]; [easy|].
      unfold match_at, Nlp.fenced_json. cbn [Regex.seq app].
      rewrite run_seq_fwd. unfold lit. cbn [str list_ascii_of_string].
      rewrite lit_needs_head; [reflexivity|].
      apply not_one_char. exact (without_In _ _ _ _ _ Hbefore E). }
  rewrite app_nil_r.
  set (p1 := rev fence ++ rev before).
  assert (Hrun : exists y, caps y = [(1, Some body)] /\
            heads y (run cs Fwd Nlp.fenced_json
                       (MS (rev before) (fence ++ J ++ ws1 ++ body ++ closing) []))).
  { unfold Nlp.fenced_json. cbn [Regex.seq]. rewrite run_seq_fwd.
    change (lit "```") with (lit_chars (str "```")).
    rewrite run_lit_prefix.
    change (prefix_ci cs (str "```") (fence ++ J ++ ws1 ++ body ++ closing))
      with true.
    cbn [flat_map]. rewrite app_nil_r.
    change (skipn (length (str "```")) (fence ++ J ++ ws1 ++ body ++ closing))
      with (J ++ ws1 ++ body ++ closing).
    change (firstn (length (str "```")) (fence ++ J ++ ws1 ++ body ++ closing))
      with fence.
    fold p1. rewrite run_seq_fwd.
    change (lit "json") with (lit_chars (str "json")). rewrite run_opt_lit.
    destruct Htag as [-> | [-> Hj]].
    - change (prefix_ci cs (str "json") (str "json" ++ ws1 ++ body ++ closing))
        with true.
      change (skipn (length (str "json")) (str "json" ++ ws1 ++ body ++ closing))
        with (ws1 ++ body ++ closing).
      change (firstn (length (str "json")) (str "json" ++ ws1 ++ body ++ closing))
        with (str "json").
      assert (Hlen : (length (rev (str "json") ++ p1) =? length p1) = false)
        by (apply Nat.eqb_neq; rewrite length_app; cbn [length rev app str
              list_ascii_of_string]; lia).
      rewrite Hlen. cbn [andb negb app flat_map].
      destruct (block_here (rev (str "json") ++ p1) []) as [y [Hc Hy]].
      exists y. split; [exact Hc|]. now apply heads_app.
    - assert (Hp : prefix_ci cs (str "json") ([] ++ ws1 ++ body ++ closing) = false).
      { cbn [app]. rewrite app_assoc.
        destruct (ws1 ++ body) as [|c t] eqn:Ewb.
        - apply app_eq_nil in Ewb. now destruct Ewb as [_ ->].
        - cbn [app str list_ascii_of_string prefix_ci].
          now rewrite (not_one_char "j"%char c Hj). }
      rewrite Hp. cbn [andb app flat_map].
      destruct (block_here p1 []) as [y [Hc Hy]].
      exists y. split; [exact Hc|]. rewrite app_nil_r. exact Hy. }
  destruct Hrun as [y [Hc [tail Hy]]].
  eexists. split.
  - apply search_hit. unfold match_at. rewrite Hy. reflexivity.
  - unfold grp. cbn [m_caps]. rewrite Hc. reflexivity.
Qed.

End Fenced.

(** * Further properties of the code *)

(** ** script.js: matchPartialCityName *)

(** X1: when [matchPartialCityName] returns a city, the name given is not
    empty and the city is one of the list; its lower-cased name is the
    cleaned name (trimmed, lower-cased), or the cleaned name is the first of
    its several words.  A city whose name is the cleaned name has priority
    over a city that only starts with it. *)
Theorem matchPartialCityName_listed partialName cityList city :
  Script.matchPartialCityName partialName cityList = Some city ->
  partialName <> [] /\ In city cityList /\
  (toLowerCase city = toLowerCase (trim partialName) \/
   exists rest, rest <> [] /\
     split cs (plus sp) (toLowerCase city)
     = toLowerCase (trim partialName) :: rest) /\
  (forall exact, In exact cityList ->
     toLowerCase exact = toLowerCase (trim partialName) ->
     toLowerCase city = toLowerCase (trim partialName)).
Proof.
  unfold Script.matchPartialCityName.
  destruct partialName as [|c0 n0]; [discriminate|].
  cbn [truthy negb]. set (cleaned := toLowerCase (trim (c0 :: n0))).
  destruct (find (fun city => text_eqb (toLowerCase city) cleaned) cityList)
    as [c1|] eqn:F1.
  - intros H. injection H as <-. apply find_some in F1.
    destruct F1 as [Hin He]. apply text_eqb_eq in He.
    split; [easy|]. split; [exact Hin|]. split; [now left|]. intros _ _ _. exact He.
  - intros F2. apply find_some in F2. destruct F2 as [Hin Hw].
    apply andb_true_iff in Hw. destruct Hw as [Hlen Hw].
    split; [easy|]. split; [exact Hin|]. split.
    + right. destruct (split cs (plus sp) (toLowerCase city)) as [|w0 rest];
        [discriminate|].
      apply text_eqb_eq in Hw. subst w0. exists rest. split; [|reflexivity].
      intros ->. discriminate.
    + intros exact Hex He.
      assert (H := find_none _ _ F1 exact Hex). cbv beta in H.
      rewrite He, text_eqb_refl in H. discriminate.
Qed.

(** On "los" and the list of the script: Los Angeles. *)
Lemma matchPartialCityName_listed_witness :
  In (str "Los Angeles") Script.commonCities.
Proof.
  exact (proj1 (proj2 (matchPartialCityName_listed (str "los") Script.commonCities
                         (str "Los Angeles") eq_refl))).
Defined.

(** X2: completing a name with [matchPartialCityName(x, commonCities) || x]
    is stable: the completed name is completed to itself. *)
Theorem fullName_idempotent x :
  Script.fullName (Script.fullName x) = Script.fullName x.
Proof.
  assert (Hall : forallb (fun c => text_eqb (Script.fullName c) c)
                         Script.commonCities = true) by (vm_compute; reflexivity).
  rewrite forallb_forall in Hall.
  assert (Hcase : Script.fullName x = x \/ In (Script.fullName x) Script.commonCities).
  { unfold Script.fullName.
    destruct (Script.matchPartialCityName x Script.commonCities) as [city|] eqn:E;
      [|now left].
    destruct (truthy city); [right | now left].
    unfold Script.matchPartialCityName in E.
    destruct (negb (truthy x)); [discriminate|].
    destruct (find _ Script.commonCities) as [c1|] eqn:F1 in E.
    - injection E as <-. now apply find_some in F1.
    - now apply find_some in E. }
  destruct Hcase as [H | H]; [now rewrite H|].
  apply text_eqb_eq. now apply Hall.
Qed.

(** ** script.js: the handler of a slow pipeline *)

(** X3: the handler of a slow pipeline (the [catch] of the click handler)
    never throws, and a result that it builds is always drawn as a route by
    [handleProcessedResult]: it is a route request with at least two
    locations, its stops are those of its suggested sequence, and its
    travel mode is walking, cycling or driving. *)
Theorem timeoutFallback_draws_route inputValue :
  (exists o, Script.timeoutFallback inputValue = Ok o) /\
  forall result,
    Script.timeoutFallback inputValue = Ok (Some result) ->
    Enhanced.isRouteRequest result = true /\
    2 <= length (Enhanced.locations result) /\
    In (Enhanced.travelMode result)
       (map str ["walking"; "cycling"; "driving"]%string) /\
    Script.handleProcessedResult (Enhanced.Built result)
    = Script.DrawRoute (VArr (map VStr (Enhanced.suggestedSequence result)))
                       (VStr (Enhanced.travelMode result)).
Proof.
  assert (Hdraw : forall r,
    Enhanced.isRouteRequest r = true ->
    Enhanced.suggestedSequence r = map Enhanced.name (Enhanced.locations r) ->
    2 <= length (Enhanced.locations r) ->
    Enhanced.travelMode r <> [] ->
    Script.handleProcessedResult (Enhanced.Built r)
    = Script.DrawRoute (VArr (map VStr (Enhanced.suggestedSequence r)))
                       (VStr (Enhanced.travelMode r))).
  { intros r Hr Hs Hl Hm. unfold Script.handleProcessedResult. cbv zeta.
    cbn [Enhanced.out_locations Enhanced.out_isRouteRequest
         Enhanced.out_suggestedSequence Enhanced.out_travelMode to_bool
         negb orb Script.lengthOf Enhanced.names].
    destruct (Enhanced.locations r) as [|l1 [|l2 ls]] eqn:El;
      [cbn [length] in Hl; lia | cbn [length] in Hl; lia |].
    rewrite Hr, Hs. cbn [map length Nat.leb andb Script.atLeast Script.lengthOf].
    destruct (Enhanced.travelMode r); [easy | reflexivity]. }
  assert (Hbasic : forall l, 2 <= length l ->
    Enhanced.isRouteRequest (Script.basicResult l) = true /\
    2 <= length (Enhanced.locations (Script.basicResult l)) /\
    In (Enhanced.travelMode (Script.basicResult l))
       (map str ["walking"; "cycling"; "driving"]%string) /\
    Script.handleProcessedResult (Enhanced.Built (Script.basicResult l))
    = Script.DrawRoute
        (VArr (map VStr (Enhanced.suggestedSequence (Script.basicResult l))))
        (VStr (Enhanced.travelMode (Script.basicResult l)))).
  { intros l Hl. split; [reflexivity|]. split.
    - cbn [Script.basicResult Enhanced.locations]. now rewrite length_map.
    - split; [cbn; tauto|]. apply Hdraw.
      + reflexivity.
      + cbn [Script.basicResult Enhanced.locations Enhanced.suggestedSequence].
        now rewrite EnhancedStages.map_name_plain.
      + cbn [Script.basicResult Enhanced.locations]. now rewrite length_map.
      + discriminate. }
  unfold Script.timeoutFallback.
  destruct (RegexOnWords.NlpRegex_never_throws inputValue) as [o Ho].
  rewrite Ho. cbn [bind]. split.
  - destruct o as [r|]; [destruct (2 <=? length (NlpRegex.locations r))|]; ok.
  - intros result H.
    assert (Hb : forall l,
      Ok (if 2 <=? length l then Some (Script.basicResult l) else None)
      = Ok (Some result) -> 2 <= length l /\ result = Script.basicResult l).
    { intros l E. destruct (2 <=? length l) eqn:L; [|discriminate].
      apply Nat.leb_le in L. now injection E as <-. }
    destruct o as [r|].
    + destruct (2 <=? length (NlpRegex.locations r)) eqn:L.
      * injection H as <-. apply Nat.leb_le in L.
        assert (Hm : In (NlpRegex.transportMode (NlpRegex.preferences r))
                        (map str ["walking"; "cycling"; "driving"]%string)).
        { unfold NlpRegex.extractLocationsWithRegex in Ho.
          destruct (negb (truthy inputValue)); [discriminate|]. cbv zeta in Ho.
          set (mode := if test ci NlpRegex.walk_words _ then _ else _) in Ho.
          assert (Hmode : In mode (map str ["walking"; "cycling"; "driving"]%string)).
          { unfold mode. destruct (test ci NlpRegex.walk_words _); [cbn; tauto|].
            destruct (test ci NlpRegex.cycle_words _); cbn; tauto. }
          clearbody mode.
          assert (Hres : forall A (m : res A) k (l : list jstring),
            (x <- m ;; k x) = Ok (Some r) ->
            (forall x, k x = Ok (Some r) ->
                       NlpRegex.transportMode (NlpRegex.preferences r) = mode) ->
            NlpRegex.transportMode (NlpRegex.preferences r) = mode).
          { intros A m k _ E Hk. destruct m; [now apply (Hk a) | discriminate]. }
          assert (Hone : forall l,
            Ok (Some {| NlpRegex.locations := l;
                        NlpRegex.preferences :=
                          {| NlpRegex.transportMode := mode;
                             NlpRegex.avoidTolls := test ci NlpRegex.toll_words
                               (replaceAll cs (plus sp) (fun _ => str " ") (trim inputValue));
                             NlpRegex.avoidHighways := test ci NlpRegex.highway_words
                               (replaceAll cs (plus sp) (fun _ => str " ") (trim inputValue));
                             NlpRegex.avoidFerries := test ci NlpRegex.ferry_words
                               (replaceAll cs (plus sp) (fun _ => str " ") (trim inputValue))
                          |} |}) = Ok (Some r) ->
            NlpRegex.transportMode (NlpRegex.preferences r) = mode).
          { intros l E. now injection E as <-. }
          enough (NlpRegex.transportMode (NlpRegex.preferences r) = mode)
            as -> by exact Hmode.
          destruct (exec ci NlpRegex.routePattern _).
          { apply (Hres _ _ _ [] Ho). intros from E.
            apply (Hres _ _ _ [] E). intros to. apply Hone. }
          destruct (NlpRegex.trySeparators _ _); [now apply Hone in Ho|].
          destruct (if test ci NlpRegex.betweenSeparator _ then _ else _).
          { apply (Hres _ _ _ [] Ho). intros from E.
            apply (Hres _ _ _ [] E). intros to. apply Hone. }
          destruct (_ && _); now apply Hone in Ho. }
        assert (Ht : Enhanced.travelMode (Script.adaptedResult r)
                     = NlpRegex.transportMode (NlpRegex.preferences r)).
        { cbn [Script.adaptedResult Enhanced.travelMode].
          destruct Hm as [<-|[<-|[<-|[]]]]; reflexivity. }
        split; [reflexivity|]. split.
        { cbn [Script.adaptedResult Enhanced.locations]. now rewrite length_map. }
        split; [now rewrite Ht|]. apply Hdraw.
        -- reflexivity.
        -- cbn [Script.adaptedResult Enhanced.locations Enhanced.suggestedSequence].
           now rewrite EnhancedStages.map_name_plain.
        -- cbn [Script.adaptedResult Enhanced.locations]. now rewrite length_map.
        -- rewrite Ht. destruct Hm as [<-|[<-|[<-|[]]]]; discriminate.
      * apply Hb in H. destruct H as [Hl ->]. now apply Hbasic.
    + apply Hb in H. destruct H as [Hl ->]. now apply Hbasic.
Qed.

(** On "Rome to Paris". *)
Lemma timeoutFallback_draws_route_witness :
  exists result,
    Script.timeoutFallback (str "Rome to Paris") = Ok (Some result) /\
    Enhanced.suggestedSequence result = [str "Rome"; str "Paris"] /\
    Script.handleProcessedResult (Enhanced.Built result)
    = Script.DrawRoute (VArr (map VStr (Enhanced.suggestedSequence result)))
                       (VStr (Enhanced.travelMode result)).
Proof.
  eexists. split; [vm_compute; reflexivity|]. split; [reflexivity|].
  refine (proj2 (proj2 (proj2
    (proj2 (timeoutFallback_draws_route (str "Rome to Paris")) _ _)))).
  vm_compute. reflexivity.
Defined.

(** ** createRoute: the names sent to the geocoder *)



(** ** scripts-04.js and nlp-secure.js: the stops of "from A to B to C" *)

(** X5: for the text "from A to B to C" (any number of stops, "from" in
    any of the spellings from, From, FROM, white space around the text and
    marks . ! ? at its end allowed), the stops being names without the
    word "to", [getRouteCoordinates] extracts exactly the stops, in their
    order, and notes that the text starts with "from"; without "from", it
    extracts the stops as well, provided the first stop does not itself
    start with "from ". *)
Theorem extractLocations_stops names q l r :
  names <> [] -> Forall (fun n => stop_name n = true) names ->
  ends_in (map CC (str ".!?")) (last_stop names) = false ->
  end_marks q = true ->
  Forall (fun c => is_space c = true) l ->
  Forall (fun c => is_space c = true) r ->
  (forall F, from_word F ->
     Scripts04.extractLocations
       (l ++ ((F ++ str " " ++ join (str " to ") names) ++ q) ++ r)
     = (names, true)) /\
  (startsWith (toLowerCase (join (str " to ") names)) (str "from ") = false ->
   Scripts04.extractLocations (l ++ (join (str " to ") names ++ q) ++ r)
   = (names, false)).
Proof.
  intros Hne Hall Hlast Hq Hl Hr.
  destruct (StopFacts.join_trimmed names Hne Hall) as [HJ1 HJ2].
  destruct (StopFacts.join_last names Hne) as [a Ha].
  assert (Hln : last_stop names <> []).
  { apply StopFacts.last_stop_name in Hall; [|exact Hne].
    now apply StopFacts.stop_name_spec in Hall. }
  assert (HJe : ends_in (map CC (str ".!?")) (join (str " to ") names) = false)
    by (rewrite Ha, StopFacts.ends_in_app; assumption).
  split.
  - intros F HF. unfold Scripts04.extractLocations. cbv zeta.
    assert (HF' : F <> [] /\ trim F = F) by
      (destruct HF as [<-|[<-|[<-|[]]]]; split; easy).
    destruct HF' as [HF1 HF2].
    rewrite (StopFacts.normalized _ q l r); try assumption.
    + destruct (StopFacts.from_start F (join (str " to ") names) HF) as [E1 E2].
      rewrite E1, E2, HJ2.
      rewrite (StopFacts.split_stops names Hne Hall).
      f_equal. exact (StopFacts.clean_stops names Hall).
    + destruct F; easy.
    + now apply trim_joined.
    + rewrite app_assoc, StopFacts.ends_in_app; [exact HJe | exact HJ1].
  - intros Hfrom. unfold Scripts04.extractLocations. cbv zeta.
    rewrite (StopFacts.normalized _ q l r); try assumption.
    rewrite Hfrom.
    rewrite (StopFacts.split_stops names Hne Hall).
    f_equal. exact (StopFacts.clean_stops names Hall).
Qed.

(** On "From New York to Boston to Quebec." *)
Lemma extractLocations_stops_witness :
  Scripts04.extractLocations (str "From New York to Boston to Quebec.")
  = ([str "New York"; str "Boston"; str "Quebec"], true).
Proof.
  exact (proj1 (extractLocations_stops
                  [str "New York"; str "Boston"; str "Quebec"] (str ".") [] []
                  ltac:(easy)
                  ltac:(repeat constructor)
                  eq_refl eq_refl (Forall_nil _) (Forall_nil _))
               (str "From") ltac:(right; left; reflexivity)).
Defined.

(** X6: the locations that [getRouteCoordinates] extracts from a text are
    never empty and have no white space around them. *)
Theorem extractLocations_trimmed input :
  Forall (fun location => location <> [] /\ trim location = location)
         (fst (Scripts04.extractLocations input)).
Proof.
  unfold Scripts04.extractLocations. cbv zeta. cbn [fst]. apply trimmed_parts.
Qed.

(** X7: for the same texts, the regex fallback of nlp-secure.js returns
    exactly the stops, in their order. *)
Theorem secure_regex_stops names q l r :
  names <> [] -> Forall (fun n => stop_name n = true) names ->
  ends_in (map CC (str ".!?")) (last_stop names) = false ->
  end_marks q = true ->
  Forall (fun c => is_space c = true) l ->
  Forall (fun c => is_space c = true) r ->
  (forall F, from_word F ->
     NlpSecure.locations
       (NlpSecure.extractLocationsWithRegex
          (l ++ ((F ++ str " " ++ join (str " to ") names) ++ q) ++ r))
     = names) /\
  (startsWith (toLowerCase (join (str " to ") names)) (str "from ") = false ->
   NlpSecure.locations
     (NlpSecure.extractLocationsWithRegex (l ++ (join (str " to ") names ++ q) ++ r))
   = names).
Proof.
  intros Hne Hall Hlast Hq Hl Hr.
  destruct (StopFacts.join_trimmed names Hne Hall) as [HJ1 HJ2].
  destruct (StopFacts.join_last names Hne) as [a Ha].
  assert (Hln : last_stop names <> []).
  { apply StopFacts.last_stop_name in Hall; [|exact Hne].
    now apply StopFacts.stop_name_spec in Hall. }
  assert (HJe : ends_in (map CC (str ".!?")) (join (str " to ") names) = false)
    by (rewrite Ha, StopFacts.ends_in_app; assumption).
  destruct names as [|n rest]; [easy|].
  inversion Hall as [|? ? Hn Hrest]. subst.
  destruct (StopFacts.stop_name_spec n Hn) as [Hn1 [Hn2 _]].
  destruct (StopFacts.stop_head n Hn) as [c [n' [En Hc]]].
  assert (Hkeep : forall x : jstring, x <> [] ->
            filter (fun loc : jstring => 0 <? length loc) [x] = [x])
    by (intros [|? ?] Hx; [easy | reflexivity]).
  assert (Hrest' := StopFacts.keep_stops rest Hrest).
  assert (Htrims := StopFacts.trim_stops rest Hrest).
  split.
  - intros F HF.
    assert (HFn := StopFacts.from_stop F n HF Hn).
    destruct (StopFacts.stop_name_spec _ HFn) as [HFn1 [HFn2 _]].
    assert (Hstrip : trim (replace ci NlpSecure.from_prefix erase (F ++ str " " ++ n)) = n)
      by (rewrite En, (StopFacts.from_prefix_strip F c n' HF Hc), <- En; exact Hn2).
    unfold NlpSecure.extractLocationsWithRegex. cbv zeta. cbn [NlpSecure.locations].
    change NlpSecure.trailing_marks with Script.trailing_marks.
    rewrite (StopFacts.normalized _ q l r); try assumption.
    + destruct (StopFacts.from_start F (join (str " to ") (n :: rest)) HF) as [E1 _].
      rewrite E1.
      assert (EJ : F ++ str " " ++ join (str " to ") (n :: rest)
                   = join (str " to ") ((F ++ str " " ++ n) :: rest))
        by (now rewrite app_assoc, StopFacts.join_prefix, <- app_assoc).
      rewrite EJ.
      change NlpSecure.ws_to_ws with Enhanced.ws_to_ws.
      rewrite (StopFacts.split_stops ((F ++ str " " ++ n) :: rest) ltac:(easy)
                 ltac:(now constructor)).
      destruct rest as [|n2 rest].
      * cbn [length Nat.ltb Nat.leb join]. rewrite Hstrip. now apply Hkeep.
      * cbn [length Nat.ltb Nat.leb map]. rewrite HFn2, Hstrip.
        cbn [map] in Htrims. rewrite Htrims. cbn [filter].
        destruct n; [easy|]. cbn [length Nat.ltb Nat.leb]. f_equal. exact Hrest'.
    + destruct F; easy.
    + destruct HF as [<-|[<-|[<-|[]]]]; now apply trim_joined.
    + rewrite app_assoc, StopFacts.ends_in_app; [exact HJe | exact HJ1].
  - intros Hfrom.
    unfold NlpSecure.extractLocationsWithRegex. cbv zeta. cbn [NlpSecure.locations].
    change NlpSecure.trailing_marks with Script.trailing_marks.
    rewrite (StopFacts.normalized _ q l r); try assumption.
    rewrite Hfrom.
    change NlpSecure.ws_to_ws with Enhanced.ws_to_ws.
    rewrite (StopFacts.split_stops (n :: rest) Hne Hall).
    destruct rest as [|n2 rest].
    + cbn [length Nat.ltb Nat.leb join]. now apply Hkeep.
    + cbn [length Nat.ltb Nat.leb map]. cbn [map] in Htrims. rewrite Hn2, Htrims.
      cbn [filter]. destruct n; [easy|]. cbn [length Nat.ltb Nat.leb].
      f_equal. exact Hrest'.
Qed.

(** On "From New York to Boston to Quebec." *)
Lemma secure_regex_stops_witness :
  NlpSecure.locations
    (NlpSecure.extractLocationsWithRegex (str "From New York to Boston to Quebec."))
  = [str "New York"; str "Boston"; str "Quebec"].
Proof.
  exact (proj1 (secure_regex_stops
                  [str "New York"; str "Boston"; str "Quebec"] (str ".") [] []
                  ltac:(easy)
                  ltac:(repeat constructor)
                  eq_refl eq_refl (Forall_nil _) (Forall_nil _))
               (str "From") ltac:(right; left; reflexivity)).
Defined.

(** ** nlp-secure.js: validateAndFormatResponse *)

(** X8: a response that [validateAndFormatResponse] of nlp-secure.js
    accepts comes out with locations that are strings with more than white
    space, a truthy transport mode and the three avoidance flags as
    booleans; validating the result again changes nothing. *)
Theorem secure_validate_stable response r :
  NlpSecure.validateAndFormatResponse response = Ok r ->
  Forall (fun loc => loc <> [] /\ trim loc <> []) (NlpSecure.r_locations r) /\
  to_bool (get_field "transportMode" (NlpSecure.r_preferences r)) = true /\
  (forall k, In k ["avoidTolls"; "avoidHighways"; "avoidFerries"]%string ->
             exists b, get_field k (NlpSecure.r_preferences r) = VBool b) /\
  NlpSecure.validateAndFormatResponse (VObj (NlpSecure.resultObject r)) = Ok r.
Proof.
  assert (Hkeep : forall l,
    Forall (fun loc => loc <> [] /\ trim loc <> [])
           (flat_map NlpSecure.keepLocation l)).
  { intros l. apply Forall_forall. intros s Hs. apply in_flat_map in Hs.
    destruct Hs as [v [_ Hv]]. destruct v; try easy. cbn [NlpSecure.keepLocation] in Hv.
    destruct (truthy s0) eqn:T; [|easy].
    destruct (0 <? length (trim s0)) eqn:L; [|easy].
    destruct Hv as [<-|[]]. split; [now destruct s0 | now destruct (trim s0)]. }
  assert (Hagain : forall locs,
    Forall (fun loc => loc <> [] /\ trim loc <> []) locs ->
    flat_map NlpSecure.keepLocation (map VStr locs) = locs).
  { induction 1 as [|s locs [Hs Ht] _ IH]; [reflexivity|].
    cbn [map flat_map NlpSecure.keepLocation]. rewrite IH.
    destruct s; [easy|]. destruct (trim (a :: s)); [easy | reflexivity]. }
  assert (Hprefs : forall locs p,
    let mode := get_field "transportMode" p in
    let prefs :=
      set_field "avoidFerries" (VBool (NlpSecure.is_true (get_field "avoidFerries" p)))
        (set_field "avoidHighways" (VBool (NlpSecure.is_true (get_field "avoidHighways" p)))
           (set_field "avoidTolls" (VBool (NlpSecure.is_true (get_field "avoidTolls" p)))
              (set_field "transportMode"
                 (if to_bool mode then mode else VStr (str "driving")) p))) in
    Forall (fun loc => loc <> [] /\ trim loc <> []) locs ->
    to_bool (get_field "transportMode" prefs) = true /\
    (forall k, In k ["avoidTolls"; "avoidHighways"; "avoidFerries"]%string ->
               exists b, get_field k prefs = VBool b) /\
    NlpSecure.validateAndFormatResponse
      (VObj (NlpSecure.resultObject
               {| NlpSecure.r_locations := locs; NlpSecure.r_preferences := prefs |}))
    = Ok {| NlpSecure.r_locations := locs; NlpSecure.r_preferences := prefs |}).
  { intros locs p mode prefs Hlocs.
    set (m := if to_bool mode then mode else VStr (str "driving")).
    assert (Hm : to_bool m = true) by (unfold m; now destruct (to_bool mode) eqn:E).
    assert (GM : get_field "transportMode" prefs = m).
    { unfold prefs. rewrite !get_set_other by discriminate. apply get_set_same. }
    assert (GT : get_field "avoidTolls" prefs
                 = VBool (NlpSecure.is_true (get_field "avoidTolls" p))).
    { unfold prefs. rewrite !get_set_other by discriminate. apply get_set_same. }
    assert (GH : get_field "avoidHighways" prefs
                 = VBool (NlpSecure.is_true (get_field "avoidHighways" p))).
    { unfold prefs. rewrite !get_set_other by discriminate. apply get_set_same. }
    assert (GF : get_field "avoidFerries" prefs
                 = VBool (NlpSecure.is_true (get_field "avoidFerries" p))).
    { unfold prefs. apply get_set_same. }
    assert (KM : In "transportMode"%string (map fst prefs)).
    { unfold prefs. do 3 apply set_field_keeps. apply set_field_key. }
    assert (KT : In "avoidTolls"%string (map fst prefs)).
    { unfold prefs. do 2 apply set_field_keeps. apply set_field_key. }
    assert (KH : In "avoidHighways"%string (map fst prefs)).
    { unfold prefs. apply set_field_keeps. apply set_field_key. }
    assert (KF : In "avoidFerries"%string (map fst prefs)).
    { unfold prefs. apply set_field_key. }
    clearbody prefs m.
    split; [now rewrite GM|]. split.
    - intros k [<-|[<-|[<-|[]]]]; eauto.
    - unfold NlpSecure.validateAndFormatResponse, NlpSecure.resultObject.
      cbn [to_bool negb prop get_field String.eqb Ascii.eqb Bool.eqb bind
           NlpSecure.r_locations NlpSecure.r_preferences].
      rewrite (Hagain locs Hlocs), GM, Hm, GT, GH, GF.
      assert (Ht : forall b, NlpSecure.is_true (VBool b) = b) by (now intros []).
      rewrite !Ht.
      rewrite (set_field_same "transportMode" m prefs KM GM).
      rewrite (set_field_same "avoidTolls" _ prefs KT GT).
      rewrite (set_field_same "avoidHighways" _ prefs KH GH).
      rewrite (set_field_same "avoidFerries" _ prefs KF GF).
      reflexivity. }
  unfold NlpSecure.validateAndFormatResponse.
  destruct (negb (to_bool response)); [discriminate|].
  destruct response as [| | | | |arr|o]; try discriminate.
  - cbn [prop String.eqb Ascii.eqb Bool.eqb bind]. intros H. injection H as <-.
    cbn [NlpSecure.r_locations NlpSecure.r_preferences].
    destruct (Hprefs [] [] (Forall_nil _)) as [H1 [H2 H3]].
    split; [constructor|]. split; [exact H1|]. split; [exact H2 | exact H3].
  - cbn [prop bind]. intros H. injection H as <-.
    cbn [NlpSecure.r_locations NlpSecure.r_preferences].
    set (locs := match get_field "locations" o with
                 | VArr l => flat_map NlpSecure.keepLocation l
                 | _ => []
                 end).
    assert (Hlocs : Forall (fun loc => loc <> [] /\ trim loc <> []) locs).
    { unfold locs. destruct (get_field "locations" o); try constructor. apply Hkeep. }
    set (p := match get_field "preferences" o with
              | VObj p => p
              | VArr l => indexed 0 l
              | _ => []
              end).
    destruct (Hprefs locs p Hlocs) as [H1 [H2 H3]].
    split; [exact Hlocs|]. split; [exact H1|]. split; [exact H2 | exact H3].
Qed.

(** On the response { locations: ["Rome", " "], preferences: null }. *)
Lemma secure_validate_stable_witness :
  exists r,
    NlpSecure.validateAndFormatResponse
      (VObj [("locations", VArr [VStr (str "Rome"); VStr (str " ")]);
             ("preferences", VNull)]%string) = Ok r /\
    NlpSecure.r_locations r = [str "Rome"] /\
    NlpSecure.validateAndFormatResponse (VObj (NlpSecure.resultObject r)) = Ok r.
Proof.
  eexists. split; [reflexivity|]. split; [reflexivity|].
  exact (proj2 (proj2 (proj2
    (secure_validate_stable
       (VObj [("locations", VArr [VStr (str "Rome"); VStr (str " ")]);
              ("preferences", VNull)]%string) _ eq_refl)))).
Defined.

(** ** nlp-secure.js: the regex fallback *)

(** X9: whatever the query, the locations of the regex fallback of
    nlp-secure.js are not empty and have no white space around them, and
    its result is one that [validateAndFormatResponse] leaves as it is. *)
Theorem secure_regex_valid query :
  let r := NlpSecure.resultOfRegex (NlpSecure.extractLocationsWithRegex query) in
  Forall (fun loc => loc <> [] /\ trim loc = loc) (NlpSecure.r_locations r) /\
  NlpSecure.validateAndFormatResponse (VObj (NlpSecure.resultObject r)) = Ok r.
Proof.
  cbv zeta.
  assert (Hfilter : forall l : list jstring,
    Forall (fun x => trim x = x) l ->
    Forall (fun loc => loc <> [] /\ trim loc = loc)
           (filter (fun loc : jstring => 0 <? length loc) l)).
  { intros l Hl. apply Forall_forall. intros x Hx. apply filter_In in Hx.
    destruct Hx as [Hin Hlen]. rewrite Forall_forall in Hl.
    split; [now destruct x | now apply Hl]. }
  assert (Hmap : forall l : list jstring, Forall (fun x => trim x = x) (map trim l)).
  { intros l. apply Forall_forall. intros x Hx. apply in_map_iff in Hx.
    destruct Hx as [y [<- _]]. apply trim_idem. }
  assert (Hlocs : Forall (fun loc => loc <> [] /\ trim loc = loc)
                    (NlpSecure.locations (NlpSecure.extractLocationsWithRegex query))).
  { unfold NlpSecure.extractLocationsWithRegex. cbv zeta.
    cbn [NlpSecure.locations]. apply Hfilter.
    set (cleanQuery := trim (replace cs NlpSecure.trailing_marks erase (trim query))).
    destruct (1 <? length (split ci NlpSecure.ws_to_ws cleanQuery)).
    - assert (H := Hmap (split ci NlpSecure.ws_to_ws cleanQuery)).
      destruct (map trim (split ci NlpSecure.ws_to_ws cleanQuery)) as [|first rest];
        [constructor|].
      inversion H as [|? ? H1 H2]. subst.
      destruct (startsWith (toLowerCase cleanQuery) (str "from "));
        constructor; try assumption. apply trim_idem.
    - destruct (startsWith (toLowerCase cleanQuery) (str "from "));
        repeat constructor; apply trim_idem. }
  split; [exact Hlocs|].
  unfold NlpSecure.resultOfRegex, NlpSecure.resultObject,
         NlpSecure.validateAndFormatResponse, NlpSecure.preferencesValue.
  cbn [to_bool negb prop get_field set_field String.eqb Ascii.eqb Bool.eqb bind
       NlpSecure.r_locations NlpSecure.r_preferences NlpSecure.is_true].
  assert (Hagain : forall locs : list jstring,
    Forall (fun loc => loc <> [] /\ trim loc = loc) locs ->
    flat_map NlpSecure.keepLocation (map VStr locs) = locs).
  { induction 1 as [|s locs [Hs Ht] _ IH]; [reflexivity|].
    cbn [map flat_map NlpSecure.keepLocation]. rewrite IH, Ht.
    destruct s; [easy | reflexivity]. }
  rewrite (Hagain _ Hlocs).
  assert (Hmode : truthy (NlpSecure.transportMode
            (NlpSecure.preferences (NlpSecure.extractLocationsWithRegex query)))
          = true).
  { unfold NlpSecure.extractLocationsWithRegex. cbv zeta.
    cbn [NlpSecure.preferences NlpSecure.transportMode].
    destruct (includes _ (str "walking")); [reflexivity|].
    destruct (_ || _); reflexivity. }
  rewrite Hmode.
  destruct (NlpSecure.avoidTolls _), (NlpSecure.avoidHighways _),
           (NlpSecure.avoidFerries _); reflexivity.
Qed.

(** ** processNaturalLanguageInput: the locations of a model answer *)





(** ** processNaturalLanguageInput: "from X to Y" *)

(** X11: for a text "from X to Y..." (from, From or FROM) with a single
    word "to", where X is a non-empty, trimmed, single-spaced name and Y is
    what follows "to " up to the first white space, full stop or comma (or
    the end of the text), [processNaturalLanguageInput] returns, without
    consulting the language model, the route request with the two
    locations X and Y: the second name is cut at the first white space,
    full stop or comma. *)
Theorem from_x_to_first_word gemini JSON_parse F X Y q :
  from_word F -> stop_name X = true -> first_word Y q = true ->
  no_to (Y ++ q) ->
  let inputText := F ++ str " " ++ X ++ str " to " ++ Y ++ q in
  let mode := Enhanced.shortcutMode inputText in
  Enhanced.processNaturalLanguageInput gemini JSON_parse inputText =
  Ok (Enhanced.Built
        {| Enhanced.isRouteRequest := true;
           Enhanced.locations := [Enhanced.plain X; Enhanced.plain Y];
           Enhanced.travelMode := mode;
           Enhanced.preferences := [];
           Enhanced.message := str "Creating a " ++ mode ++ str " route from " ++
                               X ++ str " to " ++ Y;
           Enhanced.suggestedSequence := [X; Y] |}).
Proof.
  intros HF HX HY HT inputText mode.
  unfold Enhanced.processNaturalLanguageInput.
  unfold inputText at 1.
  rewrite (TwoStopFacts.no_multiWaypoint F X Y q HF HX HT). cbn [bind].
  unfold inputText at 1.
  rewrite (TwoStopFacts.simple_route F X Y q HF HX HY).
  unfold Enhanced.twoStops. fold inputText. fold mode.
  rewrite <- !app_assoc. reflexivity. exact HT.
Qed.

(** On "from Boston to New York": the second location is New. *)
Lemma from_x_to_first_word_witness :
  exists r,
    Enhanced.processNaturalLanguageInput down unparsable
      (str "from Boston to New York") = Ok (Enhanced.Built r) /\
    Enhanced.suggestedSequence r = [str "Boston"; str "New"].
Proof.
  eexists. split.
  - exact (from_x_to_first_word down unparsable (str "from") (str "Boston")
             (str "New") (str " York") ltac:(left; reflexivity)
             eq_refl eq_refl eq_refl).
  - reflexivity.
Defined.

(** ** processNaturalLanguageInput: the JSON text of a model answer *)

(** X12: from an answer of the language model, [processNaturalLanguageInput]
    parses the text that goes from the first opening brace to the first
    closing brace after it (so an answer with a nested object is cut at the
    end of the innermost first object); when that text parses and has a
    locations array, the parsed object is the result of the language-model
    stage. *)
Theorem model_answer_span JSON_parse inputText before body after :
  without "{"%char before -> without "}"%char body ->
  let span := str "{" ++ body ++ str "}" in
  exec cs Enhanced.json_span (before ++ span ++ after)
  = Some (RM (rev before) span after []) /\
  forall o, Enhanced.parseResult JSON_parse span = Ok o ->
            Enhanced.languageModel (answers (before ++ span ++ after)) JSON_parse
                                   inputText = Ok o.
Proof.
  intros Hpre Hbody span.
  assert (E : exec cs Enhanced.json_span (before ++ span ++ after)
              = Some (RM (rev before) span after [])).
  { unfold span. rewrite <- !app_assoc.
    exact (json_span_exec before body after Hpre Hbody). }
  split; [exact E|]. intros o Ho.
  unfold Enhanced.languageModel, answers.
  cbn [bind ok negb json prop get_field String.eqb Ascii.eqb Bool.eqb to_bool
       idx nth length Z.of_nat orb Z.eqb Pos.of_succ_nat].
  rewrite E. cbn [m_0]. now rewrite Ho.
Qed.

(** On an answer with a nested object: the text parsed ends at the first
    closing brace. *)
Lemma model_answer_span_witness :
  exists m,
    exec cs Enhanced.json_span (str "{ a: { b: 1 } }") = Some m /\
    m_0 m = str "{ a: { b: 1 }".
Proof.
  eexists. split.
  - exact (proj1 (model_answer_span unparsable [] [] (str " a: { b: 1 ") (str " }")
                    (Forall_nil _)
                    ltac:(repeat constructor; discriminate))).
  - reflexivity.
Defined.

(** ** nlp.js and nlp-secure.js: the fenced block of a model answer *)

(** X13: when the text of the first part of the answer holds a block
    between two fences of three backticks (the first without a backtick
    before it, followed by the tag json or by none, white space allowed
    around the body), the body being trimmed, not empty and without a
    backtick, [fetchGeminiResponse] hands exactly the body to [JSON.parse]
    and returns what it parses to; if it does not parse, the error of the
    module is thrown. *)
Theorem fenced_answer_parsed JSON_parse query before J ws1 body ws2 after :
  without backtick before ->
  Forall (fun c => is_space c = true) ws1 ->
  Forall (fun c => is_space c = true) ws2 ->
  body <> [] -> trim body = body -> without backtick body ->
  fence_tag J (ws1 ++ body) ->
  let text := before ++ str "```" ++ J ++ ws1 ++ body ++ ws2 ++ str "```" ++ after in
  Nlp.fetchGeminiResponse (answers text) JSON_parse query
  = try_catch (JSON_parse body)
              (fun _ => Throw (Error "Invalid response format from Gemini API")) /\
  NlpSecure.fetchGeminiResponse (answers text) JSON_parse query
  = try_catch (JSON_parse body)
              (fun _ => Throw (Error "Could not parse Gemini response as JSON")).
Proof.
  intros Hbefore Hws1 Hws2 Hne Htrim Hbody Htag text.
  destruct (fenced_match before J ws1 body ws2 after Hbefore Hws1 Hws2 Hne Htrim
              Hbody Htag) as [m [Hm Hg]].
  fold text in Hm.
  assert (Ht : truthy body = true) by (now destruct body).
  split.
  - unfold Nlp.fetchGeminiResponse, answers, Nlp.partsOf.
    cbn [bind ok negb json prop get_field String.eqb Ascii.eqb Bool.eqb to_bool
         idx nth is_some andb].
    unfold Nlp.jsonMatch. rewrite Hm, Hg, Ht, Htrim. reflexivity.
  - unfold NlpSecure.fetchGeminiResponse, answers, Nlp.partsOf.
    cbn [bind ok negb json prop get_field String.eqb Ascii.eqb Bool.eqb to_bool
         idx nth is_some andb].
    unfold NlpSecure.group1 at 1. rewrite Hm, Hg, Ht, Htrim. reflexivity.
Qed.

(** On an answer with a json block around {}. *)
Lemma fenced_answer_parsed_witness :
  Nlp.fetchGeminiResponse
    (answers (str "Here it is: ```json {} ``` I hope it helps."))
    (parses (str "{}") (VObj [])) [] = Ok (VObj []).
Proof.
  exact (proj1 (fenced_answer_parsed (parses (str "{}") (VObj [])) []
                  (str "Here it is: ") (str "json") (str " ") (str "{}") (str " ")
                  (str " I hope it helps.")
                  ltac:(repeat constructor; discriminate)
                  ltac:(repeat constructor) ltac:(repeat constructor)
                  ltac:(discriminate) eq_refl
                  ltac:(repeat constructor; discriminate)
                  ltac:(left; reflexivity))).
Defined.

(** ** nlp.js: the order of the stages of processNaturalLanguage *)

(** X14: [processNaturalLanguage] of nlp.js always asks the language model
    first: the regex result is an object, whose [length] is undefined, so
    the shortcut on two regex locations is never taken.  Its result is the
    validated answer of the function-calling request when there is one,
    else the validated answer of the prompt request when there is one, and
    only when both fail the result of the regex. *)
Theorem nlp_model_first gemini_call gemini_prompt JSON_parse query :
  exists regexResult,
    Nlp.extractLocationsWithRegex query = Ok regexResult /\
    Nlp.processNaturalLanguage gemini_call gemini_prompt JSON_parse query =
    match (response <- Nlp.fetchGeminiWithFunctionCalling gemini_call JSON_parse query ;;
           Nlp.validateAndFormatResponse response) with
    | Ok r => Ok r
    | Throw _ =>
        match (response <- Nlp.fetchGeminiResponse gemini_prompt JSON_parse query ;;
               Nlp.validateAndFormatResponse response) with
        | Ok r => Ok r
        | Throw _ => Ok (Nlp.resultOfRegex regexResult)
        end
    end.
Proof.
  destruct (RegexOnWords.Nlp_never_throws query) as [rr Hrr].
  exists rr. split; [exact Hrr|].
  unfold Nlp.processNaturalLanguage. rewrite Hrr.
  cbn [bind Nlp.lengthOf Nlp.atLeastTwo].
  destruct (response <- Nlp.fetchGeminiWithFunctionCalling gemini_call JSON_parse query ;;
            Nlp.validateAndFormatResponse response) as [r|e]; [reflexivity|].
  cbn [try_catch Nlp.fallbackOf to_bool bind].
  destruct (response <- Nlp.fetchGeminiResponse gemini_prompt JSON_parse query ;;
            Nlp.validateAndFormatResponse response) as [r|e2]; reflexivity.
Qed.

(** ** extractLocationsBasic: the known places *)

Lemma tokenLoop_keeps routeTokens : forall locations l,
  Enhanced.tokenLoop routeTokens locations = Ok l ->
  forall x, In x locations -> In x l.
Proof.
  induction routeTokens as [|tok rest IH]; intros locations l H x Hx.
  - cbn [Enhanced.tokenLoop] in H. now injection H as <-.
  - cbn [Enhanced.tokenLoop] in H.
    destruct (Enhanced.is_route_token tok); [|now apply (IH locations l H)].
    destruct rest as [|[next|] rest']; [now injection H as <- | | discriminate].
    destruct (truthy (trim next) && (1 <? length (trim next)) &&
              negb (test cs Enhanced.only_token (trim next)));
      [|now apply (IH locations l H)].
    destruct (mem (Enhanced.titleCase (trim next)) locations);
      [now apply (IH locations l H)|].
    apply (IH _ l H). apply in_or_app. now left.
Qed.

(** X15: the last stage of [extractLocationsBasic] never throws, and it
    returns every known place one of whose search terms occurs in the
    lower-cased text, wherever the term occurs (a term inside a longer word
    counts). *)
Theorem known_places_found text name checks term :
  In (name, checks) Enhanced.basicCommonLocations -> In term checks ->
  includes (toLowerCase text) term = true ->
  exists locations,
    Enhanced.generalLocations text = Ok locations /\ In name locations.
Proof.
  intros Hin Hterm Hinc.
  destruct (EnhancedFacts.generalLocations_ok text) as [l Hl].
  exists l. split; [exact Hl|].
  unfold Enhanced.generalLocations in Hl. cbv zeta in Hl.
  set (f := fun (locs : list jstring) (loc : jstring * list jstring) =>
              if existsb (fun checkTerm => includes (toLowerCase text) checkTerm)
                         (snd loc) && negb (mem (fst loc) locs)
              then locs ++ [fst loc] else locs) in Hl.
  assert (Hmono : forall L locs x, In x locs -> In x (fold_left f L locs)).
  { induction L as [|e L IH]; intros locs x Hx; [exact Hx|].
    cbn [fold_left]. apply IH. unfold f.
    destruct (_ && _); [apply in_or_app; now left | exact Hx]. }
  assert (Hadd : forall L locs, In (name, checks) L -> In name (fold_left f L locs)).
  { induction L as [|e L IH]; intros locs HL; [easy|].
    cbn [fold_left]. destruct HL as [->|HL]; [|now apply IH].
    apply Hmono. unfold f. cbn [fst snd].
    assert (Hex : existsb (fun checkTerm => includes (toLowerCase text) checkTerm)
                          checks = true)
      by (apply existsb_exists; now exists term).
    rewrite Hex. cbn [andb].
    destruct (mem name locs) eqn:M; cbn [negb].
    - now apply mem_In.
    - apply in_or_app. right. now left. }
  set (found := fold_left f Enhanced.basicCommonLocations _) in Hl.
  assert (Hfound : In name found) by (now apply Hadd).
  destruct (_ || _) in Hl.
  - exact (tokenLoop_keeps _ _ _ Hl name Hfound).
  - now injection Hl as <-.
Qed.

(** On "Atlanta", in which the term "la" of Los Angeles occurs. *)
Lemma known_places_found_witness :
  exists locations,
    Enhanced.generalLocations (str "Atlanta") = Ok locations /\
    In (str "Los Angeles") locations.
Proof.
  apply (known_places_found (str "Atlanta") (str "Los Angeles")
           [str "los angeles"; str "la"] (str "la")).
  - right. left. reflexivity.
  - right. left. reflexivity.
  - vm_compute. reflexivity.
Defined.
